(** * POEditor sync pipeline: diff engine, rate-limited executor,
      batch orchestrator and execution coordinator

    Shallow embedding of [src/services/sync-manager.ts] (class [SyncManager])
    and of the helpers [withRateLimit] / [batchOperation] of
    [src/services/poeditor-client.ts] (class [POEditorClient], the revision
    with the retrying executor), followed by the properties stated about
    them.

    Conventions of the embedding.
    - JavaScript strings are [string]; a character is one 8-bit code unit.
    - JavaScript numbers that the code uses as integers (delays, batch
      sizes, counters, HTTP statuses) are [Z]; [NaN] and fractions are
      outside the model.
    - A [Map] and a plain object used as a dictionary are association lists
      in insertion order, with at most one entry per key (keys that an
      object enumerates out of insertion order, the integer-like keys, and
      a language named [__proto__] are outside the model).  Where the
      source reads a member of a plain object by a key taken from the
      data, the reading falls back on the members the object inherits
      from [Object.prototype] ([JS.prototype_members]).
    - [console.error] progress output is not modelled. *)

From Stdlib Require Import String Ascii List ZArith Lia Bool Arith.
From Stdlib Require Import Permutation DecimalString DecimalNat QArith.
Import ListNotations.

(* QArith opens its scope; numbers below are [nat] and [Z]. *)
Close Scope Q_scope.
Local Open Scope string_scope.
Local Open Scope list_scope.

(* ===================================================================== *)
(** ** JavaScript runtime helpers used by the source *)
(* ===================================================================== *)

Module JS.

(** Truthiness of a string: only the empty string is falsy. *)
Definition truthy (s : string) : bool := negb (s =? "").

(** Truthiness of [string | undefined]. *)
Definition truthy_opt (o : option string) : bool :=
  match o with Some s => truthy s | None => false end.

Definition dquote : string := String (ascii_of_nat 34) EmptyString.
Definition newline : string := String (ascii_of_nat 10) EmptyString.

(** [Array.prototype.join]. *)
Definition join (sep : string) (l : list string) : string :=
  String.concat sep l.

(** [arr.includes(x)] on strings. *)
Definition includes (l : list string) (x : string) : bool :=
  existsb (String.eqb x) l.

(** [[...new Set(arr)]]: first occurrences, in insertion order. *)
Definition set_add (acc : list string) (x : string) : list string :=
  if includes acc x then acc else acc ++ [x].

Definition Set_of (l : list string) : list string :=
  fold_left set_add l [].

(** [n.toString()] for the integers the templates print. *)
Definition string_of_nat (n : nat) : string :=
  NilZero.string_of_uint (Nat.to_uint n).

Definition string_of_Z (z : Z) : string :=
  NilZero.string_of_int (Z.to_int z).

(** [String.prototype.toLowerCase] on the ASCII range (the only range in
    which a character can lower-case to a letter of the directory names
    tested by [extractTags]). *)
Definition lower_ascii (c : ascii) : ascii :=
  let n := nat_of_ascii c in
  if (65 <=? n)%nat && (n <=? 90)%nat then ascii_of_nat (n + 32) else c.

Fixpoint toLowerCase (s : string) : string :=
  match s with
  | EmptyString => EmptyString
  | String c s' => String (lower_ascii c) (toLowerCase s')
  end.

(** [s.split(c)] for a one-character separator. *)
Fixpoint split (c : ascii) (s : string) : list string :=
  match s with
  | EmptyString => [EmptyString]
  | String x s' =>
      if Ascii.eqb x c then EmptyString :: split c s'
      else match split c s' with
           | h :: t => String x h :: t
           | [] => [String x EmptyString]
           end
  end.

(** [arr.slice(start, end)] with the relative-index rules of the
    language: a negative index counts from the end, and both ends are
    clamped to the array. *)
Definition clamp_index (len i : Z) : Z :=
  if (i <? 0)%Z then Z.max (len + i) 0 else Z.min i len.

Definition slice {A} (l : list A) (start stop : Z) : list A :=
  let len := Z.of_nat (length l) in
  let k := clamp_index len start in
  let final := clamp_index len stop in
  firstn (Z.to_nat (final - k)) (skipn (Z.to_nat k) l).

(** [arr.sort()] with the default comparator: ascending code-unit order.
    The result of sorting by a total order does not depend on the
    algorithm; insertion sort is used here. *)
Fixpoint insert (x : string) (l : list string) : list string :=
  match l with
  | [] => [x]
  | y :: l' => if String.leb x y then x :: l else y :: insert x l'
  end.

Fixpoint sort (l : list string) : list string :=
  match l with
  | [] => []
  | x :: l' => insert x (sort l')
  end.

(** [JSON.stringify] on an array of strings. *)
Definition hex_digit (n : nat) : ascii :=
  if (n <? 10)%nat then ascii_of_nat (48 + n) else ascii_of_nat (87 + n).

Definition json_escape_char (c : ascii) : string :=
  let n := nat_of_ascii c in
  let bs := String (ascii_of_nat 92) EmptyString in
  if (n =? 34)%nat then bs ++ dquote
  else if (n =? 92)%nat then bs ++ bs
  else if (n =? 8)%nat then bs ++ "b"
  else if (n =? 9)%nat then bs ++ "t"
  else if (n =? 10)%nat then bs ++ "n"
  else if (n =? 12)%nat then bs ++ "f"
  else if (n =? 13)%nat then bs ++ "r"
  else if (n <? 32)%nat then
    bs ++ "u00" ++ String (hex_digit (n / 16))
                     (String (hex_digit (n mod 16)) EmptyString)
  else String c EmptyString.

Fixpoint json_escape (s : string) : string :=
  match s with
  | EmptyString => EmptyString
  | String c s' => json_escape_char c ++ json_escape s'
  end.

Definition json_quote (s : string) : string :=
  dquote ++ json_escape s ++ dquote.

Definition JSON_stringify (l : list string) : string :=
  "[" ++ join "," (map json_quote l) ++ "]".

(** *** [Map<string, V>] and dictionary objects *)

Section Dict.
Context {V : Type}.

Definition dict := list (string * V).

Fixpoint get (k : string) (m : dict) : option V :=
  match m with
  | [] => None
  | (k', v) :: m' => if String.eqb k k' then Some v else get k m'
  end.

Definition has (k : string) (m : dict) : bool :=
  match get k m with Some _ => true | None => false end.

(** [m.set(k, v)] / [obj[k] = v]: an existing key keeps its position. *)
Fixpoint set (k : string) (v : V) (m : dict) : dict :=
  match m with
  | [] => [(k, v)]
  | (k', v') :: m' =>
      if String.eqb k k' then (k', v) :: m' else (k', v') :: set k v m'
  end.

(** [new Map(entries)]. *)
Definition Map_of (entries : list (string * V)) : dict :=
  fold_left (fun m e => set (fst e) (snd e) m) entries [].

Definition keys (m : dict) : list string := map fst m.
Definition values (m : dict) : list V := map snd m.
End Dict.

Arguments dict : clear implicits.

(** [obj[k].push(x)] on a dictionary of arrays.  On a key that is absent
    the source would raise a [TypeError]; the diff engine only pushes on
    keys it has initialised (lemmas [push_bucket_present] and
    [included_buckets_exist] below), so the absent case leaves the
    dictionary as it is. *)
Fixpoint push (k : string) (x : string) (m : dict (list string))
  : dict (list string) :=
  match m with
  | [] => []
  | (k', v) :: m' =>
      if String.eqb k k' then (k', v ++ [x]) :: m' else (k', v) :: push k x m'
  end.

(** The members a plain object inherits from [Object.prototype].  Read
    from a plain object each of them is truthy: eleven are functions, and
    [__proto__] gives the prototype itself. *)
Definition prototype_members : list string :=
  ["constructor"; "__defineGetter__"; "__defineSetter__"; "hasOwnProperty";
   "__lookupGetter__"; "__lookupSetter__"; "isPrototypeOf";
   "propertyIsEnumerable"; "toString"; "valueOf"; "__proto__"; "toLocaleString"].

(** [obj[key] = v] for a string [v], on a plain object: the member is
    created or replaced, except that the setter of [__proto__] ignores a
    value that is not an object. *)
Definition assign_string (key v : string) (obj : dict string) : dict string :=
  if String.eqb key "__proto__" then obj else set key v obj.

(** [obj[key]] as a condition, on a plain object whose own members are
    strings: an own member decides by its value; a key that is not an own
    member is looked up in [Object.prototype]. *)
Definition member_truthy (obj : dict string) (key : string) : bool :=
  match get key obj with
  | Some v => truthy v
  | None => includes prototype_members key
  end.

End JS.

(* ===================================================================== *)
(** ** Data model ([src/types/index.ts], [poeditor-client.ts]) *)
(* ===================================================================== *)

Inductive I18nFramework := vue3 | nuxt3 | react_native | i18next.

Definition framework_string (f : I18nFramework) : string :=
  match f with
  | vue3 => "vue3"
  | nuxt3 => "nuxt3"
  | react_native => "react-native"
  | i18next => "i18next"
  end.

Module KeyUsage.
Record t := mk
  { path : string; line : Z; column : Z; context : string }.
End KeyUsage.

Module DetectedKey.
Record t := mk
  { key : string;
    phrase : string;
    files : list KeyUsage.t;
    framework : I18nFramework;
    usage : string;
    dynamic : bool;
    examples : list string;
    context : option string }.
End DetectedKey.

(** [POEditorTerm]; [Partial<POEditorTerm>] makes [term] optional too. *)
Module POEditorTerm.
Record t := mk
  { term : string;
    context : option string;
    reference : option string;
    plural : option string;
    tags : option (list string);
    comment : option string }.
End POEditorTerm.

Module PartialTerm.
Record t := mk
  { term : option string;
    context : option string;
    reference : option string;
    plural : option string;
    tags : option (list string);
    comment : option string }.

Definition empty : t := mk None None None None None None.

Definition present {A} (o : option A) : nat :=
  match o with Some _ => 1 | None => 0 end.

(** [Object.keys(updates).length]. *)
Definition keys_length (u : t) : nat :=
  present (term u) + present (context u) + present (reference u)
  + present (plural u) + present (tags u) + present (comment u).
End PartialTerm.

Module POEditorTermResponse.
Record t := mk
  { term : string;
    context : string;
    reference : string;
    plural : string;
    tags : list string;
    comment : string;
    created : string;
    updated : string }.
End POEditorTermResponse.

(** [confidence] is a fraction between 0 and 1. *)
Module KeyRenameSuggestion.
Record t := mk
  { from : string;
    to : string;
    confidence : Q;
    reason : string;
    conflicts : list string }.
End KeyRenameSuggestion.

Module SyncPlan.
Record update := mkUpdate { term : string; updates : PartialTerm.t }.

Record stats_t := mkStats
  { adds : Z; updates_count : Z; deletes : Z; missing : Z }.

Record t := mk
  { addTerms : list POEditorTerm.t;
    updateTerms : list update;
    deleteTerms : list string;
    missingTranslations : JS.dict (list string);
    obsoleteTranslations : JS.dict (list string);
    renameHints : list KeyRenameSuggestion.t;
    stats : stats_t }.
End SyncPlan.

(* ===================================================================== *)
(** ** Effects: remote calls, timers, randomness, exceptions *)
(* ===================================================================== *)

(** Values the code throws and catches.  [withRateLimit] inspects [name],
    [status], [retryAfterMs] and [message], and uses [String(err)] for a
    thrown value that is not an [Error]. *)
Inductive JsError :=
| ApiError (message : string) (status : option Z) (retryAfterMs : option Z)
| PlainError (message : string)
| NonError (text : string).

(** [err instanceof Error ? err.message : String(err)]. *)
Definition error_text (e : JsError) : string :=
  match e with
  | ApiError m _ _ => m
  | PlainError m => m
  | NonError t => t
  end.

(** Invocations of the client's term endpoints, with their arguments. *)
Inductive RemoteCall :=
| CallAddTerms (projectId : string) (terms : list POEditorTerm.t)
| CallUpdateTerms (projectId : string) (terms : list SyncPlan.update)
| CallDeleteTerms (projectId : string) (terms : list string).

Definition call_projectId (c : RemoteCall) : string :=
  match c with
  | CallAddTerms p _ => p
  | CallUpdateTerms p _ => p
  | CallDeleteTerms p _ => p
  end.

Inductive Event :=
| EvCall (c : RemoteCall)
| EvWait (ms : Z).

(** Counters the remote service reports for one request. *)
Record Counts := mkCounts { parsed : Z; affected : Z }.

(** Everything outside the program: what the service answers to the n-th
    request, the n-th value of [Math.random()] (numerator of the double
    over [random_den]) and the n-th identifier produced by [uuidv4()]. *)
Record Env := mkEnv
  { server : nat -> RemoteCall -> JsError + Counts;
    random : nat -> Z;
    uuid : nat -> string }.

Definition random_den : Z := 2 ^ 1074.

Record World := mkWorld
  { trace : list Event;
    requests : nat;
    randoms : nat;
    uuids : nat }.

Definition initial_world : World := mkWorld [] 0 0 0.

(** Outcome of a computation: a value, a thrown error, or no outcome
    within the fuel given to its loops. *)
Inductive Res (A : Type) :=
| Ok (a : A)
| Throw (e : JsError)
| Diverge.

Arguments Ok {A} a.
Arguments Throw {A} e.
Arguments Diverge {A}.

Definition M (S A : Type) : Type := S -> Res A * S.

Definition ret {S A} (a : A) : M S A := fun s => (Ok a, s).

Definition bind {S A B} (m : M S A) (k : A -> M S B) : M S B :=
  fun s =>
    match m s with
    | (Ok a, s1) => k a s1
    | (Throw e, s1) => (Throw e, s1)
    | (Diverge, s1) => (Diverge, s1)
    end.

Definition throw {S A} (e : JsError) : M S A := fun s => (Throw e, s).

(** [try { body } catch (error) { handler(error) }]: the state reached
    when the exception was raised is the one the handler starts from. *)
Definition try_catch {S A} (body : M S A) (handler : JsError -> M S A) : M S A :=
  fun s =>
    match body s with
    | (Throw e, s1) => handler e s1
    | r => r
    end.

Definition modify {S} (f : S -> S) : M S unit := fun s => (Ok tt, f s).

Definition gets {S A} (f : S -> A) : M S A := fun s => (Ok (f s), s).

(** Run a computation on the second component of a pair of states. *)
Definition lift {S1 S2 A} (m : M S2 A) : M (S1 * S2) A :=
  fun s =>
    match m (snd s) with
    | (r, s2) => (r, (fst s, s2))
    end.

Declare Scope js_scope.
Delimit Scope js_scope with js.
Notation "x <- m ;; k" := (bind m (fun x => k))
  (at level 61, m at next level, right associativity) : js_scope.
Notation "m ;;; k" := (bind m (fun _ => k))
  (at level 61, right associativity) : js_scope.

Section Effects.
Variable env : Env.

(** [await new Promise(r => setTimeout(r, ms))]. *)
Definition sleep (ms : Z) : M World unit :=
  modify (fun w => mkWorld (trace w ++ [EvWait ms]) (requests w) (randoms w) (uuids w)).

(** [Math.floor(Math.random() * n)]. *)
Definition random_below (n : Z) : M World Z :=
  fun w =>
    (Ok ((random env (randoms w) * n) / random_den)%Z,
     mkWorld (trace w) (requests w) (S (randoms w)) (uuids w)).

Definition uuidv4 : M World string :=
  fun w =>
    (Ok (uuid env (uuids w)),
     mkWorld (trace w) (requests w) (randoms w) (S (uuids w))).

(** One invocation of a term endpoint of the client: the call is recorded
    and the service (through [makeRequest]) answers or fails. *)
Definition request (c : RemoteCall) : M World Counts :=
  fun w =>
    let w1 := mkWorld (trace w ++ [EvCall c]) (S (requests w)) (randoms w) (uuids w) in
    match server env (requests w) c with
    | inl e => (Throw e, w1)
    | inr r => (Ok r, w1)
    end.

End Effects.

(* ===================================================================== *)
(** ** Client helpers ([POEditorClient]) *)
(* ===================================================================== *)

Module POEditorClient.

Record AddResult := mkAdd { add_parsed : Z; added : Z }.
Record UpdateResult := mkUpdated { update_parsed : Z; updated : Z }.
Record DeleteResult := mkDeleted { delete_parsed : Z; deleted : Z }.

Section Client.
Variable env : Env.
Local Open Scope js_scope.

Definition addTerms (projectId : string) (terms : list POEditorTerm.t)
  : M World AddResult :=
  r <- request env (CallAddTerms projectId terms) ;;
  ret (mkAdd (parsed r) (affected r)).

Definition updateTerms (projectId : string) (terms : list SyncPlan.update)
  : M World UpdateResult :=
  r <- request env (CallUpdateTerms projectId terms) ;;
  ret (mkUpdated (parsed r) (affected r)).

Definition deleteTerms (projectId : string) (terms : list string)
  : M World DeleteResult :=
  r <- request env (CallDeleteTerms projectId terms) ;;
  ret (mkDeleted (parsed r) (affected r)).

Definition maxRetries : Z := 5.

Definition isApiErr (err : JsError) : bool :=
  match err with ApiError _ _ _ => true | _ => false end.

Definition err_status (err : JsError) : option Z :=
  match err with ApiError _ s _ => s | _ => None end.

Definition err_retryAfterMs (err : JsError) : option Z :=
  match err with ApiError _ _ r => r | _ => None end.

Definition status_is (status : option Z) (code : Z) : bool :=
  match status with Some s => (s =? code)%Z | None => false end.

(** The test that decides a retry. *)
Definition retryable (err : JsError) (attempt : Z) : bool :=
  (status_is (err_status err) 429 || status_is (err_status err) 503)
  && (attempt <? maxRetries)%Z.

(** [Math.max(minDelay, retryAfterMs ?? Math.min(60000, delay * 2^attempt))
    + jitter], with [delay] initialised to [minDelay] and never changed. *)
Definition waitMs (minDelay : Z) (retryAfterMs : option Z) (attempt jitter : Z) : Z :=
  (Z.max minDelay
         (match retryAfterMs with
          | Some r => r
          | None => Z.min 60000 (minDelay * 2 ^ attempt)
          end) + jitter)%Z.

(** "Surface better error message". *)
Definition surfaced_message (err : JsError) : string :=
  match err with
  | ApiError m status _ =>
      ("POEditor API error" ++
       (match status with
        | Some s => if (s =? 0)%Z then "" else " (status " ++ JS.string_of_Z s ++ ")"
        | None => ""
        end) ++ ": " ++ m)%string
  | _ => error_text err
  end.

(** The [while (true)] loop of [withRateLimit]; [fuel] bounds the number
    of iterations. *)
Fixpoint withRateLimit_loop {T} (fuel : nat) (operation : M World T)
    (minDelay : Z) (attempt : Z) : M World T :=
  match fuel with
  | O => fun w => (Diverge, w)
  | S fuel' =>
      try_catch
        (result <- operation ;;
         (* Respect minimum inter-request delay *)
         sleep minDelay ;;;
         ret result)
        (fun err =>
           if retryable err attempt then
             jitter <- random_below env 5000 ;;
             sleep (waitMs minDelay (err_retryAfterMs err) attempt jitter) ;;;
             withRateLimit_loop fuel' operation minDelay (attempt + 1)%Z
           else
             throw (PlainError (surfaced_message err)))
  end.

(** The loop runs at most [maxRetries + 1] times (lemma
    [withRateLimit_loop_fuel]); that much fuel is supplied. *)
Definition withRateLimit {T} (operation : M World T) (minDelay : Z) : M World T :=
  withRateLimit_loop 6 operation minDelay 0%Z.

(** The [for (let i = 0; i < items.length; i += batchSize)] loop. *)
Fixpoint batchOperation_loop {T R} (fuel : nat) (items : list T)
    (operation : list T -> M World R) (batchSize rateLimitDelay : Z)
    (i : Z) (results : list R) : M World (list R) :=
  match fuel with
  | O => fun w => (Diverge, w)
  | S fuel' =>
      if (i <? Z.of_nat (length items))%Z then
        let batch := JS.slice items i (i + batchSize)%Z in
        result <- withRateLimit (operation batch) rateLimitDelay ;;
        batchOperation_loop fuel' items operation batchSize rateLimitDelay
          (i + batchSize)%Z (results ++ [result])
      else ret results
  end.

Definition batchOperation {T R} (fuel : nat) (items : list T)
    (operation : list T -> M World R) (batchSize rateLimitDelay : Z)
  : M World (list R) :=
  batchOperation_loop fuel items operation batchSize rateLimitDelay 0%Z [].

End Client.
End POEditorClient.

(* ===================================================================== *)
(** ** Diff engine and execution coordinator ([SyncManager]) *)
(* ===================================================================== *)

Module SyncManager.

Definition extractContext (key : DetectedKey.t) : option string :=
  let contexts :=
    firstn 2 (filter JS.truthy (map KeyUsage.context (DetectedKey.files key))) in
  if (0 <? length contexts)%nat
  then Some (JS.join (JS.newline ++ "---" ++ JS.newline)%string contexts)
  else None.

Definition extractReference (key : DetectedKey.t) : string :=
  let uniquePaths := JS.Set_of (map KeyUsage.path (DetectedKey.files key)) in
  JS.join ", " (firstn 3 uniquePaths).

Definition feature_dirs : list string :=
  ["components"; "pages"; "views"; "layouts"; "features"].

Definition pathTag (f : KeyUsage.t) : option string :=
  let parts := JS.split "/"%char (KeyUsage.path f) in
  let relevantParts :=
    filter (fun part => JS.includes feature_dirs (JS.toLowerCase part)) parts in
  match relevantParts with
  | p :: _ => Some p
  | [] => None
  end.

(** [.filter(Boolean)] on [(string | null)[]]. *)
Fixpoint filter_truthy (l : list (option string)) : list string :=
  match l with
  | [] => []
  | Some s :: l' => if JS.truthy s then s :: filter_truthy l' else filter_truthy l'
  | None :: l' => filter_truthy l'
  end.

Definition extractTags (key : DetectedKey.t) : option (list string) :=
  let tags := [framework_string (DetectedKey.framework key)] in
  let tags := if DetectedKey.dynamic key then tags ++ ["dynamic"] else tags in
  let tags :=
    if JS.truthy (DetectedKey.usage key)
    then tags ++ [("usage:" ++ DetectedKey.usage key)%string] else tags in
  let pathTags := firstn 2 (filter_truthy (map pathTag (DetectedKey.files key))) in
  let tags := tags ++ pathTags in
  if (0 <? length tags)%nat then Some (JS.Set_of tags) else None.

Definition generateComment (key : DetectedKey.t) : option string :=
  let comments := [] in
  let comments :=
    if JS.truthy (DetectedKey.phrase key)
       && negb (DetectedKey.phrase key =? DetectedKey.key key)
    then comments ++ [("Phrase: " ++ JS.dquote ++ DetectedKey.phrase key ++ JS.dquote)%string]
    else comments in
  let comments :=
    if (1 <? length (DetectedKey.files key))%nat
    then comments ++
         [("Used in " ++ JS.string_of_nat (length (DetectedKey.files key))
           ++ " files")%string]
    else comments in
  let comments :=
    if (0 <? length (DetectedKey.examples key))%nat
    then comments ++
         [("Examples: " ++ JS.join ", " (firstn 2 (DetectedKey.examples key)))%string]
    else comments in
  if (0 <? length comments)%nat then Some (JS.join "; " comments) else None.

(** The test on tags: [JSON.stringify(newTags.sort()) !==
    JSON.stringify(remoteKey.tags?.sort())].  [tags] is a required field
    of [POEditorTermResponse], so the optional chaining always takes the
    array. *)
Definition tags_differ (newTags remoteTags : list string) : bool :=
  negb (JS.JSON_stringify (JS.sort newTags) =? JS.JSON_stringify (JS.sort remoteTags)).

Definition calculateTermUpdates
    (localKey : DetectedKey.t) (remoteKey : POEditorTermResponse.t)
  : PartialTerm.t :=
  let updates := PartialTerm.empty in
  (* Update context if changed *)
  let newContext := extractContext localKey in
  let updates :=
    match newContext with
    | Some c =>
        if JS.truthy c && negb (c =? POEditorTermResponse.context remoteKey)
        then PartialTerm.mk (PartialTerm.term updates) (Some c)
               (PartialTerm.reference updates) (PartialTerm.plural updates)
               (PartialTerm.tags updates) (PartialTerm.comment updates)
        else updates
    | None => updates
    end in
  (* Update reference if changed *)
  let newReference := extractReference localKey in
  let updates :=
    if JS.truthy newReference
       && negb (newReference =? POEditorTermResponse.reference remoteKey)
    then PartialTerm.mk (PartialTerm.term updates) (PartialTerm.context updates)
           (Some newReference) (PartialTerm.plural updates)
           (PartialTerm.tags updates) (PartialTerm.comment updates)
    else updates in
  (* Update tags if changed; [sort] works in place, so the array stored
     in the record is the sorted one. *)
  let newTags := extractTags localKey in
  let updates :=
    match newTags with
    | Some t =>
        if tags_differ t (POEditorTermResponse.tags remoteKey)
        then PartialTerm.mk (PartialTerm.term updates) (PartialTerm.context updates)
               (PartialTerm.reference updates) (PartialTerm.plural updates)
               (Some (JS.sort t)) (PartialTerm.comment updates)
        else updates
    | None => updates
    end in
  (* Update comment if changed *)
  let newComment := generateComment localKey in
  let updates :=
    match newComment with
    | Some c =>
        if JS.truthy c && negb (c =? POEditorTermResponse.comment remoteKey)
        then PartialTerm.mk (PartialTerm.term updates) (PartialTerm.context updates)
               (PartialTerm.reference updates) (PartialTerm.plural updates)
               (PartialTerm.tags updates) (Some c)
        else updates
    | None => updates
    end in
  updates.

Record Options := mkOptions
  { deleteExtraneous : bool; includeLangs : list string }.

Definition RemoteTranslations := JS.dict (JS.dict string).

(** [remoteTranslations[lang]?.[key]] as a condition.  The dictionary of
    the language is a plain object, so a key it does not hold is read from
    [Object.prototype].  [createSyncPlan] assigns a dictionary to every
    included language before the lookup; for a language without one the
    optional chaining gives [undefined], unless the language is itself
    named like a member of [Object.prototype], in which case the source
    reads a member of that built-in: the statements about the lookup
    exclude that case by hypothesis. *)
Definition translated (rt : RemoteTranslations) (lang key : string) : bool :=
  match JS.get lang rt with
  | Some m => JS.member_truthy m key
  | None => false
  end.

(** The arrays and dictionaries the function fills. *)
Record Acc := mkAcc
  { acc_add : list POEditorTerm.t;
    acc_update : list SyncPlan.update;
    acc_delete : list string;
    acc_missing : JS.dict (list string);
    acc_obsolete : JS.dict (list string) }.

(** "Initialize missing translations". *)
Definition init_lang (a : Acc) (lang : string) : Acc :=
  mkAcc (acc_add a) (acc_update a) (acc_delete a)
        (JS.set lang [] (acc_missing a))
        (JS.set lang [] (acc_obsolete a)).

(** Body of the loop over [localKeyMap]. *)
Definition local_step
    (remoteKeyMap : JS.dict POEditorTermResponse.t)
    (rt : RemoteTranslations) (options : Options)
    (a : Acc) (entry : string * DetectedKey.t) : Acc :=
  let key := fst entry in
  let localKey := snd entry in
  match JS.get key remoteKeyMap with
  | None =>
      (* Term doesn't exist remotely - add it *)
      let addTerms :=
        acc_add a ++
        [POEditorTerm.mk key (extractContext localKey)
           (Some (extractReference localKey)) None
           (extractTags localKey) (generateComment localKey)] in
      let missing :=
        fold_left (fun m lang => JS.push lang key m)
                  (includeLangs options) (acc_missing a) in
      mkAcc addTerms (acc_update a) (acc_delete a) missing (acc_obsolete a)
  | Some remoteKey =>
      (* Term exists - check if update is needed *)
      let updates := calculateTermUpdates localKey remoteKey in
      let updateTerms :=
        if (0 <? PartialTerm.keys_length updates)%nat
        then acc_update a ++ [SyncPlan.mkUpdate key updates]
        else acc_update a in
      let missing :=
        fold_left (fun m lang =>
                     if negb (translated rt lang key) then JS.push lang key m else m)
                  (includeLangs options) (acc_missing a) in
      mkAcc (acc_add a) updateTerms (acc_delete a) missing (acc_obsolete a)
  end.

(** Body of the loop over [remoteKeyMap]. *)
Definition remote_step
    (localKeyMap : JS.dict DetectedKey.t)
    (rt : RemoteTranslations) (options : Options)
    (a : Acc) (entry : string * POEditorTermResponse.t) : Acc :=
  let key := fst entry in
  if negb (JS.has key localKeyMap) then
    let obsolete :=
      fold_left (fun m lang =>
                   if translated rt lang key then JS.push lang key m else m)
                (includeLangs options) (acc_obsolete a) in
    mkAcc (acc_add a) (acc_update a) (acc_delete a ++ [key])
          (acc_missing a) obsolete
  else a.

Definition calculateSyncPlan
    (localKeys : list DetectedKey.t)
    (remoteTerms : list POEditorTermResponse.t)
    (remoteTranslations : RemoteTranslations)
    (options : Options) : SyncPlan.t :=
  let localKeyMap := JS.Map_of (map (fun k => (DetectedKey.key k, k)) localKeys) in
  let remoteKeyMap :=
    JS.Map_of (map (fun t => (POEditorTermResponse.term t, t)) remoteTerms) in
  let a := mkAcc [] [] [] [] [] in
  let a := fold_left init_lang (includeLangs options) a in
  let a := fold_left (local_step remoteKeyMap remoteTranslations options)
                     localKeyMap a in
  let a :=
    if deleteExtraneous options
    then fold_left (remote_step localKeyMap remoteTranslations options)
                   remoteKeyMap a
    else a in
  SyncPlan.mk (acc_add a) (acc_update a) (acc_delete a)
    (acc_missing a) (acc_obsolete a)
    [] (* renameHints: could be populated by key suggester *)
    (SyncPlan.mkStats
       (Z.of_nat (length (acc_add a)))
       (Z.of_nat (length (acc_update a)))
       (Z.of_nat (length (acc_delete a)))
       (fold_left (fun sum arr => (sum + Z.of_nat (length arr))%Z)
                  (JS.values (acc_missing a)) 0%Z)).


(** *** Execution coordinator *)

Inductive Direction := up.

(** [machineTranslate: boolean | string[]]. *)
Inductive MachineTranslate :=
| MTBool (b : bool)
| MTLangs (langs : list string).

Record SyncExecutionOptions := mkExec
  { plan : SyncPlan.t;
    batchSize : Z;
    direction : Direction;
    machineTranslate : MachineTranslate;
    dryRun : bool;
    rateLimit : Z }.

Record SyncError := mkSyncError
  { operation : string; term : option string; error : string }.

Record SyncResult := mkResult
  { created : Z;
    updated : Z;
    deleted : Z;
    mtTriggered : list string;
    errors : list SyncError;
    rateLimitWaits : Z;
    auditLogId : string }.

Definition set_created (v : Z) (r : SyncResult) : SyncResult :=
  mkResult v (updated r) (deleted r) (mtTriggered r) (errors r)
           (rateLimitWaits r) (auditLogId r).

Definition set_updated (v : Z) (r : SyncResult) : SyncResult :=
  mkResult (created r) v (deleted r) (mtTriggered r) (errors r)
           (rateLimitWaits r) (auditLogId r).

Definition set_deleted (v : Z) (r : SyncResult) : SyncResult :=
  mkResult (created r) (updated r) v (mtTriggered r) (errors r)
           (rateLimitWaits r) (auditLogId r).

Definition set_mtTriggered (v : list string) (r : SyncResult) : SyncResult :=
  mkResult (created r) (updated r) (deleted r) v (errors r)
           (rateLimitWaits r) (auditLogId r).

Definition add_rateLimitWaits (n : Z) (r : SyncResult) : SyncResult :=
  mkResult (created r) (updated r) (deleted r) (mtTriggered r) (errors r)
           (rateLimitWaits r + n)%Z (auditLogId r).

Definition push_error (e : SyncError) (r : SyncResult) : SyncResult :=
  mkResult (created r) (updated r) (deleted r) (mtTriggered r) (errors r ++ [e])
           (rateLimitWaits r) (auditLogId r).

(** [typeof machineTranslate === 'object'] and truthiness of the option. *)
Definition mt_is_object (mt : MachineTranslate) : bool :=
  match mt with MTLangs _ => true | MTBool _ => false end.

Definition mt_truthy (mt : MachineTranslate) : bool :=
  match mt with MTLangs _ => true | MTBool b => b end.

(** [typeof machineTranslate === 'object' ? machineTranslate : fallback]. *)
Definition mt_langs_or (mt : MachineTranslate) (fallback : list string) : list string :=
  match mt with MTLangs l => l | MTBool _ => fallback end.

(** The languages the live path resolves:
    [Object.keys(plan.missingTranslations).filter(lang =>
       plan.missingTranslations[lang].length > 0)] unless a list is given. *)
Definition langsToTranslate (p : SyncPlan.t) (mt : MachineTranslate) : list string :=
  mt_langs_or mt
    (filter (fun lang =>
               match JS.get lang (SyncPlan.missingTranslations p) with
               | Some arr => (0 <? length arr)%nat
               | None => false
               end)
            (JS.keys (SyncPlan.missingTranslations p))).

Section Coordinator.
Variable env : Env.
Local Open Scope js_scope.

(** The mutable [result] object and the world form the state of the
    [try] block. *)
Definition ExecState : Type := SyncResult * World.

Definition update_result (f : SyncResult -> SyncResult) : M ExecState unit :=
  modify (fun s => (f (fst s), snd s)).

Definition sum_by {R} (f : R -> Z) (results : list R) : Z :=
  fold_left (fun sum r => (sum + f r)%Z) results 0%Z.

(** "Execute term additions in batches". *)
Definition add_phase (fuel : nat) (options : SyncExecutionOptions) : M ExecState unit :=
  if (0 <? length (SyncPlan.addTerms (plan options)))%nat then
    addResults <-
      lift (POEditorClient.batchOperation env fuel
              (SyncPlan.addTerms (plan options))
              (fun batch => POEditorClient.addTerms env "project_id" batch)
              (batchSize options) (rateLimit options * 1000)%Z) ;;
    update_result (set_created (sum_by POEditorClient.added addResults)) ;;;
    update_result (add_rateLimitWaits (Z.of_nat (length addResults)))
  else ret tt.

(** "Execute term updates in batches". *)
Definition update_phase (fuel : nat) (options : SyncExecutionOptions) : M ExecState unit :=
  if (0 <? length (SyncPlan.updateTerms (plan options)))%nat then
    updateResults <-
      lift (POEditorClient.batchOperation env fuel
              (SyncPlan.updateTerms (plan options))
              (fun batch => POEditorClient.updateTerms env "project_id" batch)
              (batchSize options) (rateLimit options * 1000)%Z) ;;
    update_result (set_updated (sum_by POEditorClient.updated updateResults)) ;;;
    update_result (add_rateLimitWaits (Z.of_nat (length updateResults)))
  else ret tt.

(** "Execute term deletions". *)
Definition delete_phase (fuel : nat) (options : SyncExecutionOptions) : M ExecState unit :=
  if (0 <? length (SyncPlan.deleteTerms (plan options)))%nat then
    deleteResults <-
      lift (POEditorClient.batchOperation env fuel
              (SyncPlan.deleteTerms (plan options))
              (fun batch => POEditorClient.deleteTerms env "project_id" batch)
              (batchSize options) (rateLimit options * 1000)%Z) ;;
    update_result (set_deleted (sum_by POEditorClient.deleted deleteResults)) ;;;
    update_result (add_rateLimitWaits (Z.of_nat (length deleteResults)))
  else ret tt.

(** "Trigger machine translation if requested". *)
Definition mt_phase (options : SyncExecutionOptions) : M ExecState unit :=
  if mt_truthy (machineTranslate options)
     && (0 <? SyncPlan.missing (SyncPlan.stats (plan options)))%Z
  then update_result
         (set_mtTriggered (langsToTranslate (plan options) (machineTranslate options)))
  else ret tt.

Definition sync_handler (err : JsError) : M ExecState unit :=
  update_result (push_error (mkSyncError "sync" None (error_text err))).

Definition executeSync (fuel : nat) (options : SyncExecutionOptions)
  : M World SyncResult :=
  auditLogId <- uuidv4 env ;;
  if dryRun options then
    ret (mkResult
           (Z.of_nat (length (SyncPlan.addTerms (plan options))))
           (Z.of_nat (length (SyncPlan.updateTerms (plan options))))
           (Z.of_nat (length (SyncPlan.deleteTerms (plan options))))
           (mt_langs_or (machineTranslate options) [])
           [] 0%Z auditLogId)
  else
    fun w =>
      let result := mkResult 0 0 0 [] [] 0 auditLogId in
      match
        try_catch
          (add_phase fuel options ;;;
           update_phase fuel options ;;;
           delete_phase fuel options ;;;
           mt_phase options)
          sync_handler
          (result, w)
      with
      | (Ok _, (result', w')) => (Ok result', w')
      | (Throw e, (_, w')) => (Throw e, w')
      | (Diverge, (_, w')) => (Diverge, w')
      end.

End Coordinator.

End SyncManager.

(* ===================================================================== *)
(** ** Vocabulary of the statements *)
(* ===================================================================== *)

Definition localIds (localKeys : list DetectedKey.t) : list string :=
  map DetectedKey.key localKeys.

Definition remoteIds (remoteTerms : list POEditorTermResponse.t) : list string :=
  map POEditorTermResponse.term remoteTerms.

(** [localKeyMap] and [remoteKeyMap] of [calculateSyncPlan]. *)
Definition localKeyMap_of (localKeys : list DetectedKey.t) : JS.dict DetectedKey.t :=
  JS.Map_of (map (fun k => (DetectedKey.key k, k)) localKeys).

Definition remoteKeyMap_of (remoteTerms : list POEditorTermResponse.t)
  : JS.dict POEditorTermResponse.t :=
  JS.Map_of (map (fun t => (POEditorTermResponse.term t, t)) remoteTerms).

(** A remote record with its tag array replaced. *)
Definition with_tags (r : POEditorTermResponse.t) (tags' : list string)
  : POEditorTermResponse.t :=
  POEditorTermResponse.mk (POEditorTermResponse.term r)
    (POEditorTermResponse.context r) (POEditorTermResponse.reference r)
    (POEditorTermResponse.plural r) tags' (POEditorTermResponse.comment r)
    (POEditorTermResponse.created r) (POEditorTermResponse.updated r).

(** "Direct string inequality" between a recomputed field and the remote
    one: [recomputed !== remote], where a recomputed [undefined] differs
    from every string. *)
Definition differs (recomputed : option string) (remote : string) : Prop :=
  recomputed <> Some remote.

(** The derived fields of a local key are those of the remote record, up
    to the order of the tags. *)
Definition same_fields (localKey : DetectedKey.t) (remoteKey : POEditorTermResponse.t)
  : Prop :=
  SyncManager.extractContext localKey = Some (POEditorTermResponse.context remoteKey) /\
  SyncManager.extractReference localKey = POEditorTermResponse.reference remoteKey /\
  SyncManager.generateComment localKey = Some (POEditorTermResponse.comment remoteKey) /\
  exists t, SyncManager.extractTags localKey = Some t /\
            Permutation t (POEditorTermResponse.tags remoteKey).

(** *** Observing a run *)

(** The events a run added to the trace. *)
Definition new_events (w w' : World) : list Event :=
  skipn (length (trace w)) (trace w').

Definition calls_of (evs : list Event) : list RemoteCall :=
  flat_map (fun e => match e with EvCall c => [c] | EvWait _ => [] end) evs.

Definition waits_of (evs : list Event) : list Z :=
  flat_map (fun e => match e with EvWait ms => [ms] | EvCall _ => [] end) evs.

Definition count_calls (evs : list Event) : nat := length (calls_of evs).

(** [w'] continues [w]: the trace grew by events satisfying [P]. *)
Definition extends (P : Event -> Prop) (w w' : World) : Prop :=
  exists evs, trace w' = trace w ++ evs /\ Forall P evs.

(** Every remote call of the event targets the project ['project_id']. *)
Definition targets_project_id (e : Event) : Prop :=
  match e with
  | EvCall c => call_projectId c = "project_id"
  | EvWait _ => True
  end.

(** The world after [sleep ms]. *)
Definition after_wait (ms : Z) (w : World) : World :=
  mkWorld (trace w ++ [EvWait ms]) (requests w) (randoms w) (uuids w).

(** The world after one draw of [Math.random()]. *)
Definition after_random (w : World) : World :=
  mkWorld (trace w) (requests w) (S (randoms w)) (uuids w).

(** The world after one call of [uuidv4()]. *)
Definition after_uuid (w : World) : World :=
  mkWorld (trace w) (requests w) (randoms w) (S (uuids w)).

(** The jitter drawn in world [w]. *)
Definition jitter_at (env : Env) (w : World) : Z :=
  ((random env (randoms w) * 5000) / random_den)%Z.

(** [Math.random()] returns a number in [[0, 1)]. *)
Definition random_in_unit (env : Env) : Prop :=
  forall n, (0 <= random env n < random_den)%Z.

(** A phase that raises leaves the result object as it found it, and no
    phase touches [errors]. *)
Definition phase_ok (phase : M SyncManager.ExecState unit) : Prop :=
  forall s,
    match phase s with
    | (Ok _, s') => SyncManager.errors (fst s') = SyncManager.errors (fst s)
    | (Throw _, s') => fst s' = fst s
    | (Diverge, _) => True
    end.

(** The entry the [catch] block appends for an exception. *)
Definition caught (e : JsError) (r : SyncManager.SyncResult) : SyncManager.SyncResult :=
  SyncManager.push_error (SyncManager.mkSyncError "sync" None (error_text e)) r.

(** The result object a live run starts from. *)
Definition empty_result (auditLogId : string) : SyncManager.SyncResult :=
  SyncManager.mkResult 0 0 0 [] [] 0 auditLogId.

(** An operation that performs exactly one remote call per invocation. *)
Definition one_call {T} (op : M World T) : Prop :=
  forall w, exists c,
    snd (op w) = mkWorld (trace w ++ [EvCall c]) (S (requests w)) (randoms w) (uuids w)
    /\ fst (op w) <> Diverge.

(** *** The batch orchestrator in the words of the specification *)

(** [items] cut into consecutive chunks of [n] items, the last one
    possibly shorter. *)
Fixpoint chunks_fuel {T} (fuel n : nat) (l : list T) : list (list T) :=
  match fuel with
  | O => []
  | S fuel' =>
      match l with
      | [] => []
      | _ :: _ => firstn n l :: chunks_fuel fuel' n (skipn n l)
      end
  end.

Definition chunks {T} (n : nat) (l : list T) : list (list T) :=
  chunks_fuel (length l) n l.

(** [Math.ceil(n / b)] for a positive integer [b]. *)
Definition ceil_div (n b : nat) : nat := (n + b - 1) / b.

(** Feed each chunk, in order, through [f] and collect the results in the
    same order; stop at the first failure. *)
Fixpoint for_each {T R} (f : T -> M World R) (l : list T) : M World (list R) :=
  match l with
  | [] => ret []
  | x :: l' => bind (f x) (fun r => bind (for_each f l') (fun rs => ret (r :: rs)))
  end.

(** One invocation of the operation followed by the spacing delay. *)
Definition once_then_wait {R} (op : M World R) (minDelay : Z) : M World R :=
  bind op (fun r => bind (sleep minDelay) (fun _ => ret r)).

(** A per-batch operation whose every invocation is one remote call that
    the service accepts. *)
Definition always_accepted {T R} (op : list T -> M World R) : Prop :=
  forall batch w, exists r c,
    op batch w
    = (Ok r, mkWorld (trace w ++ [EvCall c]) (S (requests w)) (randoms w) (uuids w)).

(** An operation the service throttles on every invocation. *)
Definition always_throttled {T} (op : M World T) : Prop :=
  forall w, exists m h w1, op w = (Throw (ApiError m (Some 429%Z) h), w1).

(** The wait the specification gives for a retry:
    [max(minDelayMs, serverRetryHint, minDelayMs * 2^attempt) + jitter]. *)
Definition claimed_waitMs (minDelay : Z) (retryAfterMs : option Z) (attempt jitter : Z) : Z :=
  (Z.max minDelay
         (Z.max (match retryAfterMs with Some r => r | None => minDelay end)
                (minDelay * 2 ^ attempt)) + jitter)%Z.

(** The record pushed on [addTerms] for an entry of [localKeyMap]. *)
Definition add_of (e : string * DetectedKey.t) : POEditorTerm.t :=
  POEditorTerm.mk (fst e) (SyncManager.extractContext (snd e))
    (Some (SyncManager.extractReference (snd e))) None
    (SyncManager.extractTags (snd e)) (SyncManager.generateComment (snd e)).

(** The records pushed on [updateTerms] for an entry of [localKeyMap]. *)
Definition update_of (remoteKeyMap : JS.dict POEditorTermResponse.t)
    (e : string * DetectedKey.t) : list SyncPlan.update :=
  match JS.get (fst e) remoteKeyMap with
  | Some r =>
      if (0 <? PartialTerm.keys_length
                 (SyncManager.calculateTermUpdates (snd e) r))%nat
      then [SyncPlan.mkUpdate (fst e) (SyncManager.calculateTermUpdates (snd e) r)]
      else []
  | None => []
  end.

(* ===================================================================== *)
(** ** Sample inputs *)
(* ===================================================================== *)

Module Samples.

Definition usage_login : KeyUsage.t :=
  KeyUsage.mk "src/components/Login.vue" 12 8 "{{ $t('auth.login') }}".

Definition usage_pages : KeyUsage.t :=
  KeyUsage.mk "src/pages/Home.vue" 3 4 "".

(** Local keys [a] and [b]. *)
Definition key_a : DetectedKey.t :=
  DetectedKey.mk "a" "Log in" [usage_login] vue3 "$t" false [] None.

Definition key_b : DetectedKey.t :=
  DetectedKey.mk "b" "b" [usage_pages] vue3 "$t" false [] None.

(** Remote terms [b] and [c]. *)
Definition term_b : POEditorTermResponse.t :=
  POEditorTermResponse.mk "b" "" "src/pages/Home.vue" "" ["vue3"; "usage:$t"; "pages"]
    "" "2024-01-01" "2024-01-01".

Definition term_c : POEditorTermResponse.t :=
  POEditorTermResponse.mk "c" "" "" "" [] "" "2024-01-01" "2024-01-01".

(** A key known only from a resource file: no usage site, phrase equal to
    the key, no example. *)
Definition key_bare : DetectedKey.t :=
  DetectedKey.mk "b" "b" [] vue3 "$t" false [] None.

(** The remote record of [b], annotated by hand on the service. *)
Definition term_b_annotated : POEditorTermResponse.t :=
  POEditorTermResponse.mk "b" "legacy screen" "src/old.ts" "" ["usage:$t"; "vue3"]
    "reviewed" "2024-01-01" "2024-02-01".

(** The remote record [a] as a previous sync of [key_a] left it, with its
    tags in another order. *)
Definition term_a_synced : POEditorTermResponse.t :=
  POEditorTermResponse.mk "a" "{{ $t('auth.login') }}" "src/components/Login.vue" ""
    ["components"; "usage:$t"; "vue3"]
    ("Phrase: " ++ JS.dquote ++ "Log in" ++ JS.dquote)%string
    "2024-01-01" "2024-01-01".

(** A key and a remote term named like a member every object inherits. *)
Definition key_inherited : DetectedKey.t :=
  DetectedKey.mk "constructor" "constructor" [] vue3 "$t" false [] None.

Definition term_inherited : POEditorTermResponse.t :=
  POEditorTermResponse.mk "constructor" "" "" "" [] "" "2024-01-01" "2024-01-01".

Definition opts_delete_de : SyncManager.Options :=
  SyncManager.mkOptions true ["de"].

Definition opts_keep_de : SyncManager.Options :=
  SyncManager.mkOptions false ["de"].

(** *** Services *)

Definition term_named (name : string) : POEditorTerm.t :=
  POEditorTerm.mk name None None None None None.

Definition throttled : JsError :=
  ApiError "Rate limit exceeded. Retrying with backoff." (Some 429%Z) (Some 2000%Z).

(** A service that throttles every request, asking for 2 s. *)
Definition env_throttling : Env :=
  mkEnv (fun _ _ => inl throttled) (fun _ => 0%Z) (fun n => JS.string_of_nat n).

(** A service that throttles the first [n] requests and accepts the
    following ones. *)
Definition env_throttling_first (n : nat) : Env :=
  mkEnv (fun k _ => if (k <? n)%nat then inl throttled else inr (mkCounts 1 1))
        (fun _ => 0%Z) (fun n => JS.string_of_nat n).

(** A service that accepts every request. *)
Definition env_accepting : Env :=
  mkEnv (fun _ _ => inr (mkCounts 1 1)) (fun _ => 0%Z) (fun n => JS.string_of_nat n).

(** A service that rejects the credential. *)
Definition env_unauthorized : Env :=
  mkEnv (fun _ _ => inl (ApiError "Invalid API token. Check POEditor API token."
                           (Some 401%Z) None))
        (fun _ => 0%Z) (fun n => JS.string_of_nat n).

(** A service that accepts the first [n] requests and rejects the
    credential afterwards. *)
Definition env_rejecting_after (n : nat) : Env :=
  mkEnv (fun k _ =>
           if (k <? n)%nat then inr (mkCounts 1 1)
           else inl (ApiError "Invalid API token. Check POEditor API token."
                       (Some 401%Z) None))
        (fun _ => 0%Z) (fun n => JS.string_of_nat n).

(** A plan with one addition, one update and one deletion. *)
Definition plan_three : SyncPlan.t :=
  SyncPlan.mk [term_named "a"]
    [SyncPlan.mkUpdate "b"
       (PartialTerm.mk None None (Some "src/pages/Home.vue") None None None)]
    ["c"] [("de", ["a"])] [("de", [])] [] (SyncPlan.mkStats 1 1 1 1).

Definition live_three : SyncManager.SyncExecutionOptions :=
  SyncManager.mkExec plan_three 100 SyncManager.up (SyncManager.MTBool true) false 20.

Definition dry_three : SyncManager.SyncExecutionOptions :=
  SyncManager.mkExec plan_three 100 SyncManager.up (SyncManager.MTBool true) true 20.

(** The key [a] detected a second time, in another file and with another
    phrase. *)
Definition key_a_again : DetectedKey.t :=
  DetectedKey.mk "a" "Sign in" [usage_pages] nuxt3 "$t" false [] None.

(** Twenty-five pending additions. *)
Definition additions_25 : list POEditorTerm.t := repeat (term_named "k") 25.

End Samples.

(* ===================================================================== *)
(** ** Reading back the output of [JSON.stringify] *)
(* ===================================================================== *)

(** A reader for the quoted strings [JS.json_quote] writes; it is used to
    show that [JS.JSON_stringify] maps different arrays to different
    texts. *)
Definition hex_value (c : ascii) : option nat :=
  let n := nat_of_ascii c in
  if (48 <=? n)%nat && (n <=? 57)%nat then Some (n - 48)
  else if (97 <=? n)%nat && (n <=? 102)%nat then Some (n - 87)
  else None.

Definition read_cons (c : ascii) (r : option (string * string))
  : option (string * string) :=
  match r with
  | Some (s, rest) => Some (String c s, rest)
  | None => None
  end.

Definition dquote_char : ascii := ascii_of_nat 34.

(** Reads escaped characters up to the closing quote; returns the string
    read and what follows the quote. *)
Fixpoint json_unescape (s : string) : option (string * string) :=
  match s with
  | EmptyString => None
  | String c s1 =>
      if Ascii.eqb c dquote_char then Some (EmptyString, s1)
      else if Ascii.eqb c "\"%char then
        match s1 with
        | EmptyString => None
        | String e s2 =>
            if Ascii.eqb e dquote_char then read_cons dquote_char (json_unescape s2)
            else if Ascii.eqb e "\"%char then read_cons "\"%char (json_unescape s2)
            else if Ascii.eqb e "b"%char then read_cons (ascii_of_nat 8) (json_unescape s2)
            else if Ascii.eqb e "t"%char then read_cons (ascii_of_nat 9) (json_unescape s2)
            else if Ascii.eqb e "n"%char then read_cons (ascii_of_nat 10) (json_unescape s2)
            else if Ascii.eqb e "f"%char then read_cons (ascii_of_nat 12) (json_unescape s2)
            else if Ascii.eqb e "r"%char then read_cons (ascii_of_nat 13) (json_unescape s2)
            else if Ascii.eqb e "u"%char then
              match s2 with
              | String _ (String _ (String h3 (String h4 s3))) =>
                  match hex_value h3, hex_value h4 with
                  | Some x, Some y =>
                      read_cons (ascii_of_nat (16 * x + y)) (json_unescape s3)
                  | _, _ => None
                  end
              | _ => None
              end
            else None
        end
      else read_cons c (json_unescape s1)
  end.

Definition read_quoted (s : string) : option (string * string) :=
  match s with
  | String c s1 => if Ascii.eqb c dquote_char then json_unescape s1 else None
  | EmptyString => None
  end.

(* ===================================================================== *)
(** ** Further vocabulary: the diff engine *)
(* ===================================================================== *)

(** The last local key, and the last remote term, with a given identifier
    (the value a [Map] built from the list holds for it). *)
Definition last_local (key : string) (localKeys : list DetectedKey.t)
  : option DetectedKey.t :=
  find (fun k => DetectedKey.key k =? key) (rev localKeys).

Definition last_remote (key : string) (remoteTerms : list POEditorTermResponse.t)
  : option POEditorTermResponse.t :=
  find (fun t => POEditorTermResponse.term t =? key) (rev remoteTerms).

(** The loop over the local keys marks [key] missing in [lang]: the term
    is new, or the remote translations hold no content for it. *)
Definition lacks_translation (remoteTerms : list POEditorTermResponse.t)
    (rt : SyncManager.RemoteTranslations) (lang key : string) : bool :=
  negb (JS.includes (remoteIds remoteTerms) key)
  || negb (SyncManager.translated rt lang key).

(** How often [lang] is listed in [includeLangs]. *)
Definition listed (langs : list string) (lang : string) : nat :=
  count_occ string_dec langs lang.

(** The element [termsData] holds for a term in [POEditorClient.addTerms]:
    [context: term.context || ''], and so on. *)
Record TermData := mkTermData
  { td_term : string;
    td_context : string;
    td_reference : string;
    td_plural : string;
    td_tags : list string;
    td_comment : string }.

(** [s || ''] on [string | undefined]. *)
Definition or_empty (o : option string) : string :=
  match o with
  | Some s => if JS.truthy s then s else ""
  | None => ""
  end.

(** [tags || []]: an array is truthy even when empty. *)
Definition or_nil (o : option (list string)) : list string :=
  match o with Some l => l | None => [] end.

Definition addTerms_termsData (terms : list POEditorTerm.t) : list TermData :=
  map (fun term =>
         mkTermData (POEditorTerm.term term)
           (or_empty (POEditorTerm.context term))
           (or_empty (POEditorTerm.reference term))
           (or_empty (POEditorTerm.plural term))
           (or_nil (POEditorTerm.tags term))
           (or_empty (POEditorTerm.comment term)))
      terms.

(** The record the service lists for a term it stored as sent. *)
Definition stored_as (created updated : string) (d : TermData)
  : POEditorTermResponse.t :=
  POEditorTermResponse.mk (td_term d) (td_context d) (td_reference d)
    (td_plural d) (td_tags d) (td_comment d) created updated.

(** The directory tags [extractTags] derives from the usage sites. *)
Definition pathTags (key : DetectedKey.t) : list string :=
  firstn 2 (SyncManager.filter_truthy (map SyncManager.pathTag (DetectedKey.files key))).

(** [calculateSyncPlan] emits an update record for [key]: the key is local
    and remote and [calculateTermUpdates] stores a field. *)
Definition needs_update (localKeys : list DetectedKey.t)
    (remoteTerms : list POEditorTermResponse.t) (key : string) : bool :=
  match JS.get key (localKeyMap_of localKeys),
        JS.get key (remoteKeyMap_of remoteTerms) with
  | Some localKey, Some remoteKey =>
      (0 <? PartialTerm.keys_length
              (SyncManager.calculateTermUpdates localKey remoteKey))%nat
  | _, _ => false
  end.

(* ===================================================================== *)
(** ** Further vocabulary: the pace of the remote calls *)
(* ===================================================================== *)

(** Every remote call of the trace is immediately followed by a wait of
    at least [d] milliseconds. *)
Fixpoint settled (d : Z) (evs : list Event) : bool :=
  match evs with
  | [] => true
  | EvCall _ :: rest =>
      match rest with
      | EvWait ms :: evs' => (d <=? ms)%Z && settled d evs'
      | _ => false
      end
  | EvWait _ :: _ => false
  end.

(** The same, except that the trace may end with a call to which no wait
    follows (the call whose failure ended the run). *)
Fixpoint paced (d : Z) (evs : list Event) : bool :=
  match evs with
  | [] => true
  | EvCall _ :: rest =>
      match rest with
      | [] => true
      | EvWait ms :: evs' => (d <=? ms)%Z && paced d evs'
      | EvCall _ :: _ => false
      end
  | EvWait _ :: _ => false
  end.

(** The pace of a run, by its outcome: a run that ends with an exception
    may have made a last call without a wait. *)
Definition pace_of {A} (d : Z) (r : Res A) (evs : list Event) : Prop :=
  match r with
  | Throw _ => paced d evs = true
  | _ => settled d evs = true
  end.

(** A service that accepts every request. *)
Definition accepting (env : Env) : Prop :=
  forall n c, exists r, server env n c = inr r.

(** An operation that succeeds whenever it is invoked. *)
Definition always_succeeds {T R} (op : list T -> M World R) : Prop :=
  forall batch w, exists r w1, op batch w = (Ok r, w1).

(** The number of terms a remote call carries. *)
Definition call_size (c : RemoteCall) : nat :=
  match c with
  | CallAddTerms _ terms => length terms
  | CallUpdateTerms _ terms => length terms
  | CallDeleteTerms _ terms => length terms
  end.

(** A service that accepts every request and reports every term of the
    request as added, updated or deleted. *)
Definition confirming (env : Env) : Prop :=
  forall n c, exists p, server env n c = inr (mkCounts p (Z.of_nat (call_size c))).

(** The events of a batch run in which every invocation succeeds: per
    chunk, one call followed by the spacing delay. *)
Definition batch_events {T} (call : list T -> RemoteCall) (b : nat) (d : Z)
    (items : list T) : list Event :=
  flat_map (fun c => [EvCall (call c); EvWait d]) (chunks b items).

(** The same options, for a dry run. *)
Definition as_dry_run (o : SyncManager.SyncExecutionOptions)
  : SyncManager.SyncExecutionOptions :=
  SyncManager.mkExec (SyncManager.plan o) (SyncManager.batchSize o)
    (SyncManager.direction o) (SyncManager.machineTranslate o) true
    (SyncManager.rateLimit o).

(** What [mtTriggered] holds after the machine translation step. *)
Definition mt_outcome (o : SyncManager.SyncExecutionOptions) : list string :=
  if SyncManager.mt_truthy (SyncManager.machineTranslate o)
     && (0 <? SyncPlan.missing (SyncPlan.stats (SyncManager.plan o)))%Z
  then SyncManager.langsToTranslate (SyncManager.plan o) (SyncManager.machineTranslate o)
  else [].


(* ===================================================================== *)
(** ** Planning: fetching the local and remote state
       ([SyncManager.createSyncPlan]) *)
(* ===================================================================== *)

(** [POEditorTranslationResponse]; [definition] is read with [?.], so a
    record without it is covered. *)
Module POEditorTranslationResponse.
Record definition_t := mkDefinition { form : string; content : string }.

Record t := mk
  { term : string;
    definition : option definition_t;
    tags : list string;
    reference : string;
    fuzzy : Z;
    proofread : Z;
    updated : string }.
End POEditorTranslationResponse.

(** The argument of [POEditorDetector.detectKeys]. *)
Record DetectOptions := mkDetect
  { globs : list string;
    frameworks : list I18nFramework;
    detect_sourceLang : string;
    resourceFormats : list string;
    ignore : list string }.

(** What [createSyncPlan] asks of the detector and of the client. *)
Inductive FetchCall :=
| CallDetectKeys (o : DetectOptions)
| CallListTerms (projectId : string)
| CallListTranslations (projectId language : string).

(** The answers to the n-th such request: the keys found in the code base
    ([result.keys]), the terms and the translations the service lists, or
    the value the request throws. *)
Record FetchEnv := mkFetchEnv
  { detected : nat -> DetectOptions -> JsError + list DetectedKey.t;
    terms_listed : nat -> string -> JsError + list POEditorTermResponse.t;
    translations_listed :
      nat -> string -> string -> JsError + list POEditorTranslationResponse.t }.

(** The requests made so far. *)
Definition FetchLog := list FetchCall.

Definition fetch {A} (c : FetchCall) (answer : nat -> JsError + A) : M FetchLog A :=
  fun log =>
    match answer (length log) with
    | inl e => (Throw e, log ++ [c])
    | inr a => (Ok a, log ++ [c])
    end.

Module SyncPlanner.

Record SyncPlanOptions := mkPlanOptions
  { projectId : string;
    sourceLang : string;
    includeLangs : list string;
    keys : option (list DetectedKey.t);
    deleteExtraneous : bool }.

Definition detect_options (sourceLang : string) : DetectOptions :=
  mkDetect ["src/**/*.{vue,ts,tsx,js,jsx}"; "pages/**/*.vue"; "components/**/*.vue"]
           [vue3; nuxt3; react_native]
           sourceLang
           ["json"; "typescript"]
           ["node_modules/**"; "dist/**"].

(** [if (t.definition?.content) remoteTranslations[lang][t.term] =
    t.definition.content].  [remoteTranslations[lang]] was assigned just
    before the loop; were it absent the source would raise. *)
Definition store_translation (lang : string) (rt : SyncManager.RemoteTranslations)
    (t : POEditorTranslationResponse.t) : SyncManager.RemoteTranslations :=
  match POEditorTranslationResponse.definition t with
  | Some dfn =>
      if JS.truthy (POEditorTranslationResponse.content dfn) then
        match JS.get lang rt with
        | Some m =>
            JS.set lang
              (JS.assign_string (POEditorTranslationResponse.term t)
                                (POEditorTranslationResponse.content dfn) m) rt
        | None => rt
        end
      else rt
  | None => rt
  end.

Section Planner.
Variable fenv : FetchEnv.
Local Open Scope js_scope.

Definition detectKeys (o : DetectOptions) : M FetchLog (list DetectedKey.t) :=
  fetch (CallDetectKeys o) (fun n => detected fenv n o).

Definition listTerms (projectId : string) : M FetchLog (list POEditorTermResponse.t) :=
  fetch (CallListTerms projectId) (fun n => terms_listed fenv n projectId).

Definition listTranslations (projectId language : string)
  : M FetchLog (list POEditorTranslationResponse.t) :=
  fetch (CallListTranslations projectId language)
        (fun n => translations_listed fenv n projectId language).

(** "Get remote translations for included languages". *)
Fixpoint fetch_translations (projectId : string) (langs : list string)
    (remoteTranslations : SyncManager.RemoteTranslations)
  : M FetchLog SyncManager.RemoteTranslations :=
  match langs with
  | [] => ret remoteTranslations
  | lang :: langs' =>
      translations <- listTranslations projectId lang ;;
      let remoteTranslations := JS.set lang [] remoteTranslations in
      let remoteTranslations :=
        fold_left (store_translation lang) translations remoteTranslations in
      fetch_translations projectId langs' remoteTranslations
  end.

Definition createSyncPlan (options : SyncPlanOptions) : M FetchLog SyncPlan.t :=
  try_catch
    ((* Get local keys if not provided *)
     keys <- match keys options with
             | Some keys => ret keys
             | None => detectKeys (detect_options (sourceLang options))
             end ;;
     (* Get remote terms *)
     remoteTerms <- listTerms (projectId options) ;;
     (* Get remote translations for included languages *)
     remoteTranslations <-
       fetch_translations (projectId options) (includeLangs options) [] ;;
     (* Create sync plan *)
     ret (SyncManager.calculateSyncPlan keys remoteTerms remoteTranslations
            (SyncManager.mkOptions (deleteExtraneous options) (includeLangs options))))
    (fun error =>
       throw (PlainError ("Failed to create sync plan: " ++ error_text error))).

End Planner.
End SyncPlanner.

(** *** Vocabulary for the planner *)

(** The requests of a complete run, in order. *)
Definition planned_fetches (o : SyncPlanner.SyncPlanOptions) : list FetchCall :=
  (match SyncPlanner.keys o with
   | Some _ => []
   | None => [CallDetectKeys (SyncPlanner.detect_options (SyncPlanner.sourceLang o))]
   end)
  ++ [CallListTerms (SyncPlanner.projectId o)]
  ++ map (CallListTranslations (SyncPlanner.projectId o)) (SyncPlanner.includeLangs o).

(** The error with which the n-th request fails, if it does. *)
Definition fetch_failure (fenv : FetchEnv) (n : nat) (c : FetchCall) : option JsError :=
  match c with
  | CallDetectKeys o =>
      match detected fenv n o with inl e => Some e | inr _ => None end
  | CallListTerms p =>
      match terms_listed fenv n p with inl e => Some e | inr _ => None end
  | CallListTranslations p l =>
      match translations_listed fenv n p l with inl e => Some e | inr _ => None end
  end.

(** The local keys a run works on: the ones given, or the detector's. *)
Definition keys_used (fenv : FetchEnv) (o : SyncPlanner.SyncPlanOptions)
    (log : FetchLog) : option (list DetectedKey.t) :=
  match SyncPlanner.keys o with
  | Some keys => Some keys
  | None =>
      match detected fenv (length log)
              (SyncPlanner.detect_options (SyncPlanner.sourceLang o)) with
      | inr keys => Some keys
      | inl _ => None
      end
  end.

(** A translation record with a non-empty content. *)
Definition has_content (t : POEditorTranslationResponse.t) : bool :=
  match POEditorTranslationResponse.definition t with
  | Some dfn => JS.truthy (POEditorTranslationResponse.content dfn)
  | None => false
  end.

(** The dictionary of a language: the non-empty contents by term. *)
Definition store_content (m : JS.dict string) (t : POEditorTranslationResponse.t)
  : JS.dict string :=
  match POEditorTranslationResponse.definition t with
  | Some dfn =>
      if JS.truthy (POEditorTranslationResponse.content dfn)
      then JS.assign_string (POEditorTranslationResponse.term t)
                            (POEditorTranslationResponse.content dfn) m
      else m
  | None => m
  end.

Definition contents_of (translations : list POEditorTranslationResponse.t)
  : JS.dict string :=
  fold_left store_content translations [].

(** The remote translations built from the answers, language by
    language. *)
Definition translations_from
    (answers : list (string * list POEditorTranslationResponse.t))
  : SyncManager.RemoteTranslations :=
  fold_left (fun rt a => JS.set (fst a) (contents_of (snd a)) rt) answers [].

(** The answers the service gives to the translation requests of a run
    that made [n] requests before them, or the position and the error of
    the first request that fails. *)
Fixpoint answers_from (fenv : FetchEnv) (n : nat) (projectId : string)
    (langs : list string)
  : (nat * JsError) + list (string * list POEditorTranslationResponse.t) :=
  match langs with
  | [] => inr []
  | lang :: langs' =>
      match translations_listed fenv n projectId lang with
      | inr ts =>
          match answers_from fenv (S n) projectId langs' with
          | inr rest => inr ((lang, ts) :: rest)
          | inl (i, e) => inl (S i, e)
          end
      | inl e => inl (O, e)
      end
  end.

(** The number of requests a run makes to the detector. *)
Definition detections (o : SyncPlanner.SyncPlanOptions) : nat :=
  match SyncPlanner.keys o with Some _ => 0 | None => 1 end.

(** The first request of [cs] that fails, with its position, when the
    requests are made in order after [n] earlier ones. *)
Fixpoint first_failure (fenv : FetchEnv) (n : nat) (cs : list FetchCall)
  : option (nat * JsError) :=
  match cs with
  | [] => None
  | c :: cs' =>
      match fetch_failure fenv n c with
      | Some e => Some (O, e)
      | None =>
          match first_failure fenv (S n) cs' with
          | Some (i, e) => Some (S i, e)
          | None => None
          end
      end
  end.

(** Everything a run fetches: the keys, the terms and the translations,
    or the position and the error of the first request that fails. *)
Definition fetched (fenv : FetchEnv) (o : SyncPlanner.SyncPlanOptions) (log : FetchLog)
  : (nat * JsError)
    + (list DetectedKey.t * list POEditorTermResponse.t
       * list (string * list POEditorTranslationResponse.t)) :=
  let rest (keys : list DetectedKey.t) (n off : nat) :=
    match terms_listed fenv n (SyncPlanner.projectId o) with
    | inl e => inl (off, e)
    | inr terms =>
        match answers_from fenv (S n) (SyncPlanner.projectId o)
                (SyncPlanner.includeLangs o) with
        | inl (i, e) => inl (S (off + i), e)
        | inr answers => inr (keys, terms, answers)
        end
    end in
  match SyncPlanner.keys o with
  | Some keys => rest keys (length log) 0%nat
  | None =>
      match detected fenv (length log)
              (SyncPlanner.detect_options (SyncPlanner.sourceLang o)) with
      | inl e => inl (O, e)
      | inr keys => rest keys (S (length log)) 1%nat
      end
  end.

(** The last answer for a language. *)
Definition last_answer (lang : string)
    (answers : list (string * list POEditorTranslationResponse.t))
  : option (list POEditorTranslationResponse.t) :=
  option_map snd (find (fun a => String.eqb lang (fst a)) (rev answers)).

Module PlanSamples.

Definition translation (term content : string) : POEditorTranslationResponse.t :=
  POEditorTranslationResponse.mk term
    (Some (POEditorTranslationResponse.mkDefinition "" content)) [] "" 0 0 "2024-01-01".

(** A service with the terms [b] and [c], where only [c] is translated to
    German ([b] has an empty German translation); the detector finds the
    keys [a] and [b]. *)
Definition fenv_de : FetchEnv :=
  mkFetchEnv (fun _ _ => inr [Samples.key_a; Samples.key_b])
             (fun _ _ => inr [Samples.term_b; Samples.term_c])
             (fun _ _ lang =>
                if lang =? "de"
                then inr [translation "b" ""; translation "c" "Alt"]
                else inr []).

(** The same, with a translation endpoint that rejects the credential. *)
Definition fenv_unauthorized : FetchEnv :=
  mkFetchEnv (fun _ _ => inr [Samples.key_a; Samples.key_b])
             (fun _ _ => inr [Samples.term_b; Samples.term_c])
             (fun _ _ _ => inl (ApiError "Invalid API token. Check POEditor API token."
                                  (Some 401%Z) None)).

Definition diff_de : SyncPlanner.SyncPlanOptions :=
  SyncPlanner.mkPlanOptions "p1" "en" ["de"] None true.

Definition diff_de_given : SyncPlanner.SyncPlanOptions :=
  SyncPlanner.mkPlanOptions "p1" "en" ["de"] (Some [Samples.key_a]) true.

End PlanSamples.

(* ===================================================================== *)
(** ** Tool handlers ([POEditorMCPServer.handleDiff], [handleSync]) *)
(* ===================================================================== *)

(** The handlers fill in the omitted arguments with [||], call the sync
    manager and render the outcome as text; the embedding stops at the
    value that is rendered. *)
Module POEditorMCPServer.

Record DiffArgs := mkDiffArgs
  { diff_projectId : string;
    diff_sourceLang : option string;
    diff_includeLangs : option (list string);
    diff_keys : option (list DetectedKey.t);
    diff_deleteExtraneous : option bool }.

(** [machineTranslate] is a boolean or, as the tool schema allows, a list
    of languages. *)
Record SyncArgs := mkSyncArgs
  { sync_plan : SyncPlan.t;
    sync_batchSize : option Z;
    sync_direction : option SyncManager.Direction;
    sync_machineTranslate : option SyncManager.MachineTranslate;
    sync_dryRun : option bool;
    sync_rateLimit : option Z }.

(** [s || d] on [string | undefined]. *)
Definition string_or (o : option string) (d : string) : string :=
  match o with
  | Some s => if JS.truthy s then s else d
  | None => d
  end.

(** [n || d] on [number | undefined]: 0 is falsy. *)
Definition number_or (o : option Z) (d : Z) : Z :=
  match o with
  | Some n => if (n =? 0)%Z then d else n
  | None => d
  end.

(** [b || false] on [boolean | undefined]. *)
Definition bool_or_false (o : option bool) : bool :=
  match o with Some b => b | None => false end.

(** [a || []] on an optional array: an array is truthy. *)
Definition list_or_nil {A} (o : option (list A)) : list A :=
  match o with Some l => l | None => [] end.

(** [args.machineTranslate || false]. *)
Definition machineTranslate_or_false (o : option SyncManager.MachineTranslate)
  : SyncManager.MachineTranslate :=
  match o with
  | Some (SyncManager.MTLangs l) => SyncManager.MTLangs l
  | Some (SyncManager.MTBool b) => SyncManager.MTBool b
  | None => SyncManager.MTBool false
  end.

Definition direction_or_up (o : option SyncManager.Direction) : SyncManager.Direction :=
  match o with Some d => d | None => SyncManager.up end.

Definition handleDiff (fenv : FetchEnv) (args : DiffArgs) : M FetchLog SyncPlan.t :=
  SyncPlanner.createSyncPlan fenv
    (SyncPlanner.mkPlanOptions
       (diff_projectId args)
       (string_or (diff_sourceLang args) "en")
       (list_or_nil (diff_includeLangs args))
       (diff_keys args)
       (bool_or_false (diff_deleteExtraneous args))).

Definition handleSync (env : Env) (fuel : nat) (args : SyncArgs)
  : M World SyncManager.SyncResult :=
  SyncManager.executeSync env fuel
    (SyncManager.mkExec
       (sync_plan args)
       (number_or (sync_batchSize args) 100)
       (direction_or_up (sync_direction args))
       (machineTranslate_or_false (sync_machineTranslate args))
       (bool_or_false (sync_dryRun args))
       (number_or (sync_rateLimit args) 20)).

End POEditorMCPServer.

(** An argument that is omitted or zero. *)
Definition omitted_or_zero (o : option Z) : Prop := o = None \/ o = Some 0%Z.

(** An argument that is omitted or false. *)
Definition omitted_or_false (o : option bool) : Prop := o = None \/ o = Some false.

(** The requests a run of the planner added to the log. *)
Definition new_fetches (log log' : FetchLog) : list FetchCall :=
  skipn (length log) log'.

(* ===================================================================== *)
(** ** The transport: [POEditorClient.makeRequest] and the response
       interceptor *)
(* ===================================================================== *)

(** A JavaScript number that may be [NaN]. *)
Inductive JsNumber :=
| NaN
| Num (z : Z).

Definition times (n : JsNumber) (k : Z) : JsNumber :=
  match n with
  | NaN => NaN
  | Num z => Num (z * k)
  end.

Module Number.

(** The white space [parseInt] skips, among the 8-bit code units: TAB, LF,
    VT, FF, CR, SP and NBSP. *)
Definition is_space (c : ascii) : bool :=
  let n := nat_of_ascii c in
  ((9 <=? n)%nat && (n <=? 13)%nat) || (n =? 32)%nat || (n =? 160)%nat.

Fixpoint trim_start (s : string) : string :=
  match s with
  | EmptyString => EmptyString
  | String c s' => if is_space c then trim_start s' else s
  end.

Definition digit_value (c : ascii) : option Z :=
  let n := nat_of_ascii c in
  if (48 <=? n)%nat && (n <=? 57)%nat then Some (Z.of_nat (n - 48)) else None.

(** The value of the longest prefix of decimal digits, if there is one. *)
Fixpoint digits (s : string) (acc : option Z) : option Z :=
  match s with
  | EmptyString => acc
  | String c s' =>
      match digit_value c with
      | Some d =>
          digits s' (Some (10 * (match acc with Some a => a | None => 0 end) + d)%Z)
      | None => acc
      end
  end.

(** [parseInt(s, 10)]: leading white space, an optional sign, then the
    longest prefix of decimal digits; [NaN] without a digit.  (A value of
    2^53 or more is rounded by the language and kept exact here.) *)
Definition parseInt10 (s : string) : JsNumber :=
  let s := trim_start s in
  let signed :=
    match s with
    | String c s' =>
        if Ascii.eqb c "-"%char then ((-1)%Z, s')
        else if Ascii.eqb c "+"%char then (1%Z, s')
        else (1%Z, s)
    | EmptyString => (1%Z, s)
    end in
  match digits (snd signed) None with
  | Some z => Num (fst signed * z)
  | None => NaN
  end.

End Number.

Module Transport.

(** What [axios.post] rejects with: an error of axios with what it knows
    of the response ([error.response?.status] and
    [error.response?.headers?.['retry-after']]), or another [Error]. *)
Inductive Rejection :=
| AxiosError (message : string) (status : option Z) (retryAfter : option string)
| OtherError (message : string).

(** The values thrown in the transport: an instance of the client's
    [ApiError] (name ['POEditorApiError']), or a rejection passed on. *)
Inductive Raised :=
| RaisedApi (message : string) (status : option Z) (retryAfterMs : option JsNumber)
| RaisedAxios (message : string) (status : option Z) (retryAfter : option string)
| RaisedError (message : string).

(** What [axios.post] yields before the interceptor: a response, of which
    the code reads [data.response?.status], [data.response?.message] and
    [data.result], or a rejection. *)
Inductive Outcome (A : Type) :=
| Fulfilled (status : option string) (message : option string) (result : A)
| Rejected (error : Rejection).

Arguments Fulfilled {A} status message result.
Arguments Rejected {A} error.

(** A value of the [data] argument of [makeRequest]. *)
Inductive FormValue :=
| Absent
| Text (s : string)
| Flag (b : bool)
| Items (l : list string).

Definition Form := list (string * string).

(** A request: the endpoint and the fields of the form, in order. *)
Definition Request : Type := string * Form.

Record Client (A : Type) := mkClient
  { apiToken : option string;
    post : nat -> Request -> Outcome A }.

Arguments apiToken {A} c.
Arguments post {A} c n r.

Definition response_status (error : Rejection) : option Z :=
  match error with
  | AxiosError _ status _ => status
  | OtherError _ => None
  end.

Definition retry_after_header (error : Rejection) : option string :=
  match error with
  | AxiosError _ _ h => h
  | OtherError _ => None
  end.

(** [throw error]. *)
Definition forwarded (error : Rejection) : Raised :=
  match error with
  | AxiosError m status h => RaisedAxios m status h
  | OtherError m => RaisedError m
  end.

(** The rejection handler of the response interceptor: the value it
    throws for a rejection. *)
Definition interceptor (error : Rejection) : Raised :=
  let status := response_status error in
  let retryAfterHeader := retry_after_header error in
  let retryAfterMs :=
    match retryAfterHeader with
    | Some h => if JS.truthy h then Some (times (Number.parseInt10 h) 1000) else None
    | None => None
    end in
  if POEditorClient.status_is status 429 then
    RaisedApi "Rate limit exceeded. Retrying with backoff." (Some 429%Z) retryAfterMs
  else if POEditorClient.status_is status 401 then
    RaisedApi "Invalid API token. Check POEditor API token." (Some 401%Z) None
  else
    (* Forward as-is for other cases; makeRequest will wrap *)
    forwarded error.

(** "Append all data fields". *)
Definition append_field (formData : Form) (entry : string * FormValue) : Form :=
  match snd entry with
  | Absent => formData
  | Text s => formData ++ [(fst entry, s)]
  | Flag b => formData ++ [(fst entry, if b then "true" else "false")]
  | Items l => formData ++ [(fst entry, JS.JSON_stringify l)]
  end.

(** [message || 'Unknown error']. *)
Definition message_or_unknown (message : option string) : string :=
  match message with
  | Some m => if JS.truthy m then m else "Unknown error"
  | None => "Unknown error"
  end.

(** The [catch] block of [makeRequest]. *)
Definition rethrow (error : Raised) : Raised :=
  match error with
  | RaisedApi _ _ _ => error
  | RaisedAxios message status _ =>
      RaisedApi ("POEditor API request failed: " ++ message) status None
  | RaisedError _ => error
  end.

Definition token_required : string :=
  "POEditor API token is required. Set POEDITOR_API_TOKEN environment variable or call setApiToken()".

Definition makeRequest {A} (client : Client A) (endpoint : string)
    (data : list (string * FormValue)) (log : list Request)
  : (Raised + A) * list Request :=
  match apiToken client with
  | None => (inl (RaisedError token_required), log)
  | Some token =>
      if negb (JS.truthy token) then (inl (RaisedError token_required), log)
      else
        let formData := fold_left append_field data [("api_token", token)] in
        let request := (endpoint, formData) in
        (match post client (length log) request with
         | Fulfilled status message result =>
             match status with
             | Some s =>
                 if s =? "success" then inr result
                 else inl (rethrow (RaisedApi ("POEditor API error: "
                                               ++ message_or_unknown message) None None))
             | None =>
                 inl (rethrow (RaisedApi ("POEditor API error: "
                                          ++ message_or_unknown message) None None))
             end
         | Rejected error => inl (rethrow (interceptor error))
         end,
         log ++ [request])
  end.

(** The error [withRateLimit] sees, when the retry hint is a number. *)
Definition as_JsError (r : Raised) : option JsError :=
  match r with
  | RaisedApi m status None => Some (ApiError m status None)
  | RaisedApi m status (Some (Num ms)) => Some (ApiError m status (Some ms))
  | RaisedApi _ _ (Some NaN) => None
  | RaisedAxios _ _ _ => None
  | RaisedError m => Some (PlainError m)
  end.

Definition raised_status (r : Raised) : option Z :=
  match r with
  | RaisedApi _ status _ => status
  | _ => None
  end.

Definition raised_hint (r : Raised) : option JsNumber :=
  match r with
  | RaisedApi _ _ hint => hint
  | _ => None
  end.

(** [withRateLimit] would repeat the operation after this failure, as
    long as it has retries left. *)
Definition retried (r : Raised) : bool :=
  POEditorClient.status_is (raised_status r) 429
  || POEditorClient.status_is (raised_status r) 503.

(** The request [makeRequest] sends with a token. *)
Definition request_of (token endpoint : string) (data : list (string * FormValue))
  : Request :=
  (endpoint, fold_left append_field data [("api_token", token)]).

End Transport.

(** [status === 429] on the status of a rejection. *)
Definition response_status_429 (error : Transport.Rejection) : bool :=
  POEditorClient.status_is (Transport.response_status error) 429.

(** A remote record in which the fields an update record holds replace
    the stored ones. *)
Definition overwrite (u : PartialTerm.t) (r : POEditorTermResponse.t)
  : POEditorTermResponse.t :=
  let pick {A} (o : option A) (stored : A) : A :=
    match o with Some v => v | None => stored end in
  POEditorTermResponse.mk
    (pick (PartialTerm.term u) (POEditorTermResponse.term r))
    (pick (PartialTerm.context u) (POEditorTermResponse.context r))
    (pick (PartialTerm.reference u) (POEditorTermResponse.reference r))
    (pick (PartialTerm.plural u) (POEditorTermResponse.plural r))
    (pick (PartialTerm.tags u) (POEditorTermResponse.tags r))
    (pick (PartialTerm.comment u) (POEditorTermResponse.comment r))
    (POEditorTermResponse.created r) (POEditorTermResponse.updated r).

(** The waits of a back-off without a hint from the service lie between
    the minimum delay and a ceiling. *)
Definition backoff_range (minDelay ms : Z) : Prop :=
  (minDelay <= ms <= Z.max minDelay 60000 + 4999)%Z.

(** An operation whose failures carry no retry hint. *)
Definition no_hint {T} (op : M World T) : Prop :=
  forall w e w1, op w = (Throw e, w1) -> POEditorClient.err_retryAfterMs e = None.

(** A service that answers every request with the same error. *)
Definition rejecting (env : Env) (err : JsError) : Prop :=
  forall n c, server env n c = inl err.

(** The first request of a live run: the first chunk of the first list of
    the plan that is not empty. *)
Definition first_call (o : SyncManager.SyncExecutionOptions) : option RemoteCall :=
  let p := SyncManager.plan o in
  let b := SyncManager.batchSize o in
  match SyncPlan.addTerms p, SyncPlan.updateTerms p, SyncPlan.deleteTerms p with
  | _ :: _, _, _ => Some (CallAddTerms "project_id" (JS.slice (SyncPlan.addTerms p) 0 (0 + b)))
  | [], _ :: _, _ =>
      Some (CallUpdateTerms "project_id" (JS.slice (SyncPlan.updateTerms p) 0 (0 + b)))
  | [], [], _ :: _ =>
      Some (CallDeleteTerms "project_id" (JS.slice (SyncPlan.deleteTerms p) 0 (0 + b)))
  | [], [], [] => None
  end.

(** The language has a local key without translation. *)
Definition needs_translation (localKeys : list DetectedKey.t)
    (remoteTerms : list POEditorTermResponse.t) (rt : SyncManager.RemoteTranslations)
    (lang : string) : bool :=
  existsb (lacks_translation remoteTerms rt lang) (JS.Set_of (localIds localKeys)).

(** The events a phase adds: at most six calls per chunk of [b] items,
    and at least one per chunk when the phase completes. *)
Definition within_budget (b items : nat) (phase : M SyncManager.ExecState unit) : Prop :=
  forall s, exists evs,
    trace (snd (snd (phase s))) = trace (snd s) ++ evs /\
    (count_calls evs <= 6 * ceil_div items b)%nat /\
    (fst (phase s) = Ok tt -> (ceil_div items b <= count_calls evs)%nat).

(** [remoteTranslations[lang]] reads the dictionary stored for the
    language or nothing: the language has a dictionary of its own, or it
    is not named like a member of [Object.prototype]. *)
Definition reads_own (rt : SyncManager.RemoteTranslations) (lang : string) : bool :=
  JS.has lang rt || negb (JS.includes JS.prototype_members lang).

(** A name that starts with a decimal digit; the integer indices, which
    an object enumerates before its other keys, are among them. *)
Definition starts_with_digit (s : string) : bool :=
  match s with
  | String c _ =>
      match Number.digit_value c with Some _ => true | None => false end
  | EmptyString => false
  end.

(** A language whose bucket is an own member of the bucket objects,
    enumerated in the order of its creation. *)
Definition plain_language (lang : string) : bool :=
  negb (lang =? "__proto__") && negb (starts_with_digit lang).

(** The list the machine-translation rule of the specification records:
    when the directive is truthy and [stats.missing] is positive, the list
    given, or else every language with a non-empty missing list; nothing
    otherwise. *)
Definition spec_resolved_languages (p : SyncPlan.t) (mt : SyncManager.MachineTranslate)
  : list string :=
  if SyncManager.mt_truthy mt && (0 <? SyncPlan.missing (SyncPlan.stats p))%Z
  then match mt with
       | SyncManager.MTLangs langs => langs
       | SyncManager.MTBool _ =>
           map fst (filter (fun bucket => (0 <? length (snd bucket))%nat)
                           (SyncPlan.missingTranslations p))
       end
  else [].

(* ===================================================================== *)
(** ** Properties of the runtime helpers *)
(* ===================================================================== *)

Section DictFacts.
Context {V : Type}.
Implicit Types (m : JS.dict V) (k : string) (v : V).

Lemma get_None_iff k m : JS.get k m = None <-> ~ In k (JS.keys m).
Proof.
  induction m as [|[k' v'] m IH]; simpl.
  - tauto.
  - destruct (String.eqb_spec k k') as [->|Hne].
    + split; [discriminate | intros H; exfalso; apply H; now left].
    + rewrite IH. split.
      * intros H [E|E]; [now subst | now apply H].
      * intros H E. apply H. now right.
Qed.

Lemma has_true_iff k m : JS.has k m = true <-> In k (JS.keys m).
Proof.
  unfold JS.has. destruct (JS.get k m) eqn:E.
  - split; [intros _ | reflexivity].
    destruct (in_dec string_dec k (JS.keys m)) as [H|H]; [exact H|].
    apply get_None_iff in H. congruence.
  - split; [discriminate|]. intros H. apply get_None_iff in E. contradiction.
Qed.

Lemma includes_true_iff (l : list string) (x : string) :
  JS.includes l x = true <-> In x l.
Proof.
  unfold JS.includes. rewrite existsb_exists. split.
  - intros [y [Hy E]]. apply String.eqb_eq in E. now subst.
  - intros H. exists x. split; [exact H | apply String.eqb_refl].
Qed.

Lemma keys_set k v m : JS.keys (JS.set k v m) = JS.set_add (JS.keys m) k.
Proof.
  unfold JS.set_add. induction m as [|[k' v'] m IH]; simpl.
  - reflexivity.
  - destruct (String.eqb_spec k k') as [->|Hne]; simpl.
    + reflexivity.
    + rewrite IH. unfold JS.keys.
      destruct (JS.includes (map fst m) k); reflexivity.
Qed.

Lemma keys_Map_of_from (es : list (string * V)) m :
  JS.keys (fold_left (fun m e => JS.set (fst e) (snd e) m) es m)
  = fold_left JS.set_add (map fst es) (JS.keys m).
Proof.
  revert m. induction es as [|e es IH]; intros m; simpl.
  - reflexivity.
  - rewrite IH, keys_set. reflexivity.
Qed.

(** The keys of [new Map(entries)] are the distinct keys of the entries,
    in order of first occurrence. *)
Lemma keys_Map_of (es : list (string * V)) :
  JS.keys (JS.Map_of es) = JS.Set_of (map fst es).
Proof. apply keys_Map_of_from. Qed.

End DictFacts.

Lemma set_add_In acc x y : In y (JS.set_add acc x) <-> In y acc \/ y = x.
Proof.
  unfold JS.set_add. destruct (JS.includes acc x) eqn:E.
  - apply includes_true_iff in E. split; [tauto|]. intros [H| ->]; assumption.
  - rewrite in_app_iff. simpl. split; intros [H|H]; auto.
    destruct H as [<- | []]. now right.
Qed.

Lemma set_add_NoDup acc x : NoDup acc -> NoDup (JS.set_add acc x).
Proof.
  intros H. unfold JS.set_add. destruct (JS.includes acc x) eqn:E; [exact H|].
  assert (Hx : ~ In x acc).
  { intros Hin. apply includes_true_iff in Hin. congruence. }
  clear E. induction H as [|a acc Ha Hacc IH]; simpl.
  - constructor; [intros [] | constructor].
  - constructor.
    + rewrite in_app_iff. simpl. intros [H1|[H1|[]]]; [contradiction|].
      subst. apply Hx. now left.
    + apply IH. intros H1. apply Hx. now right.
Qed.

Lemma Set_of_from_In l acc y :
  In y (fold_left JS.set_add l acc) <-> In y acc \/ In y l.
Proof.
  revert acc. induction l as [|x l IH]; intros acc; simpl.
  - tauto.
  - rewrite IH, set_add_In. intuition (subst; auto).
Qed.

Lemma Set_of_from_NoDup l acc : NoDup acc -> NoDup (fold_left JS.set_add l acc).
Proof.
  revert acc. induction l as [|x l IH]; intros acc H; simpl.
  - exact H.
  - apply IH, set_add_NoDup, H.
Qed.

Lemma Set_of_In l y : In y (JS.Set_of l) <-> In y l.
Proof. unfold JS.Set_of. rewrite Set_of_from_In. simpl. tauto. Qed.

Lemma Set_of_NoDup l : NoDup (JS.Set_of l).
Proof. apply Set_of_from_NoDup. constructor. Qed.

(** Keys of a map built from a list of records. *)
Lemma Map_of_keys_In {A} (f : A -> string) (l : list A) k :
  In k (JS.keys (JS.Map_of (map (fun a => (f a, a)) l))) <-> In k (map f l).
Proof.
  rewrite keys_Map_of, Set_of_In, map_map. simpl. tauto.
Qed.

Lemma Map_of_keys_eq {A} (f : A -> string) (l : list A) :
  JS.keys (JS.Map_of (map (fun a => (f a, a)) l)) = JS.Set_of (map f l).
Proof. rewrite keys_Map_of, map_map. reflexivity. Qed.

(* ===================================================================== *)
(** ** The diff engine: what each loop contributes to the plan *)
(* ===================================================================== *)

Section DiffFacts.
Import SyncManager.
Variables (localKeyMap : JS.dict DetectedKey.t)
          (remoteKeyMap : JS.dict POEditorTermResponse.t)
          (rt : RemoteTranslations) (options : Options).

Lemma fold_init_lists langs a :
  acc_add (fold_left init_lang langs a) = acc_add a /\
  acc_update (fold_left init_lang langs a) = acc_update a /\
  acc_delete (fold_left init_lang langs a) = acc_delete a.
Proof.
  revert a. induction langs as [|x langs IH]; intros a; simpl; [auto|].
  destruct (IH (init_lang a x)) as (H1 & H2 & H3).
  rewrite H1, H2, H3. auto.
Qed.

Lemma fold_local_add l a :
  acc_add (fold_left (local_step remoteKeyMap rt options) l a)
  = acc_add a ++
    map add_of (filter (fun e => negb (JS.has (fst e) remoteKeyMap)) l).
Proof.
  revert a. induction l as [|e l IH]; intros a; simpl.
  - now rewrite app_nil_r.
  - rewrite IH. unfold local_step, JS.has.
    destruct (JS.get (fst e) remoteKeyMap); simpl.
    + reflexivity.
    + rewrite <- app_assoc. reflexivity.
Qed.

Lemma fold_local_update l a :
  acc_update (fold_left (local_step remoteKeyMap rt options) l a)
  = acc_update a ++ flat_map (update_of remoteKeyMap) l.
Proof.
  revert a. induction l as [|e l IH]; intros a; simpl.
  - now rewrite app_nil_r.
  - rewrite IH. unfold local_step, update_of.
    destruct (JS.get (fst e) remoteKeyMap); simpl.
    + destruct (0 <? _)%nat; simpl.
      * rewrite <- app_assoc. reflexivity.
      * reflexivity.
    + reflexivity.
Qed.

Lemma fold_local_delete l a :
  acc_delete (fold_left (local_step remoteKeyMap rt options) l a) = acc_delete a.
Proof.
  revert a. induction l as [|e l IH]; intros a; simpl; [reflexivity|].
  rewrite IH. unfold local_step.
  destruct (JS.get (fst e) remoteKeyMap); reflexivity.
Qed.

Lemma fold_remote_lists l a :
  acc_add (fold_left (remote_step localKeyMap rt options) l a) = acc_add a /\
  acc_update (fold_left (remote_step localKeyMap rt options) l a) = acc_update a /\
  acc_delete (fold_left (remote_step localKeyMap rt options) l a)
  = acc_delete a ++ filter (fun k => negb (JS.has k localKeyMap)) (JS.keys l).
Proof.
  revert a. induction l as [|e l IH]; intros a; simpl.
  - now rewrite app_nil_r.
  - destruct (IH (remote_step localKeyMap rt options a e)) as (H1 & H2 & H3).
    rewrite H1, H2, H3. unfold remote_step.
    destruct (JS.has (fst e) localKeyMap); simpl; [auto|].
    rewrite <- app_assoc. auto.
Qed.

End DiffFacts.

Lemma filter_map_fst {V} (p : string -> bool) (l : list (string * V)) :
  map fst (filter (fun e => p (fst e)) l) = filter p (map fst l).
Proof.
  induction l as [|e l IH]; simpl; [reflexivity|].
  destruct (p (fst e)); simpl; now rewrite IH.
Qed.

Lemma no_members_nil {A} (l : list A) : (forall x, ~ In x l) -> l = [].
Proof.
  destruct l as [|x l]; [reflexivity|]. intros H. exfalso. apply (H x). now left.
Qed.

Lemma has_Map_of_includes {A} (f : A -> string) (l : list A) k :
  JS.has k (JS.Map_of (map (fun a => (f a, a)) l)) = JS.includes (map f l) k.
Proof.
  apply eq_true_iff_eq.
  rewrite has_true_iff, includes_true_iff. apply Map_of_keys_In.
Qed.

(** Identifiers of [addTerms]: the distinct local identifiers, in order of
    first occurrence, that are not remote identifiers. *)
Lemma addTerms_ids localKeys remoteTerms rt options :
  map POEditorTerm.term
      (SyncPlan.addTerms
         (SyncManager.calculateSyncPlan localKeys remoteTerms rt options))
  = filter (fun k => negb (JS.includes (remoteIds remoteTerms) k))
           (JS.Set_of (localIds localKeys)).
Proof.
  unfold SyncManager.calculateSyncPlan. simpl.
  set (L := JS.Map_of (map (fun k => (DetectedKey.key k, k)) localKeys)).
  set (R := JS.Map_of (map (fun t => (POEditorTermResponse.term t, t)) remoteTerms)).
  assert (E : forall a0,
    SyncManager.acc_add
      (if SyncManager.deleteExtraneous options
       then fold_left (SyncManager.remote_step L rt options) R a0 else a0)
    = SyncManager.acc_add a0).
  { intros a0. destruct (SyncManager.deleteExtraneous options); [|reflexivity].
    apply fold_remote_lists. }
  rewrite E, fold_local_add.
  destruct (fold_init_lists (SyncManager.includeLangs options)
              (SyncManager.mkAcc [] [] [] [] [])) as (H1 & _ & _).
  rewrite H1. simpl. rewrite map_map.
  change (map (fun x => POEditorTerm.term (add_of x))
            (filter (fun e => negb (JS.has (fst e) R)) L))
    with (map fst (filter (fun e => (fun k => negb (JS.has k R)) (fst e)) L)).
  rewrite filter_map_fst.
  fold (JS.keys L). unfold L. rewrite Map_of_keys_eq.
  apply filter_ext. intros k. unfold R. now rewrite has_Map_of_includes.
Qed.

(** [deleteTerms]: nothing unless deletion is requested; otherwise the
    distinct remote identifiers, in order of first occurrence, that are
    not local identifiers. *)
Lemma deleteTerms_ids localKeys remoteTerms rt options :
  SyncPlan.deleteTerms
    (SyncManager.calculateSyncPlan localKeys remoteTerms rt options)
  = if SyncManager.deleteExtraneous options
    then filter (fun k => negb (JS.includes (localIds localKeys) k))
                (JS.Set_of (remoteIds remoteTerms))
    else [].
Proof.
  unfold SyncManager.calculateSyncPlan. simpl.
  set (L := JS.Map_of (map (fun k => (DetectedKey.key k, k)) localKeys)).
  set (R := JS.Map_of (map (fun t => (POEditorTermResponse.term t, t)) remoteTerms)).
  destruct (fold_init_lists (SyncManager.includeLangs options)
              (SyncManager.mkAcc [] [] [] [] [])) as (_ & _ & H3).
  destruct (SyncManager.deleteExtraneous options).
  - destruct (fold_remote_lists L rt options R
                (fold_left (SyncManager.local_step R rt options) L
                   (fold_left SyncManager.init_lang
                      (SyncManager.includeLangs options)
                      (SyncManager.mkAcc [] [] [] [] [])))) as (_ & _ & H).
    rewrite H, fold_local_delete, H3. simpl.
    unfold R at 1. rewrite Map_of_keys_eq.
    apply filter_ext. intros k. unfold L. now rewrite has_Map_of_includes.
  - rewrite fold_local_delete, H3. reflexivity.
Qed.

(** Keys of [updateTerms]: among the distinct local identifiers that are
    remote identifiers. *)
Lemma updateTerms_keys localKeys remoteTerms rt options k :
  In k (map SyncPlan.term
          (SyncPlan.updateTerms
             (SyncManager.calculateSyncPlan localKeys remoteTerms rt options))) ->
  In k (localIds localKeys) /\ In k (remoteIds remoteTerms).
Proof.
  unfold SyncManager.calculateSyncPlan. simpl.
  set (L := JS.Map_of (map (fun k => (DetectedKey.key k, k)) localKeys)).
  set (R := JS.Map_of (map (fun t => (POEditorTermResponse.term t, t)) remoteTerms)).
  assert (E : forall a0,
    SyncManager.acc_update
      (if SyncManager.deleteExtraneous options
       then fold_left (SyncManager.remote_step L rt options) R a0 else a0)
    = SyncManager.acc_update a0).
  { intros a0. destruct (SyncManager.deleteExtraneous options); [|reflexivity].
    apply fold_remote_lists. }
  rewrite E, fold_local_update.
  destruct (fold_init_lists (SyncManager.includeLangs options)
              (SyncManager.mkAcc [] [] [] [] [])) as (_ & H2 & _).
  rewrite H2. simpl. rewrite in_map_iff.
  intros [u [<- Hu]]. apply in_flat_map in Hu. destruct Hu as [e [He Hu]].
  unfold update_of in Hu.
  destruct (JS.get (fst e) R) eqn:G; [|destruct Hu].
  destruct (0 <? _)%nat; [|destruct Hu].
  destruct Hu as [<- | []]. simpl. split.
  - apply (Map_of_keys_In DetectedKey.key). fold L. unfold JS.keys.
    apply in_map. exact He.
  - apply (Map_of_keys_In POEditorTermResponse.term). fold R.
    apply has_true_iff. unfold JS.has. now rewrite G.
Qed.

(* ===================================================================== *)
(** ** Diff engine: additions, deletions and their exclusivity *)
(* ===================================================================== *)

(** Membership in [addTerms] and in [deleteTerms]. *)
Lemma addTerms_membership localKeys remoteTerms rt options k :
  In k (map POEditorTerm.term
          (SyncPlan.addTerms
             (SyncManager.calculateSyncPlan localKeys remoteTerms rt options)))
  <-> In k (localIds localKeys) /\ ~ In k (remoteIds remoteTerms).
Proof.
  rewrite addTerms_ids, filter_In, Set_of_In.
  rewrite negb_true_iff, <- not_true_iff_false, includes_true_iff. tauto.
Qed.

Lemma deleteTerms_membership localKeys remoteTerms rt options k :
  In k (SyncPlan.deleteTerms
          (SyncManager.calculateSyncPlan localKeys remoteTerms rt options))
  <-> SyncManager.deleteExtraneous options = true /\
      In k (remoteIds remoteTerms) /\ ~ In k (localIds localKeys).
Proof.
  rewrite deleteTerms_ids.
  destruct (SyncManager.deleteExtraneous options).
  - rewrite filter_In, Set_of_In.
    rewrite negb_true_iff, <- not_true_iff_false, includes_true_iff. tauto.
  - simpl. split; [tauto | intros [H _]; discriminate].
Qed.

(** C1.  For every local key list and remote term list (in particular for
    disjoint identifier sets) the identifiers of [addTerms] are exactly
    the local identifiers that are not remote identifiers; when
    [deleteExtraneous] is true, [deleteTerms] is exactly the set of remote
    identifiers that are not local identifiers; when the two identifier
    sets are equal both lists are empty; and when they are disjoint the
    two lists are the whole local, respectively remote, identifier set. *)
Theorem diff_adds_and_deletes :
  forall localKeys remoteTerms rt options,
    let plan := SyncManager.calculateSyncPlan localKeys remoteTerms rt options in
    let addIds := map POEditorTerm.term (SyncPlan.addTerms plan) in
    let deletes := SyncPlan.deleteTerms plan in
    (forall k, In k addIds <->
               In k (localIds localKeys) /\ ~ In k (remoteIds remoteTerms)) /\
    (SyncManager.deleteExtraneous options = true ->
     forall k, In k deletes <->
               In k (remoteIds remoteTerms) /\ ~ In k (localIds localKeys)) /\
    ((forall k, In k (localIds localKeys) <-> In k (remoteIds remoteTerms)) ->
     SyncPlan.addTerms plan = [] /\ deletes = []) /\
    ((forall k, ~ (In k (localIds localKeys) /\ In k (remoteIds remoteTerms))) ->
     (forall k, In k addIds <-> In k (localIds localKeys)) /\
     (SyncManager.deleteExtraneous options = true ->
      forall k, In k deletes <-> In k (remoteIds remoteTerms))).
Proof.
  intros localKeys remoteTerms rt options plan addIds deletes.
  assert (HA : forall k, In k addIds <->
               In k (localIds localKeys) /\ ~ In k (remoteIds remoteTerms)).
  { intros k. apply addTerms_membership. }
  assert (HD : SyncManager.deleteExtraneous options = true ->
     forall k, In k deletes <->
               In k (remoteIds remoteTerms) /\ ~ In k (localIds localKeys)).
  { intros Hdel k. unfold deletes, plan. rewrite deleteTerms_membership. tauto. }
  split; [exact HA|]. split; [exact HD|]. split.
  - intros Heq. split.
    + apply (map_eq_nil POEditorTerm.term). fold addIds.
      apply no_members_nil. intros k Hin.
      apply HA in Hin. destruct Hin as [H1 H2]. apply H2, Heq, H1.
    + unfold deletes, plan. rewrite deleteTerms_ids.
      destruct (SyncManager.deleteExtraneous options); [|reflexivity].
      apply no_members_nil. intros k Hin.
      apply filter_In in Hin. destruct Hin as [H1 H2].
      rewrite Set_of_In in H1. apply negb_true_iff in H2.
      apply Heq in H1. apply includes_true_iff in H1. congruence.
  - intros Hdisj. split.
    + intros k. rewrite HA. split; [tauto|]. intros H. split; [exact H|].
      intros H'. apply (Hdisj k). tauto.
    + intros Hdel k. rewrite (HD Hdel). split; [tauto|]. intros H.
      split; [exact H|]. intros H'. apply (Hdisj k). tauto.
Qed.

(** Local [{a}] against remote [{c}] (disjoint), deletion requested: [a] is
    added and [c] deleted. *)
Lemma diff_adds_and_deletes_witness :
  SyncManager.deleteExtraneous Samples.opts_delete_de = true /\
  (forall k, ~ (In k (localIds [Samples.key_a]) /\
                In k (remoteIds [Samples.term_c]))) /\
  (forall k,
      In k (SyncPlan.deleteTerms
              (SyncManager.calculateSyncPlan [Samples.key_a] [Samples.term_c] []
                 Samples.opts_delete_de))
      <-> In k (remoteIds [Samples.term_c])).
Proof.
  assert (Hdisj : forall k, ~ (In k (localIds [Samples.key_a]) /\
                               In k (remoteIds [Samples.term_c]))).
  { intros k [[H|[]] [H'|[]]]. simpl in H, H'. congruence. }
  split; [reflexivity|]. split; [exact Hdisj|].
  exact (proj2 (proj2 (proj2 (proj2
           (diff_adds_and_deletes [Samples.key_a] [Samples.term_c] []
              Samples.opts_delete_de))) Hdisj) eq_refl).
Defined.

(** C2.  In every plan an identifier belongs to at most one of
    [addTerms], the keys of [updateTerms] and [deleteTerms]; and
    [deleteTerms] is empty whenever [deleteExtraneous] is false. *)
Theorem plan_lists_exclusive :
  forall localKeys remoteTerms rt options,
    let plan := SyncManager.calculateSyncPlan localKeys remoteTerms rt options in
    let addIds := map POEditorTerm.term (SyncPlan.addTerms plan) in
    let updateKeys := map SyncPlan.term (SyncPlan.updateTerms plan) in
    let deletes := SyncPlan.deleteTerms plan in
    (forall k, ~ (In k addIds /\ In k updateKeys)) /\
    (forall k, ~ (In k addIds /\ In k deletes)) /\
    (forall k, ~ (In k updateKeys /\ In k deletes)) /\
    (SyncManager.deleteExtraneous options = false -> deletes = []).
Proof.
  intros localKeys remoteTerms rt options plan addIds updateKeys deletes.
  assert (HA : forall k, In k addIds <->
               In k (localIds localKeys) /\ ~ In k (remoteIds remoteTerms)).
  { intros k. apply addTerms_membership. }
  assert (HD' : forall k, In k deletes ->
            In k (remoteIds remoteTerms) /\ ~ In k (localIds localKeys)).
  { intros k Hk. apply deleteTerms_membership in Hk. tauto. }
  repeat split.
  - intros k [H1 H2]. apply HA in H1.
    apply updateTerms_keys in H2. tauto.
  - intros k [H1 H2]. apply HA in H1. apply HD' in H2. tauto.
  - intros k [H1 H2]. apply updateTerms_keys in H1. apply HD' in H2. tauto.
  - intros E. unfold deletes, plan. now rewrite deleteTerms_ids, E.
Qed.

(** With deletion not requested nothing is deleted, whatever is remote. *)
Lemma plan_lists_exclusive_witness :
  SyncManager.deleteExtraneous Samples.opts_keep_de = false /\
  SyncPlan.deleteTerms
    (SyncManager.calculateSyncPlan [Samples.key_a; Samples.key_b]
       [Samples.term_b; Samples.term_c] [] Samples.opts_keep_de) = [].
Proof.
  split; [reflexivity|].
  exact (proj2 (proj2 (proj2
           (plan_lists_exclusive [Samples.key_a; Samples.key_b]
              [Samples.term_b; Samples.term_c] [] Samples.opts_keep_de))) eq_refl).
Defined.

(* ===================================================================== *)
(** ** Diff engine: the language buckets and [stats.missing] *)
(* ===================================================================== *)

Lemma keys_push k x m : JS.keys (JS.push k x m) = JS.keys m.
Proof.
  induction m as [|[k' v] m IH]; simpl; [reflexivity|].
  destruct (String.eqb k k'); simpl; [reflexivity | now rewrite IH].
Qed.

(** A push on an initialised bucket appends to it: the case in which the
    source would fail on a missing bucket does not arise. *)
Lemma push_bucket_present lang key m :
  In lang (JS.keys m) ->
  exists arr, JS.get lang m = Some arr /\
              JS.get lang (JS.push lang key m) = Some (arr ++ [key]).
Proof.
  induction m as [|[k' v] m IH]; simpl; [intros []|].
  intros H. destruct (String.eqb_spec lang k') as [->|Hne].
  - exists v. simpl. now rewrite String.eqb_refl.
  - destruct H as [H|H]; [now subst|].
    destruct (IH H) as [arr [H1 H2]]. exists arr. simpl.
    destruct (String.eqb_spec lang k'); [contradiction|]. auto.
Qed.

Lemma keys_fold_push {A} (f : JS.dict (list string) -> A -> JS.dict (list string))
    (l : list A) m :
  (forall m x, JS.keys (f m x) = JS.keys m) ->
  JS.keys (fold_left f l m) = JS.keys m.
Proof.
  intros Hf. revert m. induction l as [|x l IH]; intros m; simpl; [reflexivity|].
  now rewrite IH, Hf.
Qed.

Section BucketFacts.
Import SyncManager.
Variables (localKeyMap : JS.dict DetectedKey.t)
          (remoteKeyMap : JS.dict POEditorTermResponse.t)
          (rt : RemoteTranslations) (options : Options).

Lemma local_step_buckets a e :
  JS.keys (acc_missing (local_step remoteKeyMap rt options a e))
  = JS.keys (acc_missing a) /\
  acc_obsolete (local_step remoteKeyMap rt options a e) = acc_obsolete a.
Proof.
  unfold local_step. destruct (JS.get (fst e) remoteKeyMap); simpl; split;
    try reflexivity; apply keys_fold_push; intros m x.
  - destruct (negb _); [apply keys_push | reflexivity].
  - apply keys_push.
Qed.

Lemma remote_step_buckets a e :
  acc_missing (remote_step localKeyMap rt options a e) = acc_missing a /\
  JS.keys (acc_obsolete (remote_step localKeyMap rt options a e))
  = JS.keys (acc_obsolete a).
Proof.
  unfold remote_step. destruct (negb _); simpl; split; try reflexivity.
  apply keys_fold_push. intros m x.
  destruct (translated rt x (fst e)); [apply keys_push | reflexivity].
Qed.

Lemma fold_local_buckets l a :
  JS.keys (acc_missing (fold_left (local_step remoteKeyMap rt options) l a))
  = JS.keys (acc_missing a) /\
  acc_obsolete (fold_left (local_step remoteKeyMap rt options) l a)
  = acc_obsolete a.
Proof.
  revert a. induction l as [|e l IH]; intros a; simpl; [auto|].
  destruct (IH (local_step remoteKeyMap rt options a e)) as [H1 H2].
  destruct (local_step_buckets a e) as [H3 H4].
  rewrite H1, H2, H3, H4. auto.
Qed.

Lemma fold_remote_buckets l a :
  acc_missing (fold_left (remote_step localKeyMap rt options) l a)
  = acc_missing a /\
  JS.keys (acc_obsolete (fold_left (remote_step localKeyMap rt options) l a))
  = JS.keys (acc_obsolete a).
Proof.
  revert a. induction l as [|e l IH]; intros a; simpl; [auto|].
  destruct (IH (remote_step localKeyMap rt options a e)) as [H1 H2].
  destruct (remote_step_buckets a e) as [H3 H4].
  rewrite H1, H2, H3, H4. auto.
Qed.

End BucketFacts.

Lemma fold_init_buckets langs a :
  JS.keys (SyncManager.acc_missing (fold_left SyncManager.init_lang langs a))
  = fold_left JS.set_add langs (JS.keys (SyncManager.acc_missing a)) /\
  JS.keys (SyncManager.acc_obsolete (fold_left SyncManager.init_lang langs a))
  = fold_left JS.set_add langs (JS.keys (SyncManager.acc_obsolete a)).
Proof.
  revert a. induction langs as [|x langs IH]; intros a; simpl; [auto|].
  destruct (IH (SyncManager.init_lang a x)) as [H1 H2].
  rewrite H1, H2. simpl. now rewrite !keys_set.
Qed.

(** The buckets of both dictionaries are the included languages, once
    each, in order of first occurrence. *)
Lemma plan_bucket_keys localKeys remoteTerms rt options :
  let plan := SyncManager.calculateSyncPlan localKeys remoteTerms rt options in
  JS.keys (SyncPlan.missingTranslations plan)
  = JS.Set_of (SyncManager.includeLangs options) /\
  JS.keys (SyncPlan.obsoleteTranslations plan)
  = JS.Set_of (SyncManager.includeLangs options).
Proof.
  unfold SyncManager.calculateSyncPlan. simpl.
  set (L := JS.Map_of (map (fun k => (DetectedKey.key k, k)) localKeys)).
  set (R := JS.Map_of (map (fun t => (POEditorTermResponse.term t, t)) remoteTerms)).
  set (a0 := fold_left SyncManager.init_lang (SyncManager.includeLangs options)
               (SyncManager.mkAcc [] [] [] [] [])).
  set (a1 := fold_left (SyncManager.local_step R rt options) L a0).
  destruct (fold_init_buckets (SyncManager.includeLangs options)
              (SyncManager.mkAcc [] [] [] [] [])) as [I1 I2].
  fold a0 in I1, I2. simpl in I1, I2.
  destruct (fold_local_buckets R rt options L a0) as [L1 L2]. fold a1 in L1, L2.
  destruct (fold_remote_buckets L rt options R a1) as [R1 R2].
  destruct (SyncManager.deleteExtraneous options).
  - rewrite R1, R2, L1, L2, I1, I2. auto.
  - rewrite L1, L2, I1, I2. auto.
Qed.

(** Throughout both loops every included language has its two buckets:
    the pushes of the loops always find the array they append to. *)
Lemma included_buckets_exist localKeyMap remoteKeyMap rt options l l' lang :
  In lang (SyncManager.includeLangs options) ->
  let a0 := fold_left SyncManager.init_lang (SyncManager.includeLangs options)
              (SyncManager.mkAcc [] [] [] [] []) in
  let a1 := fold_left (SyncManager.local_step remoteKeyMap rt options) l a0 in
  let a2 := fold_left (SyncManager.remote_step localKeyMap rt options) l' a1 in
  In lang (JS.keys (SyncManager.acc_missing a1)) /\
  In lang (JS.keys (SyncManager.acc_obsolete a2)).
Proof.
  intros Hin a0 a1 a2.
  destruct (fold_init_buckets (SyncManager.includeLangs options)
              (SyncManager.mkAcc [] [] [] [] [])) as [I1 I2].
  fold a0 in I1, I2. simpl in I1, I2.
  destruct (fold_local_buckets remoteKeyMap rt options l a0) as [L1 L2].
  fold a1 in L1, L2.
  destruct (fold_remote_buckets localKeyMap rt options l' a1) as [_ R2].
  fold a2 in R2.
  rewrite L1, I1, R2, L2, I2.
  split; apply Set_of_In; exact Hin.
Qed.

Lemma sum_lengths_fold (l : list (list string)) (acc : Z) :
  fold_left (fun sum arr => (sum + Z.of_nat (length arr))%Z) l acc
  = (acc + Z.of_nat (list_sum (map (@length string) l)))%Z.
Proof.
  revert acc. induction l as [|x l IH]; intros acc; simpl.
  - lia.
  - rewrite IH. lia.
Qed.

(** C7.  In every plan [stats.missing] is the sum of the lengths of the
    [missingTranslations] lists over all languages; and when [includeLangs]
    is empty the plan has no missing and no obsolete bucket and
    [stats.missing] is 0, whatever the local and remote content. *)
Theorem stats_missing_is_total :
  forall localKeys remoteTerms rt options,
    let plan := SyncManager.calculateSyncPlan localKeys remoteTerms rt options in
    SyncPlan.missing (SyncPlan.stats plan)
    = Z.of_nat (list_sum (map (fun bucket => length (snd bucket))
                              (SyncPlan.missingTranslations plan))) /\
    (SyncManager.includeLangs options = [] ->
     SyncPlan.missingTranslations plan = [] /\
     SyncPlan.obsoleteTranslations plan = [] /\
     SyncPlan.missing (SyncPlan.stats plan) = 0%Z).
Proof.
  intros localKeys remoteTerms rt options plan.
  assert (Hsum : SyncPlan.missing (SyncPlan.stats plan)
    = Z.of_nat (list_sum (map (fun bucket => length (snd bucket))
                              (SyncPlan.missingTranslations plan)))).
  { unfold plan, SyncManager.calculateSyncPlan. simpl.
    rewrite sum_lengths_fold. unfold JS.values. now rewrite map_map. }
  split; [exact Hsum|].
  intros Hnil.
  destruct (plan_bucket_keys localKeys remoteTerms rt options) as [K1 K2].
  fold plan in K1, K2. rewrite Hnil in K1, K2.
  apply map_eq_nil in K1. apply map_eq_nil in K2.
  rewrite Hsum, K1. auto.
Qed.

(** No included language: no bucket and nothing missing, although the
    local key [a] is not known remotely. *)
Lemma stats_missing_is_total_witness :
  SyncManager.includeLangs (SyncManager.mkOptions true []) = [] /\
  SyncPlan.missingTranslations
    (SyncManager.calculateSyncPlan [Samples.key_a; Samples.key_b]
       [Samples.term_b; Samples.term_c] [] (SyncManager.mkOptions true [])) = [] /\
  SyncPlan.obsoleteTranslations
    (SyncManager.calculateSyncPlan [Samples.key_a; Samples.key_b]
       [Samples.term_b; Samples.term_c] [] (SyncManager.mkOptions true [])) = [] /\
  SyncPlan.missing
    (SyncPlan.stats
       (SyncManager.calculateSyncPlan [Samples.key_a; Samples.key_b]
          [Samples.term_b; Samples.term_c] [] (SyncManager.mkOptions true [])))
  = 0%Z.
Proof.
  split; [reflexivity|].
  exact (proj2 (stats_missing_is_total [Samples.key_a; Samples.key_b]
                  [Samples.term_b; Samples.term_c] []
                  (SyncManager.mkOptions true [])) eq_refl).
Defined.

(** The scenario of the specification: local keys [{a, b}], remote terms
    [{b, c}], deletion requested, language [de] without translations. *)
Example scenario_a_b_c :
  let plan :=
    SyncManager.calculateSyncPlan [Samples.key_a; Samples.key_b]
      [Samples.term_b; Samples.term_c] [("de", [])] Samples.opts_delete_de in
  map POEditorTerm.term (SyncPlan.addTerms plan) = ["a"] /\
  SyncPlan.updateTerms plan = [] /\
  SyncPlan.deleteTerms plan = ["c"] /\
  SyncPlan.missingTranslations plan = [("de", ["a"; "b"])] /\
  SyncPlan.obsoleteTranslations plan = [("de", [])] /\
  SyncPlan.stats plan = SyncPlan.mkStats 1 0 1 2.
Proof. vm_compute. repeat split; reflexivity. Qed.

(* ===================================================================== *)
(** ** Sorting and serialising tag arrays *)
(* ===================================================================== *)

Lemma string_leb_trans s1 s2 s3 :
  String.leb s1 s2 = true -> String.leb s2 s3 = true -> String.leb s1 s3 = true.
Proof.
  revert s2 s3. unfold String.leb.
  induction s1 as [|a s1 IH]; intros [|b s2] [|c s3]; simpl;
    try reflexivity; try discriminate.
  unfold Ascii.compare.
  destruct (N.compare_spec (N_of_ascii a) (N_of_ascii b));
    destruct (N.compare_spec (N_of_ascii b) (N_of_ascii c));
    destruct (N.compare_spec (N_of_ascii a) (N_of_ascii c));
    try reflexivity; try discriminate; try lia.
  apply IH.
Qed.

Lemma insert_comm x y l :
  JS.insert x (JS.insert y l) = JS.insert y (JS.insert x l).
Proof.
  induction l as [|z l IH]; simpl.
  - destruct (String.leb x y) eqn:Exy, (String.leb y x) eqn:Eyx; try reflexivity.
    + now rewrite (String.leb_antisym _ _ Exy Eyx).
    + destruct (String.leb_total x y); congruence.
  - destruct (String.leb y z) eqn:Eyz, (String.leb x z) eqn:Exz; simpl;
      rewrite ?Eyz, ?Exz.
    + destruct (String.leb x y) eqn:Exy, (String.leb y x) eqn:Eyx; try reflexivity.
      * now rewrite (String.leb_antisym _ _ Exy Eyx).
      * destruct (String.leb_total x y); congruence.
    + destruct (String.leb x y) eqn:Exy.
      * rewrite (string_leb_trans _ _ _ Exy Eyz) in Exz. discriminate.
      * reflexivity.
    + destruct (String.leb y x) eqn:Eyx.
      * rewrite (string_leb_trans _ _ _ Eyx Exz) in Eyz. discriminate.
      * reflexivity.
    + now rewrite IH.
Qed.

Lemma insert_perm x l : Permutation (JS.insert x l) (x :: l).
Proof.
  induction l as [|y l IH]; simpl; [reflexivity|].
  destruct (String.leb x y); [reflexivity|].
  rewrite IH. apply perm_swap.
Qed.

Lemma sort_perm l : Permutation (JS.sort l) l.
Proof.
  induction l as [|x l IH]; simpl; [reflexivity|].
  rewrite insert_perm. now constructor.
Qed.

(** Sorting forgets the order of the array. *)
Lemma sort_of_perm l1 l2 : Permutation l1 l2 -> JS.sort l1 = JS.sort l2.
Proof.
  induction 1; simpl.
  - reflexivity.
  - now f_equal.
  - apply insert_comm.
  - congruence.
Qed.

Lemma sort_eq_iff l1 l2 : JS.sort l1 = JS.sort l2 <-> Permutation l1 l2.
Proof.
  split; [|apply sort_of_perm].
  intros E. rewrite <- (sort_perm l1), E. apply sort_perm.
Qed.

Lemma string_app_assoc (a b c : string) :
  ((a ++ b) ++ c)%string = (a ++ (b ++ c))%string.
Proof. induction a as [|x a IH]; simpl; [reflexivity | now rewrite IH]. Qed.

Lemma unescape_char c rest :
  json_unescape (JS.json_escape_char c ++ rest)
  = read_cons c (json_unescape rest).
Proof.
  destruct c as [[] [] [] [] [] [] [] []]; reflexivity.
Qed.

Lemma unescape_escape s rest :
  json_unescape (JS.json_escape s ++ String dquote_char rest) = Some (s, rest).
Proof.
  induction s as [|c s IH].
  - reflexivity.
  - cbn [JS.json_escape].
    rewrite string_app_assoc, unescape_char, IH. reflexivity.
Qed.

Lemma read_quoted_quote s rest :
  read_quoted (JS.json_quote s ++ rest) = Some (s, rest).
Proof.
  unfold JS.json_quote. rewrite !string_app_assoc.
  change (JS.dquote ++ rest)%string with (String dquote_char rest).
  change (JS.dquote ++ JS.json_escape s ++ String dquote_char rest)%string
    with (String dquote_char (JS.json_escape s ++ String dquote_char rest)).
  cbn [read_quoted]. rewrite Ascii.eqb_refl. apply unescape_escape.
Qed.

Lemma join_cons sep x l :
  JS.join sep (x :: l)
  = (x ++ match l with [] => "" | _ => sep ++ JS.join sep l end)%string.
Proof.
  unfold JS.join. simpl. destruct l; [|reflexivity].
  induction x as [|c x IH]; simpl; [reflexivity | now rewrite <- IH].
Qed.

Lemma json_body_inj l1 l2 :
  (JS.join "," (map JS.json_quote l1) ++ "]")%string
  = (JS.join "," (map JS.json_quote l2) ++ "]")%string ->
  l1 = l2.
Proof.
  revert l2. induction l1 as [|x1 l1 IH]; intros [|x2 l2] E.
  - reflexivity.
  - simpl map in E. rewrite join_cons in E. discriminate E.
  - simpl map in E. rewrite join_cons in E. discriminate E.
  - simpl map in E. rewrite !join_cons, !string_app_assoc in E.
    apply (f_equal read_quoted) in E. rewrite !read_quoted_quote in E.
    injection E as -> E. f_equal.
    destruct l1 as [|y1 l1], l2 as [|y2 l2]; simpl map in E.
    + reflexivity.
    + discriminate E.
    + discriminate E.
    + apply IH. simpl map. simpl in E. injection E as E. exact E.
Qed.

(** [JSON.stringify] tells different arrays of strings apart. *)
Lemma JSON_stringify_inj l1 l2 :
  JS.JSON_stringify l1 = JS.JSON_stringify l2 -> l1 = l2.
Proof.
  unfold JS.JSON_stringify. simpl. intros E. injection E as E.
  now apply json_body_inj.
Qed.

(** The tag test answers "same" exactly for arrays that are reorderings
    of one another. *)
Lemma tags_differ_false_iff a b :
  SyncManager.tags_differ a b = false <-> Permutation a b.
Proof.
  unfold SyncManager.tags_differ. rewrite negb_false_iff, String.eqb_eq.
  rewrite <- sort_eq_iff. split; [apply JSON_stringify_inj | congruence].
Qed.

Lemma tags_differ_true_iff a b :
  SyncManager.tags_differ a b = true <-> ~ Permutation a b.
Proof.
  rewrite <- tags_differ_false_iff. destruct (SyncManager.tags_differ a b).
  - split; [discriminate | reflexivity].
  - split; [discriminate | intros H; now contradiction H].
Qed.

(* ===================================================================== *)
(** ** Diff engine: field-by-field updates *)
(* ===================================================================== *)

(** Replaces [c] by [t] from [H : Some t = Some c], leaving [t] folded. *)
Ltac some_eq H :=
  match type of H with
  | Some ?t = Some ?c =>
      let E := fresh "E" in
      assert (E : c = t) by congruence; rewrite E; clear E H
  end.

Lemma truthy_true_iff s : JS.truthy s = true <-> s <> "".
Proof.
  unfold JS.truthy. rewrite negb_true_iff. apply String.eqb_neq.
Qed.

Lemma append_nonempty (a b : string) : a <> "" -> (a ++ b)%string <> "".
Proof. destruct a; [congruence | discriminate]. Qed.

Lemma join_nonempty sep x l : x <> "" -> JS.join sep (x :: l) <> "".
Proof. intros H. rewrite join_cons. now apply append_nonempty. Qed.

Lemma firstn_filter_head {A} (p : A -> bool) n (l : list A) x xs :
  firstn n (filter p l) = x :: xs -> p x = true.
Proof.
  intros E. assert (Hin : In x (filter p l)).
  { rewrite <- (firstn_skipn n (filter p l)), E. now left. }
  now apply filter_In in Hin.
Qed.

(** A recomputed context is never the empty string. *)
Lemma extractContext_nonempty key c :
  SyncManager.extractContext key = Some c -> c <> "".
Proof.
  unfold SyncManager.extractContext.
  destruct (firstn 2 _) as [|x xs] eqn:E; cbn -[JS.join String.append];
    [discriminate|].
  intros H. some_eq H. apply join_nonempty.
  apply truthy_true_iff. exact (firstn_filter_head _ _ _ _ _ E).
Qed.

(** A generated comment is never the empty string. *)
Lemma generateComment_nonempty key c :
  SyncManager.generateComment key = Some c -> c <> "".
Proof.
  unfold SyncManager.generateComment.
  destruct (JS.truthy (DetectedKey.phrase key) && _);
    destruct (1 <? length (DetectedKey.files key))%nat;
    destruct (0 <? length (DetectedKey.examples key))%nat;
    cbn -[JS.join String.append];
    try discriminate; intros H; some_eq H;
    apply join_nonempty; discriminate.
Qed.

(** Tags are always recomputed: the framework tag is always there. *)
Lemma extractTags_defined key : exists t, SyncManager.extractTags key = Some t.
Proof.
  unfold SyncManager.extractTags.
  match goal with |- context [(0 <? length ?l)%nat] => destruct l eqn:E end.
  - exfalso. apply (f_equal (@length string)) in E. rewrite length_app in E.
    destruct (DetectedKey.dynamic key), (JS.truthy (DetectedKey.usage key));
      simpl in E; discriminate.
  - simpl. eauto.
Qed.

(** What [calculateTermUpdates] stores, field by field. *)
Lemma calculateTermUpdates_fields localKey remoteKey :
  let u := SyncManager.calculateTermUpdates localKey remoteKey in
  PartialTerm.term u = None /\
  PartialTerm.plural u = None /\
  PartialTerm.context u =
    match SyncManager.extractContext localKey with
    | Some c => if JS.truthy c && negb (c =? POEditorTermResponse.context remoteKey)
                then Some c else None
    | None => None
    end /\
  PartialTerm.reference u =
    (if JS.truthy (SyncManager.extractReference localKey)
        && negb (SyncManager.extractReference localKey
                 =? POEditorTermResponse.reference remoteKey)
     then Some (SyncManager.extractReference localKey) else None) /\
  PartialTerm.tags u =
    match SyncManager.extractTags localKey with
    | Some t => if SyncManager.tags_differ t (POEditorTermResponse.tags remoteKey)
                then Some (JS.sort t) else None
    | None => None
    end /\
  PartialTerm.comment u =
    match SyncManager.generateComment localKey with
    | Some c => if JS.truthy c && negb (c =? POEditorTermResponse.comment remoteKey)
                then Some c else None
    | None => None
    end.
Proof.
  unfold SyncManager.calculateTermUpdates.
  destruct (SyncManager.extractContext localKey) as [c|];
    [destruct (JS.truthy c && _)|];
    (destruct (JS.truthy (SyncManager.extractReference localKey) && _));
    (destruct (SyncManager.extractTags localKey) as [t|];
     [destruct (SyncManager.tags_differ t _)|]);
    (destruct (SyncManager.generateComment localKey) as [c'|];
     [destruct (JS.truthy c' && _)|]);
    simpl; repeat split; reflexivity.
Qed.

Lemma calculateTermUpdates_with_tags localKey remoteKey tags' :
  Permutation (POEditorTermResponse.tags remoteKey) tags' ->
  SyncManager.calculateTermUpdates localKey (with_tags remoteKey tags')
  = SyncManager.calculateTermUpdates localKey remoteKey.
Proof.
  intros HP. unfold SyncManager.calculateTermUpdates, with_tags. simpl.
  destruct (SyncManager.extractTags localKey) as [t|]; [|reflexivity].
  replace (SyncManager.tags_differ t tags')
    with (SyncManager.tags_differ t (POEditorTermResponse.tags remoteKey));
    [reflexivity|].
  unfold SyncManager.tags_differ. now rewrite (sort_of_perm _ _ HP).
Qed.

Lemma calculateTermUpdates_same_fields localKey remoteKey :
  same_fields localKey remoteKey ->
  SyncManager.calculateTermUpdates localKey remoteKey = PartialTerm.empty.
Proof.
  intros (Hc & Hr & Hm & t & Ht & HP).
  unfold SyncManager.calculateTermUpdates.
  rewrite Hc, Hr, Hm, Ht. rewrite !String.eqb_refl.
  apply tags_differ_false_iff in HP. rewrite HP.
  rewrite !andb_false_r. reflexivity.
Qed.

(** *** The update records of a plan *)

Lemma In_dict_get {V} (m : JS.dict V) k v :
  NoDup (JS.keys m) -> (In (k, v) m <-> JS.get k m = Some v).
Proof.
  induction m as [|[k' v'] m IH]; simpl; intros HN.
  - split; [intros [] | discriminate].
  - inversion HN as [|? ? Hk' HN']; subst.
    destruct (String.eqb_spec k k') as [->|Hne].
    + split.
      * intros [E|Hin]; [now injection E as -> |].
        exfalso. apply Hk'. change k' with (fst (k', v)). now apply in_map.
      * intros E. injection E as ->. now left.
    + rewrite <- (IH HN'). split.
      * intros [E|Hin]; [injection E as -> ->; congruence | exact Hin].
      * intros Hin. now right.
Qed.

Lemma Map_of_NoDup {V} (es : list (string * V)) : NoDup (JS.keys (JS.Map_of es)).
Proof. rewrite keys_Map_of. apply Set_of_NoDup. Qed.

Lemma updateTerms_flat_map localKeys remoteTerms rt options :
  SyncPlan.updateTerms
    (SyncManager.calculateSyncPlan localKeys remoteTerms rt options)
  = flat_map (update_of (remoteKeyMap_of remoteTerms)) (localKeyMap_of localKeys).
Proof.
  unfold SyncManager.calculateSyncPlan. simpl.
  fold (localKeyMap_of localKeys). fold (remoteKeyMap_of remoteTerms).
  set (L := localKeyMap_of localKeys). set (R := remoteKeyMap_of remoteTerms).
  assert (E : forall a0,
    SyncManager.acc_update
      (if SyncManager.deleteExtraneous options
       then fold_left (SyncManager.remote_step L rt options) R a0 else a0)
    = SyncManager.acc_update a0).
  { intros a0. destruct (SyncManager.deleteExtraneous options); [|reflexivity].
    apply fold_remote_lists. }
  rewrite E, fold_local_update.
  destruct (fold_init_lists (SyncManager.includeLangs options)
              (SyncManager.mkAcc [] [] [] [] [])) as (_ & H2 & _).
  now rewrite H2.
Qed.

(** An update record is emitted for a key exactly when the key is local
    and remote and [calculateTermUpdates] stored at least one field. *)
Lemma update_record_iff localKeys remoteTerms rt options key u :
  In (SyncPlan.mkUpdate key u)
     (SyncPlan.updateTerms
        (SyncManager.calculateSyncPlan localKeys remoteTerms rt options))
  <-> exists localKey remoteKey,
        JS.get key (localKeyMap_of localKeys) = Some localKey /\
        JS.get key (remoteKeyMap_of remoteTerms) = Some remoteKey /\
        u = SyncManager.calculateTermUpdates localKey remoteKey /\
        (0 < PartialTerm.keys_length u)%nat.
Proof.
  rewrite updateTerms_flat_map, in_flat_map. split.
  - intros [[k lk] [Hin Hu]]. unfold update_of in Hu. simpl in Hu.
    destruct (JS.get k (remoteKeyMap_of remoteTerms)) as [rk|] eqn:G; [|destruct Hu].
    destruct (0 <? _)%nat eqn:Hlen; [|destruct Hu].
    destruct Hu as [Hu|[]]. injection Hu as -> <-.
    exists lk, rk. repeat split; try assumption.
    + apply In_dict_get; [apply Map_of_NoDup | exact Hin].
    + now apply Nat.ltb_lt.
  - intros (lk & rk & HL & HR & -> & Hlen).
    exists (key, lk). split.
    + apply In_dict_get; [apply Map_of_NoDup | exact HL].
    + unfold update_of. simpl. rewrite HR.
      apply Nat.ltb_lt in Hlen. rewrite Hlen. now left.
Qed.

(** C5 (as the code has it).  For a local key whose identifier exists
    remotely, the update record holds exactly the fields whose recomputed
    value is present (defined and not the empty string) and differs from
    the remote one: context, reference and comment by string inequality,
    tags by inequality up to reordering (the stored tags are the sorted
    ones).  A field whose recomputed value is absent is left out even when
    the remote value differs.  An update record is emitted for the key
    exactly when it holds at least one field. *)
Theorem term_updates_exact :
  forall localKey remoteKey,
    let u := SyncManager.calculateTermUpdates localKey remoteKey in
    (forall c, PartialTerm.context u = Some c <->
               SyncManager.extractContext localKey = Some c /\
               c <> POEditorTermResponse.context remoteKey) /\
    (forall r, PartialTerm.reference u = Some r <->
               SyncManager.extractReference localKey = r /\ r <> "" /\
               r <> POEditorTermResponse.reference remoteKey) /\
    (forall t, PartialTerm.tags u = Some t <->
               exists t0, SyncManager.extractTags localKey = Some t0 /\
                          ~ Permutation t0 (POEditorTermResponse.tags remoteKey) /\
                          t = JS.sort t0) /\
    (forall c, PartialTerm.comment u = Some c <->
               SyncManager.generateComment localKey = Some c /\
               c <> POEditorTermResponse.comment remoteKey) /\
    PartialTerm.term u = None /\
    PartialTerm.plural u = None /\
    (forall localKeys remoteTerms rt options key,
        JS.get key (localKeyMap_of localKeys) = Some localKey ->
        JS.get key (remoteKeyMap_of remoteTerms) = Some remoteKey ->
        let plan := SyncManager.calculateSyncPlan localKeys remoteTerms rt options in
        (PartialTerm.keys_length u = 0%nat ->
         ~ In key (map SyncPlan.term (SyncPlan.updateTerms plan))) /\
        ((0 < PartialTerm.keys_length u)%nat ->
         In (SyncPlan.mkUpdate key u) (SyncPlan.updateTerms plan))).
Proof.
  intros localKey remoteKey u.
  destruct (calculateTermUpdates_fields localKey remoteKey)
    as (Ht & Hp & Hc & Hr & Hg & Hm).
  fold u in Ht, Hp, Hc, Hr, Hg, Hm.
  split; [|split; [|split; [|split; [|split; [exact Ht|split; [exact Hp|]]]]]].
  - intros c. rewrite Hc. split.
    + destruct (SyncManager.extractContext localKey) as [c'|]; [|discriminate].
      destruct (JS.truthy c' && _) eqn:E; [|discriminate].
      intros H. injection H as ->. split; [reflexivity|].
      apply andb_true_iff in E. destruct E as [_ E].
      apply negb_true_iff in E. now apply String.eqb_neq.
    + intros [E Hne]. rewrite E.
      assert (T : JS.truthy c = true).
      { apply truthy_true_iff. exact (extractContext_nonempty _ _ E). }
      apply String.eqb_neq in Hne. now rewrite T, Hne.
  - intros r. rewrite Hr. split.
    + destruct (JS.truthy _ && _) eqn:E; [|discriminate].
      intros H. injection H as <-. apply andb_true_iff in E. destruct E as [E1 E2].
      apply truthy_true_iff in E1. apply negb_true_iff in E2.
      apply String.eqb_neq in E2. auto.
    + intros (<- & Hne & Hne').
      apply truthy_true_iff in Hne. apply String.eqb_neq in Hne'.
      now rewrite Hne, Hne'.
  - intros t. rewrite Hg. split.
    + destruct (SyncManager.extractTags localKey) as [t0|]; [|discriminate].
      destruct (SyncManager.tags_differ t0 _) eqn:E; [|discriminate].
      intros H. injection H as <-. exists t0. repeat split.
      now apply tags_differ_true_iff.
    + intros (t0 & E & HP & ->). rewrite E.
      apply tags_differ_true_iff in HP. now rewrite HP.
  - intros c. rewrite Hm. split.
    + destruct (SyncManager.generateComment localKey) as [c'|]; [|discriminate].
      destruct (JS.truthy c' && _) eqn:E; [|discriminate].
      intros H. injection H as ->. split; [reflexivity|].
      apply andb_true_iff in E. destruct E as [_ E].
      apply negb_true_iff in E. now apply String.eqb_neq.
    + intros [E Hne]. rewrite E.
      assert (T : JS.truthy c = true).
      { apply truthy_true_iff. exact (generateComment_nonempty _ _ E). }
      apply String.eqb_neq in Hne. now rewrite T, Hne.
  - intros localKeys remoteTerms rt options key HL HR plan. split.
    + intros Hlen Hin. apply in_map_iff in Hin. destruct Hin as [[k u'] [Hk Hin]].
      simpl in Hk. subst k. apply update_record_iff in Hin.
      destruct Hin as (lk & rk & HL' & HR' & -> & Hpos).
      rewrite HL in HL'. rewrite HR in HR'.
      assert (Elk : lk = localKey) by congruence.
      assert (Erk : rk = remoteKey) by congruence.
      subst lk rk. fold u in Hpos. lia.
    + intros Hpos. apply update_record_iff. exists localKey, remoteKey. auto.
Qed.

(** The local key [b], used in a page, against the annotated remote record
    [b]: the recomputed reference and tags differ, and the record is part
    of the plan. *)
Lemma term_updates_exact_witness :
  JS.get "b" (localKeyMap_of [Samples.key_b]) = Some Samples.key_b /\
  JS.get "b" (remoteKeyMap_of [Samples.term_b_annotated])
  = Some Samples.term_b_annotated /\
  (0 < PartialTerm.keys_length
         (SyncManager.calculateTermUpdates Samples.key_b Samples.term_b_annotated))%nat /\
  In (SyncPlan.mkUpdate "b"
        (SyncManager.calculateTermUpdates Samples.key_b Samples.term_b_annotated))
     (SyncPlan.updateTerms
        (SyncManager.calculateSyncPlan [Samples.key_b] [Samples.term_b_annotated]
           [] Samples.opts_keep_de)).
Proof.
  assert (Hpos : (0 < PartialTerm.keys_length
                        (SyncManager.calculateTermUpdates Samples.key_b
                           Samples.term_b_annotated))%nat).
  { vm_compute. lia. }
  split; [reflexivity|]. split; [reflexivity|]. split; [exact Hpos|].
  exact (proj2 (proj2 (proj2 (proj2 (proj2 (proj2 (proj2
           (term_updates_exact Samples.key_b Samples.term_b_annotated))))))
           [Samples.key_b] [Samples.term_b_annotated] []
           Samples.opts_keep_de "b" eq_refl eq_refl) Hpos).
Defined.

(** C5 as stated fails: the bare key [b] recomputes no context, the empty
    reference and no comment, all three different from what the remote
    record holds, and still no field is stored and no update record is
    emitted. *)
Lemma term_updates_counterexample :
  differs (SyncManager.extractContext Samples.key_bare)
          (POEditorTermResponse.context Samples.term_b_annotated) /\
  differs (Some (SyncManager.extractReference Samples.key_bare))
          (POEditorTermResponse.reference Samples.term_b_annotated) /\
  differs (SyncManager.generateComment Samples.key_bare)
          (POEditorTermResponse.comment Samples.term_b_annotated) /\
  SyncManager.calculateTermUpdates Samples.key_bare Samples.term_b_annotated
  = PartialTerm.empty /\
  SyncPlan.updateTerms
    (SyncManager.calculateSyncPlan [Samples.key_bare] [Samples.term_b_annotated]
       [] Samples.opts_keep_de) = [].
Proof.
  unfold differs. repeat split; try discriminate; reflexivity.
Qed.

(** C8.  Permuting the tag array of a remote record never changes what
    [calculateTermUpdates] stores; when the derived fields of the local
    key are those of the remote record up to the order of the tags, the
    record holds no field and the plan has no update record for the key;
    and the tag test itself is invariant under reordering of either
    side. *)
Theorem tag_order_irrelevant :
  forall localKey remoteKey tags',
    Permutation (POEditorTermResponse.tags remoteKey) tags' ->
    SyncManager.calculateTermUpdates localKey (with_tags remoteKey tags')
    = SyncManager.calculateTermUpdates localKey remoteKey /\
    (same_fields localKey remoteKey ->
     SyncManager.calculateTermUpdates localKey (with_tags remoteKey tags')
     = PartialTerm.empty /\
     forall localKeys remoteTerms rt options key,
       JS.get key (localKeyMap_of localKeys) = Some localKey ->
       JS.get key (remoteKeyMap_of remoteTerms) = Some (with_tags remoteKey tags') ->
       ~ In key (map SyncPlan.term
                   (SyncPlan.updateTerms
                      (SyncManager.calculateSyncPlan localKeys remoteTerms rt options)))) /\
    (forall a a' b b',
        Permutation a a' -> Permutation b b' ->
        SyncManager.tags_differ a b = SyncManager.tags_differ a' b').
Proof.
  intros localKey remoteKey tags' HP.
  assert (E := calculateTermUpdates_with_tags localKey remoteKey tags' HP).
  split; [exact E|]. split.
  - intros Hsame.
    assert (E0 : SyncManager.calculateTermUpdates localKey (with_tags remoteKey tags')
                 = PartialTerm.empty).
    { rewrite E. now apply calculateTermUpdates_same_fields. }
    split; [exact E0|].
    intros localKeys remoteTerms rt options key HL HR Hin.
    apply in_map_iff in Hin. destruct Hin as [[k u'] [Hk Hin]].
    simpl in Hk. subst k. apply update_record_iff in Hin.
    destruct Hin as (lk & rk & HL' & HR' & -> & Hpos).
    rewrite HL in HL'. rewrite HR in HR'.
    assert (Elk : lk = localKey) by congruence.
    assert (Erk : rk = with_tags remoteKey tags') by congruence.
    subst lk rk. rewrite E0 in Hpos.
    unfold PartialTerm.empty, PartialTerm.keys_length in Hpos. simpl in Hpos. lia.
  - intros a a' b b' Ha Hb. unfold SyncManager.tags_differ.
    now rewrite (sort_of_perm _ _ Ha), (sort_of_perm _ _ Hb).
Qed.

(** The synced record [a] with its tags reordered once more. *)
Lemma tag_order_irrelevant_witness :
  Permutation (POEditorTermResponse.tags Samples.term_a_synced)
              ["usage:$t"; "components"; "vue3"] /\
  same_fields Samples.key_a Samples.term_a_synced /\
  SyncManager.calculateTermUpdates Samples.key_a
    (with_tags Samples.term_a_synced ["usage:$t"; "components"; "vue3"])
  = PartialTerm.empty.
Proof.
  assert (HP : Permutation (POEditorTermResponse.tags Samples.term_a_synced)
                           ["usage:$t"; "components"; "vue3"]).
  { simpl. apply perm_swap. }
  assert (HS : same_fields Samples.key_a Samples.term_a_synced).
  { repeat split. exists ["vue3"; "usage:$t"; "components"]. split; [reflexivity|].
    simpl. apply Permutation_rev. }
  split; [exact HP|]. split; [exact HS|].
  exact (proj1 (proj1 (proj2
           (tag_order_irrelevant Samples.key_a Samples.term_a_synced
              ["usage:$t"; "components"; "vue3"] HP)) HS)).
Defined.

(* ===================================================================== *)
(** ** The rate-limited executor *)
(* ===================================================================== *)

Section ExecutorFacts.
Variable env : Env.
Context {T : Type}.
Variables (op : M World T) (minDelay : Z).

Lemma loop_success fuel attempt w r w1 :
  op w = (Ok r, w1) ->
  POEditorClient.withRateLimit_loop env (S fuel) op minDelay attempt w
  = (Ok r, after_wait minDelay w1).
Proof.
  intros H. simpl. unfold try_catch, bind. rewrite H. reflexivity.
Qed.

Lemma loop_diverge fuel attempt w w1 :
  op w = (Diverge, w1) ->
  POEditorClient.withRateLimit_loop env (S fuel) op minDelay attempt w
  = (Diverge, w1).
Proof.
  intros H. simpl. unfold try_catch, bind. rewrite H. reflexivity.
Qed.

Lemma loop_surface fuel attempt w err w1 :
  op w = (Throw err, w1) ->
  POEditorClient.retryable err attempt = false ->
  POEditorClient.withRateLimit_loop env (S fuel) op minDelay attempt w
  = (Throw (PlainError (POEditorClient.surfaced_message err)), w1).
Proof.
  intros H Hr. simpl. unfold try_catch, bind. rewrite H, Hr. reflexivity.
Qed.

Lemma loop_retry fuel attempt w err w1 :
  op w = (Throw err, w1) ->
  POEditorClient.retryable err attempt = true ->
  POEditorClient.withRateLimit_loop env (S fuel) op minDelay attempt w
  = POEditorClient.withRateLimit_loop env fuel op minDelay (attempt + 1)%Z
      (after_wait
         (POEditorClient.waitMs minDelay (POEditorClient.err_retryAfterMs err)
            attempt (jitter_at env w1))
         (after_random w1)).
Proof.
  intros H Hr. simpl. unfold try_catch, bind. rewrite H, Hr. reflexivity.
Qed.

Lemma retryable_bound err attempt :
  (POEditorClient.maxRetries <= attempt)%Z ->
  POEditorClient.retryable err attempt = false.
Proof.
  intros H. unfold POEditorClient.retryable.
  apply andb_false_iff. right. apply Z.ltb_ge. exact H.
Qed.

(** The loop ends within [maxRetries - attempt + 1] iterations: more fuel
    changes nothing. *)
Lemma withRateLimit_loop_fuel k :
  forall fuel attempt w,
    (POEditorClient.maxRetries - Z.of_nat k <= attempt)%Z ->
    (k < fuel)%nat ->
    POEditorClient.withRateLimit_loop env fuel op minDelay attempt w
    = POEditorClient.withRateLimit_loop env (S k) op minDelay attempt w.
Proof.
  induction k as [|k IH]; intros fuel attempt w Ha Hf;
    (destruct fuel as [|fuel]; [lia|]);
    destruct (op w) as [[r|err|] w1] eqn:E.
  - now rewrite !(loop_success _ _ _ _ _ E).
  - assert (Hr : POEditorClient.retryable err attempt = false).
    { apply retryable_bound. lia. }
    now rewrite !(loop_surface _ _ _ _ _ E Hr).
  - now rewrite !(loop_diverge _ _ _ _ E).
  - now rewrite !(loop_success _ _ _ _ _ E).
  - destruct (POEditorClient.retryable err attempt) eqn:Hr.
    + rewrite !(loop_retry _ _ _ _ _ E Hr). apply IH; lia.
    + now rewrite !(loop_surface _ _ _ _ _ E Hr).
  - now rewrite !(loop_diverge _ _ _ _ E).
Qed.

(** The loop has an outcome whenever the operation has one. *)
Lemma withRateLimit_loop_total k :
  (forall w, fst (op w) <> Diverge) ->
  forall attempt w,
    (POEditorClient.maxRetries - Z.of_nat k <= attempt)%Z ->
    fst (POEditorClient.withRateLimit_loop env (S k) op minDelay attempt w)
    <> Diverge.
Proof.
  intros Hop. induction k as [|k IH]; intros attempt w Ha;
    destruct (op w) as [[r|err|] w1] eqn:E;
    try (exfalso; apply (Hop w); now rewrite E).
  - rewrite (loop_success _ _ _ _ _ E). discriminate.
  - rewrite (loop_surface _ _ _ _ _ E); [discriminate|].
    apply retryable_bound. lia.
  - rewrite (loop_success _ _ _ _ _ E). discriminate.
  - destruct (POEditorClient.retryable err attempt) eqn:Hr.
    + rewrite (loop_retry _ _ _ _ _ E Hr). apply IH. lia.
    + rewrite (loop_surface _ _ _ _ _ E Hr). discriminate.
Qed.

(** An error that leaves the executor is the surfaced form of an error of
    the operation. *)
Lemma withRateLimit_loop_throws fuel :
  forall attempt w e w',
    POEditorClient.withRateLimit_loop env fuel op minDelay attempt w = (Throw e, w') ->
    exists err, e = PlainError (POEditorClient.surfaced_message err).
Proof.
  induction fuel as [|fuel IH]; intros attempt w e w' H; [discriminate|].
  destruct (op w) as [[r|err|] w1] eqn:E.
  - rewrite (loop_success _ _ _ _ _ E) in H. discriminate.
  - destruct (POEditorClient.retryable err attempt) eqn:Hr.
    + rewrite (loop_retry _ _ _ _ _ E Hr) in H. eapply IH. exact H.
    + rewrite (loop_surface _ _ _ _ _ E Hr) in H. injection H as <- _. eauto.
  - rewrite (loop_diverge _ _ _ _ E) in H. discriminate.
Qed.

End ExecutorFacts.

Lemma retryable_iff err attempt :
  POEditorClient.retryable err attempt = true <->
  (exists m s h, err = ApiError m (Some s) h /\ (s = 429 \/ s = 503)%Z) /\
  (attempt < 5)%Z.
Proof.
  unfold POEditorClient.retryable, POEditorClient.maxRetries.
  rewrite andb_true_iff, orb_true_iff, Z.ltb_lt.
  split; intros [H1 H2]; (split; [|exact H2]).
  - destruct err as [m [s|] h| |]; simpl in H1;
      try (destruct H1; discriminate).
    exists m, s, h. split; [reflexivity|].
    rewrite !Z.eqb_eq in H1. exact H1.
  - destruct H1 as (m & s & h & -> & Hs). simpl. rewrite !Z.eqb_eq. exact Hs.
Qed.

Lemma jitter_range env w :
  random_in_unit env -> (0 <= jitter_at env w < 5000)%Z.
Proof.
  intros H. unfold jitter_at. specialize (H (randoms w)).
  assert (Hd : (0 < random_den)%Z) by (unfold random_den; lia).
  split.
  - apply Z.div_pos; lia.
  - apply Z.div_lt_upper_bound; lia.
Qed.

(** *** Traces *)

Lemma extends_refl P w : extends P w w.
Proof. exists []. split; [now rewrite app_nil_r | constructor]. Qed.

Lemma extends_trans P w1 w2 w3 :
  extends P w1 w2 -> extends P w2 w3 -> extends P w1 w3.
Proof.
  intros (e1 & H1 & F1) (e2 & H2 & F2). exists (e1 ++ e2). split.
  - now rewrite H2, H1, app_assoc.
  - apply Forall_app. auto.
Qed.

Lemma extends_event P w e req rnd uid :
  P e -> extends P w (mkWorld (trace w ++ [e]) req rnd uid).
Proof. intros H. exists [e]. split; [reflexivity | now constructor]. Qed.

Lemma extends_counters P w req rnd uid :
  extends P w (mkWorld (trace w) req rnd uid).
Proof. exists []. split; [simpl; now rewrite app_nil_r | constructor]. Qed.

Lemma new_events_app w w' evs :
  trace w' = trace w ++ evs -> new_events w w' = evs.
Proof.
  intros H. unfold new_events. rewrite H, skipn_app, skipn_all, Nat.sub_diag.
  reflexivity.
Qed.

Lemma count_calls_app e1 e2 :
  count_calls (e1 ++ e2) = (count_calls e1 + count_calls e2)%nat.
Proof.
  unfold count_calls, calls_of. now rewrite flat_map_app, length_app.
Qed.

Lemma count_calls_call c l : count_calls (EvCall c :: l) = S (count_calls l).
Proof. reflexivity. Qed.

Lemma count_calls_wait ms l : count_calls (EvWait ms :: l) = count_calls l.
Proof. reflexivity. Qed.

Section ExecutorTraces.
Variable env : Env.
Context {T : Type}.
Variables (op : M World T) (minDelay : Z).

Lemma withRateLimit_loop_extends (P : Event -> Prop) :
  (forall ms, P (EvWait ms)) ->
  (forall w, extends P w (snd (op w))) ->
  forall fuel attempt w,
    extends P w
      (snd (POEditorClient.withRateLimit_loop env fuel op minDelay attempt w)).
Proof.
  intros HW Hop. induction fuel as [|fuel IH]; intros attempt w.
  - apply extends_refl.
  - specialize (Hop w). destruct (op w) as [[r|err|] w1] eqn:E; simpl in Hop.
    + rewrite (loop_success _ _ _ _ _ _ _ _ E). simpl.
      eapply extends_trans; [exact Hop | apply extends_event, HW].
    + destruct (POEditorClient.retryable err attempt) eqn:Hr.
      * rewrite (loop_retry _ _ _ _ _ _ _ _ E Hr).
        eapply extends_trans; [exact Hop|].
        eapply extends_trans; [|apply IH].
        unfold after_wait, after_random. simpl. apply extends_event, HW.
      * rewrite (loop_surface _ _ _ _ _ _ _ _ E Hr). exact Hop.
    + rewrite (loop_diverge _ _ _ _ _ _ _ E). exact Hop.
Qed.

Lemma one_call_run w :
  one_call op ->
  exists c, trace (snd (op w)) = trace w ++ [EvCall c] /\ fst (op w) <> Diverge.
Proof.
  intros H. destruct (H w) as [c [H1 H2]]. exists c. now rewrite H1.
Qed.

(** With an operation that performs one call per invocation, the calls
    of a run of the loop count its iterations: between one and
    [maxRetries - attempt + 1]. *)
Lemma withRateLimit_loop_calls k :
  one_call op ->
  forall attempt w,
    (POEditorClient.maxRetries - Z.of_nat k <= attempt)%Z ->
    exists evs,
      trace (snd (POEditorClient.withRateLimit_loop env (S k) op minDelay attempt w))
      = trace w ++ evs /\
      (1 <= count_calls evs <= S k)%nat.
Proof.
  intros H1. induction k as [|k IH]; intros attempt w Ha;
    destruct (one_call_run w H1) as [c [Hc Hd]];
    destruct (op w) as [[r|err|] w1] eqn:E; simpl in Hc, Hd;
    try (now contradiction Hd).
  - rewrite (loop_success _ _ _ _ _ _ _ _ E). simpl. rewrite Hc, <- app_assoc.
    eexists. split; [reflexivity|]. simpl. unfold count_calls. simpl. lia.
  - rewrite (loop_surface _ _ _ _ _ _ _ _ E); [|apply retryable_bound; lia].
    simpl. rewrite Hc. eexists. split; [reflexivity|].
    unfold count_calls. simpl. lia.
  - rewrite (loop_success _ _ _ _ _ _ _ _ E). simpl. rewrite Hc, <- app_assoc.
    eexists. split; [reflexivity|]. simpl. unfold count_calls. simpl. lia.
  - destruct (POEditorClient.retryable err attempt) eqn:Hr.
    + rewrite (loop_retry _ _ _ _ _ _ _ _ E Hr).
      edestruct (IH (attempt + 1)%Z) as [evs [He Hn]]; [lia|].
      rewrite He. simpl. rewrite Hc, <- !app_assoc.
      eexists. split; [reflexivity|].
      simpl. rewrite count_calls_call, count_calls_wait. lia.
    + rewrite (loop_surface _ _ _ _ _ _ _ _ E Hr).
      simpl. rewrite Hc. eexists. split; [reflexivity|].
      unfold count_calls. simpl. lia.
Qed.

(** Against an operation that is throttled every time, the loop gives up
    after [maxRetries - attempt + 1] invocations with one error that
    carries the status. *)
Lemma withRateLimit_loop_exhaustion k :
  one_call op -> always_throttled op ->
  forall attempt w,
    (attempt = POEditorClient.maxRetries - Z.of_nat k)%Z ->
    exists m w' evs,
      POEditorClient.withRateLimit_loop env (S k) op minDelay attempt w
      = (Throw (PlainError ("POEditor API error (status 429): " ++ m)), w') /\
      trace w' = trace w ++ evs /\
      count_calls evs = S k.
Proof.
  intros H1 HT. induction k as [|k IH]; intros attempt w Ha;
    destruct (one_call_run w H1) as [c [Hc _]];
    destruct (HT w) as (m & h & w1 & E); rewrite E in Hc; simpl in Hc.
  - rewrite (loop_surface _ _ _ _ _ _ _ _ E); [|apply retryable_bound; lia].
    exists m, w1, [EvCall c]. repeat split; assumption.
  - assert (Hr : POEditorClient.retryable (ApiError m (Some 429%Z) h) attempt = true).
    { apply retryable_iff. split; [|unfold POEditorClient.maxRetries in Ha; lia].
      exists m, 429%Z, h. auto. }
    rewrite (loop_retry _ _ _ _ _ _ _ _ E Hr).
    edestruct (IH (attempt + 1)%Z) as (m' & w' & evs & He & Ht & Hn); [lia|].
    rewrite He. exists m', w'. eexists. split; [reflexivity|].
    rewrite Ht. simpl. rewrite Hc, <- !app_assoc. split; [reflexivity|].
    simpl. rewrite count_calls_call, count_calls_wait, Hn. reflexivity.
Qed.

End ExecutorTraces.

Lemma request_one_call env c : one_call (request env c).
Proof.
  intros w. exists c. unfold request.
  destruct (server env (requests w) c); simpl; split; (reflexivity || discriminate).
Qed.

Lemma addTerms_one_call env pid batch :
  one_call (POEditorClient.addTerms env pid batch).
Proof.
  intros w. exists (CallAddTerms pid batch).
  unfold POEditorClient.addTerms, bind, ret, request.
  destruct (server env (requests w) _); simpl; split; (reflexivity || discriminate).
Qed.

Lemma updateTerms_one_call env pid batch :
  one_call (POEditorClient.updateTerms env pid batch).
Proof.
  intros w. exists (CallUpdateTerms pid batch).
  unfold POEditorClient.updateTerms, bind, ret, request.
  destruct (server env (requests w) _); simpl; split; (reflexivity || discriminate).
Qed.

Lemma deleteTerms_one_call env pid batch :
  one_call (POEditorClient.deleteTerms env pid batch).
Proof.
  intros w. exists (CallDeleteTerms pid batch).
  unfold POEditorClient.deleteTerms, bind, ret, request.
  destruct (server env (requests w) _); simpl; split; (reflexivity || discriminate).
Qed.

(** C3 (as the code has it).  The executor retries only a failure whose
    status is 429 or 503, and only while fewer than 5 retries were made,
    so the operation is invoked at most 6 times; before a retry it waits
    [max(minDelay, hint)] when the service sent a retry hint and
    [max(minDelay, min(60000, minDelay * 2^attempt))] otherwise, plus a
    jitter in [[0, 5000)]; any other failure is surfaced at once; and an
    operation throttled on each of its 6 invocations ends in one error
    whose message carries the status. *)
Theorem rate_limit_retry_policy :
  forall env (T : Type) (op : M World T) (minDelay : Z),
    random_in_unit env ->
    (forall err attempt,
        POEditorClient.retryable err attempt = true <->
        (exists m s h, err = ApiError m (Some s) h /\ (s = 429 \/ s = 503)%Z) /\
        (attempt < 5)%Z) /\
    (forall fuel attempt w,
        match op w with
        | (Ok r, w1) =>
            POEditorClient.withRateLimit_loop env (S fuel) op minDelay attempt w
            = (Ok r, after_wait minDelay w1)
        | (Throw err, w1) =>
            if POEditorClient.retryable err attempt then
              POEditorClient.withRateLimit_loop env (S fuel) op minDelay attempt w
              = POEditorClient.withRateLimit_loop env fuel op minDelay (attempt + 1)%Z
                  (after_wait
                     (Z.max minDelay
                        (match POEditorClient.err_retryAfterMs err with
                         | Some hint => hint
                         | None => Z.min 60000 (minDelay * 2 ^ attempt)
                         end) + jitter_at env w1)%Z
                     (after_random w1)) /\
              (0 <= jitter_at env w1 < 5000)%Z
            else
              POEditorClient.withRateLimit_loop env (S fuel) op minDelay attempt w
              = (Throw (PlainError (POEditorClient.surfaced_message err)), w1)
        | (Diverge, w1) =>
            POEditorClient.withRateLimit_loop env (S fuel) op minDelay attempt w
            = (Diverge, w1)
        end) /\
    (forall fuel w,
        (6 <= fuel)%nat ->
        POEditorClient.withRateLimit_loop env fuel op minDelay 0%Z w
        = POEditorClient.withRateLimit env op minDelay w) /\
    ((forall w, fst (op w) <> Diverge) ->
     forall w, fst (POEditorClient.withRateLimit env op minDelay w) <> Diverge) /\
    (one_call op ->
     forall w, exists evs,
       trace (snd (POEditorClient.withRateLimit env op minDelay w)) = trace w ++ evs /\
       (1 <= count_calls evs <= 6)%nat) /\
    (one_call op -> always_throttled op ->
     forall w, exists m w' evs,
       POEditorClient.withRateLimit env op minDelay w
       = (Throw (PlainError ("POEditor API error (status 429): " ++ m)), w') /\
       trace w' = trace w ++ evs /\
       count_calls evs = 6%nat).
Proof.
  intros env T op minDelay Hrand.
  split; [intros; apply retryable_iff|].
  split.
  { intros fuel attempt w. destruct (op w) as [[r|err|] w1] eqn:E.
    - now apply loop_success.
    - destruct (POEditorClient.retryable err attempt) eqn:Hr.
      + split; [|now apply jitter_range].
        now rewrite (loop_retry _ _ _ _ _ _ _ _ E Hr).
      + now apply loop_surface.
    - now apply loop_diverge. }
  split.
  { intros fuel w Hf. unfold POEditorClient.withRateLimit.
    apply (withRateLimit_loop_fuel env op minDelay 5);
      [unfold POEditorClient.maxRetries|]; lia. }
  split.
  { intros Hop w. unfold POEditorClient.withRateLimit.
    apply (withRateLimit_loop_total env op minDelay 5 Hop).
    unfold POEditorClient.maxRetries. lia. }
  split.
  { intros H1 w. unfold POEditorClient.withRateLimit.
    apply (withRateLimit_loop_calls env op minDelay 5 H1).
    unfold POEditorClient.maxRetries. lia. }
  intros H1 HT w. unfold POEditorClient.withRateLimit.
  apply (withRateLimit_loop_exhaustion env op minDelay 5 H1 HT).
  reflexivity.
Qed.

(** Against a service that throttles every request, one error surfaces
    after six invocations. *)
Lemma rate_limit_retry_policy_witness :
  random_in_unit Samples.env_throttling /\
  one_call (POEditorClient.addTerms Samples.env_throttling "project_id"
              [Samples.term_named "a"]) /\
  always_throttled (POEditorClient.addTerms Samples.env_throttling "project_id"
                      [Samples.term_named "a"]) /\
  exists m w' evs,
    POEditorClient.withRateLimit Samples.env_throttling
      (POEditorClient.addTerms Samples.env_throttling "project_id"
         [Samples.term_named "a"]) 20000 initial_world
    = (Throw (PlainError ("POEditor API error (status 429): " ++ m)), w') /\
    trace w' = trace initial_world ++ evs /\
    count_calls evs = 6%nat.
Proof.
  assert (Hrand : random_in_unit Samples.env_throttling).
  { intros n. simpl. unfold random_den. lia. }
  assert (H1 : one_call (POEditorClient.addTerms Samples.env_throttling "project_id"
                           [Samples.term_named "a"])).
  { apply addTerms_one_call. }
  assert (HT : always_throttled
                 (POEditorClient.addTerms Samples.env_throttling "project_id"
                    [Samples.term_named "a"])).
  { intros w. eexists _, _, _. reflexivity. }
  split; [exact Hrand|]. split; [exact H1|]. split; [exact HT|].
  exact (proj2 (proj2 (proj2 (proj2 (proj2
           (rate_limit_retry_policy Samples.env_throttling _
              (POEditorClient.addTerms Samples.env_throttling "project_id"
                 [Samples.term_named "a"]) 20000 Hrand))))) H1 HT initial_world).
Defined.

(** C3 as stated fails.  Against a service that throttles five requests
    in a row (asking for 2 s) and accepts the sixth, with a spacing of
    1 s and no jitter: the operation is invoked six times and its result
    is returned, no error surfaces; and the third retry waits 2000 ms,
    where [max(minDelay, hint, minDelay * 2^attempt)] is 4000 ms.  Without
    a hint and with the default spacing of 20 s the third retry waits
    60000 ms, where that formula gives 80000 ms. *)
Lemma rate_limit_counterexample :
  let run :=
    POEditorClient.withRateLimit (Samples.env_throttling_first 5)
      (POEditorClient.addTerms (Samples.env_throttling_first 5) "project_id"
         [Samples.term_named "a"]) 1000 initial_world in
  fst run = Ok (POEditorClient.mkAdd 1 1) /\
  count_calls (trace (snd run)) = 6%nat /\
  waits_of (trace (snd run)) = [2000; 2000; 2000; 2000; 2000; 1000]%Z /\
  nth 2 (waits_of (trace (snd run))) 0%Z <> claimed_waitMs 1000 (Some 2000%Z) 2 0 /\
  POEditorClient.waitMs 20000 None 2 0 = 60000%Z /\
  claimed_waitMs 20000 None 2 0 = 80000%Z.
Proof.
  vm_compute. repeat split; try reflexivity. discriminate.
Qed.

(* ===================================================================== *)
(** ** The batch orchestrator *)
(* ===================================================================== *)

Lemma slice_chunk {T} (items : list T) (n : nat) (B : Z) :
  (1 <= B)%Z -> (n < length items)%nat ->
  JS.slice items (Z.of_nat n) (Z.of_nat n + B)
  = firstn (Z.to_nat B) (skipn n items).
Proof.
  intros HB Hn. unfold JS.slice, JS.clamp_index.
  destruct (Z.ltb_spec (Z.of_nat n) 0); [lia|].
  destruct (Z.ltb_spec (Z.of_nat n + B) 0); [lia|].
  rewrite (Z.min_l (Z.of_nat n)) by lia. rewrite Nat2Z.id.
  destruct (Z.le_ge_cases (Z.of_nat n + B) (Z.of_nat (length items))) as [H1|H1].
  - rewrite Z.min_l by lia. f_equal. lia.
  - rewrite Z.min_r by lia.
    assert (E : Z.to_nat (Z.of_nat (length items) - Z.of_nat n)
                = length (skipn n items)) by (rewrite length_skipn; lia).
    rewrite E, firstn_all. symmetry. apply firstn_all2.
    rewrite length_skipn. lia.
Qed.

Section Chunks.
Context {T : Type}.
Variable b : nat.
Hypothesis b_pos : (1 <= b)%nat.

Lemma chunks_fuel_enough f1 :
  forall f2 (l : list T),
    (length l <= f1)%nat -> (length l <= f2)%nat ->
    chunks_fuel f1 b l = chunks_fuel f2 b l.
Proof.
  induction f1 as [|f1 IH]; intros f2 l H1 H2.
  - destruct l; [|cbn [length] in H1; lia]. destruct f2; reflexivity.
  - destruct l as [|x l]; [destruct f2; reflexivity|].
    destruct f2 as [|f2]; [cbn [length] in H2; lia|].
    cbn [chunks_fuel]. f_equal.
    assert (Hl : (length (skipn b (x :: l)) <= length l)%nat).
    { rewrite length_skipn. cbn [length]. lia. }
    cbn [length] in H1, H2. apply IH; lia.
Qed.

Lemma chunks_cons x (l : list T) :
  chunks b (x :: l) = firstn b (x :: l) :: chunks b (skipn b (x :: l)).
Proof.
  unfold chunks. cbn [length chunks_fuel]. f_equal.
  apply chunks_fuel_enough; [|lia]. rewrite length_skipn. cbn [length]. lia.
Qed.

Lemma ceil_div_zero : ceil_div 0 b = 0%nat.
Proof. unfold ceil_div. apply Nat.div_small. lia. Qed.

Lemma ceil_div_step n :
  (1 <= n)%nat -> ceil_div n b = S (ceil_div (n - b) b).
Proof.
  intros Hn. unfold ceil_div. destruct (le_lt_dec n b) as [H|H].
  - replace (n - b)%nat with 0%nat by lia.
    rewrite (Nat.div_small (0 + b - 1) b) by lia.
    symmetry. apply (Nat.div_unique _ _ 1 (n - 1)); lia.
  - replace (n + b - 1)%nat with ((n - b + b - 1) + 1 * b)%nat by lia.
    rewrite Nat.div_add by lia. lia.
Qed.

(** [ceil_div n b] is the ceiling of [n / b]. *)
Lemma ceil_div_bounds n :
  (n <= ceil_div n b * b /\ ceil_div n b * b < n + b)%nat.
Proof.
  unfold ceil_div.
  pose proof (Nat.div_mod_eq (n + b - 1) b) as E.
  pose proof (Nat.mod_upper_bound (n + b - 1) b ltac:(lia)) as U.
  nia.
Qed.

Lemma chunks_length (l : list T) :
  length (chunks b l) = ceil_div (length l) b.
Proof.
  remember (length l) as n eqn:En. revert l En.
  induction n as [n IH] using lt_wf_ind. intros l En.
  destruct l as [|x l].
  - subst n. symmetry. apply ceil_div_zero.
  - rewrite chunks_cons. cbn [length].
    rewrite (ceil_div_step n) by (subst n; cbn [length]; lia). f_equal.
    apply (IH (n - b)%nat).
    + subst n. cbn [length]. lia.
    + rewrite length_skipn. now subst n.
Qed.

Lemma chunks_concat (l : list T) : concat (chunks b l) = l.
Proof.
  remember (length l) as n eqn:En. revert l En.
  induction n as [n IH] using lt_wf_ind. intros l En.
  destruct l as [|x l]; [reflexivity|].
  rewrite chunks_cons. simpl concat.
  rewrite (IH (length (skipn b (x :: l)))).
  - apply firstn_skipn.
  - subst n. rewrite length_skipn. cbn [length]. lia.
  - reflexivity.
Qed.

Lemma chunks_sizes (l : list T) :
  Forall (fun c => (1 <= length c <= b)%nat) (chunks b l).
Proof.
  remember (length l) as n eqn:En. revert l En.
  induction n as [n IH] using lt_wf_ind. intros l En.
  destruct l as [|x l]; [constructor|].
  rewrite chunks_cons. constructor.
  - rewrite length_firstn. cbn [length]. lia.
  - apply (IH (length (skipn b (x :: l)))); [|reflexivity].
    subst n. rewrite length_skipn. cbn [length]. lia.
Qed.

End Chunks.

Lemma for_each_length {T R} (f : T -> M World R) (l : list T) :
  forall w rs w', for_each f l w = (Ok rs, w') -> length rs = length l.
Proof.
  induction l as [|x l IH]; intros w rs w' H; simpl in H.
  - unfold ret in H. now injection H as <- _.
  - unfold bind in H. destruct (f x w) as [[r|e|] w1]; try discriminate.
    destruct (for_each f l w1) as [[rs1|e|] w2] eqn:E; try discriminate.
    unfold ret in H. injection H as <- _. simpl. f_equal. eapply IH, E.
Qed.

Section BatchFacts.
Variable env : Env.
Context {T R : Type}.
Variables (items : list T) (op : list T -> M World R) (batchSize delay : Z).

(** Without items the loop body never runs, whatever the batch size. *)
Lemma batchOperation_empty fuel w :
  items = [] ->
  POEditorClient.batchOperation env (S fuel) items op batchSize delay w = (Ok [], w).
Proof. intros ->. reflexivity. Qed.

Hypothesis size_pos : (1 <= batchSize)%Z.

(** The loop from item [n] on: the remaining chunks, one executor run
    each, in order. *)
Lemma batchOperation_loop_for_each fuel :
  forall n results w,
    (length (skipn n items) < fuel)%nat ->
    POEditorClient.batchOperation_loop env fuel items op batchSize delay
      (Z.of_nat n) results w
    = match for_each (fun c => POEditorClient.withRateLimit env (op c) delay)
              (chunks (Z.to_nat batchSize) (skipn n items)) w with
      | (Ok rs, w') => (Ok (results ++ rs), w')
      | (Throw e, w') => (Throw e, w')
      | (Diverge, w') => (Diverge, w')
      end.
Proof.
  induction fuel as [|fuel IH]; intros n results w Hf; [lia|].
  cbn [POEditorClient.batchOperation_loop].
  destruct (Z.ltb_spec (Z.of_nat n) (Z.of_nat (length items))) as [Hn|Hn].
  - assert (Hn' : (n < length items)%nat) by lia.
    rewrite (slice_chunk items n batchSize size_pos Hn').
    destruct (skipn n items) as [|x rest] eqn:Es.
    { apply (f_equal (@length T)) in Es. rewrite length_skipn in Es.
      simpl in Es. lia. }
    rewrite (chunks_cons (Z.to_nat batchSize) ltac:(lia)).
    cbn [for_each]. unfold bind, ret.
    destruct (POEditorClient.withRateLimit env
                (op (firstn (Z.to_nat batchSize) (x :: rest))) delay w)
      as [[r|e|] w1]; try reflexivity.
    replace (Z.of_nat n + batchSize)%Z
      with (Z.of_nat (n + Z.to_nat batchSize)) by lia.
    assert (Hs : skipn (n + Z.to_nat batchSize) items
                 = skipn (Z.to_nat batchSize) (x :: rest)).
    { rewrite <- Es, skipn_skipn. f_equal. lia. }
    rewrite IH.
    + rewrite Hs.
      destruct (for_each _ (chunks (Z.to_nat batchSize)
                              (skipn (Z.to_nat batchSize) (x :: rest))) w1)
        as [[rs|e|] w2]; try reflexivity.
      now rewrite <- app_assoc.
    + rewrite Hs, length_skipn. cbn [length] in *. lia.
  - rewrite skipn_all2 by lia.
    unfold chunks. simpl. unfold ret. now rewrite app_nil_r.
Qed.

Lemma batchOperation_for_each fuel w :
  (length items < fuel)%nat ->
  POEditorClient.batchOperation env fuel items op batchSize delay w
  = for_each (fun c => POEditorClient.withRateLimit env (op c) delay)
      (chunks (Z.to_nat batchSize) items) w.
Proof.
  intros Hf. unfold POEditorClient.batchOperation.
  change 0%Z with (Z.of_nat 0).
  rewrite batchOperation_loop_for_each by (simpl; exact Hf).
  simpl skipn.
  destruct (for_each _ (chunks (Z.to_nat batchSize) items) w) as [[rs|e|] w'];
    reflexivity.
Qed.

(** When no invocation fails, each chunk costs one invocation and one
    spacing delay. *)
Lemma once_is_withRateLimit (o : M World R) w r w' :
  once_then_wait o delay w = (Ok r, w') ->
  POEditorClient.withRateLimit env o delay w = (Ok r, w').
Proof.
  unfold once_then_wait, bind, ret, sleep, modify. intros H.
  destruct (o w) as [[r0|e|] w1] eqn:E; try discriminate.
  injection H as <- <-. unfold POEditorClient.withRateLimit.
  now rewrite (loop_success env o delay _ _ _ _ _ E).
Qed.

Lemma for_each_once (cs : list (list T)) :
  forall w rs w',
    for_each (fun c => once_then_wait (op c) delay) cs w = (Ok rs, w') ->
    for_each (fun c => POEditorClient.withRateLimit env (op c) delay) cs w
    = (Ok rs, w').
Proof.
  induction cs as [|c cs IH]; intros w rs w' H; [exact H|].
  cbn [for_each] in *. unfold bind at 1 in H. unfold bind at 1.
  destruct (once_then_wait (op c) delay w) as [[r|e|] w1] eqn:E; try discriminate.
  rewrite (once_is_withRateLimit _ _ _ _ E).
  unfold bind in H. unfold bind.
  destruct (for_each (fun c => once_then_wait (op c) delay) cs w1)
    as [[rs1|e|] w2] eqn:E1; try discriminate.
  now rewrite (IH _ _ _ E1).
Qed.

Lemma for_each_accepted (cs : list (list T)) :
  always_accepted op ->
  forall w, exists rs w' evs,
    for_each (fun c => POEditorClient.withRateLimit env (op c) delay) cs w
    = (Ok rs, w') /\
    trace w' = trace w ++ evs /\
    count_calls evs = length cs.
Proof.
  intros Hacc. induction cs as [|c cs IH]; intros w.
  - exists [], w, []. repeat split. simpl. now rewrite app_nil_r.
  - destruct (Hacc c w) as (r & call & E).
    destruct (IH (after_wait delay
                    (mkWorld (trace w ++ [EvCall call]) (S (requests w))
                       (randoms w) (uuids w)))) as (rs & w' & evs & E1 & Ht & Hn).
    exists (r :: rs), w', (EvCall call :: EvWait delay :: evs).
    cbn [for_each]. unfold bind at 1. unfold POEditorClient.withRateLimit at 1.
    rewrite (loop_success env (op c) delay _ _ _ _ _ E).
    unfold bind. rewrite E1. unfold ret. split; [reflexivity|]. split.
    + rewrite Ht. simpl. now rewrite <- !app_assoc.
    + rewrite count_calls_call, count_calls_wait, Hn. reflexivity.
Qed.

End BatchFacts.


Lemma for_each_has_outcome {T R} (f : T -> M World R) (l : list T) :
  (forall x w, fst (f x w) <> Diverge) ->
  forall w, fst (for_each f l w) <> Diverge.
Proof.
  intros Hf. induction l as [|x l IH]; intros w; simpl; [discriminate|].
  unfold bind, ret. specialize (Hf x w).
  destruct (f x w) as [[r|e|] w1]; simpl in *; try discriminate; [|contradiction].
  specialize (IH w1). destruct (for_each f l w1) as [[rs|e|] w2]; simpl in *;
    try discriminate. contradiction.
Qed.

(** With a batch size of at least 1 and an operation that has an outcome,
    the orchestrator has one. *)
Lemma batchOperation_has_outcome env {T R} (items : list T)
    (op : list T -> M World R) batchSize delay fuel w :
  (1 <= batchSize)%Z -> (length items < fuel)%nat ->
  (forall batch w0, fst (op batch w0) <> Diverge) ->
  fst (POEditorClient.batchOperation env fuel items op batchSize delay w) <> Diverge.
Proof.
  intros HB Hf Hop.
  rewrite (batchOperation_for_each env items op batchSize delay HB fuel w Hf).
  apply for_each_has_outcome. intros c w0.
  unfold POEditorClient.withRateLimit.
  apply (withRateLimit_loop_total env (op c) delay 5 (Hop c)).
  unfold POEditorClient.maxRetries. lia.
Qed.

(** C6 (as the code has it).  Without items the orchestrator invokes
    nothing and returns the empty list.  For a batch size of at least 1
    it cuts the items into [ceil(N/B)] consecutive chunks of at most [B]
    items, in order, and runs the rate-limited executor once per chunk,
    in order, appending each result in the same order and stopping at the
    first run that fails; when no invocation of the operation fails, the
    operation is invoked exactly once per chunk, [ceil(N/B)] times in
    all. *)
Theorem batch_orchestrator_chunks :
  forall env (T R : Type) (items : list T) (op : list T -> M World R)
         (batchSize delay : Z) (fuel : nat) (w : World),
    (items = [] ->
     POEditorClient.batchOperation env (S fuel) items op batchSize delay w
     = (Ok [], w)) /\
    ((1 <= batchSize)%Z -> (length items < fuel)%nat ->
     let b := Z.to_nat batchSize in
     let cs := chunks b items in
     POEditorClient.batchOperation env fuel items op batchSize delay w
     = for_each (fun c => POEditorClient.withRateLimit env (op c) delay) cs w /\
     length cs = ceil_div (length items) b /\
     (length items <= ceil_div (length items) b * b < length items + b)%nat /\
     concat cs = items /\
     Forall (fun c => (1 <= length c <= b)%nat) cs /\
     (forall rs w',
         for_each (fun c => once_then_wait (op c) delay) cs w = (Ok rs, w') ->
         POEditorClient.batchOperation env fuel items op batchSize delay w
         = (Ok rs, w') /\
         length rs = ceil_div (length items) b) /\
     (always_accepted op ->
      exists rs w',
        POEditorClient.batchOperation env fuel items op batchSize delay w
        = (Ok rs, w') /\
        length rs = ceil_div (length items) b /\
        count_calls (new_events w w') = ceil_div (length items) b)).
Proof.
  intros env T R items op batchSize delay fuel w. split.
  - apply batchOperation_empty.
  - intros HB Hf b cs.
    assert (Hb : (1 <= b)%nat) by (unfold b; lia).
    assert (E := batchOperation_for_each env items op batchSize delay HB fuel w Hf).
    fold b in E. fold cs in E.
    assert (L : length cs = ceil_div (length items) b)
      by (apply chunks_length; exact Hb).
    split; [exact E|]. split; [exact L|].
    split; [apply ceil_div_bounds; exact Hb|].
    split; [apply chunks_concat; exact Hb|].
    split; [apply chunks_sizes; exact Hb|].
    split.
    + intros rs w' H. rewrite E.
      pose proof (for_each_once env op delay cs w rs w' H) as H'.
      split; [exact H'|]. rewrite <- L. eapply for_each_length, H'.
    + intros Hacc.
      destruct (for_each_accepted env op delay cs Hacc w)
        as (rs & w' & evs & E1 & Ht & Hn).
      exists rs, w'. rewrite E. split; [exact E1|]. split.
      * rewrite <- L. eapply for_each_length, E1.
      * rewrite (new_events_app _ _ _ Ht), Hn. exact L.
Qed.

Lemma addTerms_accepted pid :
  always_accepted (fun batch => POEditorClient.addTerms Samples.env_accepting pid batch).
Proof. intros batch w. eexists _, _. reflexivity. Qed.

(** Twenty-five additions in batches of ten against a service that
    accepts everything: three invocations, three results. *)
Lemma batch_orchestrator_chunks_witness :
  (1 <= 10)%Z /\
  (length Samples.additions_25 < 26)%nat /\
  always_accepted
    (fun batch => POEditorClient.addTerms Samples.env_accepting "project_id" batch) /\
  ceil_div (length Samples.additions_25) (Z.to_nat 10) = 3%nat /\
  exists rs w',
    POEditorClient.batchOperation Samples.env_accepting 26 Samples.additions_25
      (fun batch => POEditorClient.addTerms Samples.env_accepting "project_id" batch)
      10 20000 initial_world = (Ok rs, w') /\
    length rs = ceil_div (length Samples.additions_25) (Z.to_nat 10) /\
    count_calls (new_events initial_world w')
    = ceil_div (length Samples.additions_25) (Z.to_nat 10).
Proof.
  assert (H1 : (1 <= 10)%Z) by lia.
  assert (H2 : (length Samples.additions_25 < 26)%nat) by (simpl; lia).
  split; [exact H1|]. split; [exact H2|].
  split; [apply addTerms_accepted|]. split; [reflexivity|].
  exact (proj2 (proj2 (proj2 (proj2 (proj2 (proj2
           (proj2 (batch_orchestrator_chunks Samples.env_accepting _ _
                     Samples.additions_25
                     (fun batch =>
                        POEditorClient.addTerms Samples.env_accepting "project_id" batch)
                     10 20000 26 initial_world) H1 H2))))))
           (addTerms_accepted "project_id")).
Defined.

(** C6 as stated fails.  One item, batch size 1, and a service that
    throttles the first request and accepts the second: the orchestrator
    returns the one result, and the per-batch operation was invoked twice,
    not [ceil(1/1) = 1] times. *)
Lemma batch_orchestrator_counterexample :
  let env := Samples.env_throttling_first 1 in
  let run :=
    POEditorClient.batchOperation env 5 [Samples.term_named "a"]
      (fun batch => POEditorClient.addTerms env "project_id" batch)
      1 1000 initial_world in
  fst run = Ok [POEditorClient.mkAdd 1 1] /\
  calls_of (trace (snd run))
  = [CallAddTerms "project_id" [Samples.term_named "a"];
     CallAddTerms "project_id" [Samples.term_named "a"]] /\
  count_calls (trace (snd run)) = 2%nat /\
  ceil_div 1 1 = 1%nat.
Proof. vm_compute. repeat split; reflexivity. Qed.

(** With a batch size of 0 the loop index never advances: on a non-empty
    list the orchestrator has no outcome, whatever the fuel. *)
Lemma batchOperation_zero_size_never_returns fuel :
  forall results w,
    fst (POEditorClient.batchOperation_loop Samples.env_accepting fuel
           [Samples.term_named "a"]
           (fun batch =>
              POEditorClient.addTerms Samples.env_accepting "project_id" batch)
           0 1000 0%Z results w) = Diverge.
Proof.
  induction fuel as [|fuel IH]; intros results w; [reflexivity|].
  cbn [POEditorClient.batchOperation_loop].
  change (0 <? Z.of_nat (length [Samples.term_named "a"]))%Z with true.
  cbv iota. unfold bind, POEditorClient.withRateLimit.
  set (o := POEditorClient.addTerms Samples.env_accepting "project_id" _).
  assert (E : exists r w1, o w = (Ok r, w1)) by (eexists _, _; reflexivity).
  destruct E as (r & w1 & E).
  rewrite (loop_success Samples.env_accepting o 1000 _ _ _ _ _ E).
  apply IH.
Qed.

(* ===================================================================== *)
(** ** The execution coordinator *)
(* ===================================================================== *)

Section CoordinatorFacts.
Variable env : Env.
Variables (fuel : nat) (options : SyncManager.SyncExecutionOptions).

(** The three phases, in terms of the batch run they start. *)
Lemma add_phase_run r w :
  SyncManager.add_phase env fuel options (r, w)
  = if (0 <? length (SyncPlan.addTerms (SyncManager.plan options)))%nat then
      match POEditorClient.batchOperation env fuel
              (SyncPlan.addTerms (SyncManager.plan options))
              (fun batch => POEditorClient.addTerms env "project_id" batch)
              (SyncManager.batchSize options)
              (SyncManager.rateLimit options * 1000)%Z w with
      | (Ok results, w1) =>
          (Ok tt,
           (SyncManager.add_rateLimitWaits (Z.of_nat (length results))
              (SyncManager.set_created
                 (SyncManager.sum_by POEditorClient.added results) r), w1))
      | (Throw e, w1) => (Throw e, (r, w1))
      | (Diverge, w1) => (Diverge, (r, w1))
      end
    else (Ok tt, (r, w)).
Proof.
  unfold SyncManager.add_phase.
  destruct (0 <? _)%nat; [|reflexivity].
  unfold bind, lift. simpl.
  destruct (POEditorClient.batchOperation _ _ _ _ _ _ w) as [[results|e|] w1];
    reflexivity.
Qed.

Lemma update_phase_run r w :
  SyncManager.update_phase env fuel options (r, w)
  = if (0 <? length (SyncPlan.updateTerms (SyncManager.plan options)))%nat then
      match POEditorClient.batchOperation env fuel
              (SyncPlan.updateTerms (SyncManager.plan options))
              (fun batch => POEditorClient.updateTerms env "project_id" batch)
              (SyncManager.batchSize options)
              (SyncManager.rateLimit options * 1000)%Z w with
      | (Ok results, w1) =>
          (Ok tt,
           (SyncManager.add_rateLimitWaits (Z.of_nat (length results))
              (SyncManager.set_updated
                 (SyncManager.sum_by POEditorClient.updated results) r), w1))
      | (Throw e, w1) => (Throw e, (r, w1))
      | (Diverge, w1) => (Diverge, (r, w1))
      end
    else (Ok tt, (r, w)).
Proof.
  unfold SyncManager.update_phase.
  destruct (0 <? _)%nat; [|reflexivity].
  unfold bind, lift. simpl.
  destruct (POEditorClient.batchOperation _ _ _ _ _ _ w) as [[results|e|] w1];
    reflexivity.
Qed.

Lemma delete_phase_run r w :
  SyncManager.delete_phase env fuel options (r, w)
  = if (0 <? length (SyncPlan.deleteTerms (SyncManager.plan options)))%nat then
      match POEditorClient.batchOperation env fuel
              (SyncPlan.deleteTerms (SyncManager.plan options))
              (fun batch => POEditorClient.deleteTerms env "project_id" batch)
              (SyncManager.batchSize options)
              (SyncManager.rateLimit options * 1000)%Z w with
      | (Ok results, w1) =>
          (Ok tt,
           (SyncManager.add_rateLimitWaits (Z.of_nat (length results))
              (SyncManager.set_deleted
                 (SyncManager.sum_by POEditorClient.deleted results) r), w1))
      | (Throw e, w1) => (Throw e, (r, w1))
      | (Diverge, w1) => (Diverge, (r, w1))
      end
    else (Ok tt, (r, w)).
Proof.
  unfold SyncManager.delete_phase.
  destruct (0 <? _)%nat; [|reflexivity].
  unfold bind, lift. simpl.
  destruct (POEditorClient.batchOperation _ _ _ _ _ _ w) as [[results|e|] w1];
    reflexivity.
Qed.

Lemma mt_phase_run s :
  exists r', SyncManager.mt_phase options s = (Ok tt, (r', snd s)) /\
             SyncManager.errors r' = SyncManager.errors (fst s).
Proof.
  unfold SyncManager.mt_phase.
  destruct (SyncManager.mt_truthy _ && _); simpl.
  - eexists. split; reflexivity.
  - exists (fst s). destruct s. split; reflexivity.
Qed.

Lemma add_phase_ok : phase_ok (SyncManager.add_phase env fuel options).
Proof.
  intros [r w]. rewrite add_phase_run.
  destruct (0 <? _)%nat; [|reflexivity].
  destruct (POEditorClient.batchOperation _ _ _ _ _ _ w) as [[results|e|] w1];
    (reflexivity || exact I).
Qed.

Lemma update_phase_ok : phase_ok (SyncManager.update_phase env fuel options).
Proof.
  intros [r w]. rewrite update_phase_run.
  destruct (0 <? _)%nat; [|reflexivity].
  destruct (POEditorClient.batchOperation _ _ _ _ _ _ w) as [[results|e|] w1];
    (reflexivity || exact I).
Qed.

Lemma delete_phase_ok : phase_ok (SyncManager.delete_phase env fuel options).
Proof.
  intros [r w]. rewrite delete_phase_run.
  destruct (0 <? _)%nat; [|reflexivity].
  destruct (POEditorClient.batchOperation _ _ _ _ _ _ w) as [[results|e|] w1];
    (reflexivity || exact I).
Qed.

(** The [try] block of a live run, phase by phase. *)
Lemma executeSync_live w :
  SyncManager.dryRun options = false ->
  let result0 := empty_result (uuid env (uuids w)) in
  SyncManager.executeSync env fuel options w
  = match SyncManager.add_phase env fuel options (result0, after_uuid w) with
    | (Throw e, s1) => (Ok (caught e (fst s1)), snd s1)
    | (Diverge, s1) => (Diverge, snd s1)
    | (Ok _, s1) =>
        match SyncManager.update_phase env fuel options s1 with
        | (Throw e, s2) => (Ok (caught e (fst s2)), snd s2)
        | (Diverge, s2) => (Diverge, snd s2)
        | (Ok _, s2) =>
            match SyncManager.delete_phase env fuel options s2 with
            | (Throw e, s3) => (Ok (caught e (fst s3)), snd s3)
            | (Diverge, s3) => (Diverge, snd s3)
            | (Ok _, s3) =>
                match SyncManager.mt_phase options s3 with
                | (Ok _, s4) => (Ok (fst s4), snd s4)
                | (Throw e, s4) => (Ok (caught e (fst s4)), snd s4)
                | (Diverge, s4) => (Diverge, snd s4)
                end
            end
        end
    end.
Proof.
  intros Hdry result0.
  unfold SyncManager.executeSync, bind at 1, uuidv4. rewrite Hdry.
  fold (after_uuid w). fold (empty_result (uuid env (uuids w))). fold result0.
  unfold caught.
  unfold try_catch, bind, SyncManager.sync_handler, SyncManager.update_result, modify.
  destruct (SyncManager.add_phase env fuel options (result0, after_uuid w))
    as [[[]|e|] [r1 w1]]; try reflexivity.
  destruct (SyncManager.update_phase env fuel options (r1, w1))
    as [[[]|e|] [r2 w2]]; try reflexivity.
  destruct (SyncManager.delete_phase env fuel options (r2, w2))
    as [[[]|e|] [r3 w3]]; try reflexivity.
  destruct (SyncManager.mt_phase options (r3, w3))
    as [[[]|e|] [r4 w4]]; reflexivity.
Qed.

End CoordinatorFacts.

Lemma one_call_has_outcome {T} (op : M World T) :
  one_call op -> forall w, fst (op w) <> Diverge.
Proof. intros H w. destruct (H w) as [c [_ Hd]]. exact Hd. Qed.

Section CoordinatorOutcome.
Variable env : Env.
Variables (fuel : nat) (options : SyncManager.SyncExecutionOptions).
Hypothesis size_pos : (1 <= SyncManager.batchSize options)%Z.

Lemma add_phase_has_outcome s :
  (length (SyncPlan.addTerms (SyncManager.plan options)) < fuel)%nat ->
  fst (SyncManager.add_phase env fuel options s) <> Diverge.
Proof.
  intros Hf. destruct s as [r w]. rewrite add_phase_run.
  destruct (0 <? _)%nat; [|discriminate].
  pose proof (batchOperation_has_outcome env
                (SyncPlan.addTerms (SyncManager.plan options))
                (fun batch => POEditorClient.addTerms env "project_id" batch)
                (SyncManager.batchSize options)
                (SyncManager.rateLimit options * 1000)%Z fuel w size_pos Hf
                (fun batch =>
                   one_call_has_outcome _ (addTerms_one_call env "project_id" batch)))
    as H.
  destruct (POEditorClient.batchOperation env fuel _ _ _ _ w) as [[res|e|] w1];
    simpl in *; try discriminate. contradiction.
Qed.

Lemma update_phase_has_outcome s :
  (length (SyncPlan.updateTerms (SyncManager.plan options)) < fuel)%nat ->
  fst (SyncManager.update_phase env fuel options s) <> Diverge.
Proof.
  intros Hf. destruct s as [r w]. rewrite update_phase_run.
  destruct (0 <? _)%nat; [|discriminate].
  pose proof (batchOperation_has_outcome env
                (SyncPlan.updateTerms (SyncManager.plan options))
                (fun batch => POEditorClient.updateTerms env "project_id" batch)
                (SyncManager.batchSize options)
                (SyncManager.rateLimit options * 1000)%Z fuel w size_pos Hf
                (fun batch =>
                   one_call_has_outcome _ (updateTerms_one_call env "project_id" batch)))
    as H.
  destruct (POEditorClient.batchOperation env fuel _ _ _ _ w) as [[res|e|] w1];
    simpl in *; try discriminate. contradiction.
Qed.

Lemma delete_phase_has_outcome s :
  (length (SyncPlan.deleteTerms (SyncManager.plan options)) < fuel)%nat ->
  fst (SyncManager.delete_phase env fuel options s) <> Diverge.
Proof.
  intros Hf. destruct s as [r w]. rewrite delete_phase_run.
  destruct (0 <? _)%nat; [|discriminate].
  pose proof (batchOperation_has_outcome env
                (SyncPlan.deleteTerms (SyncManager.plan options))
                (fun batch => POEditorClient.deleteTerms env "project_id" batch)
                (SyncManager.batchSize options)
                (SyncManager.rateLimit options * 1000)%Z fuel w size_pos Hf
                (fun batch =>
                   one_call_has_outcome _ (deleteTerms_one_call env "project_id" batch)))
    as H.
  destruct (POEditorClient.batchOperation env fuel _ _ _ _ w) as [[res|e|] w1];
    simpl in *; try discriminate. contradiction.
Qed.

(** A live run with a batch size of at least 1 has an outcome. *)
Lemma live_run_has_outcome w :
  SyncManager.dryRun options = false ->
  (length (SyncPlan.addTerms (SyncManager.plan options)) < fuel)%nat ->
  (length (SyncPlan.updateTerms (SyncManager.plan options)) < fuel)%nat ->
  (length (SyncPlan.deleteTerms (SyncManager.plan options)) < fuel)%nat ->
  fst (SyncManager.executeSync env fuel options w) <> Diverge.
Proof.
  intros Hdry Ha Hu Hd. rewrite (executeSync_live env fuel options w Hdry).
  cbv zeta.
  set (s0 := (empty_result (uuid env (uuids w)), after_uuid w)).
  pose proof (add_phase_has_outcome s0 Ha) as A.
  destruct (SyncManager.add_phase env fuel options s0) as [[[]|e1|] s1];
    simpl in A; try discriminate; [|contradiction].
  pose proof (update_phase_has_outcome s1 Hu) as B.
  destruct (SyncManager.update_phase env fuel options s1) as [[[]|e2|] s2];
    simpl in B; try discriminate; [|contradiction].
  pose proof (delete_phase_has_outcome s2 Hd) as C.
  destruct (SyncManager.delete_phase env fuel options s2) as [[[]|e3|] s3];
    simpl in C; try discriminate; [|contradiction].
  destruct (mt_phase_run options s3) as [r' [M _]]. rewrite M. discriminate.
Qed.

End CoordinatorOutcome.

(** A dry run: one identifier drawn, nothing else. *)
Lemma executeSync_dry env fuel options w :
  SyncManager.dryRun options = true ->
  SyncManager.executeSync env fuel options w
  = (Ok (SyncManager.mkResult
           (Z.of_nat (length (SyncPlan.addTerms (SyncManager.plan options))))
           (Z.of_nat (length (SyncPlan.updateTerms (SyncManager.plan options))))
           (Z.of_nat (length (SyncPlan.deleteTerms (SyncManager.plan options))))
           (SyncManager.mt_langs_or (SyncManager.machineTranslate options) [])
           [] 0 (uuid env (uuids w))),
     after_uuid w).
Proof.
  intros Hdry. unfold SyncManager.executeSync, bind, uuidv4. now rewrite Hdry.
Qed.

(** C4.  A dry run returns the sizes of the three plan lists as
    [created], [updated] and [deleted], no error, no rate-limit wait, and
    the identifier [uuidv4()] generates for this invocation; it performs
    no remote call and no wait, and leaves the generator advanced by one,
    so that the next invocation draws the next identifier.  Its
    [mtTriggered] is the directive itself when the directive is a list of
    languages, whatever [stats.missing] is, and the empty list when the
    directive is a boolean, also when it is [true] and translations are
    missing: the dry run does not resolve the directive.  So a list given
    is reported as the rule of the specification resolves it exactly when
    it is empty or [stats.missing] is positive, and a boolean exactly when
    it is [false], [stats.missing] is not positive, or no language has a
    missing translation listed. *)
Theorem dry_run_projects_plan :
  forall env fuel options w,
    SyncManager.dryRun options = true ->
    let p := SyncManager.plan options in
    let mt := SyncManager.machineTranslate options in
    let run := SyncManager.executeSync env fuel options w in
    exists r,
      run = (Ok r, after_uuid w) /\
      SyncManager.created r = Z.of_nat (length (SyncPlan.addTerms p)) /\
      SyncManager.updated r = Z.of_nat (length (SyncPlan.updateTerms p)) /\
      SyncManager.deleted r = Z.of_nat (length (SyncPlan.deleteTerms p)) /\
      SyncManager.errors r = [] /\
      SyncManager.rateLimitWaits r = 0%Z /\
      SyncManager.auditLogId r = uuid env (uuids w) /\
      new_events w (snd run) = [] /\
      requests (snd run) = requests w /\
      uuids (snd run) = S (uuids w) /\
      (forall langs,
          mt = SyncManager.MTLangs langs ->
          SyncManager.mtTriggered r = langs /\
          (SyncManager.mtTriggered r = spec_resolved_languages p mt <->
           langs = [] \/ (0 < SyncPlan.missing (SyncPlan.stats p))%Z)) /\
      (forall b,
          mt = SyncManager.MTBool b ->
          SyncManager.mtTriggered r = [] /\
          (SyncManager.mtTriggered r = spec_resolved_languages p mt <->
           b = false \/ (SyncPlan.missing (SyncPlan.stats p) <= 0)%Z \/
           forall lang bucket,
             In (lang, bucket) (SyncPlan.missingTranslations p) -> bucket = [])).
Proof.
  intros env fuel options w Hdry p mt run.
  eexists. split; [apply executeSync_dry, Hdry|].
  unfold run. rewrite (executeSync_dry env fuel options w Hdry).
  cbn [snd after_uuid requests uuids SyncManager.created SyncManager.updated
       SyncManager.deleted SyncManager.errors SyncManager.rateLimitWaits
       SyncManager.auditLogId SyncManager.mtTriggered].
  do 6 (split; [reflexivity|]).
  split; [unfold new_events; simpl; apply skipn_all|].
  split; [reflexivity|]. split; [reflexivity|].
  fold p mt. split.
  - intros langs ->. cbn [SyncManager.mt_langs_or]. split; [reflexivity|].
    unfold spec_resolved_languages. cbn [SyncManager.mt_truthy andb].
    destruct (0 <? SyncPlan.missing (SyncPlan.stats p))%Z eqn:Ez.
    + apply Z.ltb_lt in Ez. split; [now right | reflexivity].
    + apply Z.ltb_ge in Ez. split; [now left | intros [H|H]; [exact H | lia]].
  - intros b ->. cbn [SyncManager.mt_langs_or]. split; [reflexivity|].
    unfold spec_resolved_languages. cbn [SyncManager.mt_truthy].
    destruct b; cbn [andb]; [|split; [now left | reflexivity]].
    destruct (0 <? SyncPlan.missing (SyncPlan.stats p))%Z eqn:Ez.
    + apply Z.ltb_lt in Ez. split.
      * intros H. right. right. intros lang bucket Hin.
        destruct bucket as [|x bucket]; [reflexivity|]. exfalso.
        assert (Hf : In (lang, x :: bucket)
                       (filter (fun bucket => (0 <? length (snd bucket))%nat)
                               (SyncPlan.missingTranslations p)))
          by (apply filter_In; split; [exact Hin | reflexivity]).
        apply (in_map fst) in Hf. rewrite <- H in Hf. contradiction.
      * intros [H|[H|H]]; [discriminate | lia |].
        assert (Hn : filter (fun bucket => (0 <? length (snd bucket))%nat)
                            (SyncPlan.missingTranslations p) = []).
        { apply no_members_nil. intros [lang bucket] Hin.
          apply filter_In in Hin. destruct Hin as [Hin Hl].
          rewrite (H lang bucket Hin) in Hl. discriminate. }
        now rewrite Hn.
    + apply Z.ltb_ge in Ez. split; [right; now left | reflexivity].
Qed.

(** A dry run of a plan with two additions and one deletion, with the
    directive [true] and two translations missing: no language is
    reported. *)
Lemma dry_run_projects_plan_witness :
  SyncManager.dryRun
    (SyncManager.mkExec
       (SyncPlan.mk [Samples.term_named "a"; Samples.term_named "b"] [] ["c"]
          [("de", ["a"; "b"])] [("de", [])] [] (SyncPlan.mkStats 2 0 1 2))
       100 SyncManager.up (SyncManager.MTBool true) true 20) = true /\
  exists r,
    SyncManager.executeSync Samples.env_unauthorized 0
      (SyncManager.mkExec
         (SyncPlan.mk [Samples.term_named "a"; Samples.term_named "b"] [] ["c"]
            [("de", ["a"; "b"])] [("de", [])] [] (SyncPlan.mkStats 2 0 1 2))
         100 SyncManager.up (SyncManager.MTBool true) true 20) initial_world
    = (Ok r, after_uuid initial_world) /\
    SyncManager.created r = 2%Z /\
    SyncManager.updated r = 0%Z /\
    SyncManager.deleted r = 1%Z /\
    SyncManager.errors r = [] /\
    SyncManager.rateLimitWaits r = 0%Z /\
    SyncManager.auditLogId r = "0" /\
    SyncManager.mtTriggered r = [].
Proof.
  split; [reflexivity|].
  destruct (dry_run_projects_plan Samples.env_unauthorized 0
              (SyncManager.mkExec
                 (SyncPlan.mk [Samples.term_named "a"; Samples.term_named "b"] []
                    ["c"] [("de", ["a"; "b"])] [("de", [])] []
                    (SyncPlan.mkStats 2 0 1 2))
                 100 SyncManager.up (SyncManager.MTBool true) true 20)
              initial_world eq_refl)
    as (r & E & H1 & H2 & H3 & H4 & H5 & H6 & _ & _ & _ & _ & Hb).
  exists r. split; [exact E|].
  split; [exact H1|]. split; [exact H2|]. split; [exact H3|].
  split; [exact H4|]. split; [exact H5|]. split; [exact H6|].
  exact (proj1 (Hb true eq_refl)).
Defined.

(** C4 as stated fails in both directions.  With the directive [true] and
    two translations missing in German, the rule of the specification
    resolves the directive to German, and so does a live run against a
    service that accepts every request, while the dry run reports no
    language.  With the list [fr] given and nothing missing, the rule
    records nothing, and so does the live run, while the dry run reports
    the list. *)
Lemma dry_run_counterexample :
  let missing_de :=
    SyncPlan.mk [Samples.term_named "a"; Samples.term_named "b"] [] ["c"]
      [("de", ["a"; "b"])] [("de", [])] [] (SyncPlan.mkStats 2 0 1 2) in
  let complete :=
    SyncPlan.mk [] [] [] [("de", [])] [("de", [])] [] (SyncPlan.mkStats 0 0 0 0) in
  let run dry p mt :=
    SyncManager.executeSync Samples.env_accepting 5
      (SyncManager.mkExec p 100 SyncManager.up mt dry 20) initial_world in
  (exists r w r' w',
      run true missing_de (SyncManager.MTBool true) = (Ok r, w) /\
      run false missing_de (SyncManager.MTBool true) = (Ok r', w') /\
      SyncManager.mtTriggered r = [] /\
      SyncManager.mtTriggered r' = ["de"] /\
      spec_resolved_languages missing_de (SyncManager.MTBool true) = ["de"]) /\
  (exists r w r' w',
      run true complete (SyncManager.MTLangs ["fr"]) = (Ok r, w) /\
      run false complete (SyncManager.MTLangs ["fr"]) = (Ok r', w') /\
      SyncManager.mtTriggered r = ["fr"] /\
      SyncManager.mtTriggered r' = [] /\
      spec_resolved_languages complete (SyncManager.MTLangs ["fr"]) = []).
Proof.
  split; eexists _, _, _, _;
    (split; [vm_compute; reflexivity|]);
    (split; [vm_compute; reflexivity|]);
    repeat split.
Qed.

(** C9.  In a live run an exception raised by a phase is caught once: the
    run returns normally (it never rethrows), with exactly one entry in
    [errors], whose operation is ["sync"] and whose text is the message of
    the exception; nothing runs after the failing phase (the world is the
    one in which the phase raised); and the result is otherwise the one
    the completed phases had built.  With a batch size of at least 1 the
    run always returns a result. *)
Theorem live_run_catches_once :
  forall env fuel options w,
    SyncManager.dryRun options = false ->
    let s0 := (empty_result (uuid env (uuids w)), after_uuid w) in
    let run := SyncManager.executeSync env fuel options w in
    (forall e, fst run <> Throw e) /\
    (forall e s1,
        SyncManager.add_phase env fuel options s0 = (Throw e, s1) ->
        run = (Ok (caught e (fst s0)), snd s1) /\
        SyncManager.errors (caught e (fst s0))
        = [SyncManager.mkSyncError "sync" None (error_text e)]) /\
    (forall s1 e s2,
        SyncManager.add_phase env fuel options s0 = (Ok tt, s1) ->
        SyncManager.update_phase env fuel options s1 = (Throw e, s2) ->
        run = (Ok (caught e (fst s1)), snd s2) /\
        SyncManager.errors (caught e (fst s1))
        = [SyncManager.mkSyncError "sync" None (error_text e)]) /\
    (forall s1 s2 e s3,
        SyncManager.add_phase env fuel options s0 = (Ok tt, s1) ->
        SyncManager.update_phase env fuel options s1 = (Ok tt, s2) ->
        SyncManager.delete_phase env fuel options s2 = (Throw e, s3) ->
        run = (Ok (caught e (fst s2)), snd s3) /\
        SyncManager.errors (caught e (fst s2))
        = [SyncManager.mkSyncError "sync" None (error_text e)]) /\
    (forall r e,
        SyncManager.created (caught e r) = SyncManager.created r /\
        SyncManager.updated (caught e r) = SyncManager.updated r /\
        SyncManager.deleted (caught e r) = SyncManager.deleted r /\
        SyncManager.rateLimitWaits (caught e r) = SyncManager.rateLimitWaits r /\
        SyncManager.mtTriggered (caught e r) = SyncManager.mtTriggered r /\
        SyncManager.auditLogId (caught e r) = SyncManager.auditLogId r) /\
    (forall r w',
        run = (Ok r, w') ->
        SyncManager.errors r = [] \/
        exists message,
          SyncManager.errors r = [SyncManager.mkSyncError "sync" None message]) /\
    ((1 <= SyncManager.batchSize options)%Z ->
     (length (SyncPlan.addTerms (SyncManager.plan options)) < fuel)%nat ->
     (length (SyncPlan.updateTerms (SyncManager.plan options)) < fuel)%nat ->
     (length (SyncPlan.deleteTerms (SyncManager.plan options)) < fuel)%nat ->
     exists r w', run = (Ok r, w')).
Proof.
  intros env fuel options w Hdry s0 run.
  assert (Hthrow : forall e, fst run <> Throw e).
  { intros e. unfold run.
    rewrite (executeSync_live env fuel options w Hdry). cbv zeta. fold s0.
    destruct (SyncManager.add_phase env fuel options s0) as [[[]|e1|] s1];
      try discriminate.
    destruct (SyncManager.update_phase env fuel options s1) as [[[]|e2|] s2];
      try discriminate.
    destruct (SyncManager.delete_phase env fuel options s2) as [[[]|e3|] s3];
      try discriminate.
    destruct (SyncManager.mt_phase options s3) as [[[]|e4|] s4]; discriminate. }
  assert (Hout :
    (1 <= SyncManager.batchSize options)%Z ->
    (length (SyncPlan.addTerms (SyncManager.plan options)) < fuel)%nat ->
    (length (SyncPlan.updateTerms (SyncManager.plan options)) < fuel)%nat ->
    (length (SyncPlan.deleteTerms (SyncManager.plan options)) < fuel)%nat ->
    exists r w', run = (Ok r, w')).
  { intros HB Ha Hu Hd.
    pose proof (live_run_has_outcome env fuel options HB w Hdry Ha Hu Hd) as Hdiv.
    fold run in Hdiv. destruct run as [[r|e|] w'] eqn:Er.
    - eauto.
    - exfalso. apply (Hthrow e). reflexivity.
    - exfalso. apply Hdiv. reflexivity. }
  assert (E := executeSync_live env fuel options w Hdry). cbv zeta in E.
  fold s0 in E. fold run in E.
  pose proof (add_phase_ok env fuel options s0) as A.
  split; [exact Hthrow|].
  split; [|split; [|split; [|split; [|split; [|exact Hout]]]]]; clear Hthrow Hout.
  - intros e s1 H1. rewrite H1 in E, A. simpl in A.
    rewrite E, A. split; reflexivity.
  - intros s1 e s2 H1 H2. rewrite H1 in E, A. simpl in A.
    pose proof (update_phase_ok env fuel options s1) as B.
    rewrite H2 in E, B. simpl in B. rewrite E, B.
    split; [reflexivity|]. unfold caught. simpl. now rewrite A.
  - intros s1 s2 e s3 H1 H2 H3. rewrite H1 in E, A. simpl in A.
    pose proof (update_phase_ok env fuel options s1) as B.
    rewrite H2 in E, B. simpl in B.
    pose proof (delete_phase_ok env fuel options s2) as C.
    rewrite H3 in E, C. simpl in C. rewrite E, C.
    split; [reflexivity|]. unfold caught. simpl. now rewrite B, A.
  - intros r e. repeat split.
  - intros r w' Hrun. rewrite E in Hrun.
    destruct (SyncManager.add_phase env fuel options s0) as [[[]|e1|] s1];
      simpl in A.
    + pose proof (update_phase_ok env fuel options s1) as B.
      destruct (SyncManager.update_phase env fuel options s1) as [[[]|e2|] s2];
        simpl in B.
      * pose proof (delete_phase_ok env fuel options s2) as C.
        destruct (SyncManager.delete_phase env fuel options s2) as [[[]|e3|] s3];
          simpl in C.
        -- destruct (mt_phase_run options s3) as [r' [M1 M2]].
           rewrite M1 in Hrun. injection Hrun as <- _. left. simpl.
           now rewrite M2, C, B, A.
        -- injection Hrun as <- _. right. eexists. unfold caught. simpl.
           now rewrite C, B, A.
        -- discriminate.
      * injection Hrun as <- _. right. eexists. unfold caught. simpl.
        now rewrite B, A.
      * discriminate.
    + injection Hrun as <- _. right. eexists. unfold caught. simpl. now rewrite A.
    + discriminate.
Qed.

(** The addition is accepted and the update is rejected: the run returns
    with [created = 1], one ["sync"] error, and the deletion is never
    sent. *)
Lemma live_run_catches_once_witness :
  let env := Samples.env_rejecting_after 1 in
  let s0 := (empty_result (uuid env (uuids initial_world)), after_uuid initial_world) in
  let s1 := snd (SyncManager.add_phase env 5 Samples.live_three s0) in
  let s2 := snd (SyncManager.update_phase env 5 Samples.live_three s1) in
  let e := PlainError
             "POEditor API error (status 401): Invalid API token. Check POEditor API token." in
  SyncManager.dryRun Samples.live_three = false /\
  SyncManager.add_phase env 5 Samples.live_three s0 = (Ok tt, s1) /\
  SyncManager.update_phase env 5 Samples.live_three s1 = (Throw e, s2) /\
  SyncManager.executeSync env 5 Samples.live_three initial_world
  = (Ok (caught e (fst s1)), snd s2) /\
  SyncManager.created (caught e (fst s1)) = 1%Z /\
  count_calls (trace (snd s2)) = 2%nat.
Proof.
  intros env s0 s1 s2 e.
  assert (H1 : SyncManager.add_phase env 5 Samples.live_three s0 = (Ok tt, s1)).
  { vm_compute. reflexivity. }
  assert (H2 : SyncManager.update_phase env 5 Samples.live_three s1 = (Throw e, s2)).
  { vm_compute. reflexivity. }
  split; [reflexivity|]. split; [exact H1|]. split; [exact H2|].
  split.
  - exact (proj1 (proj1 (proj2 (proj2
             (live_run_catches_once env 5 Samples.live_three initial_world eq_refl)))
             s1 e s2 H1 H2)).
  - split; vm_compute; reflexivity.
Defined.

(** The scenario of the specification: batch size 10 and 25 pending
    additions give three batches and [rateLimitWaits = 3]; [created] is
    the sum of the counts the service reported (1 per request here). *)
Example scenario_25_additions :
  let run :=
    SyncManager.executeSync Samples.env_accepting 26
      (SyncManager.mkExec
         (SyncPlan.mk Samples.additions_25 [] [] [] [] [] (SyncPlan.mkStats 25 0 0 0))
         10 SyncManager.up (SyncManager.MTBool false) false 20)
      initial_world in
  fst run = Ok (SyncManager.mkResult 3 0 0 [] [] 3 "0") /\
  count_calls (trace (snd run)) = 3%nat /\
  waits_of (trace (snd run)) = [20000; 20000; 20000]%Z.
Proof. vm_compute. repeat split; reflexivity. Qed.

(* ===================================================================== *)
(** ** The project identifier of the remote calls *)
(* ===================================================================== *)

Section BatchTraces.
Variable env : Env.
Context {T R : Type}.
Variables (items : list T) (op : list T -> M World R) (batchSize delay : Z).
Variable P : Event -> Prop.
Hypothesis P_wait : forall ms, P (EvWait ms).
Hypothesis P_op : forall batch w, extends P w (snd (op batch w)).

Lemma batchOperation_loop_extends fuel :
  forall i results w,
    extends P w
      (snd (POEditorClient.batchOperation_loop env fuel items op batchSize delay
              i results w)).
Proof.
  induction fuel as [|fuel IH]; intros i results w; simpl.
  - apply extends_refl.
  - destruct (i <? Z.of_nat (length items))%Z; [|apply extends_refl].
    unfold bind.
    pose proof (withRateLimit_loop_extends env
                  (op (JS.slice items i (i + batchSize))) delay P P_wait
                  (P_op _) 6 0%Z w) as H.
    fold (POEditorClient.withRateLimit env
            (op (JS.slice items i (i + batchSize))) delay) in H.
    destruct (POEditorClient.withRateLimit env _ delay w) as [[r|e|] w1];
      simpl in H; try exact H.
    eapply extends_trans; [exact H | apply IH].
Qed.

End BatchTraces.

Lemma call_extends env c (P : Event -> Prop) w :
  P (EvCall c) -> extends P w (snd (request env c w)).
Proof.
  intros H. unfold request.
  destruct (server env (requests w) c); simpl; now apply extends_event.
Qed.

Section PhaseTraces.
Variable env : Env.
Variables (fuel : nat) (options : SyncManager.SyncExecutionOptions).

Lemma wait_targets ms : targets_project_id (EvWait ms).
Proof. exact I. Qed.

Lemma add_phase_extends s :
  extends targets_project_id (snd s)
    (snd (snd (SyncManager.add_phase env fuel options s))).
Proof.
  destruct s as [r w]. rewrite add_phase_run.
  destruct (0 <? _)%nat; [|apply extends_refl].
  pose proof (batchOperation_loop_extends env
                (SyncPlan.addTerms (SyncManager.plan options))
                (fun batch => POEditorClient.addTerms env "project_id" batch)
                (SyncManager.batchSize options)
                (SyncManager.rateLimit options * 1000)%Z
                targets_project_id wait_targets) as H.
  specialize (H (fun batch w0 =>
    ltac:(unfold POEditorClient.addTerms, bind, ret;
          pose proof (call_extends env (CallAddTerms "project_id" batch)
                        targets_project_id w0 eq_refl) as Hc;
          destruct (request env (CallAddTerms "project_id" batch) w0) as [[c|e|] w1];
          exact Hc)) fuel 0%Z [] w).
  fold (POEditorClient.batchOperation env fuel
          (SyncPlan.addTerms (SyncManager.plan options))
          (fun batch => POEditorClient.addTerms env "project_id" batch)
          (SyncManager.batchSize options)
          (SyncManager.rateLimit options * 1000)%Z) in H.
  destruct (POEditorClient.batchOperation env fuel _ _ _ _ w) as [[res|e|] w1];
    exact H.
Qed.

Lemma update_phase_extends s :
  extends targets_project_id (snd s)
    (snd (snd (SyncManager.update_phase env fuel options s))).
Proof.
  destruct s as [r w]. rewrite update_phase_run.
  destruct (0 <? _)%nat; [|apply extends_refl].
  pose proof (batchOperation_loop_extends env
                (SyncPlan.updateTerms (SyncManager.plan options))
                (fun batch => POEditorClient.updateTerms env "project_id" batch)
                (SyncManager.batchSize options)
                (SyncManager.rateLimit options * 1000)%Z
                targets_project_id wait_targets) as H.
  specialize (H (fun batch w0 =>
    ltac:(unfold POEditorClient.updateTerms, bind, ret;
          pose proof (call_extends env (CallUpdateTerms "project_id" batch)
                        targets_project_id w0 eq_refl) as Hc;
          destruct (request env (CallUpdateTerms "project_id" batch) w0) as [[c|e|] w1];
          exact Hc)) fuel 0%Z [] w).
  fold (POEditorClient.batchOperation env fuel
          (SyncPlan.updateTerms (SyncManager.plan options))
          (fun batch => POEditorClient.updateTerms env "project_id" batch)
          (SyncManager.batchSize options)
          (SyncManager.rateLimit options * 1000)%Z) in H.
  destruct (POEditorClient.batchOperation env fuel _ _ _ _ w) as [[res|e|] w1];
    exact H.
Qed.

Lemma delete_phase_extends s :
  extends targets_project_id (snd s)
    (snd (snd (SyncManager.delete_phase env fuel options s))).
Proof.
  destruct s as [r w]. rewrite delete_phase_run.
  destruct (0 <? _)%nat; [|apply extends_refl].
  pose proof (batchOperation_loop_extends env
                (SyncPlan.deleteTerms (SyncManager.plan options))
                (fun batch => POEditorClient.deleteTerms env "project_id" batch)
                (SyncManager.batchSize options)
                (SyncManager.rateLimit options * 1000)%Z
                targets_project_id wait_targets) as H.
  specialize (H (fun batch w0 =>
    ltac:(unfold POEditorClient.deleteTerms, bind, ret;
          pose proof (call_extends env (CallDeleteTerms "project_id" batch)
                        targets_project_id w0 eq_refl) as Hc;
          destruct (request env (CallDeleteTerms "project_id" batch) w0) as [[c|e|] w1];
          exact Hc)) fuel 0%Z [] w).
  fold (POEditorClient.batchOperation env fuel
          (SyncPlan.deleteTerms (SyncManager.plan options))
          (fun batch => POEditorClient.deleteTerms env "project_id" batch)
          (SyncManager.batchSize options)
          (SyncManager.rateLimit options * 1000)%Z) in H.
  destruct (POEditorClient.batchOperation env fuel _ _ _ _ w) as [[res|e|] w1];
    exact H.
Qed.

End PhaseTraces.

Lemma calls_target_project evs :
  Forall targets_project_id evs ->
  Forall (fun c => call_projectId c = "project_id") (calls_of evs).
Proof.
  induction 1 as [|e evs He _ IH]; simpl; [constructor|].
  destruct e as [c|ms]; simpl; [constructor; assumption | exact IH].
Qed.

(** C10.  Every remote [addTerms], [updateTerms] and [deleteTerms] call of
    an [executeSync] invocation is made with the project identifier
    ['project_id']: the options of the invocation carry no project, and the
    calls do not depend on the one the plan was computed for. *)
Theorem remote_calls_use_constant_project :
  forall env fuel options w,
    exists evs,
      trace (snd (SyncManager.executeSync env fuel options w)) = trace w ++ evs /\
      Forall targets_project_id evs /\
      Forall (fun c => call_projectId c = "project_id") (calls_of evs).
Proof.
  intros env fuel options w.
  assert (H : extends targets_project_id w
                (snd (SyncManager.executeSync env fuel options w))).
  { destruct (SyncManager.dryRun options) eqn:Hdry.
    - rewrite (executeSync_dry env fuel options w Hdry). simpl.
      apply extends_counters.
    - rewrite (executeSync_live env fuel options w Hdry). cbv zeta.
      set (s0 := (empty_result (uuid env (uuids w)), after_uuid w)).
      assert (H0 : extends targets_project_id w (snd s0))
        by apply extends_counters.
      pose proof (add_phase_extends env fuel options s0) as A.
      destruct (SyncManager.add_phase env fuel options s0) as [[[]|e1|] s1];
        simpl in A; try (eapply extends_trans; [exact H0 | exact A]).
      pose proof (update_phase_extends env fuel options s1) as B.
      assert (H1 : extends targets_project_id w (snd s1))
        by (eapply extends_trans; [exact H0 | exact A]).
      destruct (SyncManager.update_phase env fuel options s1) as [[[]|e2|] s2];
        simpl in B; try (eapply extends_trans; [exact H1 | exact B]).
      pose proof (delete_phase_extends env fuel options s2) as C.
      assert (H2 : extends targets_project_id w (snd s2))
        by (eapply extends_trans; [exact H1 | exact B]).
      destruct (SyncManager.delete_phase env fuel options s2) as [[[]|e3|] s3];
        simpl in C; try (eapply extends_trans; [exact H2 | exact C]).
      destruct (mt_phase_run options s3) as [r' [M _]]. rewrite M. simpl.
      eapply extends_trans; [exact H2 | exact C]. }
  destruct H as (evs & H1 & H2). exists evs.
  split; [exact H1|]. split; [exact H2 | now apply calls_target_project].
Qed.

(** The calls of a live run of the three-phase plan against a service that
    accepts everything. *)
Example live_three_calls :
  calls_of (trace (snd (SyncManager.executeSync Samples.env_accepting 5
                          Samples.live_three initial_world)))
  = [CallAddTerms "project_id" (SyncPlan.addTerms Samples.plan_three);
     CallUpdateTerms "project_id" (SyncPlan.updateTerms Samples.plan_three);
     CallDeleteTerms "project_id" (SyncPlan.deleteTerms Samples.plan_three)].
Proof. vm_compute. reflexivity. Qed.

(* ===================================================================== *)
(** ** Diff engine: order, duplicates and the content of the buckets *)
(* ===================================================================== *)

Lemma get_set {V} (k k' : string) (v : V) (m : JS.dict V) :
  JS.get k (JS.set k' v m) = if String.eqb k k' then Some v else JS.get k m.
Proof.
  induction m as [|[k0 v0] m IH]; simpl.
  - reflexivity.
  - destruct (String.eqb_spec k' k0) as [->|Hne]; simpl.
    + destruct (String.eqb k k0); reflexivity.
    + rewrite IH. destruct (String.eqb_spec k k0) as [->|Hne'].
      * destruct (String.eqb_spec k0 k'); [congruence | reflexivity].
      * reflexivity.
Qed.

Lemma find_snoc {A} (p : A -> bool) (l : list A) (x : A) :
  find p (l ++ [x])
  = match find p l with
    | Some y => Some y
    | None => if p x then Some x else None
    end.
Proof.
  induction l as [|y l IH]; simpl; [reflexivity|].
  destruct (p y); [reflexivity | exact IH].
Qed.

Lemma get_fold_set_last {V} (es : list (string * V)) :
  forall (m : JS.dict V) k,
    JS.get k (fold_left (fun m e => JS.set (fst e) (snd e) m) es m)
    = match find (fun e => String.eqb k (fst e)) (rev es) with
      | Some e => Some (snd e)
      | None => JS.get k m
      end.
Proof.
  induction es as [|e es IH]; intros m k; simpl; [reflexivity|].
  rewrite IH, find_snoc, get_set.
  destruct (find _ (rev es)); [reflexivity|].
  destruct (String.eqb k (fst e)); reflexivity.
Qed.

Lemma find_pointwise {A} (p q : A -> bool) (l : list A) :
  (forall a, p a = q a) -> find p l = find q l.
Proof.
  intros H. induction l as [|a l IH]; simpl; [reflexivity|].
  rewrite H, IH. reflexivity.
Qed.

Lemma find_map_pair {A} (f : A -> string) (p : string -> bool) (l : list A) :
  find (fun e => p (fst e)) (map (fun a => (f a, a)) l)
  = option_map (fun a => (f a, a)) (find (fun a => p (f a)) l).
Proof.
  induction l as [|a l IH]; simpl; [reflexivity|].
  destruct (p (f a)); [reflexivity | exact IH].
Qed.

(** A [Map] built from a list of records holds, for an identifier, the
    last record of the list that carries it. *)
Lemma get_Map_of_last {A} (f : A -> string) (l : list A) (k : string) :
  JS.get k (JS.Map_of (map (fun a => (f a, a)) l))
  = find (fun a => f a =? k) (rev l).
Proof.
  unfold JS.Map_of. rewrite get_fold_set_last. simpl.
  rewrite <- map_rev.
  rewrite (find_map_pair f (fun x => String.eqb k x)).
  rewrite (find_pointwise (fun a => String.eqb k (f a)) (fun a => f a =? k))
    by (intros a; apply String.eqb_sym).
  destruct (find _ (rev l)); reflexivity.
Qed.

Lemma map_fst_filter_values {V} (q : string * V -> bool) (m : JS.dict V) :
  NoDup (JS.keys m) ->
  map fst (filter q m)
  = filter (fun k => match JS.get k m with Some v => q (k, v) | None => false end)
           (JS.keys m).
Proof.
  unfold JS.keys. induction m as [|[k v] m IH]; intros HN; [reflexivity|].
  inversion HN as [|? ? Hk HN']; subst.
  cbn [filter map fst JS.get]. rewrite String.eqb_refl.
  assert (E : filter (fun k0 => match (if String.eqb k0 k then Some v else JS.get k0 m)
                                with Some v0 => q (k0, v0) | None => false end)
                     (map fst m)
              = filter (fun k0 => match JS.get k0 m with
                                  | Some v0 => q (k0, v0) | None => false end)
                       (map fst m)).
  { apply filter_ext_in. intros k0 Hin.
    destruct (String.eqb_spec k0 k) as [->|Hne]; [contradiction | reflexivity]. }
  destruct (q (k, v)); cbn [map fst]; rewrite E, <- IH by exact HN'; reflexivity.
Qed.

Lemma updateTerms_keys_filter localKeys remoteTerms rt options :
  map SyncPlan.term
      (SyncPlan.updateTerms
         (SyncManager.calculateSyncPlan localKeys remoteTerms rt options))
  = filter (needs_update localKeys remoteTerms) (JS.Set_of (localIds localKeys)).
Proof.
  rewrite updateTerms_flat_map.
  set (L := localKeyMap_of localKeys). set (R := remoteKeyMap_of remoteTerms).
  assert (E : map SyncPlan.term (flat_map (update_of R) L)
              = map fst (filter (fun e => match JS.get (fst e) R with
                                          | Some r =>
                                              (0 <? PartialTerm.keys_length
                                                      (SyncManager.calculateTermUpdates
                                                         (snd e) r))%nat
                                          | None => false
                                          end) L)).
  { induction L as [|e L IH]; [reflexivity|].
    cbn [flat_map filter]. rewrite map_app, IH. unfold update_of at 1.
    destruct (JS.get (fst e) R); [|reflexivity].
    destruct (0 <? _)%nat; reflexivity. }
  rewrite E, map_fst_filter_values by apply Map_of_NoDup.
  unfold L at 2. unfold localKeyMap_of. rewrite Map_of_keys_eq.
  apply filter_ext. intros k. unfold needs_update. fold L. fold R.
  destruct (JS.get k L); reflexivity.
Qed.

(** X1.  The three lists of a plan follow the order of their source:
    [addTerms] and the keys of [updateTerms] list the distinct local
    identifiers concerned in order of first occurrence in the local list,
    [deleteTerms] the distinct remote identifiers concerned in order of
    first occurrence in the remote list; no list holds an identifier
    twice, whatever duplicates the inputs hold. *)
Theorem plan_lists_in_source_order :
  forall localKeys remoteTerms rt options,
    let plan := SyncManager.calculateSyncPlan localKeys remoteTerms rt options in
    map POEditorTerm.term (SyncPlan.addTerms plan)
    = filter (fun k => negb (JS.includes (remoteIds remoteTerms) k))
             (JS.Set_of (localIds localKeys)) /\
    map SyncPlan.term (SyncPlan.updateTerms plan)
    = filter (needs_update localKeys remoteTerms) (JS.Set_of (localIds localKeys)) /\
    SyncPlan.deleteTerms plan
    = (if SyncManager.deleteExtraneous options
       then filter (fun k => negb (JS.includes (localIds localKeys) k))
                   (JS.Set_of (remoteIds remoteTerms))
       else []) /\
    NoDup (JS.Set_of (localIds localKeys)) /\
    NoDup (JS.Set_of (remoteIds remoteTerms)) /\
    (forall k, In k (JS.Set_of (localIds localKeys)) <-> In k (localIds localKeys)) /\
    NoDup (map POEditorTerm.term (SyncPlan.addTerms plan)) /\
    NoDup (map SyncPlan.term (SyncPlan.updateTerms plan)) /\
    NoDup (SyncPlan.deleteTerms plan).
Proof.
  intros localKeys remoteTerms rt options plan. unfold plan.
  rewrite addTerms_ids, updateTerms_keys_filter, deleteTerms_ids.
  repeat split; try apply Set_of_NoDup; try (apply NoDup_filter, Set_of_NoDup);
    try (apply Set_of_In).
  destruct (SyncManager.deleteExtraneous options);
    [apply NoDup_filter, Set_of_NoDup | constructor].
Qed.

Lemma addTerms_records localKeys remoteTerms rt options :
  SyncPlan.addTerms
    (SyncManager.calculateSyncPlan localKeys remoteTerms rt options)
  = map add_of
      (filter (fun e => negb (JS.has (fst e) (remoteKeyMap_of remoteTerms)))
              (localKeyMap_of localKeys)).
Proof.
  unfold SyncManager.calculateSyncPlan. simpl.
  fold (localKeyMap_of localKeys). fold (remoteKeyMap_of remoteTerms).
  set (L := localKeyMap_of localKeys). set (R := remoteKeyMap_of remoteTerms).
  assert (E : forall a0,
    SyncManager.acc_add
      (if SyncManager.deleteExtraneous options
       then fold_left (SyncManager.remote_step L rt options) R a0 else a0)
    = SyncManager.acc_add a0).
  { intros a0. destruct (SyncManager.deleteExtraneous options); [|reflexivity].
    apply fold_remote_lists. }
  rewrite E, fold_local_add.
  destruct (fold_init_lists (SyncManager.includeLangs options)
              (SyncManager.mkAcc [] [] [] [] [])) as (H1 & _ & _).
  now rewrite H1.
Qed.

Lemma last_local_get key localKeys :
  JS.get key (localKeyMap_of localKeys) = last_local key localKeys.
Proof. apply get_Map_of_last. Qed.

Lemma last_remote_get key remoteTerms :
  JS.get key (remoteKeyMap_of remoteTerms) = last_remote key remoteTerms.
Proof. apply get_Map_of_last. Qed.

(** X2.  When several local keys carry the same identifier, the last one
    decides what is sent: the record added for the identifier, and the
    update computed for it, are derived from the last local key (and the
    last remote term) of that identifier, and no other record of the plan
    carries the identifier. *)
Theorem last_duplicate_wins :
  forall localKeys remoteTerms rt options key localKey,
    last_local key localKeys = Some localKey ->
    let plan := SyncManager.calculateSyncPlan localKeys remoteTerms rt options in
    DetectedKey.key localKey = key /\
    (last_remote key remoteTerms = None ->
     In (add_of (key, localKey)) (SyncPlan.addTerms plan) /\
     forall t, In t (SyncPlan.addTerms plan) -> POEditorTerm.term t = key ->
               t = add_of (key, localKey)) /\
    (forall remoteKey u,
        last_remote key remoteTerms = Some remoteKey ->
        In (SyncPlan.mkUpdate key u) (SyncPlan.updateTerms plan) ->
        u = SyncManager.calculateTermUpdates localKey remoteKey).
Proof.
  intros localKeys remoteTerms rt options key localKey Hlast plan.
  assert (HL : JS.get key (localKeyMap_of localKeys) = Some localKey)
    by (now rewrite last_local_get).
  split.
  { apply find_some in Hlast. destruct Hlast as [_ H]. now apply String.eqb_eq. }
  split.
  - intros Hrem. rewrite <- last_remote_get in Hrem.
    unfold plan. rewrite addTerms_records. split.
    + apply in_map. apply filter_In. split.
      * apply In_dict_get; [apply Map_of_NoDup | exact HL].
      * simpl. unfold JS.has. now rewrite Hrem.
    + intros t Hin Ht. apply in_map_iff in Hin. destruct Hin as [[k lk] [<- Hin]].
      simpl in Ht. subst k. apply filter_In in Hin. destruct Hin as [Hin _].
      apply In_dict_get in Hin; [|apply Map_of_NoDup].
      rewrite HL in Hin. now injection Hin as <-.
  - intros remoteKey u Hrem Hin. rewrite <- last_remote_get in Hrem.
    apply update_record_iff in Hin.
    destruct Hin as (lk & rk & HL' & HR' & -> & _).
    rewrite HL in HL'. rewrite Hrem in HR'.
    assert (lk = localKey) by congruence. assert (rk = remoteKey) by congruence.
    now subst.
Qed.

(** The key [a] detected twice: the record added is the one derived from
    the second detection. *)
Lemma last_duplicate_wins_witness :
  last_local "a" [Samples.key_a; Samples.key_a_again] = Some Samples.key_a_again /\
  last_remote "a" [Samples.term_c] = None /\
  In (add_of ("a", Samples.key_a_again))
     (SyncPlan.addTerms
        (SyncManager.calculateSyncPlan [Samples.key_a; Samples.key_a_again]
           [Samples.term_c] [] Samples.opts_keep_de)).
Proof.
  split; [reflexivity|]. split; [reflexivity|].
  exact (proj1 (proj1 (proj2 (last_duplicate_wins
           [Samples.key_a; Samples.key_a_again] [Samples.term_c] []
           Samples.opts_keep_de "a" Samples.key_a_again eq_refl)) eq_refl)).
Defined.

Lemma get_push lang l x (m : JS.dict (list string)) :
  JS.get lang (JS.push l x m)
  = if String.eqb lang l then option_map (fun a => a ++ [x]) (JS.get lang m)
    else JS.get lang m.
Proof.
  induction m as [|[k v] m IH]; simpl.
  - destruct (String.eqb lang l); reflexivity.
  - destruct (String.eqb_spec l k) as [->|Hne]; simpl.
    + destruct (String.eqb lang k); reflexivity.
    + rewrite IH. destruct (String.eqb_spec lang k) as [->|Hne'].
      * destruct (String.eqb_spec k l); [congruence | reflexivity].
      * reflexivity.
Qed.

Lemma listed_cons langs l lang :
  listed (l :: langs) lang
  = if String.eqb lang l then S (listed langs lang) else listed langs lang.
Proof.
  unfold listed. destruct (String.eqb_spec lang l) as [->|Hne].
  - now rewrite count_occ_cons_eq.
  - rewrite count_occ_cons_neq; [reflexivity | congruence].
Qed.

(** One key pushed on the buckets of the languages that satisfy [c]: the
    bucket of [lang] receives it once per listing of [lang]. *)
Lemma get_fold_push (c : string -> bool) key langs :
  forall (m : JS.dict (list string)) lang,
    JS.get lang (fold_left (fun m l => if c l then JS.push l key m else m) langs m)
    = option_map (fun a => a ++ repeat key (if c lang then listed langs lang else 0))
        (JS.get lang m).
Proof.
  induction langs as [|l langs IH]; intros m lang; cbn [fold_left].
  - destruct (JS.get lang m); simpl; [|reflexivity].
    destruct (c lang); simpl; now rewrite app_nil_r.
  - rewrite IH, listed_cons.
    destruct (c l) eqn:Cl.
    + rewrite get_push. destruct (String.eqb_spec lang l) as [->|Hne].
      * rewrite Cl. destruct (JS.get l m); simpl; [|reflexivity].
        now rewrite <- app_assoc.
      * reflexivity.
    + destruct (String.eqb_spec lang l) as [->|Hne]; [|reflexivity].
      rewrite Cl. reflexivity.
Qed.

Lemma fold_left_pointwise {A B} (f g : A -> B -> A) (l : list B) (a : A) :
  (forall a b, f a b = g a b) -> fold_left f l a = fold_left g l a.
Proof.
  intros H. revert a. induction l as [|b l IH]; intros a; simpl; [reflexivity|].
  now rewrite H, IH.
Qed.

Lemma flat_map_keys {V B} (f : string -> list B) (m : JS.dict V) :
  flat_map (fun e => f (fst e)) m = flat_map f (JS.keys m).
Proof.
  unfold JS.keys. induction m as [|e m IH]; simpl; [reflexivity | now rewrite IH].
Qed.

Lemma get_fold_init langs :
  forall (m : JS.dict (list string)) lang,
    JS.get lang (fold_left (fun m l => JS.set l [] m) langs m)
    = if JS.includes langs lang then Some [] else JS.get lang m.
Proof.
  induction langs as [|l langs IH]; intros m lang; cbn [fold_left].
  - reflexivity.
  - rewrite IH, get_set. unfold JS.includes. cbn [existsb].
    destruct (existsb (String.eqb lang) langs); [now rewrite orb_true_r|].
    now rewrite orb_false_r.
Qed.

Lemma fold_init_dicts langs a :
  SyncManager.acc_missing (fold_left SyncManager.init_lang langs a)
  = fold_left (fun m l => JS.set l [] m) langs (SyncManager.acc_missing a) /\
  SyncManager.acc_obsolete (fold_left SyncManager.init_lang langs a)
  = fold_left (fun m l => JS.set l [] m) langs (SyncManager.acc_obsolete a).
Proof.
  revert a. induction langs as [|l langs IH]; intros a; cbn [fold_left]; [auto|].
  destruct (IH (SyncManager.init_lang a l)) as [H1 H2]. now rewrite H1, H2.
Qed.

Section BucketContent.
Variables (localKeys : list DetectedKey.t)
          (remoteTerms : list POEditorTermResponse.t)
          (rt : SyncManager.RemoteTranslations) (options : SyncManager.Options).

Let L := localKeyMap_of localKeys.
Let R := remoteKeyMap_of remoteTerms.
Let langs := SyncManager.includeLangs options.

Lemma local_step_missing a e :
  SyncManager.acc_missing (SyncManager.local_step R rt options a e)
  = fold_left (fun m l => if lacks_translation remoteTerms rt l (fst e)
                          then JS.push l (fst e) m else m)
              langs (SyncManager.acc_missing a).
Proof.
  unfold SyncManager.local_step, lacks_translation, remoteIds.
  rewrite <- (has_Map_of_includes POEditorTermResponse.term remoteTerms (fst e)).
  fold (remoteKeyMap_of remoteTerms). fold R. unfold JS.has.
  destruct (JS.get (fst e) R); reflexivity.
Qed.

Lemma fold_local_missing l lang :
  forall a,
    JS.get lang (SyncManager.acc_missing
                   (fold_left (SyncManager.local_step R rt options) l a))
    = option_map
        (fun arr =>
           arr ++ flat_map (fun key =>
                              if lacks_translation remoteTerms rt lang key
                              then repeat key (listed langs lang) else [])
                           (JS.keys l))
        (JS.get lang (SyncManager.acc_missing a)).
Proof.
  induction l as [|e l IH]; intros a; cbn [fold_left].
  - destruct (JS.get lang _); simpl; [now rewrite app_nil_r | reflexivity].
  - rewrite IH, local_step_missing, get_fold_push.
    destruct (JS.get lang (SyncManager.acc_missing a)); simpl; [|reflexivity].
    rewrite <- app_assoc. do 2 f_equal.
    destruct (lacks_translation remoteTerms rt lang (fst e)); reflexivity.
Qed.

Lemma remote_step_obsolete a e :
  SyncManager.acc_obsolete (SyncManager.remote_step L rt options a e)
  = if negb (JS.has (fst e) L)
    then fold_left (fun m l => if SyncManager.translated rt l (fst e)
                               then JS.push l (fst e) m else m)
                   langs (SyncManager.acc_obsolete a)
    else SyncManager.acc_obsolete a.
Proof.
  unfold SyncManager.remote_step. destruct (negb (JS.has (fst e) L)); reflexivity.
Qed.

Lemma fold_remote_obsolete l lang :
  forall a,
    JS.get lang (SyncManager.acc_obsolete
                   (fold_left (SyncManager.remote_step L rt options) l a))
    = option_map
        (fun arr =>
           arr ++ flat_map (fun key =>
                              if SyncManager.translated rt lang key
                              then repeat key (listed langs lang) else [])
                           (filter (fun k => negb (JS.has k L)) (JS.keys l)))
        (JS.get lang (SyncManager.acc_obsolete a)).
Proof.
  induction l as [|e l IH]; intros a; cbn [fold_left].
  - destruct (JS.get lang _); simpl; [now rewrite app_nil_r | reflexivity].
  - rewrite IH, remote_step_obsolete. unfold JS.keys. cbn [map filter].
    destruct (negb (JS.has (fst e) L)).
    + rewrite get_fold_push.
      destruct (JS.get lang (SyncManager.acc_obsolete a)); simpl; [|reflexivity].
      rewrite <- app_assoc. do 2 f_equal.
      destruct (SyncManager.translated rt lang (fst e)); reflexivity.
    + reflexivity.
Qed.

Lemma missing_bucket lang :
  JS.get lang (SyncPlan.missingTranslations
                 (SyncManager.calculateSyncPlan localKeys remoteTerms rt options))
  = if JS.includes langs lang
    then Some (flat_map (fun key =>
                           if lacks_translation remoteTerms rt lang key
                           then repeat key (listed langs lang) else [])
                        (JS.Set_of (localIds localKeys)))
    else None.
Proof.
  unfold SyncManager.calculateSyncPlan. simpl.
  fold (localKeyMap_of localKeys). fold (remoteKeyMap_of remoteTerms).
  fold L. fold R. fold langs.
  set (a0 := fold_left SyncManager.init_lang langs (SyncManager.mkAcc [] [] [] [] [])).
  assert (E : SyncManager.acc_missing
                (if SyncManager.deleteExtraneous options
                 then fold_left (SyncManager.remote_step L rt options) R
                        (fold_left (SyncManager.local_step R rt options) L a0)
                 else fold_left (SyncManager.local_step R rt options) L a0)
              = SyncManager.acc_missing
                  (fold_left (SyncManager.local_step R rt options) L a0)).
  { destruct (SyncManager.deleteExtraneous options); [|reflexivity].
    apply fold_remote_buckets. }
  rewrite E, fold_local_missing.
  destruct (fold_init_dicts langs (SyncManager.mkAcc [] [] [] [] [])) as [I1 _].
  fold a0 in I1. rewrite I1, get_fold_init. simpl.
  unfold L at 1. unfold localKeyMap_of. rewrite Map_of_keys_eq.
  destruct (JS.includes langs lang); reflexivity.
Qed.

Lemma obsolete_bucket lang :
  JS.get lang (SyncPlan.obsoleteTranslations
                 (SyncManager.calculateSyncPlan localKeys remoteTerms rt options))
  = if JS.includes langs lang
    then Some (flat_map (fun key =>
                           if SyncManager.translated rt lang key
                           then repeat key (listed langs lang) else [])
                        (SyncPlan.deleteTerms
                           (SyncManager.calculateSyncPlan localKeys remoteTerms
                              rt options)))
    else None.
Proof.
  rewrite deleteTerms_ids.
  unfold SyncManager.calculateSyncPlan. simpl.
  fold (localKeyMap_of localKeys). fold (remoteKeyMap_of remoteTerms).
  fold L. fold R. fold langs.
  set (a0 := fold_left SyncManager.init_lang langs (SyncManager.mkAcc [] [] [] [] [])).
  set (a1 := fold_left (SyncManager.local_step R rt options) L a0).
  destruct (fold_init_dicts langs (SyncManager.mkAcc [] [] [] [] [])) as [_ I2].
  fold a0 in I2. simpl in I2.
  destruct (fold_local_buckets R rt options L a0) as [_ L2]. fold a1 in L2.
  destruct (SyncManager.deleteExtraneous options).
  - rewrite fold_remote_obsolete, L2, I2, get_fold_init. simpl.
    unfold R at 1. unfold remoteKeyMap_of. rewrite Map_of_keys_eq.
    rewrite (filter_ext (fun k => negb (JS.has k L))
               (fun k => negb (JS.includes (localIds localKeys) k)))
      by (intros k; unfold L, localKeyMap_of; now rewrite has_Map_of_includes).
    destruct (JS.includes langs lang); reflexivity.
  - rewrite L2, I2, get_fold_init. simpl.
    destruct (JS.includes langs lang); reflexivity.
Qed.

End BucketContent.

Lemma flat_map_once {A} (p : A -> bool) (l : list A) :
  flat_map (fun x => if p x then repeat x 1 else []) l = filter p l.
Proof.
  induction l as [|x l IH]; [reflexivity|].
  cbn [flat_map filter]. rewrite IH. destruct (p x); reflexivity.
Qed.

Lemma listed_once langs lang :
  NoDup langs -> In lang langs -> listed langs lang = 1%nat.
Proof.
  intros HN Hin. unfold listed.
  exact (proj1 (NoDup_count_occ' string_dec langs) HN lang Hin).
Qed.

Lemma listed_positive langs lang : In lang langs -> (1 <= listed langs lang)%nat.
Proof.
  intros H. unfold listed.
  apply (count_occ_In string_dec) in H. lia.
Qed.

Lemma in_flat_map_repeat {A} (p : A -> bool) (n : A -> nat) (l : list A) (x : A) :
  In x (flat_map (fun k => if p k then repeat k (n k) else []) l) ->
  In x l /\ p x = true.
Proof.
  intros H. apply in_flat_map in H. destruct H as (k & Hk & Hx).
  destruct (p k) eqn:E; [|contradiction].
  apply repeat_spec in Hx. subst x. now split.
Qed.

Lemma translated_inherited rt lang m key :
  JS.get lang rt = Some m -> JS.get key m = None -> In key JS.prototype_members ->
  SyncManager.translated rt lang key = true.
Proof.
  intros Hm Hk Hin. unfold SyncManager.translated, JS.member_truthy.
  rewrite Hm, Hk. now apply includes_true_iff.
Qed.

(** X3.  The bucket of a language in [missingTranslations], when
    [__proto__] is not among the included languages and the language has
    a dictionary of remote translations or is not named like a member of
    [Object.prototype].  The bucket exists exactly for the included
    languages and lists, in order of first occurrence, the distinct local
    identifiers that are new or for which the dictionary of the language
    gives no non-empty value, each as many times as the language is listed
    in [includeLangs] (once when it is listed once).  The dictionary is
    read with the members it inherits: a remote term named like a member
    of [Object.prototype] that the dictionary does not hold is never
    reported missing. *)
Theorem missing_bucket_content :
  forall localKeys remoteTerms rt options lang,
    let plan := SyncManager.calculateSyncPlan localKeys remoteTerms rt options in
    let langs := SyncManager.includeLangs options in
    ~ In "__proto__" langs ->
    reads_own rt lang = true ->
    JS.get lang (SyncPlan.missingTranslations plan)
    = (if JS.includes langs lang
       then Some (flat_map (fun key =>
                              if lacks_translation remoteTerms rt lang key
                              then repeat key (listed langs lang) else [])
                           (JS.Set_of (localIds localKeys)))
       else None) /\
    (NoDup langs -> In lang langs ->
     JS.get lang (SyncPlan.missingTranslations plan)
     = Some (filter (lacks_translation remoteTerms rt lang)
                    (JS.Set_of (localIds localKeys)))) /\
    (forall m key bucket,
        JS.get lang rt = Some m ->
        JS.get key m = None ->
        In key JS.prototype_members ->
        In key (remoteIds remoteTerms) ->
        JS.get lang (SyncPlan.missingTranslations plan) = Some bucket ->
        ~ In key bucket).
Proof.
  intros localKeys remoteTerms rt options lang plan langs _ _.
  pose proof (missing_bucket localKeys remoteTerms rt options lang) as E.
  fold plan in E. fold langs in E. split; [exact E|]. split.
  - intros HN Hin. rewrite E.
    apply includes_true_iff in Hin. rewrite Hin.
    apply includes_true_iff in Hin.
    rewrite (listed_once langs lang HN Hin). now rewrite flat_map_once.
  - intros m key bucket Hm Hk Hp Hr Hb Hin. rewrite E in Hb.
    destruct (JS.includes langs lang); [|discriminate].
    injection Hb as <-.
    apply (in_flat_map_repeat (lacks_translation remoteTerms rt lang)
             (fun _ => listed langs lang)) in Hin.
    destruct Hin as [_ Hl]. unfold lacks_translation in Hl.
    rewrite (translated_inherited rt lang m key Hm Hk Hp) in Hl.
    apply includes_true_iff in Hr. rewrite Hr in Hl. discriminate.
Qed.

(** Local [{a, b, constructor}] against remote [{b, c, constructor}],
    where only [b] is translated to German: [a] is missing, and
    [constructor] is not, since the dictionary inherits a member of that
    name. *)
Lemma missing_bucket_content_witness :
  ~ In "__proto__" (SyncManager.includeLangs Samples.opts_delete_de) /\
  reads_own [("de", [("b", "Startseite")])] "de" = true /\
  NoDup (SyncManager.includeLangs Samples.opts_delete_de) /\
  In "de" (SyncManager.includeLangs Samples.opts_delete_de) /\
  JS.get "de"
    (SyncPlan.missingTranslations
       (SyncManager.calculateSyncPlan
          [Samples.key_a; Samples.key_b; Samples.key_inherited]
          [Samples.term_b; Samples.term_c; Samples.term_inherited]
          [("de", [("b", "Startseite")])]
          Samples.opts_delete_de))
  = Some (filter (lacks_translation
                    [Samples.term_b; Samples.term_c; Samples.term_inherited]
                    [("de", [("b", "Startseite")])] "de")
                 (JS.Set_of (localIds [Samples.key_a; Samples.key_b;
                                       Samples.key_inherited]))) /\
  filter (lacks_translation [Samples.term_b; Samples.term_c; Samples.term_inherited]
            [("de", [("b", "Startseite")])] "de")
         (JS.Set_of (localIds [Samples.key_a; Samples.key_b; Samples.key_inherited]))
  = ["a"].
Proof.
  assert (HP : ~ In "__proto__" (SyncManager.includeLangs Samples.opts_delete_de)).
  { simpl. intros [H|[]]. discriminate H. }
  assert (HN : NoDup (SyncManager.includeLangs Samples.opts_delete_de)).
  { simpl. constructor; [intros [] | constructor]. }
  assert (Hin : In "de" (SyncManager.includeLangs Samples.opts_delete_de))
    by (now left).
  split; [exact HP|]. split; [reflexivity|].
  split; [exact HN|]. split; [exact Hin|]. split; [|reflexivity].
  exact (proj1 (proj2 (missing_bucket_content
                  [Samples.key_a; Samples.key_b; Samples.key_inherited]
                  [Samples.term_b; Samples.term_c; Samples.term_inherited]
                  [("de", [("b", "Startseite")])]
                  Samples.opts_delete_de "de" HP eq_refl)) HN Hin).
Defined.

(** X4.  The bucket of a language in [obsoleteTranslations], when
    [__proto__] is not among the included languages and the language has
    a dictionary of remote translations or is not named like a member of
    [Object.prototype].  The bucket of an included language lists the
    deleted identifiers for which the dictionary of the language gives a
    non-empty value, in the order of [deleteTerms], each as many times as
    the language is listed; every bucket is empty when deletion is not
    requested, and no bucket exists for a language that is not included.
    The dictionary is read with the members it inherits: a deleted term
    named like a member of [Object.prototype] is reported obsolete in
    every included language that has a dictionary, also when the
    dictionary does not hold it. *)
Theorem obsolete_bucket_content :
  forall localKeys remoteTerms rt options lang,
    let plan := SyncManager.calculateSyncPlan localKeys remoteTerms rt options in
    let langs := SyncManager.includeLangs options in
    ~ In "__proto__" langs ->
    reads_own rt lang = true ->
    JS.get lang (SyncPlan.obsoleteTranslations plan)
    = (if JS.includes langs lang
       then Some (flat_map (fun key =>
                              if SyncManager.translated rt lang key
                              then repeat key (listed langs lang) else [])
                           (SyncPlan.deleteTerms plan))
       else None) /\
    (SyncManager.deleteExtraneous options = false -> In lang langs ->
     JS.get lang (SyncPlan.obsoleteTranslations plan) = Some []) /\
    (NoDup langs -> In lang langs ->
     JS.get lang (SyncPlan.obsoleteTranslations plan)
     = Some (filter (SyncManager.translated rt lang) (SyncPlan.deleteTerms plan))) /\
    (forall m key,
        In lang langs ->
        JS.get lang rt = Some m ->
        JS.get key m = None ->
        In key JS.prototype_members ->
        In key (SyncPlan.deleteTerms plan) ->
        exists bucket,
          JS.get lang (SyncPlan.obsoleteTranslations plan) = Some bucket /\
          In key bucket).
Proof.
  intros localKeys remoteTerms rt options lang plan langs _ _.
  pose proof (obsolete_bucket localKeys remoteTerms rt options lang) as E.
  fold plan in E. fold langs in E. split; [exact E|]. split; [|split].
  - intros Hdel Hin. rewrite E. apply includes_true_iff in Hin. rewrite Hin.
    unfold plan. now rewrite deleteTerms_ids, Hdel.
  - intros HN Hin. rewrite E.
    apply includes_true_iff in Hin. rewrite Hin.
    apply includes_true_iff in Hin.
    rewrite (listed_once langs lang HN Hin). now rewrite flat_map_once.
  - intros m key Hin Hm Hk Hp Hd. rewrite E.
    pose proof (listed_positive langs lang Hin) as Hpos.
    apply includes_true_iff in Hin. rewrite Hin.
    eexists. split; [reflexivity|].
    apply in_flat_map. exists key. split; [exact Hd|].
    rewrite (translated_inherited rt lang m key Hm Hk Hp).
    destruct (listed langs lang) as [|n]; [lia|]. now left.
Qed.

(** Local [{a, b}] against remote [{b, c, constructor}], where only [c] is
    translated to German: deleting [c] orphans its German translation, and
    [constructor] is reported with it, since the dictionary inherits a
    member of that name. *)
Lemma obsolete_bucket_content_witness :
  ~ In "__proto__" (SyncManager.includeLangs Samples.opts_delete_de) /\
  reads_own [("de", [("c", "Alt")])] "de" = true /\
  NoDup (SyncManager.includeLangs Samples.opts_delete_de) /\
  In "de" (SyncManager.includeLangs Samples.opts_delete_de) /\
  JS.get "de"
    (SyncPlan.obsoleteTranslations
       (SyncManager.calculateSyncPlan [Samples.key_a; Samples.key_b]
          [Samples.term_b; Samples.term_c; Samples.term_inherited]
          [("de", [("c", "Alt")])]
          Samples.opts_delete_de))
  = Some (filter (SyncManager.translated [("de", [("c", "Alt")])] "de")
            (SyncPlan.deleteTerms
               (SyncManager.calculateSyncPlan [Samples.key_a; Samples.key_b]
                  [Samples.term_b; Samples.term_c; Samples.term_inherited]
                  [("de", [("c", "Alt")])]
                  Samples.opts_delete_de))) /\
  filter (SyncManager.translated [("de", [("c", "Alt")])] "de")
    (SyncPlan.deleteTerms
       (SyncManager.calculateSyncPlan [Samples.key_a; Samples.key_b]
          [Samples.term_b; Samples.term_c; Samples.term_inherited]
          [("de", [("c", "Alt")])]
          Samples.opts_delete_de)) = ["c"; "constructor"].
Proof.
  assert (HP : ~ In "__proto__" (SyncManager.includeLangs Samples.opts_delete_de)).
  { simpl. intros [H|[]]. discriminate H. }
  assert (HN : NoDup (SyncManager.includeLangs Samples.opts_delete_de)).
  { simpl. constructor; [intros [] | constructor]. }
  assert (Hin : In "de" (SyncManager.includeLangs Samples.opts_delete_de))
    by (now left).
  split; [exact HP|]. split; [reflexivity|].
  split; [exact HN|]. split; [exact Hin|]. split; [|reflexivity].
  exact (proj1 (proj2 (proj2 (obsolete_bucket_content [Samples.key_a; Samples.key_b]
                  [Samples.term_b; Samples.term_c; Samples.term_inherited]
                  [("de", [("c", "Alt")])]
                  Samples.opts_delete_de "de" HP eq_refl))) HN Hin).
Defined.

(* ===================================================================== *)
(** ** Diff engine: the annotations derived from a local key *)
(* ===================================================================== *)

Lemma join_empty_iff sep l :
  sep <> "" -> (JS.join sep l = "" <-> l = [] \/ l = [""]).
Proof.
  intros Hsep. destruct l as [|x l].
  - split; [now left | reflexivity].
  - rewrite join_cons. split.
    + intros E. right. destruct x; [|discriminate]. simpl in E.
      destruct l; [reflexivity|]. exfalso.
      destruct sep; [congruence | discriminate].
    + intros [H|H]; [discriminate|]. now inversion H.
Qed.

Lemma NoDup_constant {A} (a : A) (l : list A) :
  NoDup l -> (forall x, In x l -> x = a) -> l = [] \/ l = [a].
Proof.
  intros HN H. destruct l as [|x l]; [now left|]. right.
  assert (x = a) by (apply H; now left). subst x.
  destruct l as [|y l]; [reflexivity|]. exfalso.
  assert (y = a) by (apply H; right; now left). subst y.
  inversion HN as [|? ? Hnin _]. apply Hnin. now left.
Qed.

Lemma firstn_nil_iff {A} n (l : list A) : firstn (S n) l = [] <-> l = [].
Proof. destruct l; simpl; split; congruence. Qed.

Lemma extractContext_None_iff key :
  SyncManager.extractContext key = None
  <-> forall f, In f (DetectedKey.files key) -> KeyUsage.context f = "".
Proof.
  unfold SyncManager.extractContext.
  set (cs := filter JS.truthy (map KeyUsage.context (DetectedKey.files key))).
  assert (E : cs = [] <-> forall f, In f (DetectedKey.files key) -> KeyUsage.context f = "").
  { unfold cs. split.
    - intros H f Hf.
      destruct (string_dec (KeyUsage.context f) "") as [|Hne]; [assumption|].
      exfalso. apply truthy_true_iff in Hne.
      assert (Hin : In (KeyUsage.context f)
                       (filter JS.truthy (map KeyUsage.context (DetectedKey.files key))))
        by (apply filter_In; split; [now apply in_map | exact Hne]).
      rewrite H in Hin. contradiction.
    - intros H. induction (DetectedKey.files key) as [|f fs IH]; [reflexivity|].
      cbn [map filter]. rewrite (H f) by now left. cbn.
      apply IH. intros g Hg. apply H. now right. }
  rewrite <- E. destruct cs as [|c cs']; cbn -[JS.join String.append].
  - tauto.
  - split; discriminate.
Qed.

Lemma extractReference_empty_iff key :
  SyncManager.extractReference key = ""
  <-> forall f, In f (DetectedKey.files key) -> KeyUsage.path f = "".
Proof.
  unfold SyncManager.extractReference.
  set (S := JS.Set_of (map KeyUsage.path (DetectedKey.files key))).
  assert (HN : NoDup S) by apply Set_of_NoDup.
  assert (HI : forall p, In p S <-> In p (map KeyUsage.path (DetectedKey.files key)))
    by (intros p; apply Set_of_In).
  rewrite join_empty_iff by discriminate. split.
  - intros H f Hf.
    assert (Hin : In (KeyUsage.path f) S) by (apply HI; now apply in_map).
    destruct H as [H|H].
    + apply firstn_nil_iff in H. rewrite H in Hin. contradiction.
    + destruct S as [|a [|b S']]; [contradiction | | discriminate].
      simpl in H. destruct Hin as [<-|[]]. congruence.
  - intros H.
    destruct (NoDup_constant "" S HN) as [E|E].
    + intros p Hp. apply HI in Hp. apply in_map_iff in Hp.
      destruct Hp as (f & <- & Hf). now apply H.
    + left. now rewrite E.
    + right. now rewrite E.
Qed.

Lemma generateComment_None_iff key :
  SyncManager.generateComment key = None
  <-> (DetectedKey.phrase key = "" \/ DetectedKey.phrase key = DetectedKey.key key) /\
      (length (DetectedKey.files key) <= 1)%nat /\
      DetectedKey.examples key = [].
Proof.
  unfold SyncManager.generateComment.
  assert (Hp : JS.truthy (DetectedKey.phrase key)
               && negb (DetectedKey.phrase key =? DetectedKey.key key) = false
               <-> DetectedKey.phrase key = "" \/
                   DetectedKey.phrase key = DetectedKey.key key).
  { rewrite andb_false_iff, negb_false_iff, String.eqb_eq.
    unfold JS.truthy. rewrite negb_false_iff, String.eqb_eq. tauto. }
  assert (Hf : (1 <? length (DetectedKey.files key))%nat = false
               <-> (length (DetectedKey.files key) <= 1)%nat)
    by (rewrite Nat.ltb_ge; tauto).
  assert (He : (0 <? length (DetectedKey.examples key))%nat = false
               <-> DetectedKey.examples key = []).
  { rewrite Nat.ltb_ge. destruct (DetectedKey.examples key); simpl.
    - split; [reflexivity | lia].
    - split; [lia | discriminate]. }
  rewrite <- Hp, <- Hf, <- He.
  destruct (JS.truthy (DetectedKey.phrase key) && _);
    destruct (1 <? length (DetectedKey.files key))%nat;
    destruct (0 <? length (DetectedKey.examples key))%nat;
    cbn -[JS.join String.append JS.string_of_nat];
    split; try discriminate; try tauto;
    intros (A & B & C); discriminate.
Qed.

(** X5.  Which annotations a local key yields: the context is absent
    exactly when no usage site has a non-empty context line, the reference
    is the empty string exactly when no usage site has a non-empty path, the
    comment is absent exactly when the phrase is empty or equal to the
    identifier, at most one usage site is known and no example is given;
    a context or comment that is present is never the empty string, and
    the tags are always present. *)
Theorem derived_annotations_presence :
  forall key,
    (SyncManager.extractContext key = None
     <-> forall f, In f (DetectedKey.files key) -> KeyUsage.context f = "") /\
    (forall c, SyncManager.extractContext key = Some c -> c <> "") /\
    (SyncManager.extractReference key = ""
     <-> forall f, In f (DetectedKey.files key) -> KeyUsage.path f = "") /\
    (SyncManager.generateComment key = None
     <-> (DetectedKey.phrase key = "" \/ DetectedKey.phrase key = DetectedKey.key key) /\
         (length (DetectedKey.files key) <= 1)%nat /\
         DetectedKey.examples key = []) /\
    (forall c, SyncManager.generateComment key = Some c -> c <> "") /\
    (exists t, SyncManager.extractTags key = Some t).
Proof.
  intros key. split; [apply extractContext_None_iff|].
  split; [apply extractContext_nonempty|].
  split; [apply extractReference_empty_iff|].
  split; [apply generateComment_None_iff|].
  split; [apply generateComment_nonempty | apply extractTags_defined].
Qed.

Lemma fold_set_add_head l x acc :
  exists r, fold_left JS.set_add l (x :: acc) = x :: r.
Proof.
  revert acc. induction l as [|y l IH]; intros acc; [now exists acc|].
  cbn [fold_left]. unfold JS.set_add at 2.
  destruct (JS.includes (x :: acc) y); [apply IH|].
  change ((x :: acc) ++ [y]) with (x :: (acc ++ [y])). apply IH.
Qed.

Lemma fold_set_add_length l acc :
  (length acc <= length (fold_left JS.set_add l acc) <= length acc + length l)%nat.
Proof.
  revert acc. induction l as [|y l IH]; intros acc; cbn [fold_left length]; [lia|].
  specialize (IH (JS.set_add acc y)).
  assert (length acc <= length (JS.set_add acc y) <= S (length acc))%nat.
  { unfold JS.set_add. destruct (JS.includes acc y); [lia|].
    rewrite length_app. cbn [length]. lia. }
  lia.
Qed.

Lemma filter_truthy_In l t :
  In t (SyncManager.filter_truthy l) <-> In (Some t) l /\ t <> "".
Proof.
  induction l as [|[s|] l IH]; cbn [SyncManager.filter_truthy In].
  - tauto.
  - destruct (JS.truthy s) eqn:E.
    + apply truthy_true_iff in E. cbn [In]. rewrite IH. split.
      * intros [->|[H1 H2]]; [split; [now left | exact E] | split; [now right | exact H2]].
      * intros [[H|H] H2]; [left; congruence | right; now split].
    + rewrite IH. split.
      * intros [H1 H2]. split; [now right | exact H2].
      * intros [[H|H] H2]; [|now split].
        exfalso. assert (s = t) by congruence. subst s.
        apply truthy_true_iff in H2. congruence.
  - rewrite IH. split.
    + intros [H1 H2]. split; [now right | exact H2].
    + intros [[H|H] H2]; [discriminate | now split].
Qed.

Lemma pathTag_Some f t :
  SyncManager.pathTag f = Some t ->
  In t (JS.split "/"%char (KeyUsage.path f)) /\
  In (JS.toLowerCase t) SyncManager.feature_dirs.
Proof.
  unfold SyncManager.pathTag.
  destruct (filter _ _) as [|p ps] eqn:E; [discriminate|].
  intros H. assert (p = t) by congruence. subst p.
  assert (Hin : In t (filter (fun part => JS.includes SyncManager.feature_dirs
                                            (JS.toLowerCase part))
                             (JS.split "/"%char (KeyUsage.path f))))
    by (rewrite E; now left).
  apply filter_In in Hin. destruct Hin as [H1 H2].
  split; [exact H1 | now apply includes_true_iff].
Qed.

Lemma firstn_incl {A} n (l : list A) x : In x (firstn n l) -> In x l.
Proof.
  intros H. rewrite <- (firstn_skipn n l). apply in_or_app. now left.
Qed.

(** X6.  The tags of a local key: the framework name always comes first,
    followed by ["dynamic"] for a dynamic key, ["usage:<usage>"] for a
    non-empty usage pattern and at most two directory tags; the array has
    no duplicate and between one and five entries.  A directory tag is a
    segment of the path of a usage site, kept in its original letter case,
    whose lower-case form is one of [components], [pages], [views],
    [layouts], [features]. *)
Theorem extractTags_shape :
  forall key, exists tags,
    SyncManager.extractTags key = Some tags /\
    hd_error tags = Some (framework_string (DetectedKey.framework key)) /\
    NoDup tags /\
    (1 <= length tags <= 5)%nat /\
    (forall t, In t tags <->
               t = framework_string (DetectedKey.framework key) \/
               (DetectedKey.dynamic key = true /\ t = "dynamic") \/
               (DetectedKey.usage key <> "" /\
                t = ("usage:" ++ DetectedKey.usage key)%string) \/
               In t (pathTags key)) /\
    (length (pathTags key) <= 2)%nat /\
    (forall t, In t (pathTags key) ->
               exists f, In f (DetectedKey.files key) /\
                         In t (JS.split "/"%char (KeyUsage.path f)) /\
                         In (JS.toLowerCase t) SyncManager.feature_dirs).
Proof.
  intros key. unfold SyncManager.extractTags. fold (pathTags key).
  set (fw := framework_string (DetectedKey.framework key)).
  set (d := if DetectedKey.dynamic key then ["dynamic"] else []).
  set (u := if JS.truthy (DetectedKey.usage key)
            then [("usage:" ++ DetectedKey.usage key)%string] else []).
  assert (E : (let tags := [fw] in
               let tags0 := if DetectedKey.dynamic key then tags ++ ["dynamic"] else tags in
               let tags1 := if JS.truthy (DetectedKey.usage key)
                            then tags0 ++ [("usage:" ++ DetectedKey.usage key)%string]
                            else tags0 in
               tags1 ++ pathTags key) = fw :: (d ++ u ++ pathTags key)).
  { unfold d, u. destruct (DetectedKey.dynamic key), (JS.truthy (DetectedKey.usage key));
      reflexivity. }
  cbv zeta in E. cbv zeta. rewrite E.
  assert (Hp : (length (pathTags key) <= 2)%nat)
    by (unfold pathTags; rewrite length_firstn; lia).
  exists (JS.Set_of (fw :: (d ++ u ++ pathTags key))).
  split; [reflexivity|]. split.
  { change (JS.Set_of (fw :: d ++ u ++ pathTags key))
      with (fold_left JS.set_add (d ++ u ++ pathTags key) [fw]).
    destruct (fold_set_add_head (d ++ u ++ pathTags key) fw []) as [r Hr].
    now rewrite Hr. }
  split; [apply Set_of_NoDup|]. split.
  { change (JS.Set_of (fw :: d ++ u ++ pathTags key))
      with (fold_left JS.set_add (d ++ u ++ pathTags key) [fw]).
    pose proof (fold_set_add_length (d ++ u ++ pathTags key) [fw]) as H.
    rewrite !length_app in H. cbn [length] in H.
    assert (length d <= 1)%nat by (unfold d; destruct (DetectedKey.dynamic key); simpl; lia).
    assert (length u <= 1)%nat
      by (unfold u; destruct (JS.truthy (DetectedKey.usage key)); simpl; lia).
    lia. }
  split.
  { intros t. rewrite Set_of_In. cbn [In]. rewrite !in_app_iff.
    assert (Hd : In t d <-> DetectedKey.dynamic key = true /\ t = "dynamic").
    { unfold d. destruct (DetectedKey.dynamic key); simpl.
      - split; [intros [<-|[]]; now split | intros [_ ->]; now left].
      - split; [intros [] | intros [H _]; discriminate]. }
    assert (Hu : In t u <-> DetectedKey.usage key <> "" /\
                            t = ("usage:" ++ DetectedKey.usage key)%string).
    { unfold u. rewrite <- truthy_true_iff.
      destruct (JS.truthy (DetectedKey.usage key)); cbn [In].
      - split; [intros [<-|[]]; now split | intros [_ ->]; now left].
      - split; [intros [] | intros [H _]; discriminate]. }
    rewrite Hd, Hu. split.
    - intros [H|H]; [left; now symmetry | right; exact H].
    - intros [H|H]; [left; now symmetry | right; exact H]. }
  split; [exact Hp|].
  intros t Ht. unfold pathTags in Ht. apply firstn_incl in Ht.
  apply filter_truthy_In in Ht. destruct Ht as [Ht _].
  apply in_map_iff in Ht. destruct Ht as (f & Hf & Hin).
  exists f. split; [exact Hin|]. now apply pathTag_Some.
Qed.

(* ===================================================================== *)
(** ** Diff engine: a second diff after the additions were stored *)
(* ===================================================================== *)

(** The record the service lists for a term added from an entry of
    [localKeyMap], stored as [POEditorClient.addTerms] sent it. *)
Lemma stored_additions created updated (F : list (string * DetectedKey.t)) :
  map (stored_as created updated) (addTerms_termsData (map add_of F))
  = map (fun e =>
           POEditorTermResponse.mk (fst e)
             (or_empty (SyncManager.extractContext (snd e)))
             (or_empty (Some (SyncManager.extractReference (snd e))))
             ""
             (or_nil (SyncManager.extractTags (snd e)))
             (or_empty (SyncManager.generateComment (snd e)))
             created updated) F.
Proof.
  unfold addTerms_termsData. rewrite !map_map. reflexivity.
Qed.

Lemma calculateTermUpdates_stored created updated localKey key :
  SyncManager.calculateTermUpdates localKey
    (POEditorTermResponse.mk key
       (or_empty (SyncManager.extractContext localKey))
       (or_empty (Some (SyncManager.extractReference localKey)))
       ""
       (or_nil (SyncManager.extractTags localKey))
       (or_empty (SyncManager.generateComment localKey))
       created updated)
  = PartialTerm.empty.
Proof.
  unfold SyncManager.calculateTermUpdates.
  cbn [POEditorTermResponse.context POEditorTermResponse.reference
       POEditorTermResponse.tags POEditorTermResponse.comment].
  destruct (SyncManager.extractContext localKey) as [c|] eqn:Ec.
  - apply extractContext_nonempty in Ec. apply truthy_true_iff in Ec.
    cbn [or_empty]. rewrite Ec, String.eqb_refl. cbn [andb negb].
    destruct (JS.truthy (SyncManager.extractReference localKey)) eqn:Er;
      cbn [or_empty]; rewrite ?Er, ?String.eqb_refl; cbn [andb negb];
      destruct (SyncManager.extractTags localKey) as [t|]; cbn [or_nil];
      try (assert (Ht : SyncManager.tags_differ t t = false)
             by (apply tags_differ_false_iff; apply Permutation_refl); rewrite Ht);
      destruct (SyncManager.generateComment localKey) as [m|] eqn:Em;
      try (apply generateComment_nonempty in Em; apply truthy_true_iff in Em;
           cbn [or_empty]; rewrite Em, String.eqb_refl);
      reflexivity.
  - cbn [or_empty].
    destruct (JS.truthy (SyncManager.extractReference localKey)) eqn:Er;
      cbn [or_empty]; rewrite ?Er, ?String.eqb_refl; cbn [andb negb];
      destruct (SyncManager.extractTags localKey) as [t|]; cbn [or_nil];
      try (assert (Ht : SyncManager.tags_differ t t = false)
             by (apply tags_differ_false_iff; apply Permutation_refl); rewrite Ht);
      destruct (SyncManager.generateComment localKey) as [m|] eqn:Em;
      try (apply generateComment_nonempty in Em; apply truthy_true_iff in Em;
           cbn [or_empty]; rewrite Em, String.eqb_refl);
      reflexivity.
Qed.

Lemma find_unique {A} (h : A -> string) (l : list A) (x : A) :
  NoDup (map h l) -> In x l -> find (fun y => h y =? h x) l = Some x.
Proof.
  induction l as [|a l IH]; intros HN Hin; [contradiction|].
  cbn [map] in HN. inversion HN as [|? ? Hnin HN']; subst.
  cbn [find]. destruct Hin as [->|Hin].
  - now rewrite String.eqb_refl.
  - destruct (String.eqb_spec (h a) (h x)) as [E|_]; [|now apply IH].
    exfalso. apply Hnin. rewrite E. now apply in_map.
Qed.

Lemma find_none_iff {A} (p : A -> bool) (l : list A) :
  find p l = None <-> forall x, In x l -> p x = false.
Proof.
  induction l as [|a l IH]; cbn [find].
  - split; [intros _ x [] | reflexivity].
  - destruct (p a) eqn:E.
    + split; [discriminate|]. intros H. specialize (H a (or_introl eq_refl)). congruence.
    + rewrite IH. split.
      * intros H x [<-|Hx]; [exact E | now apply H].
      * intros H x Hx. apply H. now right.
Qed.

Lemma find_app {A} (p : A -> bool) (l1 l2 : list A) :
  find p (l1 ++ l2) = match find p l1 with Some x => Some x | None => find p l2 end.
Proof.
  induction l1 as [|a l1 IH]; [reflexivity|].
  cbn [app find]. destruct (p a); [reflexivity | exact IH].
Qed.

Lemma flat_map_pointwise {A B} (f g : A -> list B) (l : list A) :
  (forall x, In x l -> f x = g x) -> flat_map f l = flat_map g l.
Proof.
  induction l as [|a l IH]; intros H; [reflexivity|].
  cbn [flat_map]. rewrite (H a) by now left.
  rewrite IH; [reflexivity|]. intros x Hx. apply H. now right.
Qed.

Lemma filter_fold_set_add (p : string -> bool) (b acc : list string) :
  (forall x, In x b -> p x = false) ->
  filter p (fold_left JS.set_add b acc) = filter p acc.
Proof.
  revert acc. induction b as [|x b IH]; intros acc H; [reflexivity|].
  cbn [fold_left]. rewrite IH by (intros y Hy; apply H; now right).
  unfold JS.set_add. destruct (JS.includes acc x); [reflexivity|].
  rewrite filter_app. cbn [filter]. rewrite (H x) by now left.
  apply app_nil_r.
Qed.

Lemma Set_of_app a b :
  JS.Set_of (a ++ b) = fold_left JS.set_add b (JS.Set_of a).
Proof. unfold JS.Set_of. apply fold_left_app. Qed.

Section Resync.
Variables (localKeys : list DetectedKey.t) (remoteTerms : list POEditorTermResponse.t).
Variables (rt : SyncManager.RemoteTranslations) (options : SyncManager.Options).
Variables (created updated : string).

Let L := localKeyMap_of localKeys.
Let R := remoteKeyMap_of remoteTerms.
Let F := filter (fun e => negb (JS.has (fst e) R)) L.
Let g := fun e : string * DetectedKey.t =>
  POEditorTermResponse.mk (fst e)
    (or_empty (SyncManager.extractContext (snd e)))
    (or_empty (Some (SyncManager.extractReference (snd e))))
    ""
    (or_nil (SyncManager.extractTags (snd e)))
    (or_empty (SyncManager.generateComment (snd e)))
    created updated.

(** The remote terms after the additions of the plan were stored. *)
Let remote' :=
  remoteTerms ++
  map (stored_as created updated)
      (addTerms_termsData
         (SyncPlan.addTerms
            (SyncManager.calculateSyncPlan localKeys remoteTerms rt options))).

Lemma resync_remote : remote' = remoteTerms ++ map g F.
Proof.
  unfold remote'. rewrite addTerms_records. fold L R F.
  now rewrite stored_additions.
Qed.

Lemma resync_ids : remoteIds remote' = remoteIds remoteTerms ++ map fst F.
Proof.
  rewrite resync_remote. unfold remoteIds. rewrite map_app, map_map. reflexivity.
Qed.

Lemma resync_F_NoDup : NoDup (map fst F).
Proof.
  unfold F. assert (HN : NoDup (map fst L)) by apply Map_of_NoDup.
  induction L as [|e l IH]; [constructor|].
  cbn [map] in HN. inversion HN as [|? ? Hnin HN']; subst.
  cbn [filter]. destruct (negb _); [|now apply IH].
  cbn [map]. constructor; [|now apply IH].
  intros Hin. apply Hnin. apply in_map_iff in Hin.
  destruct Hin as (x & Hx & Hin). apply filter_In in Hin.
  rewrite <- Hx. apply in_map. tauto.
Qed.

Lemma resync_get_old k r :
  JS.get k R = Some r -> JS.get k (remoteKeyMap_of remote') = Some r.
Proof.
  intros H. rewrite last_remote_get. unfold last_remote.
  rewrite resync_remote, rev_app_distr, find_app.
  assert (E : find (fun t => POEditorTermResponse.term t =? k) (rev (map g F)) = None).
  { apply find_none_iff. intros x Hx. apply in_rev in Hx.
    apply in_map_iff in Hx. destruct Hx as (e & <- & He).
    apply filter_In in He. destruct He as [_ He].
    cbn [g POEditorTermResponse.term].
    apply String.eqb_neq. intros Hk.
    unfold JS.has in He. rewrite Hk, H in He. discriminate. }
  rewrite E. fold (last_remote k remoteTerms). now rewrite <- last_remote_get.
Qed.

Lemma resync_get_new e :
  In e F -> JS.get (fst e) (remoteKeyMap_of remote') = Some (g e).
Proof.
  intros He. rewrite last_remote_get. unfold last_remote.
  rewrite resync_remote, rev_app_distr, find_app.
  assert (E : find (fun t => POEditorTermResponse.term t =? fst e) (rev (map g F))
              = Some (g e)).
  { change (fst e) with (POEditorTermResponse.term (g e)) at 1.
    apply find_unique.
    - rewrite <- map_rev, map_map. cbn [g POEditorTermResponse.term].
      rewrite map_rev. apply NoDup_rev, resync_F_NoDup.
    - apply in_rev. rewrite rev_involutive. now apply in_map. }
  now rewrite E.
Qed.

Lemma resync_update_of e :
  In e L -> update_of (remoteKeyMap_of remote') e = update_of R e.
Proof.
  intros He. unfold update_of.
  destruct (JS.get (fst e) R) as [r|] eqn:Er.
  - now rewrite (resync_get_old _ _ Er).
  - assert (HF : In e F).
    { apply filter_In. split; [exact He|]. unfold JS.has. now rewrite Er. }
    rewrite (resync_get_new e HF). unfold g.
    now rewrite calculateTermUpdates_stored.
Qed.

Lemma resync_added_local k : In k (map fst F) -> In k (localIds localKeys).
Proof.
  intros H. apply in_map_iff in H. destruct H as (e & <- & He).
  apply filter_In in He. destruct He as [He _].
  apply (Map_of_keys_In DetectedKey.key localKeys).
  fold (localKeyMap_of localKeys). fold L. unfold JS.keys. now apply in_map.
Qed.

End Resync.

(** X7.  Diffing again after the service stored the additions as
    [POEditorClient.addTerms] sends them (absent annotations as empty
    strings, absent tags as an empty array): nothing is left to add, and
    the updates and deletions are those of the first plan; no stored
    addition is reported as needing an update. *)
Theorem resync_after_additions :
  forall localKeys remoteTerms rt rt' options created updated,
    let plan := SyncManager.calculateSyncPlan localKeys remoteTerms rt options in
    let remoteTerms' :=
      remoteTerms ++
      map (stored_as created updated) (addTerms_termsData (SyncPlan.addTerms plan)) in
    let plan' := SyncManager.calculateSyncPlan localKeys remoteTerms' rt' options in
    SyncPlan.addTerms plan' = [] /\
    SyncPlan.updateTerms plan' = SyncPlan.updateTerms plan /\
    SyncPlan.deleteTerms plan' = SyncPlan.deleteTerms plan.
Proof.
  intros localKeys remoteTerms rt rt' options created updated plan remoteTerms' plan'.
  pose proof (resync_ids localKeys remoteTerms rt options created updated) as Hids.
  fold plan in Hids. fold remoteTerms' in Hids.
  split; [|split].
  - apply (map_eq_nil POEditorTerm.term). unfold plan'. rewrite addTerms_ids, Hids.
    apply no_members_nil. intros k Hk. apply filter_In in Hk. destruct Hk as [Hk Hn].
    apply negb_true_iff in Hn.
    assert (Hin : In k (remoteIds remoteTerms ++
                        map fst (filter (fun e => negb (JS.has (fst e)
                                                   (remoteKeyMap_of remoteTerms)))
                                        (localKeyMap_of localKeys)))).
    { apply in_or_app.
      destruct (JS.includes (remoteIds remoteTerms) k) eqn:Ei.
      - left. now apply includes_true_iff.
      - right. rewrite Set_of_In in Hk.
        apply (proj2 (Map_of_keys_In DetectedKey.key localKeys k)) in Hk.
        fold (localKeyMap_of localKeys) in Hk. unfold JS.keys in Hk.
        apply in_map_iff in Hk. destruct Hk as (e & <- & He).
        apply in_map. apply filter_In. split; [exact He|].
        unfold remoteKeyMap_of. unfold remoteIds in Ei.
        now rewrite has_Map_of_includes, Ei. }
    apply includes_true_iff in Hin. congruence.
  - unfold plan', plan. rewrite !updateTerms_flat_map.
    apply flat_map_pointwise. intros e He.
    apply (resync_update_of localKeys remoteTerms rt options created updated e He).
  - unfold plan', plan. rewrite !deleteTerms_ids, Hids.
    destruct (SyncManager.deleteExtraneous options); [|reflexivity].
    rewrite Set_of_app. apply filter_fold_set_add.
    intros k Hk. apply negb_false_iff, includes_true_iff.
    now apply (resync_added_local localKeys remoteTerms k).
Qed.

(* ===================================================================== *)
(** ** The pace of the remote calls *)
(* ===================================================================== *)

Lemma settled_step d c ms evs :
  settled d (EvCall c :: EvWait ms :: evs) = ((d <=? ms)%Z && settled d evs).
Proof. reflexivity. Qed.

Lemma paced_step d c ms evs :
  paced d (EvCall c :: EvWait ms :: evs) = ((d <=? ms)%Z && paced d evs).
Proof. reflexivity. Qed.

Lemma settled_app_gen d n :
  forall a b, (length a <= n)%nat ->
    settled d a = true ->
    (settled d b = true -> settled d (a ++ b) = true) /\
    (paced d b = true -> paced d (a ++ b) = true) /\
    paced d a = true.
Proof.
  induction n as [|n IH]; intros a b Hn Ha.
  - destruct a; [|simpl in Hn; lia]. simpl. auto.
  - destruct a as [|[c|ms] [|[c'|ms'] a']]; try discriminate.
    + simpl. auto.
    + rewrite settled_step in Ha. apply andb_prop in Ha. destruct Ha as [H1 H2].
      cbn [length] in Hn.
      destruct (IH a' b ltac:(lia) H2) as (A & B & C).
      change ((EvCall c :: EvWait ms' :: a') ++ b)
        with (EvCall c :: EvWait ms' :: (a' ++ b)).
      rewrite settled_step, !paced_step, H1. cbn [andb]. auto.
Qed.

Lemma settled_app d a b :
  settled d a = true -> settled d b = true -> settled d (a ++ b) = true.
Proof.
  intros Ha Hb. now apply (settled_app_gen d (length a) a b (le_n _) Ha).
Qed.

Lemma settled_paced_app d a b :
  settled d a = true -> paced d b = true -> paced d (a ++ b) = true.
Proof.
  intros Ha Hb. now apply (settled_app_gen d (length a) a b (le_n _) Ha).
Qed.

Lemma settled_paced d a : settled d a = true -> paced d a = true.
Proof.
  intros Ha. now apply (settled_app_gen d (length a) a [] (le_n _) Ha).
Qed.

Lemma waitMs_lower minDelay hint attempt jitter :
  (0 <= jitter)%Z ->
  (minDelay <= POEditorClient.waitMs minDelay hint attempt jitter)%Z.
Proof. intros H. unfold POEditorClient.waitMs. lia. Qed.

Section Pace.
Variable env : Env.
Hypothesis Hrandom : random_in_unit env.

Lemma withRateLimit_loop_pace {T} (op : M World T) (d : Z) :
  one_call op ->
  forall fuel attempt w, exists evs,
    trace (snd (POEditorClient.withRateLimit_loop env fuel op d attempt w))
    = trace w ++ evs /\
    pace_of d (fst (POEditorClient.withRateLimit_loop env fuel op d attempt w)) evs.
Proof.
  intros H1. induction fuel as [|fuel IH]; intros attempt w.
  - exists []. simpl. now rewrite app_nil_r.
  - destruct (one_call_run op w H1) as [c [Hc Hd]].
    destruct (op w) as [[r|err|] w1] eqn:E; simpl in Hc, Hd;
      try (now contradiction Hd).
    + rewrite (loop_success env op d _ _ _ _ _ E). cbn [fst snd after_wait trace].
      exists [EvCall c; EvWait d]. split.
      * rewrite Hc, <- app_assoc. reflexivity.
      * cbn. now rewrite Z.leb_refl.
    + destruct (POEditorClient.retryable err attempt) eqn:Hr.
      * rewrite (loop_retry env op d _ _ _ _ _ E Hr).
        set (ms := POEditorClient.waitMs d (POEditorClient.err_retryAfterMs err)
                     attempt (jitter_at env w1)).
        destruct (IH (attempt + 1)%Z (after_wait ms (after_random w1)))
          as (evs & Ht & Hp).
        exists (EvCall c :: EvWait ms :: evs). split.
        -- rewrite Ht. cbn [after_wait after_random trace]. rewrite Hc.
           rewrite <- !app_assoc. reflexivity.
        -- assert (Hms : (d <=? ms)%Z = true).
           { apply Z.leb_le. apply waitMs_lower.
             apply (jitter_range env w1 Hrandom). }
           unfold pace_of in *.
           destruct (fst (POEditorClient.withRateLimit_loop env fuel op d
                            (attempt + 1) (after_wait ms (after_random w1))));
             rewrite ?settled_step, ?paced_step, Hms; exact Hp.
      * rewrite (loop_surface env op d _ _ _ _ _ E Hr). cbn [fst snd].
        exists [EvCall c]. split; [exact Hc | reflexivity].
Qed.

Lemma batchOperation_loop_pace {T R} (items : list T) (op : list T -> M World R)
    (batchSize d : Z) :
  (forall batch, one_call (op batch)) ->
  forall fuel i results w, exists evs,
    trace (snd (POEditorClient.batchOperation_loop env fuel items op batchSize d
                  i results w))
    = trace w ++ evs /\
    pace_of d (fst (POEditorClient.batchOperation_loop env fuel items op batchSize d
                      i results w)) evs.
Proof.
  intros H1. induction fuel as [|fuel IH]; intros i results w.
  - exists []. simpl. now rewrite app_nil_r.
  - cbn [POEditorClient.batchOperation_loop].
    destruct (i <? Z.of_nat (length items))%Z.
    + unfold bind.
      destruct (withRateLimit_loop_pace (op (JS.slice items i (i + batchSize))) d
                  (H1 _) 6 0%Z w) as (evs1 & Ht1 & Hp1).
      fold (POEditorClient.withRateLimit env (op (JS.slice items i (i + batchSize))) d)
        in Ht1, Hp1.
      destruct (POEditorClient.withRateLimit env
                  (op (JS.slice items i (i + batchSize))) d w) as [[r|e|] w1];
        cbn [fst snd] in *.
      * destruct (IH (i + batchSize)%Z (results ++ [r]) w1) as (evs2 & Ht2 & Hp2).
        exists (evs1 ++ evs2). split.
        -- rewrite Ht2, Ht1, app_assoc. reflexivity.
        -- unfold pace_of in *.
           destruct (fst (POEditorClient.batchOperation_loop env fuel items op
                            batchSize d (i + batchSize) (results ++ [r]) w1));
             [now apply settled_app | now apply settled_paced_app
              | now apply settled_app].
      * exists evs1. now split.
      * exists evs1. now split.
    + exists []. cbn. now rewrite app_nil_r.
Qed.

End Pace.

(** X8.  The pace of the rate-limited executor and of the batch
    orchestrator.  When [Math.random] stays in [[0, 1)] and the per-batch
    operation makes one remote call per invocation, every call of a run
    is immediately followed by a wait of at least the configured delay
    (the spacing delay after a success, the back-off before a retry), so
    no two calls are closer than the delay; the only call without a wait
    is the last call of a run that ends with an exception.  (The retry
    hint of a failure is a number of milliseconds here; a hint that is
    not a number is treated with the transport, below.) *)
Theorem executor_keeps_pace :
  forall env (T R : Type) (items : list T) (op : list T -> M World R)
         (batchSize delay : Z) (fuel : nat) (w : World),
    random_in_unit env ->
    (forall batch, one_call (op batch)) ->
    (forall batch, exists evs,
        trace (snd (POEditorClient.withRateLimit env (op batch) delay w))
        = trace w ++ evs /\
        pace_of delay (fst (POEditorClient.withRateLimit env (op batch) delay w)) evs) /\
    (exists evs,
        trace (snd (POEditorClient.batchOperation env fuel items op batchSize delay w))
        = trace w ++ evs /\
        pace_of delay
          (fst (POEditorClient.batchOperation env fuel items op batchSize delay w))
          evs).
Proof.
  intros env T R items op batchSize delay fuel w Hr H1. split.
  - intros batch. apply (withRateLimit_loop_pace env Hr (op batch) delay (H1 batch)).
  - apply (batchOperation_loop_pace env Hr items op batchSize delay H1).
Qed.

Lemma env_throttling_first_unit n : random_in_unit (Samples.env_throttling_first n).
Proof. intros k. simpl. unfold random_den. split; [lia|]. now apply Z.pow_pos_nonneg. Qed.

(** Three additions in batches of two, the first request throttled: the
    trace is call, back-off, call, delay, call, delay. *)
Lemma executor_keeps_pace_witness :
  random_in_unit (Samples.env_throttling_first 1) /\
  (forall batch,
      one_call (POEditorClient.addTerms (Samples.env_throttling_first 1)
                  "project_id" batch)) /\
  exists evs,
    trace (snd (POEditorClient.batchOperation (Samples.env_throttling_first 1) 4
                  [Samples.term_named "a"; Samples.term_named "b"; Samples.term_named "c"]
                  (fun batch =>
                     POEditorClient.addTerms (Samples.env_throttling_first 1)
                       "project_id" batch)
                  2 1000 initial_world))
    = trace initial_world ++ evs /\
    pace_of 1000
      (fst (POEditorClient.batchOperation (Samples.env_throttling_first 1) 4
              [Samples.term_named "a"; Samples.term_named "b"; Samples.term_named "c"]
              (fun batch =>
                 POEditorClient.addTerms (Samples.env_throttling_first 1)
                   "project_id" batch)
              2 1000 initial_world))
      evs.
Proof.
  split; [apply env_throttling_first_unit|].
  split; [intros batch; apply addTerms_one_call|].
  exact (proj2 (executor_keeps_pace (Samples.env_throttling_first 1) _ _
                  [Samples.term_named "a"; Samples.term_named "b"; Samples.term_named "c"]
                  (fun batch =>
                     POEditorClient.addTerms (Samples.env_throttling_first 1)
                       "project_id" batch)
                  2 1000 4 initial_world (env_throttling_first_unit 1)
                  (fun batch => addTerms_one_call _ "project_id" batch))).
Defined.

Section PhasePace.
Variable env : Env.
Hypothesis Hrandom : random_in_unit env.
Variables (fuel : nat) (options : SyncManager.SyncExecutionOptions).

Let d := (SyncManager.rateLimit options * 1000)%Z.

Ltac phase_pace run_lemma one_call_lemma :=
  intros [r w]; rewrite run_lemma;
  destruct (0 <? _)%nat;
  [ match goal with
    | |- context [POEditorClient.batchOperation env fuel ?items ?op ?b ?dl w] =>
        destruct (batchOperation_loop_pace env Hrandom items op b dl
                    (fun batch => one_call_lemma env "project_id" batch)
                    fuel 0%Z [] w) as (evs & Ht & Hp);
        fold (POEditorClient.batchOperation env fuel items op b dl) in Ht, Hp;
        destruct (POEditorClient.batchOperation env fuel items op b dl w)
          as [[results|e|] w1];
        exists evs; split; assumption
    end
  | exists []; split; [cbn; now rewrite app_nil_r | reflexivity] ].

Lemma add_phase_pace :
  forall s, exists evs,
    trace (snd (snd (SyncManager.add_phase env fuel options s)))
    = trace (snd s) ++ evs /\
    pace_of d (fst (SyncManager.add_phase env fuel options s)) evs.
Proof. phase_pace add_phase_run addTerms_one_call. Qed.

Lemma update_phase_pace :
  forall s, exists evs,
    trace (snd (snd (SyncManager.update_phase env fuel options s)))
    = trace (snd s) ++ evs /\
    pace_of d (fst (SyncManager.update_phase env fuel options s)) evs.
Proof. phase_pace update_phase_run updateTerms_one_call. Qed.

Lemma delete_phase_pace :
  forall s, exists evs,
    trace (snd (snd (SyncManager.delete_phase env fuel options s)))
    = trace (snd s) ++ evs /\
    pace_of d (fst (SyncManager.delete_phase env fuel options s)) evs.
Proof. phase_pace delete_phase_run deleteTerms_one_call. Qed.

End PhasePace.

Lemma caught_errors e r : SyncManager.errors (caught e r) <> [].
Proof.
  unfold caught, SyncManager.push_error. cbn [SyncManager.errors].
  destruct (SyncManager.errors r); discriminate.
Qed.

(** X9.  A run of the coordinator keeps the pace given by [rateLimit]:
    when [Math.random] stays in [[0, 1)], every remote call of the run
    but possibly the last is immediately followed by a wait of at least
    [rateLimit * 1000] milliseconds, across the batches and across the
    three phases; in a run that reports no error the last call is
    followed by that wait too, and a dry run adds no event at all.
    (Retry hints are numbers of milliseconds, as for the executor.) *)
Theorem live_run_keeps_pace :
  forall env fuel options w,
    random_in_unit env ->
    let run := SyncManager.executeSync env fuel options w in
    let d := (SyncManager.rateLimit options * 1000)%Z in
    exists evs,
      trace (snd run) = trace w ++ evs /\
      paced d evs = true /\
      (forall r, fst run = Ok r -> SyncManager.errors r = [] -> settled d evs = true) /\
      (SyncManager.dryRun options = true -> evs = []).
Proof.
  intros env fuel options w Hr run d.
  destruct (SyncManager.dryRun options) eqn:Hdry.
  { unfold run. rewrite (executeSync_dry env fuel options w Hdry).
    exists []. cbn. rewrite app_nil_r. repeat split. }
  unfold run. rewrite (executeSync_live env fuel options w Hdry). cbv zeta.
  set (s0 := (empty_result (uuid env (uuids w)), after_uuid w)).
  assert (T0 : trace (snd s0) = trace w) by reflexivity.
  assert (E0 : SyncManager.errors (fst s0) = []) by reflexivity.
  destruct (add_phase_pace env Hr fuel options s0) as (ev1 & T1 & P1).
  pose proof (add_phase_ok env fuel options s0) as O1.
  destruct (SyncManager.add_phase env fuel options s0) as [[[]|e1|] s1];
    cbn [fst snd pace_of] in *; rewrite T0 in T1.
  2:{ exists ev1. split; [exact T1|]. split; [exact P1|].
      split; [|discriminate]. intros r Hx He. exfalso.
      assert (r = caught e1 (fst s1)) by congruence. subst r.
      now apply (caught_errors e1 (fst s1)). }
  2:{ exists ev1. split; [exact T1|]. split; [now apply settled_paced|].
      split; [|discriminate]. intros r Hx. discriminate. }
  destruct (update_phase_pace env Hr fuel options s1) as (ev2 & T2 & P2).
  pose proof (update_phase_ok env fuel options s1) as O2.
  destruct (SyncManager.update_phase env fuel options s1) as [[[]|e2|] s2];
    cbn [fst snd pace_of] in *; rewrite T1, <- app_assoc in T2.
  2:{ exists (ev1 ++ ev2). split; [exact T2|].
      split; [now apply settled_paced_app|].
      split; [|discriminate]. intros r Hx He. exfalso.
      assert (r = caught e2 (fst s2)) by congruence. subst r.
      now apply (caught_errors e2 (fst s2)). }
  2:{ exists (ev1 ++ ev2). split; [exact T2|].
      split; [now apply settled_paced, settled_app|].
      split; [|discriminate]. intros r Hx. discriminate. }
  assert (S12 : settled d (ev1 ++ ev2) = true) by now apply settled_app.
  destruct (delete_phase_pace env Hr fuel options s2) as (ev3 & T3 & P3).
  pose proof (delete_phase_ok env fuel options s2) as O3.
  destruct (SyncManager.delete_phase env fuel options s2) as [[[]|e3|] s3];
    cbn [fst snd pace_of] in *; rewrite T2, <- app_assoc in T3.
  2:{ exists ((ev1 ++ ev2) ++ ev3). split; [exact T3|].
      split; [now apply settled_paced_app|].
      split; [|discriminate]. intros r Hx He. exfalso.
      assert (r = caught e3 (fst s3)) by congruence. subst r.
      now apply (caught_errors e3 (fst s3)). }
  2:{ exists ((ev1 ++ ev2) ++ ev3). split; [exact T3|].
      split; [now apply settled_paced, settled_app|].
      split; [|discriminate]. intros r Hx. discriminate. }
  assert (S123 : settled d ((ev1 ++ ev2) ++ ev3) = true) by now apply settled_app.
  destruct (mt_phase_run options s3) as (r' & E4 & _).
  rewrite E4. cbn [fst snd].
  exists ((ev1 ++ ev2) ++ ev3). split; [exact T3|].
  split; [now apply settled_paced|]. split; [|discriminate]. intros; exact S123.
Qed.

Lemma env_accepting_unit : random_in_unit Samples.env_accepting.
Proof. intros k. simpl. unfold random_den. split; [lia|]. now apply Z.pow_pos_nonneg. Qed.

(** The live run of [plan_three] against an accepting service. *)
Lemma live_run_keeps_pace_witness :
  random_in_unit Samples.env_accepting /\
  exists evs,
    trace (snd (SyncManager.executeSync Samples.env_accepting 5 Samples.live_three
                  initial_world))
    = trace initial_world ++ evs /\
    paced (SyncManager.rateLimit Samples.live_three * 1000) evs = true.
Proof.
  split; [apply env_accepting_unit|].
  destruct (live_run_keeps_pace Samples.env_accepting 5 Samples.live_three
              initial_world env_accepting_unit) as (evs & H1 & H2 & _).
  exists evs. split; assumption.
Defined.

(* ===================================================================== *)
(** ** A batch size that is not positive *)
(* ===================================================================== *)

Section NonPositiveBatch.
Variable env : Env.
Context {T R : Type}.
Variables (items : list T) (op : list T -> M World R) (batchSize delay : Z).
Hypothesis Hsize : (batchSize <= 0)%Z.
Hypothesis Hitems : items <> [].

Lemma nonpositive_index_in_range i : (i <= 0)%Z -> (i <? Z.of_nat (length items))%Z = true.
Proof.
  intros Hi. apply Z.ltb_lt. destruct items; [congruence|]. cbn [length]. lia.
Qed.

Lemma batchOperation_loop_nonpositive fuel :
  forall i results w rs w',
    (i <= 0)%Z ->
    POEditorClient.batchOperation_loop env fuel items op batchSize delay i results w
    <> (Ok rs, w').
Proof.
  induction fuel as [|fuel IH]; intros i results w rs w' Hi; [discriminate|].
  cbn [POEditorClient.batchOperation_loop].
  rewrite (nonpositive_index_in_range i Hi). unfold bind.
  destruct (POEditorClient.withRateLimit env _ delay w) as [[r|e|] w1];
    [|discriminate|discriminate].
  apply IH. lia.
Qed.

Lemma batchOperation_loop_hangs fuel :
  always_succeeds op ->
  forall i results w,
    (i <= 0)%Z ->
    fst (POEditorClient.batchOperation_loop env fuel items op batchSize delay
           i results w) = Diverge.
Proof.
  intros Hop. induction fuel as [|fuel IH]; intros i results w Hi; [reflexivity|].
  cbn [POEditorClient.batchOperation_loop].
  rewrite (nonpositive_index_in_range i Hi). unfold bind.
  destruct (Hop (JS.slice items i (i + batchSize)) w) as (r & w1 & E).
  unfold POEditorClient.withRateLimit.
  rewrite (loop_success env _ delay _ _ _ _ _ E).
  apply IH. lia.
Qed.

End NonPositiveBatch.

(** X10.  The batch orchestrator does not validate the batch size: with a
    batch size of zero or less and at least one item, the loop index never
    passes the end of the list, so a run never returns a result list; it
    goes on until an invocation fails, and for ever when every invocation
    succeeds. *)
Theorem nonpositive_batch_never_returns :
  forall env (T R : Type) (items : list T) (op : list T -> M World R)
         (batchSize delay : Z) (fuel : nat) (w : World),
    (batchSize <= 0)%Z -> items <> [] ->
    (forall rs w',
        POEditorClient.batchOperation env fuel items op batchSize delay w
        <> (Ok rs, w')) /\
    (always_succeeds op ->
     fst (POEditorClient.batchOperation env fuel items op batchSize delay w)
     = Diverge).
Proof.
  intros env T R items op batchSize delay fuel w HB Hi. split.
  - intros rs w'. unfold POEditorClient.batchOperation.
    exact (batchOperation_loop_nonpositive env items op batchSize delay HB Hi fuel
             0%Z [] w rs w' (Z.le_refl 0)).
  - intros Hop. unfold POEditorClient.batchOperation.
    exact (batchOperation_loop_hangs env items op batchSize delay HB Hi fuel Hop
             0%Z [] w (Z.le_refl 0)).
Qed.

Lemma addTerms_succeeds env pid :
  accepting env -> always_succeeds (fun batch => POEditorClient.addTerms env pid batch).
Proof.
  intros Ha batch w. unfold POEditorClient.addTerms, bind, ret, request.
  destruct (Ha (requests w) (CallAddTerms pid batch)) as [r E]. rewrite E.
  eexists _, _. reflexivity.
Qed.

Lemma updateTerms_succeeds env pid :
  accepting env -> always_succeeds (fun batch => POEditorClient.updateTerms env pid batch).
Proof.
  intros Ha batch w. unfold POEditorClient.updateTerms, bind, ret, request.
  destruct (Ha (requests w) (CallUpdateTerms pid batch)) as [r E]. rewrite E.
  eexists _, _. reflexivity.
Qed.

Lemma deleteTerms_succeeds env pid :
  accepting env -> always_succeeds (fun batch => POEditorClient.deleteTerms env pid batch).
Proof.
  intros Ha batch w. unfold POEditorClient.deleteTerms, bind, ret, request.
  destruct (Ha (requests w) (CallDeleteTerms pid batch)) as [r E]. rewrite E.
  eexists _, _. reflexivity.
Qed.

Lemma env_accepting_accepts : accepting Samples.env_accepting.
Proof. intros n c. now exists (mkCounts 1 1). Qed.

(** Two additions with a batch size of -1, against a service that
    accepts every request. *)
Lemma nonpositive_batch_never_returns_witness :
  (-1 <= 0)%Z /\
  [Samples.term_named "a"; Samples.term_named "b"] <> [] /\
  fst (POEditorClient.batchOperation Samples.env_accepting 50
         [Samples.term_named "a"; Samples.term_named "b"]
         (fun batch => POEditorClient.addTerms Samples.env_accepting "project_id" batch)
         (-1) 1000 initial_world)
  = Diverge.
Proof.
  assert (H1 : (-1 <= 0)%Z) by lia.
  assert (H2 : [Samples.term_named "a"; Samples.term_named "b"] <> []) by discriminate.
  split; [exact H1|]. split; [exact H2|].
  exact (proj2 (nonpositive_batch_never_returns Samples.env_accepting _ _
                  [Samples.term_named "a"; Samples.term_named "b"]
                  (fun batch =>
                     POEditorClient.addTerms Samples.env_accepting "project_id" batch)
                  (-1) 1000 50 initial_world H1 H2)
               (addTerms_succeeds Samples.env_accepting "project_id"
                  env_accepting_accepts)).
Defined.

(** X11.  A live run whose batch size is zero or less, for a plan with at
    least one addition, update or deletion, against a service that accepts
    every request: the run has no outcome, whatever the number of loop
    iterations allowed (the first phase with work to do never ends). *)
Theorem live_run_hangs_on_nonpositive_batch :
  forall env fuel options w,
    accepting env ->
    SyncManager.dryRun options = false ->
    (SyncManager.batchSize options <= 0)%Z ->
    (SyncPlan.addTerms (SyncManager.plan options) <> [] \/
     SyncPlan.updateTerms (SyncManager.plan options) <> [] \/
     SyncPlan.deleteTerms (SyncManager.plan options) <> []) ->
    fst (SyncManager.executeSync env fuel options w) = Diverge.
Proof.
  intros env fuel options w Ha Hdry HB Hwork.
  rewrite (executeSync_live env fuel options w Hdry). cbv zeta.
  set (s0 := (empty_result (uuid env (uuids w)), after_uuid w)).
  assert (Hlen : forall {A} (l : list A), (0 <? length l)%nat = false -> l = []).
  { intros A l H. destruct l; [reflexivity | discriminate]. }
  destruct s0 as [r0 w0]. rewrite add_phase_run.
  destruct (0 <? length (SyncPlan.addTerms (SyncManager.plan options)))%nat eqn:La.
  { assert (Hne : SyncPlan.addTerms (SyncManager.plan options) <> [])
      by (intros E; rewrite E in La; discriminate).
    pose proof (batchOperation_loop_hangs env _ _ (SyncManager.batchSize options)
                  (SyncManager.rateLimit options * 1000) HB Hne fuel
                  (addTerms_succeeds env "project_id" Ha) 0%Z [] w0 (Z.le_refl 0)) as H.
    fold (POEditorClient.batchOperation env fuel
            (SyncPlan.addTerms (SyncManager.plan options))
            (fun batch => POEditorClient.addTerms env "project_id" batch)
            (SyncManager.batchSize options) (SyncManager.rateLimit options * 1000)) in H.
    destruct (POEditorClient.batchOperation env fuel _ _ _ _ w0) as [[x|e|] w1];
      simpl in H; try discriminate. reflexivity. }
  rewrite update_phase_run.
  destruct (0 <? length (SyncPlan.updateTerms (SyncManager.plan options)))%nat eqn:Lu.
  { assert (Hne : SyncPlan.updateTerms (SyncManager.plan options) <> [])
      by (intros E; rewrite E in Lu; discriminate).
    pose proof (batchOperation_loop_hangs env _ _ (SyncManager.batchSize options)
                  (SyncManager.rateLimit options * 1000) HB Hne fuel
                  (updateTerms_succeeds env "project_id" Ha) 0%Z [] w0 (Z.le_refl 0)) as H.
    fold (POEditorClient.batchOperation env fuel
            (SyncPlan.updateTerms (SyncManager.plan options))
            (fun batch => POEditorClient.updateTerms env "project_id" batch)
            (SyncManager.batchSize options) (SyncManager.rateLimit options * 1000)) in H.
    destruct (POEditorClient.batchOperation env fuel _ _ _ _ w0) as [[x|e|] w1];
      simpl in H; try discriminate. reflexivity. }
  rewrite delete_phase_run.
  destruct (0 <? length (SyncPlan.deleteTerms (SyncManager.plan options)))%nat eqn:Ld.
  { assert (Hne : SyncPlan.deleteTerms (SyncManager.plan options) <> [])
      by (intros E; rewrite E in Ld; discriminate).
    pose proof (batchOperation_loop_hangs env _ _ (SyncManager.batchSize options)
                  (SyncManager.rateLimit options * 1000) HB Hne fuel
                  (deleteTerms_succeeds env "project_id" Ha) 0%Z [] w0 (Z.le_refl 0)) as H.
    fold (POEditorClient.batchOperation env fuel
            (SyncPlan.deleteTerms (SyncManager.plan options))
            (fun batch => POEditorClient.deleteTerms env "project_id" batch)
            (SyncManager.batchSize options) (SyncManager.rateLimit options * 1000)) in H.
    destruct (POEditorClient.batchOperation env fuel _ _ _ _ w0) as [[x|e|] w1];
      simpl in H; try discriminate. reflexivity. }
  exfalso. apply Hlen in La, Lu, Ld. tauto.
Qed.

Lemma live_run_hangs_on_nonpositive_batch_witness :
  accepting Samples.env_accepting /\
  fst (SyncManager.executeSync Samples.env_accepting 40
         (SyncManager.mkExec Samples.plan_three 0 SyncManager.up
            (SyncManager.MTBool false) false 20)
         initial_world) = Diverge.
Proof.
  split; [apply env_accepting_accepts|].
  apply (live_run_hangs_on_nonpositive_batch Samples.env_accepting 40
           (SyncManager.mkExec Samples.plan_three 0 SyncManager.up
              (SyncManager.MTBool false) false 20)
           initial_world env_accepting_accepts).
  - reflexivity.
  - simpl. lia.
  - left. discriminate.
Defined.

(* ===================================================================== *)
(** ** A live run against a service that accepts every request *)
(* ===================================================================== *)

Lemma sum_by_from {R} (f : R -> Z) (rs : list R) (z : Z) :
  fold_left (fun sum r => (sum + f r)%Z) rs z
  = (z + SyncManager.sum_by f rs)%Z.
Proof.
  unfold SyncManager.sum_by. revert z.
  induction rs as [|r rs IH]; intros z; cbn [fold_left]; [lia|].
  rewrite (IH (z + f r)%Z), (IH (0 + f r)%Z). lia.
Qed.

Lemma sum_by_cons {R} (f : R -> Z) (r : R) (rs : list R) :
  SyncManager.sum_by f (r :: rs) = (f r + SyncManager.sum_by f rs)%Z.
Proof.
  unfold SyncManager.sum_by at 1. cbn [fold_left]. rewrite sum_by_from. lia.
Qed.

Section AcceptedBatches.
Variable env : Env.
Context {T R : Type}.
Variables (call : list T -> RemoteCall) (wrap : Counts -> R).
Variable d : Z.
Hypothesis Hacc : accepting env.

Let op := fun batch : list T =>
  bind (request env (call batch)) (fun r => ret (wrap r)).

(** The result of a chunk is the answer of the service to its call. *)
Let answered (c : list T) (r : R) : Prop :=
  exists n cnt, server env n (call c) = inr cnt /\ r = wrap cnt.

Lemma for_each_accepting (cs : list (list T)) :
  forall w, exists rs w',
    for_each (fun c => POEditorClient.withRateLimit env (op c) d) cs w = (Ok rs, w') /\
    trace w' = trace w ++ flat_map (fun c => [EvCall (call c); EvWait d]) cs /\
    Forall2 answered cs rs.
Proof.
  induction cs as [|c cs IH]; intros w.
  - exists [], w. cbn. rewrite app_nil_r. repeat split. constructor.
  - destruct (Hacc (requests w) (call c)) as [cnt Hc].
    set (w1 := mkWorld (trace w ++ [EvCall (call c)]) (S (requests w))
                 (randoms w) (uuids w)).
    assert (E : op c w = (Ok (wrap cnt), w1)).
    { unfold op, bind, ret, request. now rewrite Hc. }
    destruct (IH (after_wait d w1)) as (rs & w' & E1 & Ht & HF).
    exists (wrap cnt :: rs), w'.
    cbn [for_each]. unfold bind at 1. unfold POEditorClient.withRateLimit at 1.
    rewrite (loop_success env (op c) d _ _ _ _ _ E).
    unfold bind. rewrite E1. unfold ret. split; [reflexivity|]. split.
    + rewrite Ht. cbn [flat_map after_wait w1 trace].
      rewrite <- !app_assoc. reflexivity.
    + constructor; [|exact HF]. now exists (requests w), cnt.
Qed.

Lemma batchOperation_accepting (items : list T) batchSize fuel w :
  (1 <= batchSize)%Z -> (length items < fuel)%nat ->
  exists rs w',
    POEditorClient.batchOperation env fuel items op batchSize d w = (Ok rs, w') /\
    trace w' = trace w ++ batch_events call (Z.to_nat batchSize) d items /\
    Forall2 answered (chunks (Z.to_nat batchSize) items) rs.
Proof.
  intros HB Hf.
  rewrite (batchOperation_for_each env items op batchSize d HB fuel w Hf).
  apply for_each_accepting.
Qed.

End AcceptedBatches.

Lemma nil_of_length {A} (l : list A) : (0 <? length l)%nat = false -> l = [].
Proof. destruct l; [reflexivity | discriminate]. Qed.

Section AcceptedRun.
Variable env : Env.
Hypothesis Hacc : accepting env.
Variables (fuel : nat) (options : SyncManager.SyncExecutionOptions).
Hypothesis HB : (1 <= SyncManager.batchSize options)%Z.

Let b := Z.to_nat (SyncManager.batchSize options).
Let d := (SyncManager.rateLimit options * 1000)%Z.
Let p := SyncManager.plan options.

Lemma add_phase_accepting r w :
  (length (SyncPlan.addTerms p) < fuel)%nat ->
  exists rs w',
    SyncManager.add_phase env fuel options (r, w)
    = (Ok tt,
       (if (0 <? length (SyncPlan.addTerms p))%nat
        then SyncManager.add_rateLimitWaits (Z.of_nat (length rs))
               (SyncManager.set_created (SyncManager.sum_by POEditorClient.added rs) r)
        else r, w')) /\
    trace w' = trace w ++ batch_events (CallAddTerms "project_id") b d (SyncPlan.addTerms p) /\
    Forall2 (fun c x => exists n cnt,
                 server env n (CallAddTerms "project_id" c) = inr cnt /\
                 x = POEditorClient.mkAdd (parsed cnt) (affected cnt))
            (chunks b (SyncPlan.addTerms p)) rs.
Proof.
  intros Hf. rewrite add_phase_run. fold p.
  destruct (0 <? length (SyncPlan.addTerms p))%nat eqn:L.
  - destruct (batchOperation_accepting env (CallAddTerms "project_id")
                (fun x => POEditorClient.mkAdd (parsed x) (affected x)) d Hacc
                (SyncPlan.addTerms p) (SyncManager.batchSize options) fuel w HB Hf)
      as (rs & w' & E & Ht & HF).
    change (POEditorClient.batchOperation env fuel (SyncPlan.addTerms p)
              (fun batch => POEditorClient.addTerms env "project_id" batch)
              (SyncManager.batchSize options) d w = (Ok rs, w')) in E.
    fold d. rewrite E. exists rs, w'. repeat split; assumption.
  - apply nil_of_length in L. rewrite L. exists [], w. split; [reflexivity|].
    split; [cbn; now rewrite app_nil_r | constructor].
Qed.

Lemma update_phase_accepting r w :
  (length (SyncPlan.updateTerms p) < fuel)%nat ->
  exists rs w',
    SyncManager.update_phase env fuel options (r, w)
    = (Ok tt,
       (if (0 <? length (SyncPlan.updateTerms p))%nat
        then SyncManager.add_rateLimitWaits (Z.of_nat (length rs))
               (SyncManager.set_updated (SyncManager.sum_by POEditorClient.updated rs) r)
        else r, w')) /\
    trace w' = trace w ++ batch_events (CallUpdateTerms "project_id") b d
                            (SyncPlan.updateTerms p) /\
    Forall2 (fun c x => exists n cnt,
                 server env n (CallUpdateTerms "project_id" c) = inr cnt /\
                 x = POEditorClient.mkUpdated (parsed cnt) (affected cnt))
            (chunks b (SyncPlan.updateTerms p)) rs.
Proof.
  intros Hf. rewrite update_phase_run. fold p.
  destruct (0 <? length (SyncPlan.updateTerms p))%nat eqn:L.
  - destruct (batchOperation_accepting env (CallUpdateTerms "project_id")
                (fun x => POEditorClient.mkUpdated (parsed x) (affected x)) d Hacc
                (SyncPlan.updateTerms p) (SyncManager.batchSize options) fuel w HB Hf)
      as (rs & w' & E & Ht & HF).
    change (POEditorClient.batchOperation env fuel (SyncPlan.updateTerms p)
              (fun batch => POEditorClient.updateTerms env "project_id" batch)
              (SyncManager.batchSize options) d w = (Ok rs, w')) in E.
    fold d. rewrite E. exists rs, w'. repeat split; assumption.
  - apply nil_of_length in L. rewrite L. exists [], w. split; [reflexivity|].
    split; [cbn; now rewrite app_nil_r | constructor].
Qed.

Lemma delete_phase_accepting r w :
  (length (SyncPlan.deleteTerms p) < fuel)%nat ->
  exists rs w',
    SyncManager.delete_phase env fuel options (r, w)
    = (Ok tt,
       (if (0 <? length (SyncPlan.deleteTerms p))%nat
        then SyncManager.add_rateLimitWaits (Z.of_nat (length rs))
               (SyncManager.set_deleted (SyncManager.sum_by POEditorClient.deleted rs) r)
        else r, w')) /\
    trace w' = trace w ++ batch_events (CallDeleteTerms "project_id") b d
                            (SyncPlan.deleteTerms p) /\
    Forall2 (fun c x => exists n cnt,
                 server env n (CallDeleteTerms "project_id" c) = inr cnt /\
                 x = POEditorClient.mkDeleted (parsed cnt) (affected cnt))
            (chunks b (SyncPlan.deleteTerms p)) rs.
Proof.
  intros Hf. rewrite delete_phase_run. fold p.
  destruct (0 <? length (SyncPlan.deleteTerms p))%nat eqn:L.
  - destruct (batchOperation_accepting env (CallDeleteTerms "project_id")
                (fun x => POEditorClient.mkDeleted (parsed x) (affected x)) d Hacc
                (SyncPlan.deleteTerms p) (SyncManager.batchSize options) fuel w HB Hf)
      as (rs & w' & E & Ht & HF).
    change (POEditorClient.batchOperation env fuel (SyncPlan.deleteTerms p)
              (fun batch => POEditorClient.deleteTerms env "project_id" batch)
              (SyncManager.batchSize options) d w = (Ok rs, w')) in E.
    fold d. rewrite E. exists rs, w'. repeat split; assumption.
  - apply nil_of_length in L. rewrite L. exists [], w. split; [reflexivity|].
    split; [cbn; now rewrite app_nil_r | constructor].
Qed.

Lemma mt_phase_outcome r w :
  SyncManager.mt_phase options (r, w)
  = (Ok tt,
     (if SyncManager.mt_truthy (SyncManager.machineTranslate options)
         && (0 <? SyncPlan.missing (SyncPlan.stats (SyncManager.plan options)))%Z
      then SyncManager.set_mtTriggered (mt_outcome options) r else r, w)).
Proof.
  unfold SyncManager.mt_phase, mt_outcome.
  destruct (SyncManager.mt_truthy _ && _); reflexivity.
Qed.

(** The whole live run: results of the three batch runs and the final
    result object. *)
Lemma live_run_accepting w :
  SyncManager.dryRun options = false ->
  (length (SyncPlan.addTerms p) < fuel)%nat ->
  (length (SyncPlan.updateTerms p) < fuel)%nat ->
  (length (SyncPlan.deleteTerms p) < fuel)%nat ->
  exists ra ru rd w',
    SyncManager.executeSync env fuel options w
    = (Ok (SyncManager.mkResult
             (SyncManager.sum_by POEditorClient.added ra)
             (SyncManager.sum_by POEditorClient.updated ru)
             (SyncManager.sum_by POEditorClient.deleted rd)
             (mt_outcome options) []
             (Z.of_nat (length ra) + Z.of_nat (length ru) + Z.of_nat (length rd))
             (uuid env (uuids w))), w') /\
    trace w'
    = trace w ++
      (batch_events (CallAddTerms "project_id") b d (SyncPlan.addTerms p) ++
       batch_events (CallUpdateTerms "project_id") b d (SyncPlan.updateTerms p) ++
       batch_events (CallDeleteTerms "project_id") b d (SyncPlan.deleteTerms p)) /\
    Forall2 (fun c x => exists n cnt,
                 server env n (CallAddTerms "project_id" c) = inr cnt /\
                 x = POEditorClient.mkAdd (parsed cnt) (affected cnt))
            (chunks b (SyncPlan.addTerms p)) ra /\
    Forall2 (fun c x => exists n cnt,
                 server env n (CallUpdateTerms "project_id" c) = inr cnt /\
                 x = POEditorClient.mkUpdated (parsed cnt) (affected cnt))
            (chunks b (SyncPlan.updateTerms p)) ru /\
    Forall2 (fun c x => exists n cnt,
                 server env n (CallDeleteTerms "project_id" c) = inr cnt /\
                 x = POEditorClient.mkDeleted (parsed cnt) (affected cnt))
            (chunks b (SyncPlan.deleteTerms p)) rd.
Proof.
  intros Hdry Ha Hu Hd.
  rewrite (executeSync_live env fuel options w Hdry). cbv zeta.
  destruct (add_phase_accepting (empty_result (uuid env (uuids w))) (after_uuid w) Ha)
    as (ra & w1 & E1 & T1 & F1).
  rewrite E1.
  match goal with
  | |- context [SyncManager.update_phase env fuel options (?r, w1)] =>
      destruct (update_phase_accepting r w1 Hu) as (ru & w2 & E2 & T2 & F2)
  end.
  rewrite E2.
  match goal with
  | |- context [SyncManager.delete_phase env fuel options (?r, w2)] =>
      destruct (delete_phase_accepting r w2 Hd) as (rd & w3 & E3 & T3 & F3)
  end.
  rewrite E3. rewrite mt_phase_outcome. cbn [fst snd].
  exists ra, ru, rd, w3. split; [|split; [|auto]].
  - f_equal. f_equal.
    assert (Ea : (0 <? length (SyncPlan.addTerms p))%nat = false -> ra = []).
    { intros L. apply nil_of_length in L. rewrite L in F1. now inversion F1. }
    assert (Eu : (0 <? length (SyncPlan.updateTerms p))%nat = false -> ru = []).
    { intros L. apply nil_of_length in L. rewrite L in F2. now inversion F2. }
    assert (Ed : (0 <? length (SyncPlan.deleteTerms p))%nat = false -> rd = []).
    { intros L. apply nil_of_length in L. rewrite L in F3. now inversion F3. }
    unfold mt_outcome.
    destruct (0 <? length (SyncPlan.addTerms p))%nat;
      destruct (0 <? length (SyncPlan.updateTerms p))%nat;
      destruct (0 <? length (SyncPlan.deleteTerms p))%nat;
      rewrite ?(Ea eq_refl), ?(Eu eq_refl), ?(Ed eq_refl);
      destruct (SyncManager.mt_truthy _ && _);
      unfold empty_result, SyncManager.set_mtTriggered, SyncManager.add_rateLimitWaits,
        SyncManager.set_created, SyncManager.set_updated, SyncManager.set_deleted;
      cbn [SyncManager.created SyncManager.updated SyncManager.deleted
           SyncManager.mtTriggered SyncManager.errors SyncManager.rateLimitWaits
           SyncManager.auditLogId length];
      f_equal; unfold SyncManager.sum_by; cbn [fold_left]; lia.
  - rewrite T3, T2, T1. cbn [after_uuid trace]. rewrite <- !app_assoc. reflexivity.
Qed.

End AcceptedRun.

(** X12.  A live run against a service that accepts every request, with
    a batch size of at least 1: the run returns without an error entry;
    its events are, per phase and in the order additions, updates,
    deletions, one call per chunk of the planned list (chunks of
    [batchSize] terms in plan order, sent to ['project_id']) each followed
    by a wait of [rateLimit * 1000] ms; [rateLimitWaits] counts the chunks
    of the three lists; [mtTriggered] is set when machine translation is
    requested and the plan has missing translations. *)
Theorem live_run_on_accepting_service :
  forall env fuel options w,
    accepting env ->
    SyncManager.dryRun options = false ->
    (1 <= SyncManager.batchSize options)%Z ->
    (length (SyncPlan.addTerms (SyncManager.plan options)) < fuel)%nat ->
    (length (SyncPlan.updateTerms (SyncManager.plan options)) < fuel)%nat ->
    (length (SyncPlan.deleteTerms (SyncManager.plan options)) < fuel)%nat ->
    let b := Z.to_nat (SyncManager.batchSize options) in
    let d := (SyncManager.rateLimit options * 1000)%Z in
    let p := SyncManager.plan options in
    exists r w',
      SyncManager.executeSync env fuel options w = (Ok r, w') /\
      new_events w w'
      = batch_events (CallAddTerms "project_id") b d (SyncPlan.addTerms p) ++
        batch_events (CallUpdateTerms "project_id") b d (SyncPlan.updateTerms p) ++
        batch_events (CallDeleteTerms "project_id") b d (SyncPlan.deleteTerms p) /\
      SyncManager.errors r = [] /\
      SyncManager.rateLimitWaits r
      = Z.of_nat (ceil_div (length (SyncPlan.addTerms p)) b
                  + ceil_div (length (SyncPlan.updateTerms p)) b
                  + ceil_div (length (SyncPlan.deleteTerms p)) b) /\
      SyncManager.mtTriggered r = mt_outcome options /\
      SyncManager.auditLogId r = uuid env (uuids w).
Proof.
  intros env fuel options w Hacc Hdry HB Ha Hu Hd b d p.
  destruct (live_run_accepting env Hacc fuel options HB w Hdry Ha Hu Hd)
    as (ra & ru & rd & w' & E & Ht & F1 & F2 & F3).
  eexists _, w'. split; [exact E|].
  split; [now apply new_events_app|]. split; [reflexivity|].
  split; [|split; reflexivity].
  cbn [SyncManager.rateLimitWaits].
  assert (Hb : (1 <= Z.to_nat (SyncManager.batchSize options))%nat) by lia.
  apply Forall2_length in F1, F2, F3.
  rewrite (chunks_length _ Hb) in F1. rewrite (chunks_length _ Hb) in F2.
  rewrite (chunks_length _ Hb) in F3.
  fold b p in F1, F2, F3. lia.
Qed.

(** [plan_three] in batches of 100 with 20 s between requests: three
    calls, each followed by its wait. *)
Lemma live_run_on_accepting_service_witness :
  accepting Samples.env_accepting /\
  exists r w',
    SyncManager.executeSync Samples.env_accepting 5 Samples.live_three initial_world
    = (Ok r, w') /\
    new_events initial_world w'
    = [EvCall (CallAddTerms "project_id" [Samples.term_named "a"]); EvWait 20000;
       EvCall (CallUpdateTerms "project_id"
                 [SyncPlan.mkUpdate "b"
                    (PartialTerm.mk None None (Some "src/pages/Home.vue") None None None)]);
       EvWait 20000;
       EvCall (CallDeleteTerms "project_id" ["c"]); EvWait 20000] /\
    SyncManager.errors r = [] /\
    SyncManager.rateLimitWaits r = 3%Z /\
    SyncManager.mtTriggered r = ["de"].
Proof.
  split; [apply env_accepting_accepts|].
  destruct (live_run_on_accepting_service Samples.env_accepting 5 Samples.live_three
              initial_world env_accepting_accepts eq_refl)
    as (r & w' & E & Hev & He & Hw & Hm & _);
    [simpl; lia | simpl; lia | simpl; lia | simpl; lia |].
  exists r, w'. split; [exact E|]. split; [exact Hev|]. split; [exact He|].
  split; [exact Hw | exact Hm].
Defined.

Lemma sum_confirmed {T R} (call : list T -> RemoteCall) (f : R -> Z)
    (mk : Counts -> R) env (cs : list (list T)) (rs : list R) :
  confirming env ->
  (forall c, call_size (call c) = length c) ->
  (forall cnt, f (mk cnt) = affected cnt) ->
  Forall2 (fun c x => exists n cnt, server env n (call c) = inr cnt /\ x = mk cnt) cs rs ->
  SyncManager.sum_by f rs = Z.of_nat (length (concat cs)).
Proof.
  intros Hc Hsize Hf HF. induction HF as [|c x cs rs (n & cnt & Hs & ->) _ IH].
  - reflexivity.
  - rewrite sum_by_cons, IH, Hf. cbn [concat]. rewrite length_app.
    destruct (Hc n (call c)) as [q Hq]. rewrite Hq in Hs.
    assert (cnt = mkCounts q (Z.of_nat (call_size (call c)))) by congruence.
    subst cnt. cbn [affected]. rewrite Hsize. lia.
Qed.

Lemma confirming_accepting env : confirming env -> accepting env.
Proof. intros H n c. destruct (H n c) as [q Hq]. eauto. Qed.

(** X13.  A live run against a service that accepts every request and
    reports every term it receives as added, updated or deleted, with a
    batch size of at least 1: the counters of the result are the sizes of
    the three lists of the plan, the figures a dry run of the same plan
    reports, and neither run records an error.  Each of the two
    invocations draws its own audit identifier, the one the generator
    gives at the time of the invocation, so that the two identifiers
    differ whenever the generator does not repeat itself. *)
Theorem live_run_matches_dry_run :
  forall env fuel options w w0,
    confirming env ->
    SyncManager.dryRun options = false ->
    (1 <= SyncManager.batchSize options)%Z ->
    (length (SyncPlan.addTerms (SyncManager.plan options)) < fuel)%nat ->
    (length (SyncPlan.updateTerms (SyncManager.plan options)) < fuel)%nat ->
    (length (SyncPlan.deleteTerms (SyncManager.plan options)) < fuel)%nat ->
    exists r w' r0 w0',
      SyncManager.executeSync env fuel options w = (Ok r, w') /\
      SyncManager.executeSync env fuel (as_dry_run options) w0 = (Ok r0, w0') /\
      SyncManager.created r
      = Z.of_nat (length (SyncPlan.addTerms (SyncManager.plan options))) /\
      SyncManager.updated r
      = Z.of_nat (length (SyncPlan.updateTerms (SyncManager.plan options))) /\
      SyncManager.deleted r
      = Z.of_nat (length (SyncPlan.deleteTerms (SyncManager.plan options))) /\
      SyncManager.created r = SyncManager.created r0 /\
      SyncManager.updated r = SyncManager.updated r0 /\
      SyncManager.deleted r = SyncManager.deleted r0 /\
      SyncManager.errors r = [] /\
      SyncManager.errors r0 = [] /\
      SyncManager.auditLogId r = uuid env (uuids w) /\
      SyncManager.auditLogId r0 = uuid env (uuids w0) /\
      uuids w0' = S (uuids w0) /\
      (uuid env (uuids w) <> uuid env (uuids w0) ->
       SyncManager.auditLogId r <> SyncManager.auditLogId r0).
Proof.
  intros env fuel options w w0 Hc Hdry HB Ha Hu Hd.
  destruct (live_run_accepting env (confirming_accepting env Hc) fuel options HB w
              Hdry Ha Hu Hd)
    as (ra & ru & rd & w' & E & Ht & F1 & F2 & F3).
  assert (Hb : (1 <= Z.to_nat (SyncManager.batchSize options))%nat) by lia.
  apply (sum_confirmed (CallAddTerms "project_id") POEditorClient.added
           (fun cnt => POEditorClient.mkAdd (parsed cnt) (affected cnt)) env _ _ Hc
           (fun c => eq_refl) (fun cnt => eq_refl)) in F1.
  apply (sum_confirmed (CallUpdateTerms "project_id") POEditorClient.updated
           (fun cnt => POEditorClient.mkUpdated (parsed cnt) (affected cnt)) env _ _ Hc
           (fun c => eq_refl) (fun cnt => eq_refl)) in F2.
  apply (sum_confirmed (CallDeleteTerms "project_id") POEditorClient.deleted
           (fun cnt => POEditorClient.mkDeleted (parsed cnt) (affected cnt)) env _ _ Hc
           (fun c => eq_refl) (fun cnt => eq_refl)) in F3.
  rewrite (chunks_concat _ Hb) in F1. rewrite (chunks_concat _ Hb) in F2.
  rewrite (chunks_concat _ Hb) in F3.
  eexists _, w', _, _. split; [exact E|].
  split; [apply executeSync_dry; reflexivity|].
  cbn [SyncManager.created SyncManager.updated SyncManager.deleted
       SyncManager.errors SyncManager.auditLogId as_dry_run SyncManager.plan
       after_uuid uuids].
  repeat split; try assumption.
  intros H. exact H.
Qed.

(** [plan_three] against a service that confirms every term; the dry run
    is made once the generator has given its first identifier. *)
Lemma live_run_matches_dry_run_witness :
  confirming (mkEnv (fun _ c => inr (mkCounts (Z.of_nat (call_size c))
                                              (Z.of_nat (call_size c))))
                    (fun _ => 0%Z) (fun n => JS.string_of_nat n)) /\
  exists r w' r0 w0',
    SyncManager.executeSync
      (mkEnv (fun _ c => inr (mkCounts (Z.of_nat (call_size c))
                                       (Z.of_nat (call_size c))))
             (fun _ => 0%Z) (fun n => JS.string_of_nat n))
      5 Samples.live_three initial_world = (Ok r, w') /\
    SyncManager.executeSync
      (mkEnv (fun _ c => inr (mkCounts (Z.of_nat (call_size c))
                                       (Z.of_nat (call_size c))))
             (fun _ => 0%Z) (fun n => JS.string_of_nat n))
      5 (as_dry_run Samples.live_three) (after_uuid initial_world) = (Ok r0, w0') /\
    SyncManager.created r = 1%Z /\
    SyncManager.updated r = 1%Z /\
    SyncManager.deleted r = 1%Z /\
    SyncManager.created r0 = 1%Z /\
    SyncManager.auditLogId r = "0" /\
    SyncManager.auditLogId r0 = "1".
Proof.
  assert (Hc : confirming (mkEnv (fun _ c => inr (mkCounts (Z.of_nat (call_size c))
                                                           (Z.of_nat (call_size c))))
                                 (fun _ => 0%Z) (fun n => JS.string_of_nat n))).
  { intros n c. now exists (Z.of_nat (call_size c)). }
  split; [exact Hc|].
  destruct (live_run_matches_dry_run _ 5 Samples.live_three initial_world
              (after_uuid initial_world) Hc eq_refl)
    as (r & w' & r0 & w0' & E & E0 & H1 & H2 & H3 & H4 & _ & _ & _ & _ & I & I0 & _);
    [simpl; lia | simpl; lia | simpl; lia | simpl; lia |].
  exists r, w', r0, w0'. split; [exact E|]. split; [exact E0|].
  split; [exact H1|]. split; [exact H2|]. split; [exact H3|].
  split; [now rewrite <- H4|]. split; [exact I | exact I0].
Defined.

(* ===================================================================== *)
(** ** The machine translation step of a live run *)
(* ===================================================================== *)

Section PhaseKeeps.
Variable env : Env.
Variables (fuel : nat) (options : SyncManager.SyncExecutionOptions).




End PhaseKeeps.



(* ===================================================================== *)
(** ** The planner: what [createSyncPlan] fetches and returns *)
(* ===================================================================== *)

Lemma set_set {V} (k : string) (v v' : V) (m : JS.dict V) :
  JS.set k v (JS.set k v' m) = JS.set k v m.
Proof.
  induction m as [|[k0 v0] m IH]; cbn [JS.set].
  - now rewrite String.eqb_refl.
  - destruct (String.eqb k k0) eqn:E; cbn [JS.set]; rewrite E; [reflexivity|].
    now rewrite IH.
Qed.

(** Filling the dictionary of a language in place is building it apart and
    storing it. *)
Lemma store_translation_fold lang ts :
  forall rt m,
    JS.get lang rt = Some m ->
    fold_left (SyncPlanner.store_translation lang) ts rt
    = JS.set lang (fold_left store_content ts m) rt.
Proof.
  induction ts as [|t ts IH]; intros rt m Hm; cbn [fold_left].
  - revert Hm. clear. induction rt as [|[k v] rt IH]; cbn [JS.get JS.set]; [discriminate|].
    destruct (String.eqb lang k); intros H.
    + congruence.
    + f_equal. now apply IH.
  - unfold SyncPlanner.store_translation at 2. unfold store_content at 2.
    destruct (POEditorTranslationResponse.definition t) as [dfn|]; [|now apply IH].
    destruct (JS.truthy (POEditorTranslationResponse.content dfn)); [|now apply IH].
    rewrite Hm.
    rewrite (IH _ (JS.assign_string (POEditorTranslationResponse.term t)
                                    (POEditorTranslationResponse.content dfn) m)).
    + apply set_set.
    + rewrite get_set. now rewrite String.eqb_refl.
Qed.

Lemma language_step lang ts rt :
  fold_left (SyncPlanner.store_translation lang) ts (JS.set lang [] rt)
  = JS.set lang (contents_of ts) rt.
Proof.
  rewrite (store_translation_fold lang ts _ []).
  - apply set_set.
  - rewrite get_set. now rewrite String.eqb_refl.
Qed.

Section PlannerFacts.
Variable fenv : FetchEnv.

Lemma fetch_translations_run pid langs :
  forall rt log,
    SyncPlanner.fetch_translations fenv pid langs rt log
    = match answers_from fenv (length log) pid langs with
      | inl (i, e) =>
          (Throw e, log ++ firstn (S i) (map (CallListTranslations pid) langs))
      | inr answers =>
          (Ok (fold_left (fun rt a => JS.set (fst a) (contents_of (snd a)) rt) answers rt),
           log ++ map (CallListTranslations pid) langs)
      end.
Proof.
  induction langs as [|lang langs IH]; intros rt log.
  - cbn. now rewrite app_nil_r.
  - cbn [SyncPlanner.fetch_translations answers_from map].
    unfold bind at 1. unfold SyncPlanner.listTranslations, fetch.
    destruct (translations_listed fenv (length log) pid lang) as [e|ts].
    + reflexivity.
    + rewrite IH, language_step. rewrite length_app. cbn [length].
      rewrite Nat.add_1_r.
      destruct (answers_from fenv (S (length log)) pid langs) as [[i e]|answers].
      * cbn [firstn]. now rewrite <- app_assoc.
      * cbn [fold_left fst snd]. now rewrite <- app_assoc.
Qed.

Lemma answers_langs n pid langs answers :
  answers_from fenv n pid langs = inr answers -> map fst answers = langs.
Proof.
  revert n answers. induction langs as [|lang langs IH]; intros n answers; cbn.
  - intros H. assert (answers = []) by congruence. now subst.
  - destruct (translations_listed fenv n pid lang) as [e|ts]; [discriminate|].
    destruct (answers_from fenv (S n) pid langs) as [[i e]|rest] eqn:E; [discriminate|].
    intros H. assert (answers = (lang, ts) :: rest) by congruence. subst.
    cbn. f_equal. now apply (IH (S n)).
Qed.

Lemma first_failure_translations n pid langs :
  first_failure fenv n (map (CallListTranslations pid) langs)
  = match answers_from fenv n pid langs with
    | inl x => Some x
    | inr _ => None
    end.
Proof.
  revert n. induction langs as [|lang langs IH]; intros n; [reflexivity|].
  cbn [map first_failure answers_from fetch_failure].
  destruct (translations_listed fenv n pid lang) as [e|ts]; [reflexivity|].
  rewrite IH. destruct (answers_from fenv (S n) pid langs) as [[i e]|rest]; reflexivity.
Qed.

Lemma first_failure_planned o log :
  first_failure fenv (length log) (planned_fetches o)
  = match fetched fenv o log with
    | inl x => Some x
    | inr _ => None
    end.
Proof.
  unfold planned_fetches, fetched.
  destruct (SyncPlanner.keys o) as [keys|].
  - cbn [app first_failure fetch_failure].
    destruct (terms_listed fenv (length log) (SyncPlanner.projectId o)) as [e|terms];
      [reflexivity|].
    rewrite first_failure_translations.
    destruct (answers_from fenv (S (length log)) _ _) as [[i e]|answers]; reflexivity.
  - cbn [app first_failure fetch_failure].
    destruct (detected fenv (length log) _) as [e|keys]; [reflexivity|].
    destruct (terms_listed fenv (S (length log)) (SyncPlanner.projectId o)) as [e|terms];
      [reflexivity|].
    rewrite first_failure_translations.
    destruct (answers_from fenv (S (S (length log))) _ _) as [[i e]|answers]; reflexivity.
Qed.

(** The whole run, by what the requests answer. *)
Lemma createSyncPlan_run o log :
  SyncPlanner.createSyncPlan fenv o log
  = match fetched fenv o log with
    | inl (i, e) =>
        (Throw (PlainError ("Failed to create sync plan: " ++ error_text e)),
         log ++ firstn (S i) (planned_fetches o))
    | inr (keys, terms, answers) =>
        (Ok (SyncManager.calculateSyncPlan keys terms (translations_from answers)
               (SyncManager.mkOptions (SyncPlanner.deleteExtraneous o)
                  (SyncPlanner.includeLangs o))),
         log ++ planned_fetches o)
    end.
Proof.
  unfold SyncPlanner.createSyncPlan, try_catch, fetched, planned_fetches, translations_from.
  destruct (SyncPlanner.keys o) as [keys|].
  - unfold bind at 1, ret at 1. unfold bind at 1.
    unfold SyncPlanner.listTerms, fetch.
    destruct (terms_listed fenv (length log) (SyncPlanner.projectId o)) as [e|terms].
    + reflexivity.
    + unfold bind. rewrite fetch_translations_run.
      rewrite length_app. cbn [length]. rewrite Nat.add_1_r.
      destruct (answers_from fenv (S (length log)) _ _) as [[i e]|answers].
      * cbn [app firstn Nat.add]. unfold throw. now rewrite <- app_assoc.
      * unfold ret. cbn [app]. now rewrite <- app_assoc.
  - unfold bind at 1. unfold SyncPlanner.detectKeys, fetch.
    destruct (detected fenv (length log) _) as [e|keys].
    + reflexivity.
    + unfold bind at 1. unfold SyncPlanner.listTerms, fetch.
      rewrite length_app. cbn [length]. rewrite Nat.add_1_r.
      destruct (terms_listed fenv (S (length log)) (SyncPlanner.projectId o))
        as [e|terms].
      * cbn [app firstn]. unfold throw. now rewrite <- app_assoc.
      * unfold bind. rewrite fetch_translations_run.
        rewrite !length_app. cbn [length]. rewrite !Nat.add_1_r.
        destruct (answers_from fenv (S (S (length log))) _ _) as [[i e]|answers].
        -- cbn [app firstn Nat.add]. unfold throw. now rewrite <- !app_assoc.
        -- unfold ret. cbn [app]. now rewrite <- !app_assoc.
Qed.

End PlannerFacts.

Lemma createSyncPlan_success_langs fenv o log plan log' :
  SyncPlanner.createSyncPlan fenv o log = (Ok plan, log') ->
  exists keys terms answers,
    fetched fenv o log = inr (keys, terms, answers) /\
    map fst answers = SyncPlanner.includeLangs o /\
    plan = SyncManager.calculateSyncPlan keys terms (translations_from answers)
             (SyncManager.mkOptions (SyncPlanner.deleteExtraneous o)
                (SyncPlanner.includeLangs o)).
Proof.
  intros Hrun. rewrite createSyncPlan_run in Hrun.
  destruct (fetched fenv o log) as [[i e]|[[keys terms] answers]] eqn:Hf;
    [discriminate|].
  exists keys, terms, answers. split; [reflexivity|]. split; [|congruence].
  unfold fetched in Hf.
  destruct (SyncPlanner.keys o) as [keys0|].
  - destruct (terms_listed fenv (length log) _) as [e|terms0]; [discriminate|].
    destruct (answers_from fenv (S (length log)) _ _) as [[i e]|answers0] eqn:Ha;
      [discriminate|].
    assert (answers0 = answers) by congruence. subst.
    now apply (answers_langs fenv _ _ _ _ Ha).
  - destruct (detected fenv (length log) _) as [e|keys0]; [discriminate|].
    destruct (terms_listed fenv (S (length log)) _) as [e|terms0]; [discriminate|].
    destruct (answers_from fenv (S (S (length log))) _ _) as [[i e]|answers0] eqn:Ha;
      [discriminate|].
    assert (answers0 = answers) by congruence. subst.
    now apply (answers_langs fenv _ _ _ _ Ha).
Qed.

(** X15.  A run of [createSyncPlan] that returns.  It made, in this
    order, one request to the detector when no keys were given (none when
    they were, even an empty list), one request for the terms of the
    project and one request for the translations of every entry of
    [includeLangs]; all of them succeeded; and the plan is the diff of the
    keys used against the listed terms and the translations built from the
    answers, under the given [deleteExtraneous] and [includeLangs]. *)
Theorem createSyncPlan_success :
  forall fenv o log plan log',
    SyncPlanner.createSyncPlan fenv o log = (Ok plan, log') ->
    log' = log ++ planned_fetches o /\
    first_failure fenv (length log) (planned_fetches o) = None /\
    exists keys terms answers,
      (SyncPlanner.keys o = Some keys \/
       (SyncPlanner.keys o = None /\
        detected fenv (length log)
          (SyncPlanner.detect_options (SyncPlanner.sourceLang o)) = inr keys)) /\
      terms_listed fenv (length log + detections o) (SyncPlanner.projectId o)
      = inr terms /\
      answers_from fenv (length log + detections o + 1) (SyncPlanner.projectId o)
        (SyncPlanner.includeLangs o) = inr answers /\
      map fst answers = SyncPlanner.includeLangs o /\
      plan = SyncManager.calculateSyncPlan keys terms (translations_from answers)
               (SyncManager.mkOptions (SyncPlanner.deleteExtraneous o)
                  (SyncPlanner.includeLangs o)).
Proof.
  intros fenv o log plan log' Hrun.
  pose proof (first_failure_planned fenv o log) as Hff.
  rewrite createSyncPlan_run in Hrun.
  destruct (fetched fenv o log) as [[i e]|[[keys terms] answers]] eqn:Hf;
    [discriminate|].
  split; [congruence|]. split; [exact Hff|].
  exists keys, terms, answers.
  assert (Hp : plan = SyncManager.calculateSyncPlan keys terms (translations_from answers)
                        (SyncManager.mkOptions (SyncPlanner.deleteExtraneous o)
                           (SyncPlanner.includeLangs o))) by congruence.
  unfold fetched, detections in *.
  destruct (SyncPlanner.keys o) as [keys0|].
  - rewrite Nat.add_0_r, Nat.add_1_r.
    destruct (terms_listed fenv (length log) _) as [e|terms0]; [discriminate|].
    destruct (answers_from fenv (S (length log)) _ _) as [[i e]|answers0] eqn:Ha;
      [discriminate|].
    assert (keys0 = keys /\ terms0 = terms /\ answers0 = answers)
      by (repeat split; congruence).
    destruct H as (-> & -> & ->).
    split; [now left|]. split; [reflexivity|]. split; [reflexivity|].
    split; [now apply (answers_langs fenv _ _ _ _ Ha) | exact Hp].
  - rewrite !Nat.add_1_r.
    destruct (detected fenv (length log) _) as [e|keys0]; [discriminate|].
    destruct (terms_listed fenv (S (length log)) _) as [e|terms0]; [discriminate|].
    destruct (answers_from fenv (S (S (length log))) _ _) as [[i e]|answers0] eqn:Ha;
      [discriminate|].
    assert (keys0 = keys /\ terms0 = terms /\ answers0 = answers)
      by (repeat split; congruence).
    destruct H as (-> & -> & ->).
    split; [right; now split|]. split; [reflexivity|]. split; [reflexivity|].
    split; [now apply (answers_langs fenv _ _ _ _ Ha) | exact Hp].
Qed.

(** Detection, the terms and the German translations: three requests. *)
Lemma createSyncPlan_success_witness :
  exists plan,
    SyncPlanner.createSyncPlan PlanSamples.fenv_de PlanSamples.diff_de []
    = (Ok plan,
       [CallDetectKeys (SyncPlanner.detect_options "en");
        CallListTerms "p1"; CallListTranslations "p1" "de"]) /\
    first_failure PlanSamples.fenv_de 0 (planned_fetches PlanSamples.diff_de) = None.
Proof.
  assert (E : exists plan log',
             SyncPlanner.createSyncPlan PlanSamples.fenv_de PlanSamples.diff_de []
             = (Ok plan, log'))
    by (eexists _, _; vm_compute; reflexivity).
  destruct E as (plan & log' & E).
  destruct (createSyncPlan_success PlanSamples.fenv_de PlanSamples.diff_de [] plan log' E)
    as (Hlog & Hff & _).
  exists plan. split; [|exact Hff].
  rewrite E, Hlog. reflexivity.
Defined.

Lemma first_failure_bound fenv cs :
  forall n i e, first_failure fenv n cs = Some (i, e) -> (i < length cs)%nat.
Proof.
  induction cs as [|c cs IH]; intros n i e; cbn [first_failure length]; [discriminate|].
  destruct (fetch_failure fenv n c).
  - intros H. assert (i = 0%nat) by congruence. lia.
  - destruct (first_failure fenv (S n) cs) as [[j e']|] eqn:E; [|discriminate].
    intros H. assert (i = S j) by congruence. subst i.
    specialize (IH (S n) j e' E). lia.
Qed.

(** X16.  How [createSyncPlan] ends.  It always ends.  When every request
    of the planned sequence succeeds it returns a plan.  Otherwise it stops
    at the first request that fails, making no later request, and throws a
    plain [Error] whose message is ["Failed to create sync plan: "]
    followed by the message of the failure (or its text, for a thrown
    value that is not an [Error]); the status and the retry hint of a
    client error are not carried over. *)
Theorem createSyncPlan_failure :
  forall fenv o log,
    let run := SyncPlanner.createSyncPlan fenv o log in
    fst run <> Diverge /\
    (first_failure fenv (length log) (planned_fetches o) = None ->
     exists plan, run = (Ok plan, log ++ planned_fetches o)) /\
    (forall i e,
        first_failure fenv (length log) (planned_fetches o) = Some (i, e) ->
        run = (Throw (PlainError ("Failed to create sync plan: " ++ error_text e)),
               log ++ firstn (S i) (planned_fetches o)) /\
        (i < length (planned_fetches o))%nat /\
        POEditorClient.err_status
          (PlainError ("Failed to create sync plan: " ++ error_text e)) = None /\
        POEditorClient.retryable
          (PlainError ("Failed to create sync plan: " ++ error_text e)) 0 = false).
Proof.
  intros fenv o log run. unfold run.
  pose proof (first_failure_planned fenv o log) as Hff.
  rewrite createSyncPlan_run.
  destruct (fetched fenv o log) as [[i e]|[[keys terms] answers]].
  - split; [discriminate|]. split; [rewrite Hff; discriminate|].
    intros j e' H. rewrite Hff in H.
    assert (j = i /\ e' = e) by (split; congruence). destruct H0 as [-> ->].
    split; [reflexivity|]. split; [|split; reflexivity].
    apply (first_failure_bound fenv _ (length log) i e). now rewrite Hff.
  - split; [discriminate|]. split.
    + intros _. eexists. reflexivity.
    + intros j e' H. rewrite Hff in H. discriminate.
Qed.

Lemma get_fold_set_by {A V} (f : A -> string) (g : A -> V) (es : list A) :
  forall (m : JS.dict V) k,
    JS.get k (fold_left (fun m e => JS.set (f e) (g e) m) es m)
    = match find (fun e => String.eqb k (f e)) (rev es) with
      | Some e => Some (g e)
      | None => JS.get k m
      end.
Proof.
  induction es as [|e es IH]; intros m k; cbn [fold_left rev]; [reflexivity|].
  rewrite IH, find_snoc, get_set.
  destruct (find _ (rev es)); [reflexivity|].
  destruct (String.eqb k (f e)); reflexivity.
Qed.

Lemma store_content_proto m t :
  JS.get "__proto__" m = None -> JS.get "__proto__" (store_content m t) = None.
Proof.
  intros H. unfold store_content, JS.assign_string.
  destruct (POEditorTranslationResponse.definition t) as [dfn|]; [|exact H].
  destruct (JS.truthy (POEditorTranslationResponse.content dfn)); [|exact H].
  destruct (String.eqb_spec (POEditorTranslationResponse.term t) "__proto__")
    as [E|E]; [exact H|].
  rewrite get_set.
  destruct (String.eqb_spec "__proto__" (POEditorTranslationResponse.term t));
    [congruence | exact H].
Qed.

Lemma store_content_truthy key m t :
  JS.get "__proto__" m = None ->
  JS.member_truthy (store_content m t) key
  = JS.member_truthy m key
    || ((POEditorTranslationResponse.term t =? key) && has_content t).
Proof.
  intros Hp. unfold store_content, has_content.
  destruct (POEditorTranslationResponse.definition t) as [dfn|];
    [|now rewrite andb_false_r, orb_false_r].
  destruct (JS.truthy (POEditorTranslationResponse.content dfn)) eqn:E;
    [|now rewrite andb_false_r, orb_false_r].
  rewrite andb_true_r. unfold JS.assign_string.
  destruct (String.eqb_spec (POEditorTranslationResponse.term t) "__proto__")
    as [Et|Et].
  - rewrite Et.
    destruct (String.eqb_spec "__proto__" key) as [<-|Hk];
      [|now rewrite orb_false_r].
    unfold JS.member_truthy. rewrite Hp. reflexivity.
  - unfold JS.member_truthy. rewrite get_set.
    rewrite (String.eqb_sym (POEditorTranslationResponse.term t) key).
    destruct (key =? POEditorTranslationResponse.term t).
    + now rewrite E, orb_true_r.
    + now rewrite orb_false_r.
Qed.

Lemma contents_truthy key ts :
  forall m,
    JS.get "__proto__" m = None ->
    JS.member_truthy (fold_left store_content ts m) key
    = JS.member_truthy m key
      || existsb (fun t => (POEditorTranslationResponse.term t =? key) && has_content t) ts.
Proof.
  induction ts as [|t ts IH]; intros m Hp; cbn [fold_left existsb].
  - now rewrite orb_false_r.
  - rewrite IH by now apply store_content_proto.
    rewrite store_content_truthy by exact Hp. now rewrite orb_assoc.
Qed.

(** A term counts as translated in a language when the last answer for
    the language holds a record for the term with a non-empty content, or
    when the term is named like a member of [Object.prototype]. *)
Lemma translated_from_answers answers lang key :
  SyncManager.translated (translations_from answers) lang key
  = match last_answer lang answers with
    | Some ts =>
        existsb (fun t => (POEditorTranslationResponse.term t =? key) && has_content t) ts
        || JS.includes JS.prototype_members key
    | None => false
    end.
Proof.
  unfold SyncManager.translated, translations_from, last_answer.
  rewrite (get_fold_set_by fst (fun a => contents_of (snd a))).
  destruct (find _ (rev answers)) as [a|]; [|reflexivity].
  cbn [option_map JS.get]. unfold contents_of.
  rewrite contents_truthy by reflexivity.
  unfold JS.member_truthy at 1. cbn [JS.get]. apply orb_comm.
Qed.

Lemma last_answer_listed answers lang :
  In lang (map fst answers) -> exists ts, last_answer lang answers = Some ts.
Proof.
  intros Hin. unfold last_answer.
  destruct (find (fun a => lang =? fst a) (rev answers)) as [a|] eqn:E.
  - now exists (snd a).
  - exfalso. apply in_map_iff in Hin. destruct Hin as (a & Ha & Hin).
    apply in_rev in Hin.
    pose proof (proj1 (find_none_iff _ _) E a Hin) as H. cbn in H.
    rewrite Ha, String.eqb_refl in H. discriminate.
Qed.

(** X17.  What the planner reports as missing.  In a plan returned by
    [createSyncPlan] when [__proto__] is not among the included languages,
    for a language listed once in [includeLangs], the missing translations
    are, in order of first occurrence, the distinct identifiers of the keys
    used that are not among the listed terms, or for which the translations
    listed for the language hold no record with a non-empty content and
    which are not named like a member of [Object.prototype]: a translation
    whose content is empty, or whose definition is absent, counts as
    missing, and a listed term named like an inherited member never
    does. *)
Theorem planner_missing_translations :
  forall fenv o log plan log' lang,
    SyncPlanner.createSyncPlan fenv o log = (Ok plan, log') ->
    ~ In "__proto__" (SyncPlanner.includeLangs o) ->
    NoDup (SyncPlanner.includeLangs o) ->
    In lang (SyncPlanner.includeLangs o) ->
    exists keys terms answers ts,
      fetched fenv o log = inr (keys, terms, answers) /\
      last_answer lang answers = Some ts /\
      In (lang, ts) answers /\
      JS.get lang (SyncPlan.missingTranslations plan)
      = Some (filter
                (fun key =>
                   negb (JS.includes (remoteIds terms) key)
                   || negb (existsb
                              (fun t => (POEditorTranslationResponse.term t =? key)
                                        && has_content t) ts
                            || JS.includes JS.prototype_members key))
                (JS.Set_of (localIds keys))).
Proof.
  intros fenv o log plan log' lang Hrun _ HN Hin.
  destruct (createSyncPlan_success_langs fenv o log plan log' Hrun)
    as (keys & terms & answers & Hf & Hl & ->).
  assert (Hin' : In lang (map fst answers)) by now rewrite Hl.
  destruct (last_answer_listed answers lang Hin') as [ts Hts].
  exists keys, terms, answers, ts. split; [exact Hf|]. split; [exact Hts|]. split.
  { unfold last_answer in Hts.
    destruct (find (fun a => lang =? fst a) (rev answers)) as [a|] eqn:E; [|discriminate].
    apply find_some in E. destruct E as [Ha Hb]. apply in_rev in Ha.
    apply String.eqb_eq in Hb. cbn in Hts. destruct a as [l t]. cbn in *.
    assert (t = ts) by congruence. now subst. }
  rewrite missing_bucket. cbn [SyncManager.includeLangs].
  apply includes_true_iff in Hin. rewrite Hin. apply includes_true_iff in Hin.
  rewrite (listed_once _ lang HN Hin), flat_map_once. f_equal.
  apply filter_ext. intros key. unfold lacks_translation.
  now rewrite translated_from_answers, Hts.
Qed.

(** The keys [a] and [b] against the terms [b] and [c], where the German
    translation of [b] is empty: [a] (new) and [b] (empty content) are
    missing in German. *)
Lemma planner_missing_translations_witness :
  ~ In "__proto__" (SyncPlanner.includeLangs PlanSamples.diff_de) /\
  NoDup (SyncPlanner.includeLangs PlanSamples.diff_de) /\
  In "de" (SyncPlanner.includeLangs PlanSamples.diff_de) /\
  exists plan log',
    SyncPlanner.createSyncPlan PlanSamples.fenv_de PlanSamples.diff_de []
    = (Ok plan, log') /\
    JS.get "de" (SyncPlan.missingTranslations plan) = Some ["a"; "b"].
Proof.
  assert (HP : ~ In "__proto__" (SyncPlanner.includeLangs PlanSamples.diff_de)).
  { simpl. intros [H|[]]. discriminate H. }
  assert (HN : NoDup (SyncPlanner.includeLangs PlanSamples.diff_de)).
  { simpl. constructor; [intros [] | constructor]. }
  assert (Hin : In "de" (SyncPlanner.includeLangs PlanSamples.diff_de)) by (now left).
  split; [exact HP|]. split; [exact HN|]. split; [exact Hin|].
  assert (E : exists plan log',
             SyncPlanner.createSyncPlan PlanSamples.fenv_de PlanSamples.diff_de []
             = (Ok plan, log'))
    by (eexists _, _; vm_compute; reflexivity).
  destruct E as (plan & log' & E). exists plan, log'. split; [exact E|].
  destruct (planner_missing_translations PlanSamples.fenv_de PlanSamples.diff_de []
              plan log' "de" E HP HN Hin)
    as (keys & terms & answers & ts & Hf & Hts & _ & Hget).
  assert (Hf' : fetched PlanSamples.fenv_de PlanSamples.diff_de []
                = inr ([Samples.key_a; Samples.key_b],
                       [Samples.term_b; Samples.term_c],
                       [("de", [PlanSamples.translation "b" "";
                                PlanSamples.translation "c" "Alt"])]))
    by reflexivity.
  rewrite Hf' in Hf.
  assert (Hk : keys = [Samples.key_a; Samples.key_b]) by congruence.
  assert (Ht : terms = [Samples.term_b; Samples.term_c]) by congruence.
  assert (Ha : answers = [("de", [PlanSamples.translation "b" "";
                                  PlanSamples.translation "c" "Alt"])]) by congruence.
  subst keys terms answers.
  assert (Hs : Some [PlanSamples.translation "b" ""; PlanSamples.translation "c" "Alt"]
               = Some ts) by (rewrite <- Hts; reflexivity).
  assert (Hs' : ts = [PlanSamples.translation "b" ""; PlanSamples.translation "c" "Alt"])
    by congruence.
  subst ts. rewrite Hget. reflexivity.
Defined.

(* ===================================================================== *)
(** ** The tool handlers and their defaults *)
(* ===================================================================== *)

Lemma number_or_default o d : omitted_or_zero o -> POEditorMCPServer.number_or o d = d.
Proof. intros [->| ->]; reflexivity. Qed.

Lemma bool_or_false_default o :
  omitted_or_false o -> POEditorMCPServer.bool_or_false o = false.
Proof. intros [->| ->]; reflexivity. Qed.

(** X18.  [handleSync] with its defaults.  A [dryRun] that is omitted
    means a live run; a [batchSize] or [rateLimit] that is omitted or 0 is
    replaced by 100 terms and 20 seconds, any other number is passed on as
    it is.  So against a service that accepts every request, a call that
    gives only the plan sends the planned terms in chunks of 100, each call
    followed by a wait of 20000 ms, and reports no error. *)
Theorem handleSync_defaults :
  forall env fuel args w,
    accepting env ->
    omitted_or_false (POEditorMCPServer.sync_dryRun args) ->
    omitted_or_zero (POEditorMCPServer.sync_batchSize args) ->
    omitted_or_zero (POEditorMCPServer.sync_rateLimit args) ->
    let p := POEditorMCPServer.sync_plan args in
    (length (SyncPlan.addTerms p) < fuel)%nat ->
    (length (SyncPlan.updateTerms p) < fuel)%nat ->
    (length (SyncPlan.deleteTerms p) < fuel)%nat ->
    (exists r w',
        POEditorMCPServer.handleSync env fuel args w = (Ok r, w') /\
        new_events w w'
        = batch_events (CallAddTerms "project_id") 100 20000 (SyncPlan.addTerms p) ++
          batch_events (CallUpdateTerms "project_id") 100 20000 (SyncPlan.updateTerms p) ++
          batch_events (CallDeleteTerms "project_id") 100 20000 (SyncPlan.deleteTerms p) /\
        SyncManager.errors r = [] /\
        SyncManager.rateLimitWaits r
        = Z.of_nat (ceil_div (length (SyncPlan.addTerms p)) 100
                    + ceil_div (length (SyncPlan.updateTerms p)) 100
                    + ceil_div (length (SyncPlan.deleteTerms p)) 100)) /\
    (forall b s mt,
        b <> 0%Z -> s <> 0%Z ->
        POEditorMCPServer.handleSync env fuel
          (POEditorMCPServer.mkSyncArgs p (Some b) None mt None (Some s)) w
        = SyncManager.executeSync env fuel
            (SyncManager.mkExec p b SyncManager.up
               (POEditorMCPServer.machineTranslate_or_false mt) false s) w).
Proof.
  intros env fuel args w Hacc Hdry Hb Hr p Ha Hu Hd. split.
  - unfold POEditorMCPServer.handleSync.
    rewrite (number_or_default _ 100 Hb), (number_or_default _ 20 Hr),
      (bool_or_false_default _ Hdry).
    set (o := SyncManager.mkExec _ _ _ _ _ _).
    assert (HB : (1 <= SyncManager.batchSize o)%Z) by (cbn; lia).
    destruct (live_run_accepting env Hacc fuel o HB w eq_refl Ha Hu Hd)
      as (ra & ru & rd & w' & E & Ht & F1 & F2 & F3).
    eexists _, w'. split; [exact E|].
    split; [now apply new_events_app|]. split; [reflexivity|].
    cbn [SyncManager.rateLimitWaits].
    assert (H100 : (1 <= 100)%nat) by lia.
    apply Forall2_length in F1, F2, F3.
    change (Z.to_nat (SyncManager.batchSize o)) with 100%nat in F1, F2, F3.
    rewrite (chunks_length _ H100) in F1. rewrite (chunks_length _ H100) in F2.
    rewrite (chunks_length _ H100) in F3.
    change (SyncManager.plan o) with p in F1, F2, F3. lia.
  - intros b s mt Hb0 Hs0. unfold POEditorMCPServer.handleSync.
    cbn [POEditorMCPServer.sync_plan POEditorMCPServer.sync_batchSize
         POEditorMCPServer.sync_direction POEditorMCPServer.sync_machineTranslate
         POEditorMCPServer.sync_dryRun POEditorMCPServer.sync_rateLimit
         POEditorMCPServer.number_or POEditorMCPServer.bool_or_false
         POEditorMCPServer.direction_or_up].
    apply Z.eqb_neq in Hb0, Hs0. now rewrite Hb0, Hs0.
Qed.

(** [plan_three] given alone. *)
Lemma handleSync_defaults_witness :
  accepting Samples.env_accepting /\
  exists r w',
    POEditorMCPServer.handleSync Samples.env_accepting 5
      (POEditorMCPServer.mkSyncArgs Samples.plan_three None None None None None)
      initial_world = (Ok r, w') /\
    waits_of (new_events initial_world w') = [20000; 20000; 20000]%Z /\
    SyncManager.errors r = [].
Proof.
  split; [apply env_accepting_accepts|].
  destruct (proj1 (handleSync_defaults Samples.env_accepting 5
              (POEditorMCPServer.mkSyncArgs Samples.plan_three None None None None None)
              initial_world env_accepting_accepts
              (or_introl eq_refl) (or_introl eq_refl) (or_introl eq_refl)
              ltac:(simpl; lia) ltac:(simpl; lia) ltac:(simpl; lia)))
    as (r & w' & E & Hev & He & _).
  exists r, w'. split; [exact E|]. split; [|exact He].
  rewrite Hev. reflexivity.
Defined.

Lemma no_languages_no_buckets localKeys remoteTerms rt del :
  let plan := SyncManager.calculateSyncPlan localKeys remoteTerms rt
                (SyncManager.mkOptions del []) in
  SyncPlan.missingTranslations plan = [] /\
  SyncPlan.obsoleteTranslations plan = [] /\
  SyncPlan.missing (SyncPlan.stats plan) = 0%Z.
Proof.
  intros plan.
  destruct (plan_bucket_keys localKeys remoteTerms rt (SyncManager.mkOptions del []))
    as [K1 K2].
  fold plan in K1, K2. cbn [SyncManager.includeLangs JS.Set_of fold_left] in K1, K2.
  apply map_eq_nil in K1. apply map_eq_nil in K2.
  split; [exact K1|]. split; [exact K2|].
  change (SyncPlan.missing (SyncPlan.stats plan))
    with (fold_left (fun sum arr => (sum + Z.of_nat (length arr))%Z)
            (JS.values (SyncPlan.missingTranslations plan)) 0%Z).
  now rewrite K1.
Qed.

(** X19.  [handleDiff] with its defaults.  When [includeLangs] is
    omitted no translation is requested and the plan has no bucket of
    missing or obsolete translations, so [stats.missing] is 0; when
    [deleteExtraneous] is omitted or false the plan deletes nothing; when
    no keys are given the detector is asked first, for the source language
    ['en'] if [sourceLang] is omitted or empty. *)
Theorem handleDiff_defaults :
  forall fenv args log plan log',
    POEditorMCPServer.handleDiff fenv args log = (Ok plan, log') ->
    (POEditorMCPServer.diff_includeLangs args = None ->
     SyncPlan.missingTranslations plan = [] /\
     SyncPlan.obsoleteTranslations plan = [] /\
     SyncPlan.missing (SyncPlan.stats plan) = 0%Z /\
     forall c, In c (new_fetches log log') ->
               forall p l, c <> CallListTranslations p l) /\
    (omitted_or_false (POEditorMCPServer.diff_deleteExtraneous args) ->
     SyncPlan.deleteTerms plan = []) /\
    (forall keys,
        POEditorMCPServer.diff_keys args = Some keys ->
        hd_error (new_fetches log log')
        = Some (CallListTerms (POEditorMCPServer.diff_projectId args))) /\
    (POEditorMCPServer.diff_keys args = None ->
     (POEditorMCPServer.diff_sourceLang args = None \/
      POEditorMCPServer.diff_sourceLang args = Some "") ->
     hd_error (new_fetches log log')
     = Some (CallDetectKeys (SyncPlanner.detect_options "en"))).
Proof.
  intros fenv args log plan log' Hrun. unfold POEditorMCPServer.handleDiff in Hrun.
  set (o := SyncPlanner.mkPlanOptions _ _ _ _ _) in Hrun.
  destruct (createSyncPlan_success_langs fenv o log plan log' Hrun)
    as (keys & terms & answers & _ & _ & Hplan).
  assert (Hlog : new_fetches log log' = planned_fetches o).
  { rewrite createSyncPlan_run in Hrun.
    destruct (fetched fenv o log) as [[i e]|[[k t] a]]; [discriminate|].
    assert (log' = log ++ planned_fetches o) by congruence. subst log'.
    unfold new_fetches. now rewrite skipn_app, skipn_all, Nat.sub_diag. }
  split; [|split; [|split]].
  - intros Hl. subst plan. unfold o. cbn [SyncPlanner.includeLangs SyncPlanner.deleteExtraneous].
    rewrite Hl. cbn [POEditorMCPServer.list_or_nil].
    destruct (no_languages_no_buckets keys terms (translations_from answers)
                (POEditorMCPServer.bool_or_false
                   (POEditorMCPServer.diff_deleteExtraneous args)))
      as (H1 & H2 & H3).
    split; [exact H1|]. split; [exact H2|]. split; [exact H3|].
    intros c Hc p l ->. rewrite Hlog in Hc. unfold planned_fetches, o in Hc.
    cbn [SyncPlanner.includeLangs SyncPlanner.keys SyncPlanner.projectId] in Hc.
    rewrite Hl in Hc. cbn [POEditorMCPServer.list_or_nil map] in Hc.
    destruct (POEditorMCPServer.diff_keys args); cbn in Hc;
      intuition discriminate.
  - intros Hd. subst plan. rewrite deleteTerms_ids.
    unfold o. cbn [SyncPlanner.deleteExtraneous SyncManager.deleteExtraneous].
    now rewrite (bool_or_false_default _ Hd).
  - intros ks Hk. rewrite Hlog. unfold planned_fetches, o.
    cbn [SyncPlanner.keys SyncPlanner.projectId]. now rewrite Hk.
  - intros Hk Hs. rewrite Hlog. unfold planned_fetches, o.
    cbn [SyncPlanner.keys SyncPlanner.sourceLang]. rewrite Hk.
    destruct Hs as [-> | ->]; reflexivity.
Qed.

(** A diff that gives only the project: detection, then the terms. *)
Lemma handleDiff_defaults_witness :
  exists plan log',
    POEditorMCPServer.handleDiff PlanSamples.fenv_de
      (POEditorMCPServer.mkDiffArgs "p1" None None None None) []
    = (Ok plan, log') /\
    SyncPlan.missing (SyncPlan.stats plan) = 0%Z /\
    SyncPlan.deleteTerms plan = [].
Proof.
  assert (E : exists plan log',
             POEditorMCPServer.handleDiff PlanSamples.fenv_de
               (POEditorMCPServer.mkDiffArgs "p1" None None None None) []
             = (Ok plan, log'))
    by (eexists _, _; vm_compute; reflexivity).
  destruct E as (plan & log' & E). exists plan, log'. split; [exact E|].
  destruct (handleDiff_defaults PlanSamples.fenv_de
              (POEditorMCPServer.mkDiffArgs "p1" None None None None) [] plan log' E)
    as (H1 & H2 & _).
  split.
  - exact (proj1 (proj2 (proj2 (H1 eq_refl)))).
  - exact (H2 (or_introl eq_refl)).
Defined.

(* ===================================================================== *)
(** ** The transport: which failures reach the executor, and how *)
(* ===================================================================== *)

Lemma status_is_iff status code :
  POEditorClient.status_is status code = true <-> status = Some code.
Proof.
  unfold POEditorClient.status_is. destruct status as [s|].
  - rewrite Z.eqb_eq. split; congruence.
  - split; discriminate.
Qed.

Lemma interceptor_cases error :
  (response_status_429 error = true /\
   Transport.interceptor error
   = Transport.RaisedApi "Rate limit exceeded. Retrying with backoff." (Some 429%Z)
       (match Transport.retry_after_header error with
        | Some h => if JS.truthy h then Some (times (Number.parseInt10 h) 1000) else None
        | None => None
        end)) \/
  (Transport.response_status error = Some 401%Z /\
   Transport.interceptor error
   = Transport.RaisedApi "Invalid API token. Check POEditor API token." (Some 401%Z) None) \/
  (Transport.response_status error <> Some 429%Z /\
   Transport.response_status error <> Some 401%Z /\
   Transport.interceptor error = Transport.forwarded error).
Proof.
  unfold Transport.interceptor, response_status_429.
  destruct (POEditorClient.status_is (Transport.response_status error) 429) eqn:E1.
  - left. now split.
  - right.
    destruct (POEditorClient.status_is (Transport.response_status error) 401) eqn:E2.
    + left. apply status_is_iff in E2. now split.
    + right. split; [|split; [|reflexivity]].
      * intros H. apply status_is_iff in H. congruence.
      * intros H. apply status_is_iff in H. congruence.
Qed.

(** X20.  What [makeRequest] does with a request.  Without a token (null
    or empty) it throws a plain [Error] and sends nothing.  With a token it
    sends exactly one request, whose form starts with the token.  It
    returns the result exactly when the response body says ['success'].
    It never lets an error of axios through: what it throws is the
    client's [ApiError] or another [Error].  The thrown value has a status
    that the executor retries (429 or 503) exactly when the HTTP status of
    the rejection was 429 or 503; it carries a retry hint only for a 429
    with a non-empty [Retry-After] header, the hint being the integer the
    header starts with times 1000 (so a 503 loses its header); and a
    response whose body does not say ['success'] is thrown without status,
    hence never retried. *)
Theorem makeRequest_outcomes :
  forall (A : Type) (client : Transport.Client A) endpoint data log,
    let run := Transport.makeRequest client endpoint data log in
    ((Transport.apiToken client = None \/ Transport.apiToken client = Some "") ->
     run = (inl (Transport.RaisedError Transport.token_required), log)) /\
    (forall token,
        Transport.apiToken client = Some token -> token <> "" ->
        let request := Transport.request_of token endpoint data in
        let outcome := Transport.post client (length log) request in
        snd run = log ++ [request] /\
        hd_error (snd request) = Some ("api_token", token) /\
        (forall a,
            fst run = inr a <-> exists msg, outcome = Transport.Fulfilled (Some "success") msg a) /\
        (forall m s h, fst run <> inl (Transport.RaisedAxios m s h)) /\
        (forall r,
            fst run = inl r ->
            (Transport.retried r = true <->
             exists m s h,
               outcome = Transport.Rejected (Transport.AxiosError m (Some s) h) /\
               (s = 429 \/ s = 503)%Z)) /\
        (forall r hint,
            fst run = inl r ->
            Transport.raised_hint r = Some hint ->
            exists m h,
              outcome = Transport.Rejected (Transport.AxiosError m (Some 429%Z) (Some h)) /\
              h <> "" /\
              hint = times (Number.parseInt10 h) 1000) /\
        (forall status msg a,
            outcome = Transport.Fulfilled status msg a ->
            status <> Some "success" ->
            fst run
            = inl (Transport.RaisedApi
                     ("POEditor API error: " ++ Transport.message_or_unknown msg)
                     None None))).
Proof.
  intros A client endpoint data log run. split.
  - intros [H|H]; unfold run, Transport.makeRequest; rewrite H; reflexivity.
  - intros token Ht Hne request outcome.
    assert (Htr : JS.truthy token = true) by now apply truthy_true_iff.
    assert (Hrun : run = (match outcome with
                          | Transport.Fulfilled status message result =>
                              match status with
                              | Some s =>
                                  if s =? "success" then inr result
                                  else inl (Transport.RaisedApi
                                              ("POEditor API error: "
                                               ++ Transport.message_or_unknown message)
                                              None None)
                              | None =>
                                  inl (Transport.RaisedApi
                                         ("POEditor API error: "
                                          ++ Transport.message_or_unknown message)
                                         None None)
                              end
                          | Transport.Rejected error =>
                              inl (Transport.rethrow (Transport.interceptor error))
                          end, log ++ [request])).
    { unfold run, Transport.makeRequest. rewrite Ht, Htr. reflexivity. }
    rewrite Hrun. cbn [fst snd]. clear Hrun.
    split; [reflexivity|]. split.
    { unfold request, Transport.request_of. cbn [snd].
      generalize (@nil (string * string)). clear.
      assert (G : forall acc, hd_error (fold_left Transport.append_field data
                                          (("api_token", token) :: acc))
                              = Some ("api_token", token)).
      { induction data as [|e data IH]; intros acc; [reflexivity|].
        cbn [fold_left]. unfold Transport.append_field at 2.
        destruct (snd e); (apply IH || apply (IH (acc ++ [_]))). }
      intros acc. apply G. }
    destruct outcome as [status msg result|error].
    + assert (Hs : status = Some "success" \/ status <> Some "success").
      { destruct status as [s|]; [|right; discriminate].
        destruct (String.eqb_spec s "success") as [->|Hn]; [now left|].
        right. congruence. }
      destruct Hs as [->|Hs].
      * cbn [String.eqb Ascii.eqb Bool.eqb]. split.
        { intros a. split.
          - intros H. assert (a = result) by congruence. subst. now exists msg.
          - intros [msg' H]. congruence. }
        split; [discriminate|]. split; [discriminate|]. split; [discriminate|].
        intros status msg' a H Hn. exfalso. apply Hn. congruence.
      * assert (E : match status with
                    | Some s =>
                        if s =? "success" then inr result
                        else inl (Transport.RaisedApi
                                    ("POEditor API error: "
                                     ++ Transport.message_or_unknown msg) None None)
                    | None =>
                        inl (Transport.RaisedApi
                               ("POEditor API error: "
                                ++ Transport.message_or_unknown msg) None None)
                    end
                    = @inl Transport.Raised A
                        (Transport.RaisedApi
                           ("POEditor API error: " ++ Transport.message_or_unknown msg)
                           None None)).
        { destruct status as [s|]; [|reflexivity].
          destruct (String.eqb_spec s "success") as [->|_]; [congruence | reflexivity]. }
        rewrite E. split.
        { intros a. split; [discriminate|]. intros [msg' H].
          exfalso. apply Hs. congruence. }
        split; [discriminate|]. split.
        { intros r Hr. assert (r = Transport.RaisedApi
                                     ("POEditor API error: "
                                      ++ Transport.message_or_unknown msg) None None)
            by congruence. subst r. cbn. split; [discriminate|].
          intros (m & s & h & H & _). discriminate. }
        split.
        { intros r hint Hr Hh.
          assert (r = Transport.RaisedApi
                        ("POEditor API error: "
                         ++ Transport.message_or_unknown msg) None None)
            by congruence. subst r. discriminate. }
        intros status' msg' a H _.
        assert (msg' = msg) by congruence. now subst.
    + split; [intros a; split; [discriminate | intros [msg H]; discriminate]|].
      destruct error as [m s h|m].
      * destruct (interceptor_cases (Transport.AxiosError m s h))
          as [[H1 H2]|[[H1 H2]|(H1 & H1' & H2)]]; rewrite H2;
          cbn [Transport.response_status Transport.retry_after_header
               Transport.forwarded Transport.rethrow] in *.
        -- apply status_is_iff in H1. cbn in H1. subst s.
           split; [discriminate|]. split.
           { intros r Hr. split.
             - intros _. exists m, 429%Z, h. split; [reflexivity | now left].
             - intros _. assert (Transport.retried r = Transport.retried
                 (Transport.RaisedApi "Rate limit exceeded. Retrying with backoff."
                    (Some 429%Z)
                    (match h with
                     | Some h0 => if JS.truthy h0
                                  then Some (times (Number.parseInt10 h0) 1000) else None
                     | None => None
                     end))) by congruence.
               rewrite H. reflexivity. }
           split; [|discriminate].
           intros r hint Hr Hh.
           assert (Transport.raised_hint r
                   = match h with
                     | Some h0 => if JS.truthy h0
                                  then Some (times (Number.parseInt10 h0) 1000) else None
                     | None => None
                     end) by (assert (Hr' : r = Transport.RaisedApi
                                "Rate limit exceeded. Retrying with backoff." (Some 429%Z)
                                (match h with
                                 | Some h0 => if JS.truthy h0
                                     then Some (times (Number.parseInt10 h0) 1000) else None
                                 | None => None
                                 end)) by congruence; now rewrite Hr').
           rewrite H in Hh. destruct h as [h0|]; [|discriminate].
           destruct (JS.truthy h0) eqn:E; [|discriminate].
           exists m, h0. split; [reflexivity|]. split; [now apply truthy_true_iff|].
           congruence.
        -- subst s. split; [discriminate|]. split.
           { intros r Hr.
             assert (r = Transport.RaisedApi "Invalid API token. Check POEditor API token."
                           (Some 401%Z) None) by congruence. subst r.
             cbn. split; [discriminate|].
             intros (m' & s' & h' & H & [Hs|Hs]); injection H as _ Hx _; lia. }
           split; [|discriminate].
           intros r hint Hr Hh.
           assert (r = Transport.RaisedApi "Invalid API token. Check POEditor API token."
                         (Some 401%Z) None) by congruence. subst r. discriminate.
        -- split; [discriminate|]. split.
           { intros r Hr.
             assert (r = Transport.RaisedApi ("POEditor API request failed: " ++ m) s None)
               by congruence. subst r.
             unfold Transport.retried. cbn [Transport.raised_status].
             rewrite orb_true_iff, !status_is_iff. split.
             - intros [->| ->]; exists m; eexists; exists h;
                 (split; [reflexivity | auto]).
             - intros (m' & s' & h' & H & [Hs|Hs]); injection H as _ Hx _; subst;
                 auto. }
           split; [|discriminate].
           intros r hint Hr Hh.
           assert (r = Transport.RaisedApi ("POEditor API request failed: " ++ m) s None)
             by congruence. subst r. discriminate.
      * cbn [Transport.interceptor Transport.response_status
             Transport.retry_after_header POEditorClient.status_is
             Transport.forwarded Transport.rethrow].
        split; [discriminate|]. split.
        { intros r Hr. assert (r = Transport.RaisedError m) by congruence. subst r.
          cbn. split; [discriminate|]. intros (m' & s' & h' & H & _). discriminate. }
        split; [|discriminate].
        intros r hint Hr Hh. assert (r = Transport.RaisedError m) by congruence.
        subst r. discriminate.
Qed.

(** *** The retry hint *)

Lemma digits_uint d :
  forall a : nat,
    Number.digits (NilEmpty.string_of_uint d) (Some (Z.of_nat a))
    = Some (Z.of_nat (Nat.of_uint_acc d a)).
Proof.
  induction d as [|d IH|d IH|d IH|d IH|d IH|d IH|d IH|d IH|d IH|d IH]; intros a;
    cbn [NilEmpty.string_of_uint Number.digits Nat.of_uint_acc]; [reflexivity|..];
    match goal with
    | |- context [Number.digit_value ?c] =>
        let v := eval vm_compute in (Number.digit_value c) in
        change (Number.digit_value c) with v
    end;
    cbv iota; rewrite <- IH; do 2 f_equal; unfold Nat.tail_mul;
    rewrite Nat.tail_addmul_spec; lia.
Qed.

Lemma digits_to_uint n :
  Number.digits (NilZero.string_of_uint (Nat.to_uint n)) None = Some (Z.of_nat n).
Proof.
  rewrite <- (DecimalNat.Unsigned.of_to n) at 2.
  unfold Nat.of_uint.
  destruct (Nat.to_uint n) as [|d|d|d|d|d|d|d|d|d|d];
    cbn [NilZero.string_of_uint NilEmpty.string_of_uint Number.digits Nat.of_uint_acc];
    [reflexivity|..];
    match goal with
    | |- context [Number.digit_value ?c] =>
        let v := eval vm_compute in (Number.digit_value c) in
        change (Number.digit_value c) with v
    end;
    cbv iota;
    match goal with
    | |- Number.digits _ (Some ?z) = Some (Z.of_nat (Nat.of_uint_acc _ ?k)) =>
        replace z with (Z.of_nat k) by (unfold Nat.tail_mul; cbn; lia)
    end;
    apply digits_uint.
Qed.

Lemma parseInt10_digit c s :
  Number.digit_value c <> None ->
  Number.parseInt10 (String c s)
  = match Number.digits (String c s) None with
    | Some z => Num z
    | None => NaN
    end.
Proof.
  intros H. unfold Number.parseInt10.
  assert (E : Number.is_space c = false /\ Ascii.eqb c "-"%char = false
              /\ Ascii.eqb c "+"%char = false).
  { revert H. unfold Number.digit_value, Number.is_space.
    destruct c as [[|] [|] [|] [|] [|] [|] [|] [|]]; vm_compute; intros H;
      try (exfalso; apply H; reflexivity); repeat split. }
  destruct E as (E1 & E2 & E3).
  cbn [Number.trim_start]. rewrite E1, E2, E3. cbn [fst snd].
  destruct (Number.digits (String c s) None); [f_equal; lia | reflexivity].
Qed.

Lemma parseInt10_string_of_nat n :
  Number.parseInt10 (JS.string_of_nat n) = Num (Z.of_nat n).
Proof.
  unfold JS.string_of_nat.
  pose proof (digits_to_uint n) as H.
  destruct (NilZero.string_of_uint (Nat.to_uint n)) as [|c s] eqn:E.
  - discriminate.
  - rewrite parseInt10_digit; [now rewrite H|].
    cbn [Number.digits] in H. destruct (Number.digit_value c); [discriminate|].
    discriminate.
Qed.

Lemma parseInt10_not_a_number c s :
  Number.is_space c = false -> Number.digit_value c = None ->
  c <> "-"%char -> c <> "+"%char ->
  Number.parseInt10 (String c s) = NaN.
Proof.
  intros H1 H2 H3 H4. unfold Number.parseInt10. cbn [Number.trim_start].
  rewrite H1. apply Ascii.eqb_neq in H3, H4. rewrite H3, H4.
  cbn [fst snd Number.digits]. now rewrite H2.
Qed.

(** X21.  The retry hint of a throttled request.  When the service
    answers 429, [makeRequest] throws the client's [ApiError] with status
    429 and a hint read from the [Retry-After] header: no hint when the
    header is absent or empty (the executor then backs off exponentially);
    the number of seconds times 1000 when the header is a decimal number
    (the executor then waits at least that long); and [NaN] when the header
    starts with anything but white space, a sign or a digit, as an HTTP
    date does: the hint is then not a number of milliseconds. *)
Theorem retry_hint_of_header :
  forall (A : Type) (client : Transport.Client A) endpoint data log token m h,
    Transport.apiToken client = Some token -> token <> "" ->
    Transport.post client (length log) (Transport.request_of token endpoint data)
    = Transport.Rejected (Transport.AxiosError m (Some 429%Z) h) ->
    let thrown := fst (Transport.makeRequest client endpoint data log) in
    let limited := "Rate limit exceeded. Retrying with backoff." in
    ((h = None \/ h = Some "") ->
     thrown = inl (Transport.RaisedApi limited (Some 429%Z) None)) /\
    (forall n,
        h = Some (JS.string_of_nat n) ->
        thrown = inl (Transport.RaisedApi limited (Some 429%Z)
                        (Some (Num (Z.of_nat n * 1000)))) /\
        Transport.as_JsError
          (Transport.RaisedApi limited (Some 429%Z) (Some (Num (Z.of_nat n * 1000))))
        = Some (ApiError limited (Some 429%Z) (Some (Z.of_nat n * 1000)%Z)) /\
        forall minDelay attempt jitter,
          POEditorClient.waitMs minDelay (Some (Z.of_nat n * 1000)%Z) attempt jitter
          = (Z.max minDelay (Z.of_nat n * 1000) + jitter)%Z) /\
    (forall c s,
        h = Some (String c s) ->
        Number.is_space c = false -> Number.digit_value c = None ->
        c <> "-"%char -> c <> "+"%char ->
        thrown = inl (Transport.RaisedApi limited (Some 429%Z) (Some NaN)) /\
        Transport.as_JsError (Transport.RaisedApi limited (Some 429%Z) (Some NaN)) = None).
Proof.
  intros A client endpoint data log token m h Ht Hne Hpost thrown limited.
  assert (Htr : JS.truthy token = true) by now apply truthy_true_iff.
  assert (E : thrown
              = inl (Transport.RaisedApi limited (Some 429%Z)
                       (match h with
                        | Some h0 =>
                            if JS.truthy h0
                            then Some (times (Number.parseInt10 h0) 1000) else None
                        | None => None
                        end))).
  { unfold thrown, Transport.makeRequest. rewrite Ht, Htr. cbn [negb fst].
    fold (Transport.request_of token endpoint data). rewrite Hpost. reflexivity. }
  rewrite E. split; [|split].
  - intros [->| ->]; reflexivity.
  - intros n ->. split; [|split; reflexivity].
    assert (Hs : JS.truthy (JS.string_of_nat n) = true).
    { apply truthy_true_iff. intros H0.
      pose proof (parseInt10_string_of_nat n) as P. rewrite H0 in P. discriminate. }
    now rewrite Hs, parseInt10_string_of_nat.
  - intros c s -> H1 H2 H3 H4. split; [|reflexivity].
    cbn [JS.truthy String.eqb negb].
    now rewrite (parseInt10_not_a_number c s H1 H2 H3 H4).
Qed.

(** A 429 with [Retry-After: 30]. *)
Lemma retry_hint_of_header_witness :
  let client :=
    Transport.mkClient unit (Some "token")
      (fun _ _ => Transport.Rejected
                    (Transport.AxiosError "Request failed with status code 429"
                       (Some 429%Z) (Some "30"))) in
  Transport.apiToken client = Some "token" /\
  "token" <> "" /\
  fst (Transport.makeRequest client "/terms/list" [("id", Transport.Text "p1")] [])
  = inl (Transport.RaisedApi "Rate limit exceeded. Retrying with backoff." (Some 429%Z)
           (Some (Num 30000))).
Proof.
  split; [reflexivity|]. split; [discriminate|].
  exact (proj1 (proj1 (proj2 (retry_hint_of_header unit
           (Transport.mkClient unit (Some "token")
              (fun _ _ => Transport.Rejected
                            (Transport.AxiosError "Request failed with status code 429"
                               (Some 429%Z) (Some "30"))))
           "/terms/list" [("id", Transport.Text "p1")] [] "token"
           "Request failed with status code 429" (Some "30")
           eq_refl ltac:(discriminate) eq_refl)) 30%nat eq_refl)).
Defined.

(* ===================================================================== *)
(** ** Diff engine: what an update record achieves *)
(* ===================================================================== *)

Lemma partial_eta (u : PartialTerm.t) :
  u = PartialTerm.mk (PartialTerm.term u) (PartialTerm.context u)
        (PartialTerm.reference u) (PartialTerm.plural u)
        (PartialTerm.tags u) (PartialTerm.comment u).
Proof. destruct u; reflexivity. Qed.

Lemma still_same (c stored : string) :
  (if JS.truthy c
      && negb (c =? (match (if JS.truthy c && negb (c =? stored)
                            then Some c else None) with
                     | Some v => v
                     | None => stored
                     end))
   then Some c else None) = None.
Proof.
  destruct (JS.truthy c && negb (c =? stored)) eqn:E.
  - now rewrite String.eqb_refl, andb_false_r.
  - now rewrite E.
Qed.

(** X22.  An update record is sufficient: once the fields it holds have
    replaced the stored ones in the remote record, the same local key
    yields the empty update record, so the term is not reported again; and
    a record without field leaves the remote record as it is. *)
Theorem update_record_is_sufficient :
  forall localKey remoteKey,
    let u := SyncManager.calculateTermUpdates localKey remoteKey in
    SyncManager.calculateTermUpdates localKey (overwrite u remoteKey)
    = PartialTerm.empty /\
    PartialTerm.keys_length
      (SyncManager.calculateTermUpdates localKey (overwrite u remoteKey)) = 0%nat /\
    (PartialTerm.keys_length u = 0%nat -> overwrite u remoteKey = remoteKey) /\
    POEditorTermResponse.term (overwrite u remoteKey) = POEditorTermResponse.term remoteKey.
Proof.
  intros localKey remoteKey u.
  destruct (calculateTermUpdates_fields localKey remoteKey)
    as (Ht & Hp & Hc & Hr & Hg & Hm).
  fold u in Ht, Hp, Hc, Hr, Hg, Hm.
  assert (E : SyncManager.calculateTermUpdates localKey (overwrite u remoteKey)
              = PartialTerm.empty).
  { rewrite (partial_eta (SyncManager.calculateTermUpdates _ _)).
    destruct (calculateTermUpdates_fields localKey (overwrite u remoteKey))
      as (Ht' & Hp' & Hc' & Hr' & Hg' & Hm').
    rewrite Ht', Hp', Hc', Hr', Hg', Hm'. unfold overwrite.
    cbn [POEditorTermResponse.context POEditorTermResponse.reference
         POEditorTermResponse.tags POEditorTermResponse.comment].
    rewrite Hc, Hr, Hg, Hm. unfold PartialTerm.empty. f_equal.
    - destruct (SyncManager.extractContext localKey) as [c|]; [|reflexivity].
      apply still_same.
    - apply still_same.
    - destruct (SyncManager.extractTags localKey) as [t|]; [|reflexivity].
      destruct (SyncManager.tags_differ t (POEditorTermResponse.tags remoteKey)) eqn:D.
      + assert (D' : SyncManager.tags_differ t (JS.sort t) = false).
        { apply tags_differ_false_iff. apply Permutation_sym, sort_perm. }
        now rewrite D'.
      + now rewrite D.
    - destruct (SyncManager.generateComment localKey) as [c|]; [|reflexivity].
      apply still_same. }
  split; [exact E|]. split; [now rewrite E|]. split.
  - intros H0. unfold PartialTerm.keys_length in H0.
    destruct remoteKey. unfold overwrite.
    destruct (PartialTerm.term u), (PartialTerm.context u), (PartialTerm.reference u),
      (PartialTerm.plural u), (PartialTerm.tags u), (PartialTerm.comment u);
      cbn in H0; try discriminate. reflexivity.
  - unfold overwrite. cbn [POEditorTermResponse.term]. now rewrite Ht.
Qed.

(* ===================================================================== *)
(** ** The rate-limited executor: how long it waits *)
(* ===================================================================== *)

Lemma waits_of_app e1 e2 : waits_of (e1 ++ e2) = waits_of e1 ++ waits_of e2.
Proof. unfold waits_of. apply flat_map_app. Qed.

Lemma waitMs_range minDelay attempt jitter :
  (0 <= jitter < 5000)%Z ->
  backoff_range minDelay (POEditorClient.waitMs minDelay None attempt jitter).
Proof. intros H. unfold backoff_range, POEditorClient.waitMs. lia. Qed.

Lemma spacing_in_range minDelay : backoff_range minDelay minDelay.
Proof. unfold backoff_range. lia. Qed.

Section Waits.
Variable env : Env.
Hypothesis Hrandom : random_in_unit env.
Context {T : Type}.
Variables (op : M World T) (d : Z).
Hypothesis Hcall : one_call op.
Hypothesis Hhint : no_hint op.

Lemma withRateLimit_loop_waits :
  forall fuel attempt w, exists evs,
    trace (snd (POEditorClient.withRateLimit_loop env fuel op d attempt w))
    = trace w ++ evs /\
    Forall (backoff_range d) (waits_of evs) /\
    (length (waits_of evs) <= fuel)%nat.
Proof.
  induction fuel as [|fuel IH]; intros attempt w.
  - exists []. cbn. rewrite app_nil_r. split; [reflexivity|].
    split; [constructor | lia].
  - destruct (one_call_run op w Hcall) as [c [Hc Hd]].
    destruct (op w) as [[r|err|] w1] eqn:E; simpl in Hc, Hd;
      try (now contradiction Hd).
    + rewrite (loop_success env op d _ _ _ _ _ E). cbn [fst snd after_wait trace].
      exists [EvCall c; EvWait d]. split; [rewrite Hc, <- app_assoc; reflexivity|].
      cbn. split; [|lia]. constructor; [apply spacing_in_range | constructor].
    + destruct (POEditorClient.retryable err attempt) eqn:Hr.
      * rewrite (loop_retry env op d _ _ _ _ _ E Hr).
        rewrite (Hhint w err w1 E).
        set (ms := POEditorClient.waitMs d None attempt (jitter_at env w1)).
        destruct (IH (attempt + 1)%Z (after_wait ms (after_random w1)))
          as (evs & Ht & HF & Hn).
        exists (EvCall c :: EvWait ms :: evs). split.
        -- rewrite Ht. cbn [after_wait after_random trace]. rewrite Hc.
           rewrite <- !app_assoc. reflexivity.
        -- change (waits_of (EvCall c :: EvWait ms :: evs)) with (ms :: waits_of evs).
           split.
           ++ constructor; [|exact HF]. apply waitMs_range.
              apply (jitter_range env w1 Hrandom).
           ++ cbn [length]. lia.
      * rewrite (loop_surface env op d _ _ _ _ _ E Hr). cbn [fst snd].
        exists [EvCall c]. split; [exact Hc|]. cbn. split; [constructor | lia].
Qed.

End Waits.

Lemma sum_in_range d (l : list Z) :
  Forall (backoff_range d) l ->
  (Z.of_nat (length l) * d
   <= fold_right Z.add 0 l
   <= Z.of_nat (length l) * (Z.max d 60000 + 4999))%Z.
Proof.
  induction 1 as [|x l Hx _ IH]; [cbn; lia|].
  cbn [fold_right length]. unfold backoff_range in Hx. lia.
Qed.

(** X23.  How long the executor waits when the service gives no retry
    hint.  With [Math.random] in [[0, 1)] and an operation that makes one
    call per invocation, a run of [withRateLimit] schedules at most six
    waits (five back-offs and the spacing delay after a success); each of
    them lasts at least [minDelay] and at most [max(minDelay, 60000) + 4999]
    milliseconds, so the run waits at most six times that ceiling in
    all. *)
Theorem backoff_is_bounded :
  forall env (T : Type) (op : M World T) (minDelay : Z) (w : World),
    random_in_unit env -> one_call op -> no_hint op ->
    exists evs,
      trace (snd (POEditorClient.withRateLimit env op minDelay w)) = trace w ++ evs /\
      Forall (backoff_range minDelay) (waits_of evs) /\
      (length (waits_of evs) <= 6)%nat /\
      (fold_right Z.add 0 (waits_of evs) <= 6 * (Z.max minDelay 60000 + 4999))%Z.
Proof.
  intros env T op minDelay w Hr Hc Hh.
  destruct (withRateLimit_loop_waits env Hr op minDelay Hc Hh 6 0%Z w)
    as (evs & Ht & HF & Hn).
  exists evs. split; [exact Ht|]. split; [exact HF|]. split; [exact Hn|].
  pose proof (sum_in_range minDelay _ HF) as [_ Hs].
  assert (Z.of_nat (length (waits_of evs)) <= 6)%Z by lia.
  assert (0 <= Z.max minDelay 60000 + 4999)%Z by lia.
  nia.
Qed.

Lemma env_unavailable_unit :
  random_in_unit
    (mkEnv (fun _ _ => inl (ApiError "POEditor API request failed: Request failed with status code 503"
                              (Some 503%Z) None))
           (fun _ => 0%Z) (fun n => JS.string_of_nat n)).
Proof. intros k. simpl. unfold random_den. split; [lia|]. now apply Z.pow_pos_nonneg. Qed.

(** A service that is unavailable (503, no hint), with 20 s between
    requests: back-offs of 20, 40, 60, 60 and 60 seconds. *)
Lemma backoff_is_bounded_witness :
  let env :=
    mkEnv (fun _ _ => inl (ApiError "POEditor API request failed: Request failed with status code 503"
                             (Some 503%Z) None))
          (fun _ => 0%Z) (fun n => JS.string_of_nat n) in
  random_in_unit env /\
  one_call (POEditorClient.deleteTerms env "project_id" ["c"]) /\
  no_hint (POEditorClient.deleteTerms env "project_id" ["c"]) /\
  waits_of (trace (snd (POEditorClient.withRateLimit env
                          (POEditorClient.deleteTerms env "project_id" ["c"])
                          20000 initial_world)))
  = [20000; 40000; 60000; 60000; 60000]%Z /\
  exists evs,
    trace (snd (POEditorClient.withRateLimit env
                  (POEditorClient.deleteTerms env "project_id" ["c"])
                  20000 initial_world)) = trace initial_world ++ evs /\
    Forall (backoff_range 20000) (waits_of evs).
Proof.
  cbv zeta.
  assert (Hh : no_hint (POEditorClient.deleteTerms
                          (mkEnv (fun _ _ => inl (ApiError "POEditor API request failed: Request failed with status code 503"
                                                    (Some 503%Z) None))
                                 (fun _ => 0%Z) (fun n => JS.string_of_nat n))
                          "project_id" ["c"])).
  { intros w e w1 H. unfold POEditorClient.deleteTerms, bind, request in H.
    cbn in H. assert (e = ApiError "POEditor API request failed: Request failed with status code 503"
                            (Some 503%Z) None) by congruence.
    now subst. }
  split; [apply env_unavailable_unit|].
  split; [apply deleteTerms_one_call|]. split; [exact Hh|].
  split; [vm_compute; reflexivity|].
  destruct (backoff_is_bounded _ _ _ 20000 initial_world env_unavailable_unit
              (deleteTerms_one_call _ "project_id" ["c"]) Hh)
    as (evs & Ht & HF & _).
  exists evs. split; assumption.
Defined.

(* ===================================================================== *)
(** ** A live run against a service that rejects the requests *)
(* ===================================================================== *)

Section Rejected.
Variable env : Env.
Variable err : JsError.
Hypothesis Hrej : rejecting env err.
Hypothesis Hfinal : POEditorClient.retryable err 0 = false.

Lemma batchOperation_rejected {T R} (call : list T -> RemoteCall) (wrap : Counts -> R)
    (x : T) (items : list T) batchSize d fuel w :
  POEditorClient.batchOperation env (S fuel) (x :: items)
    (fun batch => bind (request env (call batch)) (fun r => ret (wrap r)))
    batchSize d w
  = (Throw (PlainError (POEditorClient.surfaced_message err)),
     mkWorld (trace w ++ [EvCall (call (JS.slice (x :: items) 0 (0 + batchSize)))])
             (S (requests w)) (randoms w) (uuids w)).
Proof.
  unfold POEditorClient.batchOperation. cbn [POEditorClient.batchOperation_loop].
  assert (Hlt : (0 <? Z.of_nat (length (x :: items)))%Z = true)
    by (apply Z.ltb_lt; cbn [length]; lia).
  rewrite Hlt. unfold bind at 1. unfold POEditorClient.withRateLimit.
  set (batch := JS.slice (x :: items) 0 (0 + batchSize)).
  assert (E : bind (request env (call batch)) (fun r => ret (wrap r)) w
              = (Throw err,
                 mkWorld (trace w ++ [EvCall (call batch)]) (S (requests w))
                         (randoms w) (uuids w))).
  { unfold bind, request. now rewrite Hrej. }
  now rewrite (loop_surface env _ d _ _ _ _ _ E Hfinal).
Qed.

End Rejected.

(** X24.  A live run against a service that rejects every request with
    an error the executor does not retry (an invalid token, for one).  If
    the plan has work to do, the run makes exactly one request, the first
    chunk of the first non-empty list, waits for nothing, and returns a
    result whose counters are all zero and whose only error entry holds
    the surfaced message of the rejection; if the plan is empty the run
    makes no request at all and reports no error, whatever the batch
    size. *)
Theorem live_run_stops_at_first_rejection :
  forall env err fuel options w,
    rejecting env err ->
    POEditorClient.retryable err 0 = false ->
    SyncManager.dryRun options = false ->
    (forall call,
        first_call options = Some call ->
        SyncManager.executeSync env (S fuel) options w
        = (Ok (SyncManager.mkResult 0 0 0 []
                 [SyncManager.mkSyncError "sync" None (POEditorClient.surfaced_message err)]
                 0 (uuid env (uuids w))),
           mkWorld (trace w ++ [EvCall call]) (S (requests w)) (randoms w)
                   (S (uuids w)))) /\
    (first_call options = None ->
     SyncManager.executeSync env fuel options w
     = (Ok (SyncManager.mkResult 0 0 0 (mt_outcome options) [] 0 (uuid env (uuids w))),
        after_uuid w)).
Proof.
  intros env err fuel options w Hrej Hfinal Hdry. split.
  - intros call Hcall.
    rewrite (executeSync_live env (S fuel) options w Hdry). cbv zeta.
    rewrite add_phase_run. unfold first_call in Hcall.
    destruct (SyncPlan.addTerms (SyncManager.plan options)) as [|a adds] eqn:Ea.
    + cbn [length Nat.ltb Nat.leb]. rewrite update_phase_run.
      destruct (SyncPlan.updateTerms (SyncManager.plan options)) as [|u upds] eqn:Eu.
      * cbn [length Nat.ltb Nat.leb]. rewrite delete_phase_run.
        destruct (SyncPlan.deleteTerms (SyncManager.plan options)) as [|x dels] eqn:Ed;
          [discriminate|].
        change (0 <? length (x :: dels))%nat with true. cbv iota.
        change (fun batch => POEditorClient.deleteTerms env "project_id" batch)
          with (fun batch => bind (request env (CallDeleteTerms "project_id" batch))
                               (fun r => ret (POEditorClient.mkDeleted (parsed r)
                                                (affected r)))).
        rewrite (batchOperation_rejected env err Hrej Hfinal).
        assert (call = CallDeleteTerms "project_id"
                         (JS.slice (x :: dels) 0 (0 + SyncManager.batchSize options)))
          by congruence. subst call. reflexivity.
      * change (0 <? length (u :: upds))%nat with true. cbv iota.
        change (fun batch => POEditorClient.updateTerms env "project_id" batch)
          with (fun batch => bind (request env (CallUpdateTerms "project_id" batch))
                               (fun r => ret (POEditorClient.mkUpdated (parsed r)
                                                (affected r)))).
        rewrite (batchOperation_rejected env err Hrej Hfinal).
        assert (call = CallUpdateTerms "project_id"
                         (JS.slice (u :: upds) 0 (0 + SyncManager.batchSize options)))
          by congruence. subst call. reflexivity.
    + change (0 <? length (a :: adds))%nat with true. cbv iota.
      change (fun batch => POEditorClient.addTerms env "project_id" batch)
        with (fun batch => bind (request env (CallAddTerms "project_id" batch))
                             (fun r => ret (POEditorClient.mkAdd (parsed r)
                                              (affected r)))).
      rewrite (batchOperation_rejected env err Hrej Hfinal).
      assert (call = CallAddTerms "project_id"
                       (JS.slice (a :: adds) 0 (0 + SyncManager.batchSize options)))
        by congruence. subst call. reflexivity.
  - intros Hnone.
    rewrite (executeSync_live env fuel options w Hdry). cbv zeta.
    rewrite add_phase_run. unfold first_call in Hnone.
    destruct (SyncPlan.addTerms (SyncManager.plan options)) as [|a adds] eqn:Ea;
      [|discriminate].
    cbn [length Nat.ltb Nat.leb]. rewrite update_phase_run.
    destruct (SyncPlan.updateTerms (SyncManager.plan options)) as [|u upds] eqn:Eu;
      [|discriminate].
    cbn [length Nat.ltb Nat.leb]. rewrite delete_phase_run.
    destruct (SyncPlan.deleteTerms (SyncManager.plan options)) as [|x dels] eqn:Ed;
      [|discriminate].
    cbn [length Nat.ltb Nat.leb]. rewrite mt_phase_outcome. cbn [fst snd].
    unfold mt_outcome, empty_result, SyncManager.set_mtTriggered.
    destruct (SyncManager.mt_truthy _ && _); reflexivity.
Qed.

Lemma env_unauthorized_rejects :
  rejecting Samples.env_unauthorized
    (ApiError "Invalid API token. Check POEditor API token." (Some 401%Z) None).
Proof. intros n c. reflexivity. Qed.

(** [plan_three] with an invalid token. *)
Lemma live_run_stops_at_first_rejection_witness :
  rejecting Samples.env_unauthorized
    (ApiError "Invalid API token. Check POEditor API token." (Some 401%Z) None) /\
  SyncManager.executeSync Samples.env_unauthorized 1 Samples.live_three initial_world
  = (Ok (SyncManager.mkResult 0 0 0 []
           [SyncManager.mkSyncError "sync" None
              "POEditor API error (status 401): Invalid API token. Check POEditor API token."]
           0 "0"),
     mkWorld [EvCall (CallAddTerms "project_id" [Samples.term_named "a"])] 1 0 1).
Proof.
  split; [apply env_unauthorized_rejects|].
  exact (proj1 (live_run_stops_at_first_rejection Samples.env_unauthorized _ 0
                  Samples.live_three initial_world env_unauthorized_rejects
                  eq_refl eq_refl)
               (CallAddTerms "project_id" [Samples.term_named "a"]) eq_refl).
Defined.

(* ===================================================================== *)
(** ** From the plan to the machine translation step *)
(* ===================================================================== *)

Lemma stats_missing_sum localKeys remoteTerms rt options :
  let plan := SyncManager.calculateSyncPlan localKeys remoteTerms rt options in
  SyncPlan.missing (SyncPlan.stats plan)
  = Z.of_nat (list_sum (map (fun bucket => length (snd bucket))
                            (SyncPlan.missingTranslations plan))).
Proof.
  intros plan. unfold plan, SyncManager.calculateSyncPlan. simpl.
  rewrite sum_lengths_fold. unfold JS.values. now rewrite map_map.
Qed.

Lemma flat_map_repeat_nonempty {A} (p : A -> bool) (n : nat) (l : list A) :
  (1 <= n)%nat ->
  (0 <? length (flat_map (fun k => if p k then repeat k n else []) l))%nat
  = existsb p l.
Proof.
  intros Hn. induction l as [|x l IH]; [reflexivity|].
  cbn [flat_map existsb]. rewrite length_app.
  destruct (p x).
  - rewrite repeat_length. cbn [orb]. apply Nat.ltb_lt. lia.
  - cbn [length Nat.add orb]. exact IH.
Qed.

Lemma bucket_nonempty localKeys remoteTerms rt options lang :
  In lang (SyncManager.includeLangs options) ->
  match JS.get lang
          (SyncPlan.missingTranslations
             (SyncManager.calculateSyncPlan localKeys remoteTerms rt options)) with
  | Some arr => (0 <? length arr)%nat
  | None => false
  end = needs_translation localKeys remoteTerms rt lang.
Proof.
  intros Hin. rewrite missing_bucket.
  apply includes_true_iff in Hin. rewrite Hin. apply includes_true_iff in Hin.
  unfold needs_translation.
  now apply flat_map_repeat_nonempty, listed_positive.
Qed.

Lemma list_sum_member (l : list nat) x : In x l -> (x <= list_sum l)%nat.
Proof.
  induction l as [|y l IH]; intros Hx; [contradiction|].
  change (list_sum (y :: l)) with (y + list_sum l)%nat.
  destruct Hx as [<-|Hx]; [lia|]. specialize (IH Hx). lia.
Qed.

(** X25.  From the plan to [mtTriggered].  For a plan computed by the
    diff engine and the directive [machineTranslate: true], when every
    included language is other than [__proto__], does not start with a
    digit, and has a dictionary of remote translations or is not named
    like a member of [Object.prototype]: the languages the machine
    translation step flags are the distinct included languages, in order
    of first listing, for which some local key is new or lacks a non-empty
    remote translation; and [stats.missing] is positive exactly when there
    is such a language. *)
Theorem machine_translation_languages :
  forall localKeys remoteTerms rt options batchSize rateLimit dry,
    let plan := SyncManager.calculateSyncPlan localKeys remoteTerms rt options in
    let o := SyncManager.mkExec plan batchSize SyncManager.up (SyncManager.MTBool true)
               dry rateLimit in
    forallb (fun lang => plain_language lang && reads_own rt lang)
            (SyncManager.includeLangs options) = true ->
    mt_outcome o
    = filter (needs_translation localKeys remoteTerms rt)
             (JS.Set_of (SyncManager.includeLangs options)) /\
    ((0 < SyncPlan.missing (SyncPlan.stats plan))%Z <->
     exists lang,
       In lang (SyncManager.includeLangs options) /\
       needs_translation localKeys remoteTerms rt lang = true).
Proof.
  intros localKeys remoteTerms rt options batchSize rateLimit dry plan o _.
  pose proof (stats_missing_sum localKeys remoteTerms rt options) as Hsum.
  destruct (plan_bucket_keys localKeys remoteTerms rt options) as [Hkeys _].
  cbv zeta in Hsum, Hkeys. fold plan in Hsum, Hkeys.
  assert (HN : NoDup (JS.keys (SyncPlan.missingTranslations plan)))
    by (rewrite Hkeys; apply Set_of_NoDup).
  assert (Hiff : (0 < SyncPlan.missing (SyncPlan.stats plan))%Z <->
                 exists lang,
                   In lang (SyncManager.includeLangs options) /\
                   needs_translation localKeys remoteTerms rt lang = true).
  { rewrite Hsum. split.
    - intros Hpos.
      destruct (existsb (needs_translation localKeys remoteTerms rt)
                  (SyncManager.includeLangs options)) eqn:Ex.
      + apply existsb_exists in Ex. destruct Ex as (lang & H1 & H2). now exists lang.
      + exfalso.
        assert (Hz : list_sum (map (fun bucket => length (snd bucket))
                                   (SyncPlan.missingTranslations plan)) = 0%nat).
        { assert (Hall : forall x, In x (map (fun bucket => length (snd bucket))
                                           (SyncPlan.missingTranslations plan)) ->
                                   x = 0%nat).
          { intros x Hx. apply in_map_iff in Hx. destruct Hx as ([lang arr] & <- & Hb).
            cbn [snd].
            assert (Hl : In lang (SyncManager.includeLangs options)).
            { apply Set_of_In. rewrite <- Hkeys. unfold JS.keys.
              change lang with (fst (lang, arr)). now apply in_map. }
            pose proof (bucket_nonempty localKeys remoteTerms rt options lang Hl) as Hb'.
            fold plan in Hb'.
            rewrite (proj1 (In_dict_get _ lang arr HN) Hb) in Hb'.
            assert (Hf : needs_translation localKeys remoteTerms rt lang = false).
            { destruct (needs_translation localKeys remoteTerms rt lang) eqn:En;
                [|reflexivity].
              assert (existsb (needs_translation localKeys remoteTerms rt)
                        (SyncManager.includeLangs options) = true)
                by (apply existsb_exists; now exists lang).
              congruence. }
            rewrite Hf in Hb'. apply Nat.ltb_ge in Hb'. lia. }
          clear -Hall. induction (map _ _) as [|y l IH]; [reflexivity|].
          change (list_sum (y :: l)) with (y + list_sum l)%nat.
          rewrite (Hall y) by now left.
          apply IH. intros x Hx. apply Hall. now right. }
        lia.
    - intros (lang & Hl & Hn).
      pose proof (bucket_nonempty localKeys remoteTerms rt options lang Hl) as Hb.
      fold plan in Hb. rewrite Hn in Hb.
      destruct (JS.get lang (SyncPlan.missingTranslations plan)) as [arr|] eqn:Eg;
        [|discriminate].
      apply Nat.ltb_lt in Hb.
      apply (In_dict_get _ lang arr HN) in Eg.
      assert (Hm : In (length arr) (map (fun bucket => length (snd bucket))
                                       (SyncPlan.missingTranslations plan))).
      { apply in_map_iff. now exists (lang, arr). }
      apply list_sum_member in Hm. lia. }
  split; [|exact Hiff].
  assert (Hlangs : SyncManager.langsToTranslate plan (SyncManager.MTBool true)
                   = filter (needs_translation localKeys remoteTerms rt)
                            (JS.Set_of (SyncManager.includeLangs options))).
  { unfold SyncManager.langsToTranslate. cbn [SyncManager.mt_langs_or].
    rewrite Hkeys. apply filter_ext_in. intros lang Hl.
    rewrite Set_of_In in Hl.
    apply (bucket_nonempty localKeys remoteTerms rt options lang Hl). }
  unfold mt_outcome, o.
  cbn [SyncManager.machineTranslate SyncManager.plan SyncManager.mt_truthy andb].
  rewrite Hlangs.
  destruct (0 <? SyncPlan.missing (SyncPlan.stats plan))%Z eqn:Ez; [reflexivity|].
  symmetry. apply no_members_nil. intros lang Hl. apply filter_In in Hl.
  destruct Hl as [Hl Hn]. rewrite Set_of_In in Hl.
  apply Z.ltb_ge in Ez.
  assert ((0 < SyncPlan.missing (SyncPlan.stats plan))%Z)
    by (apply Hiff; now exists lang).
  lia.
Qed.

(** The key [b] against the terms [b] and [c], with a German translation
    of [b] and an empty French dictionary: French is flagged. *)
Lemma machine_translation_languages_witness :
  forallb (fun lang =>
             plain_language lang
             && reads_own [("de", [("b", "Startseite")]); ("fr", [])] lang)
          (SyncManager.includeLangs (SyncManager.mkOptions false ["de"; "fr"])) = true /\
  mt_outcome
    (SyncManager.mkExec
       (SyncManager.calculateSyncPlan [Samples.key_b] [Samples.term_b; Samples.term_c]
          [("de", [("b", "Startseite")]); ("fr", [])]
          (SyncManager.mkOptions false ["de"; "fr"]))
       100 SyncManager.up (SyncManager.MTBool true) false 20) = ["fr"].
Proof.
  split; [reflexivity|].
  exact (eq_trans
           (proj1 (machine_translation_languages [Samples.key_b]
                     [Samples.term_b; Samples.term_c]
                     [("de", [("b", "Startseite")]); ("fr", [])]
                     (SyncManager.mkOptions false ["de"; "fr"])
                     100%Z 20%Z false eq_refl))
           eq_refl).
Defined.

(* ===================================================================== *)
(** ** The number of requests of a run *)
(* ===================================================================== *)

Section Budget.
Variable env : Env.
Context {T R : Type}.
Variables (op : list T -> M World R) (d : Z).
Hypothesis Hcall : forall batch, one_call (op batch).

Lemma for_each_budget (cs : list (list T)) :
  forall w, exists evs,
    trace (snd (for_each (fun c => POEditorClient.withRateLimit env (op c) d) cs w))
    = trace w ++ evs /\
    (count_calls evs <= 6 * length cs)%nat /\
    (forall rs,
        fst (for_each (fun c => POEditorClient.withRateLimit env (op c) d) cs w) = Ok rs ->
        (length cs <= count_calls evs)%nat).
Proof.
  induction cs as [|c cs IH]; intros w.
  - exists []. cbn. rewrite app_nil_r. repeat split; lia.
  - cbn [for_each]. unfold bind.
    destruct (withRateLimit_loop_calls env (op c) d 5 (Hcall c) 0%Z w)
      as (ev1 & T1 & B1); [unfold POEditorClient.maxRetries; lia|].
    fold (POEditorClient.withRateLimit env (op c) d) in T1.
    destruct (POEditorClient.withRateLimit env (op c) d w) as [[r|e|] w1];
      cbn [fst snd] in *.
    + destruct (IH w1) as (ev2 & T2 & B2 & L2).
      destruct (for_each (fun c0 => POEditorClient.withRateLimit env (op c0) d) cs w1)
        as [[rs|e|] w2]; cbn [fst snd ret] in *;
        exists (ev1 ++ ev2); rewrite T2, T1, <- app_assoc, count_calls_app;
        (split; [reflexivity|]); cbn [length]; (split; [lia|]);
        intros rs' H; try discriminate.
      specialize (L2 rs eq_refl). lia.
    + exists ev1. split; [exact T1|]. cbn [length]. split; [lia | discriminate].
    + exists ev1. split; [exact T1|]. cbn [length]. split; [lia | discriminate].
Qed.

Lemma batchOperation_budget (items : list T) batchSize fuel w :
  (1 <= batchSize)%Z -> (length items < fuel)%nat ->
  exists evs,
    trace (snd (POEditorClient.batchOperation env fuel items op batchSize d w))
    = trace w ++ evs /\
    (count_calls evs <= 6 * ceil_div (length items) (Z.to_nat batchSize))%nat /\
    (forall rs,
        fst (POEditorClient.batchOperation env fuel items op batchSize d w) = Ok rs ->
        (ceil_div (length items) (Z.to_nat batchSize) <= count_calls evs)%nat).
Proof.
  intros HB Hf.
  rewrite (batchOperation_for_each env items op batchSize d HB fuel w Hf).
  assert (Hb : (1 <= Z.to_nat batchSize)%nat) by lia.
  rewrite <- (chunks_length _ Hb items).
  apply for_each_budget.
Qed.

End Budget.

Section PhaseBudget.
Variable env : Env.
Variables (fuel : nat) (options : SyncManager.SyncExecutionOptions).
Hypothesis HB : (1 <= SyncManager.batchSize options)%Z.

Let b := Z.to_nat (SyncManager.batchSize options).
Let p := SyncManager.plan options.

Ltac phase_budget run_lemma one_call_lemma Hf :=
  unfold p in *; intros [r w]; rewrite run_lemma;
  match goal with
  | |- context [(0 <? length ?items)%nat] =>
      destruct (0 <? length items)%nat eqn:L;
      [ match goal with
        | |- context [POEditorClient.batchOperation env fuel items ?op ?bs ?dl w] =>
            destruct (batchOperation_budget env op dl
                        (fun batch => one_call_lemma env "project_id" batch)
                        items bs fuel w HB Hf) as (evs & Ht & Hc & Hl);
            destruct (POEditorClient.batchOperation env fuel items op bs dl w)
              as [[results|e|] w1]; cbn [fst snd] in *;
            exists evs; (split; [exact Ht|]); (split; [exact Hc|]);
            intros H; try discriminate; now apply (Hl results)
        end
      | apply nil_of_length in L; rewrite L; exists [];
        cbn [fst snd length]; rewrite app_nil_r, ceil_div_zero;
        repeat split; cbn; lia ]
  end.

Lemma add_phase_budget :
  (length (SyncPlan.addTerms p) < fuel)%nat ->
  within_budget b (length (SyncPlan.addTerms p)) (SyncManager.add_phase env fuel options).
Proof. intros Hf. phase_budget add_phase_run addTerms_one_call Hf. Qed.

Lemma update_phase_budget :
  (length (SyncPlan.updateTerms p) < fuel)%nat ->
  within_budget b (length (SyncPlan.updateTerms p))
    (SyncManager.update_phase env fuel options).
Proof. intros Hf. phase_budget update_phase_run updateTerms_one_call Hf. Qed.

Lemma delete_phase_budget :
  (length (SyncPlan.deleteTerms p) < fuel)%nat ->
  within_budget b (length (SyncPlan.deleteTerms p))
    (SyncManager.delete_phase env fuel options).
Proof. intros Hf. phase_budget delete_phase_run deleteTerms_one_call Hf. Qed.

End PhaseBudget.

(** X26.  The number of requests of a run.  With a batch size of at
    least 1, a run of the coordinator sends at most six requests per chunk
    of the plan (one invocation and five retries), over the chunks of the
    three lists; a live run that reports no error sent at least one
    request per chunk; a dry run sends none. *)
Theorem live_run_request_budget :
  forall env fuel options w,
    (1 <= SyncManager.batchSize options)%Z ->
    (length (SyncPlan.addTerms (SyncManager.plan options)) < fuel)%nat ->
    (length (SyncPlan.updateTerms (SyncManager.plan options)) < fuel)%nat ->
    (length (SyncPlan.deleteTerms (SyncManager.plan options)) < fuel)%nat ->
    let b := Z.to_nat (SyncManager.batchSize options) in
    let p := SyncManager.plan options in
    let n := (ceil_div (length (SyncPlan.addTerms p)) b
              + ceil_div (length (SyncPlan.updateTerms p)) b
              + ceil_div (length (SyncPlan.deleteTerms p)) b)%nat in
    let run := SyncManager.executeSync env fuel options w in
    exists evs,
      trace (snd run) = trace w ++ evs /\
      (count_calls evs <= 6 * n)%nat /\
      (forall r,
          fst run = Ok r -> SyncManager.dryRun options = false ->
          SyncManager.errors r = [] -> (n <= count_calls evs)%nat) /\
      (SyncManager.dryRun options = true -> evs = []).
Proof.
  intros env fuel options w HB Ha Hu Hd b p n run.
  destruct (SyncManager.dryRun options) eqn:Hdry.
  { unfold run. rewrite (executeSync_dry env fuel options w Hdry).
    exists []. cbn [fst snd after_uuid trace]. rewrite app_nil_r.
    split; [reflexivity|]. split; [cbn; lia|]. split; [discriminate | reflexivity]. }
  unfold run. rewrite (executeSync_live env fuel options w Hdry). cbv zeta.
  set (s0 := (empty_result (uuid env (uuids w)), after_uuid w)).
  assert (T0 : trace (snd s0) = trace w) by reflexivity.
  destruct (add_phase_budget env fuel options HB Ha s0) as (ev1 & T1 & C1 & L1).
  fold b p in C1, L1.
  destruct (SyncManager.add_phase env fuel options s0) as [[[]|e1|] s1];
    cbn [fst snd] in *; rewrite T0 in T1.
  2:{ exists ev1. split; [exact T1|]. split; [unfold n; lia|].
      split; [|discriminate]. intros r Hx _ He. exfalso.
      assert (r = caught e1 (fst s1)) by congruence. subst r.
      now apply (caught_errors e1 (fst s1)). }
  2:{ exists ev1. split; [exact T1|]. split; [unfold n; lia|].
      split; [|discriminate]. intros r Hx. discriminate. }
  specialize (L1 eq_refl).
  destruct (update_phase_budget env fuel options HB Hu s1) as (ev2 & T2 & C2 & L2).
  fold b p in C2, L2.
  destruct (SyncManager.update_phase env fuel options s1) as [[[]|e2|] s2];
    cbn [fst snd] in *; rewrite T1, <- app_assoc in T2.
  2:{ exists (ev1 ++ ev2). split; [exact T2|]. rewrite count_calls_app.
      split; [unfold n; lia|].
      split; [|discriminate]. intros r Hx _ He. exfalso.
      assert (r = caught e2 (fst s2)) by congruence. subst r.
      now apply (caught_errors e2 (fst s2)). }
  2:{ exists (ev1 ++ ev2). split; [exact T2|]. rewrite count_calls_app.
      split; [unfold n; lia|].
      split; [|discriminate]. intros r Hx. discriminate. }
  specialize (L2 eq_refl).
  destruct (delete_phase_budget env fuel options HB Hd s2) as (ev3 & T3 & C3 & L3).
  fold b p in C3, L3.
  destruct (SyncManager.delete_phase env fuel options s2) as [[[]|e3|] s3];
    cbn [fst snd] in *; rewrite T2, <- app_assoc in T3.
  2:{ exists ((ev1 ++ ev2) ++ ev3). split; [exact T3|]. rewrite !count_calls_app.
      split; [unfold n; lia|].
      split; [|discriminate]. intros r Hx _ He. exfalso.
      assert (r = caught e3 (fst s3)) by congruence. subst r.
      now apply (caught_errors e3 (fst s3)). }
  2:{ exists ((ev1 ++ ev2) ++ ev3). split; [exact T3|]. rewrite !count_calls_app.
      split; [unfold n; lia|].
      split; [|discriminate]. intros r Hx. discriminate. }
  specialize (L3 eq_refl).
  destruct (mt_phase_run options s3) as (r' & E4 & _).
  rewrite E4. cbn [fst snd].
  exists ((ev1 ++ ev2) ++ ev3). split; [exact T3|]. rewrite !count_calls_app.
  split; [unfold n; lia|]. split; [|discriminate]. intros; unfold n; lia.
Qed.

(** [plan_three] against a service that throttles the first two requests:
    five requests for three chunks. *)
Lemma live_run_request_budget_witness :
  (1 <= SyncManager.batchSize Samples.live_three)%Z /\
  count_calls (trace (snd (SyncManager.executeSync (Samples.env_throttling_first 2) 5
                             Samples.live_three initial_world))) = 5%nat /\
  exists evs,
    trace (snd (SyncManager.executeSync (Samples.env_throttling_first 2) 5
                  Samples.live_three initial_world))
    = trace initial_world ++ evs /\
    (count_calls evs <= 6 * 3)%nat.
Proof.
  split; [cbn; lia|]. split; [vm_compute; reflexivity|].
  destruct (live_run_request_budget (Samples.env_throttling_first 2) 5
              Samples.live_three initial_world
              ltac:(cbn; lia) ltac:(cbn; lia) ltac:(cbn; lia) ltac:(cbn; lia))
    as (evs & Ht & Hc & _).
  exists evs. split; [exact Ht|]. exact Hc.
Defined.
